(** * git-leaderboard: the history store, the ingestion protocol and the
    leaderboard queries of [db.py], with the HTTP handlers of [app.py].

    The SQLite database is embedded as a record of finite maps, one per table,
    keyed by the table's primary key.  Every SQL statement of [db.py] becomes a
    function on that record; a statement that SQLite would abort with a
    constraint error returns [IntegrityError].  A [with self.conn:] block is a
    transaction: it commits the result of its body or rolls back to the state
    it started from and re-raises.

    Modelling notes.
    - Integer columns are [Z].  SQLite stores signed 64-bit integers; the
      counters handled here stay far inside that range, and arithmetic on them
      is the arithmetic of [Z].
    - Text is a [string] of bytes (UTF-8).  SQLite's default collation compares
      bytes, which is [String.compare].
    - Instants are kept as Unix seconds; [iso_to_unix] and [unix_to_iso] only
      change their rendering, so a snapshot carries the instant already parsed.
    - A snapshot field holds a value of the type the GraphQL schema gives it,
      or is absent, or is JSON null. *)

From Stdlib Require Import ZArith String Ascii List Permutation Sorted.
From stdpp Require Import gmap strings list fin_maps sorting pretty.

#[local] Open Scope Z_scope.

(* ===================================================================== *)
(** ** Text: comparison, [str.strip], [LIKE], [GROUP_CONCAT] and [split] *)
(* ===================================================================== *)

Module Text.

(** Python's [str.isspace] on the ASCII range. *)
Definition is_space (c : ascii) : bool :=
  let n := N_of_ascii c in
  ((9 <=? n) && (n <=? 13) || (28 <=? n) && (n <=? 32))%N.

Fixpoint lstrip (s : string) : string :=
  match s with
  | EmptyString => EmptyString
  | String c s' => if is_space c then lstrip s' else s
  end.

(** [s.strip()] *)
Definition strip (s : string) : string :=
  String.rev (lstrip (String.rev (lstrip s))).

(** SQLite folds only the 26 ASCII letters when [LIKE] compares. *)
Definition fold_case (c : ascii) : ascii :=
  let n := N_of_ascii c in
  if ((65 <=? n) && (n <=? 90))%N then ascii_of_N (n + 32) else c.

(** [text LIKE pat] without an escape character: [%] matches any run of
    bytes, [_] matches one byte, any other byte matches itself up to ASCII
    case. *)
Fixpoint like_list (pat : list ascii) : list ascii → bool :=
  match pat with
  | [] => λ t, match t with [] => true | _ :: _ => false end
  | c :: pat' =>
      if Ascii.eqb c "%" then
        fix star (t : list ascii) : bool :=
          like_list pat' t
          || match t with [] => false | _ :: t' => star t' end
      else if Ascii.eqb c "_" then
        λ t, match t with [] => false | _ :: t' => like_list pat' t' end
      else
        λ t, match t with
             | [] => false
             | d :: t' => Ascii.eqb (fold_case c) (fold_case d) && like_list pat' t'
             end
  end.

Definition like (text pat : string) : bool :=
  like_list (list_ascii_of_string pat) (list_ascii_of_string text).

(** [GROUP_CONCAT(x, sep)] over the non-NULL values of a group; NULL when
    there is none. *)
Definition group_concat (sep : ascii) (xs : list string) : option string :=
  match xs with
  | [] => None
  | x :: xs' => Some (fold_left (λ acc y, acc +:+ String sep y) xs' x)
  end.

(** [s.split(sep)] for a one-byte separator. *)
Fixpoint split_go (sep : ascii) (cur : string) (s : string) : list string :=
  match s with
  | EmptyString => [String.rev cur]
  | String c s' =>
      if Ascii.eqb c sep then String.rev cur :: split_go sep EmptyString s'
      else split_go sep (String c cur) s'
  end.

Definition split (sep : ascii) (s : string) : list string :=
  split_go sep EmptyString s.

(** The decimal text SQLite gives an integer under [||]. *)
Definition of_int (z : Z) : string := pretty z.

End Text.

(* ===================================================================== *)
(** ** The schema *)
(* ===================================================================== *)

(** [repo], keyed by [id]. *)
Record RepoRow := {
  r_name_with_owner : string;
  r_description : option string;
  r_homepage_url : option string;
  r_created_at : option Z;
}.

(** [repo_latest], keyed by [repo_id]. *)
Record LatestRow := {
  rl_run_id : Z;
  rl_history_start_run_id : Z;
  rl_stars : Z;
  rl_forks : Z;
  rl_watchers : Z;
  rl_disk_usage : option Z;
  rl_updated_at : option Z;
  rl_pushed_at : option Z;
  rl_is_archived : Z;
  rl_primary_language_id : option Z;
}.

(** [repo_metrics_hist], keyed by [(repo_id, start_run_id)]. *)
Record HistRow := {
  h_end_run_id : Z;
  h_stars : Z;
  h_forks : Z;
  h_watchers : Z;
  h_disk_usage : option Z;
}.

#[global] Instance RepoRow_eq_dec : EqDecision RepoRow.
Proof. solve_decision. Defined.
#[global] Instance LatestRow_eq_dec : EqDecision LatestRow.
Proof. solve_decision. Defined.
#[global] Instance HistRow_eq_dec : EqDecision HistRow.
Proof. solve_decision. Defined.

(** The database file: one finite map per table.  [language], [topic] and
    [fetch_run] map the row id to the single other column; [repo_topic_latest]
    is the set of its [(repo_id, topic_id)] keys. *)
Record DB := {
  repo : gmap Z RepoRow;
  language : gmap Z string;
  topic : gmap Z string;
  fetch_run : gmap Z Z;
  repo_latest : gmap Z LatestRow;
  repo_metrics_hist : gmap (Z * Z) HistRow;
  repo_topic_latest : gset (Z * Z);
}.

Definition empty_db : DB :=
  {| repo := ∅; language := ∅; topic := ∅; fetch_run := ∅;
     repo_latest := ∅; repo_metrics_hist := ∅; repo_topic_latest := ∅ |}.

Definition set_repo (t : gmap Z RepoRow) (d : DB) : DB :=
  {| repo := t; language := language d; topic := topic d;
     fetch_run := fetch_run d; repo_latest := repo_latest d;
     repo_metrics_hist := repo_metrics_hist d;
     repo_topic_latest := repo_topic_latest d |}.

Definition set_language (t : gmap Z string) (d : DB) : DB :=
  {| repo := repo d; language := t; topic := topic d;
     fetch_run := fetch_run d; repo_latest := repo_latest d;
     repo_metrics_hist := repo_metrics_hist d;
     repo_topic_latest := repo_topic_latest d |}.

Definition set_topic (t : gmap Z string) (d : DB) : DB :=
  {| repo := repo d; language := language d; topic := t;
     fetch_run := fetch_run d; repo_latest := repo_latest d;
     repo_metrics_hist := repo_metrics_hist d;
     repo_topic_latest := repo_topic_latest d |}.

Definition set_fetch_run (t : gmap Z Z) (d : DB) : DB :=
  {| repo := repo d; language := language d; topic := topic d;
     fetch_run := t; repo_latest := repo_latest d;
     repo_metrics_hist := repo_metrics_hist d;
     repo_topic_latest := repo_topic_latest d |}.

Definition set_repo_latest (t : gmap Z LatestRow) (d : DB) : DB :=
  {| repo := repo d; language := language d; topic := topic d;
     fetch_run := fetch_run d; repo_latest := t;
     repo_metrics_hist := repo_metrics_hist d;
     repo_topic_latest := repo_topic_latest d |}.

Definition set_repo_metrics_hist (t : gmap (Z * Z) HistRow) (d : DB) : DB :=
  {| repo := repo d; language := language d; topic := topic d;
     fetch_run := fetch_run d; repo_latest := repo_latest d;
     repo_metrics_hist := t;
     repo_topic_latest := repo_topic_latest d |}.

Definition set_repo_topic_latest (t : gset (Z * Z)) (d : DB) : DB :=
  {| repo := repo d; language := language d; topic := topic d;
     fetch_run := fetch_run d; repo_latest := repo_latest d;
     repo_metrics_hist := repo_metrics_hist d;
     repo_topic_latest := t |}.

(** What the engine can raise. *)
Inductive exn :=
  KeyError | TypeError | IntegrityError | ValueError | OverflowError.

#[global] Instance exn_eq_dec : EqDecision exn.
Proof. solve_decision. Defined.

(** [with self.conn: body]: commit on success, roll back and re-raise on an
    exception. *)
Definition transaction (body : DB → DB + exn) (d : DB) : DB * option exn :=
  match body d with
  | inl d' => (d', None)
  | inr e => (d, Some e)
  end.

(** [executemany(stmt, params)]: the statement once per parameter tuple, in
    order, stopping at the first error. *)
Fixpoint executemany {P : Type} (stmt : P → DB → DB + exn)
    (params : list P) (d : DB) : DB + exn :=
  match params with
  | [] => inl d
  | p :: ps =>
      match stmt p d with
      | inl d' => executemany stmt ps d'
      | inr e => inr e
      end
  end.

(** The row id SQLite gives an [INTEGER PRIMARY KEY] insert without an id:
    one more than the largest in use, 1 in an empty table. *)
Definition next_rowid {A : Type} (t : gmap Z A) : Z :=
  match (map_to_list t).*1 with
  | [] => 1
  | k :: ks => 1 + foldr Z.max k ks
  end.

(** The id of a row with a given name, in a table with a [UNIQUE] name. *)
Definition id_by_name (t : gmap Z string) (name : string) : option Z :=
  fst <$> head (filter (λ kv, kv.2 = name) (map_to_list t)).

(** [UNIQUE(name_with_owner)] on [repo]. *)
Definition names_unique (t : gmap Z RepoRow) : Prop :=
  NoDup ((λ kv, r_name_with_owner kv.2) <$> map_to_list t).

(** A statement that writes [repo] aborts when the table it would leave
    breaks the [UNIQUE] constraint (the table satisfies it on entry). *)
Definition write_repo (t : gmap Z RepoRow) (d : DB) : DB + exn :=
  if bool_decide (names_unique t) then inl (set_repo t d) else inr IntegrityError.

(* ===================================================================== *)
(** ** Snapshots (the nodes of the GraphQL search result) *)
(* ===================================================================== *)

(** A key of a JSON object: missing, [null], or a value. *)
Inductive field (A : Type) : Type :=
  | Absent
  | Null
  | Present (a : A).
Arguments Absent {A}.
Arguments Null {A}.
Arguments Present {A} a.

(** [n.get(key)] *)
Definition get {A : Type} (f : field A) : option A :=
  match f with
  | Present a => Some a
  | Absent | Null => None
  end.

Record Node := {
  databaseId : field Z;
  nameWithOwner : field string;
  stargazerCount : field Z;
  forkCount : field Z;
  description : field string;
  (** [watchers { totalCount }] *)
  watchers : field (field Z);
  homepageUrl : field string;
  createdAt : field Z;
  updatedAt : field Z;
  pushedAt : field Z;
  isArchived : field bool;
  diskUsage : field Z;
  (** [primaryLanguage { name }] *)
  primaryLanguage : field (field string);
  (** [repositoryTopics { nodes { topic { name } } }]: the [nodes] list, each
      entry resolved to its topic name, [None] when the entry has no string
      name. *)
  repositoryTopics : field (field (list (option string)));
}.

(* ===================================================================== *)
(** ** The engine: [class RepoDB] *)
(* ===================================================================== *)

Record RepoDB := {
  conn : DB;
  _run_id : option Z;
  _lang_cache : gmap string Z;
  _topic_cache : gmap string Z;
  _processed_repo_ids : gset Z;
}.

(** [RepoDB(path)] on a database file holding [d]. *)
Definition open_db (d : DB) : RepoDB :=
  {| conn := d; _run_id := None; _lang_cache := ∅; _topic_cache := ∅;
     _processed_repo_ids := ∅ |}.

Definition set_conn (d : DB) (s : RepoDB) : RepoDB :=
  {| conn := d; _run_id := _run_id s; _lang_cache := _lang_cache s;
     _topic_cache := _topic_cache s;
     _processed_repo_ids := _processed_repo_ids s |}.

Definition set_processed (p : gset Z) (s : RepoDB) : RepoDB :=
  {| conn := conn s; _run_id := _run_id s; _lang_cache := _lang_cache s;
     _topic_cache := _topic_cache s; _processed_repo_ids := p |}.

(** [begin_run]: [now] is the clock reading used when no instant is given. *)
Definition begin_run (fetched_at_unix : option Z) (now : Z) (s : RepoDB)
    : RepoDB * Z :=
  match _run_id s with
  | Some r => (s, r)
  | None =>
      let ts := default now fetched_at_unix in
      let t := fetch_run (conn s) in
      let id := next_rowid t in
      ({| conn := set_fetch_run (<[id := ts]> t) (conn s);
          _run_id := Some id; _lang_cache := _lang_cache s;
          _topic_cache := _topic_cache s;
          _processed_repo_ids := _processed_repo_ids s |}, id)
  end.

(** [INSERT OR IGNORE INTO t(name) VALUES (?)] on a name-interning table. *)
Definition insert_or_ignore_name (name : string) (t : gmap Z string)
    : gmap Z string :=
  match id_by_name t name with
  | Some _ => t
  | None => <[next_rowid t := name]> t
  end.

Definition _get_or_create_language_id (name : option string) (s : RepoDB)
    : RepoDB * option Z :=
  match name with
  | None => (s, None)
  | Some nm =>
      if bool_decide (nm = EmptyString) then (s, None) else
      match _lang_cache s !! nm with
      | Some id => (s, Some id)
      | None =>
          let t := insert_or_ignore_name nm (language (conn s)) in
          let d := set_language t (conn s) in
          match id_by_name t nm with
          | None => (set_conn d s, None)
          | Some lang_id =>
              ({| conn := d; _run_id := _run_id s;
                  _lang_cache := <[nm := lang_id]> (_lang_cache s);
                  _topic_cache := _topic_cache s;
                  _processed_repo_ids := _processed_repo_ids s |},
               Some lang_id)
          end
      end
  end.

(** [_get_or_create_topic_id]; the [RuntimeError] of the source needs the
    [SELECT] to miss the row the [INSERT OR IGNORE] just ensured, which the
    table cannot do, so the lookup falls back to the id the insert chose. *)
Definition _get_or_create_topic_id (name : string) (s : RepoDB)
    : RepoDB * Z :=
  match _topic_cache s !! name with
  | Some id => (s, id)
  | None =>
      let t := insert_or_ignore_name name (topic (conn s)) in
      let topic_id := default (next_rowid (topic (conn s))) (id_by_name t name) in
      ({| conn := set_topic t (conn s); _run_id := _run_id s;
          _lang_cache := _lang_cache s;
          _topic_cache := <[name := topic_id]> (_topic_cache s);
          _processed_repo_ids := _processed_repo_ids s |}, topic_id)
  end.

(** [_fetch_latest_metrics(repo_ids)]: the [repo_latest] rows of the given
    ids, as a dictionary by repo id.  (The 500-wide chunks of the source only
    bound the number of SQL parameters; the dictionary is their union.) *)
Definition _fetch_latest_metrics (d : DB) (repo_ids : list Z)
    : gmap Z LatestRow :=
  filter (λ kv, kv.1 ∈ repo_ids) (repo_latest d).

(* --------------------------------------------------------------------- *)
(** *** [upsert_from_github_nodes], the first loop: fresh snapshots *)

(** Drop a snapshot without a positive integer id and one whose id was
    already processed in this pass; record the ids kept. *)
Fixpoint fresh_scan (seen : gset Z) (nodes : list Node)
    : gset Z * list Node :=
  match nodes with
  | [] => (seen, [])
  | n :: ns =>
      match get (databaseId n) with
      | Some repo_id =>
          if bool_decide (repo_id ≤ 0) then fresh_scan seen ns
          else if bool_decide (repo_id ∈ seen) then fresh_scan seen ns
          else
            let '(seen', fresh) := fresh_scan ({[repo_id]} ∪ seen) ns in
            (seen', n :: fresh)
      | None => fresh_scan seen ns
      end
  end.

(** A parameter tuple of the [repo] upsert:
    [(id, name_with_owner, created_at, description, homepage_url)]. *)
Record RepoParams := {
  p_id : Z;
  p_name : option string;
  p_created_at : option Z;
  p_description : option string;
  p_homepage_url : option string;
}.

(** [n[key]]: [KeyError] on a missing key, the value ([None] for null)
    otherwise. *)
Definition index {A : Type} (f : field A) : option A + exn :=
  match f with
  | Absent => inr KeyError
  | Null => inl None
  | Present a => inl (Some a)
  end.

(** [int(n[key])] *)
Definition int_index (f : field Z) : Z + exn :=
  match f with
  | Absent => inr KeyError
  | Null => inr TypeError
  | Present z => inl z
  end.

(** Sequencing of a computation that may raise. *)
Definition bind {A B : Type} (m : A + exn) (k : A → B + exn) : B + exn :=
  match m with
  | inl a => k a
  | inr e => inr e
  end.

Notation "'do' x ← m ; k" := (bind m (λ x, k))
  (at level 10, x pattern, m at level 100, k at level 200).

Definition repo_params (n : Node) : RepoParams + exn :=
  do repo_id ← int_index (databaseId n);
  do name ← index (nameWithOwner n);
  inl {| p_id := repo_id; p_name := name;
         p_created_at := get (createdAt n);
         p_description := get (description n);
         p_homepage_url := get (homepageUrl n) |}.

Fixpoint build_repo_rows (fresh_nodes : list Node) : list RepoParams + exn :=
  match fresh_nodes with
  | [] => inl []
  | n :: ns =>
      do row ← repo_params n;
      do rows ← build_repo_rows ns;
      inl (row :: rows)
  end.

(* --------------------------------------------------------------------- *)
(** *** The first transaction: name conflicts, then the [repo] upsert *)

(** [SELECT id FROM repo WHERE name_with_owner = ? AND id != ?].  A NULL
    name equals nothing. *)
Definition name_conflict (name : option string) (id : Z) (kv : Z * RepoRow)
    : Prop :=
  Some (r_name_with_owner kv.2) = name ∧ kv.1 ≠ id.

#[global] Instance name_conflict_dec name id kv :
  Decision (name_conflict name id kv).
Proof. unfold name_conflict. apply _. Defined.

Definition conflicting_ids (d : DB) (name : option string) (id : Z) : gset Z :=
  dom (filter (name_conflict name id) (repo d)).

(** [DELETE FROM repo_latest WHERE repo_id IN (SELECT ...)] *)
Definition delete_latest_of_conflict (p : RepoParams) (d : DB) : DB + exn :=
  let ids := conflicting_ids d (p_name p) (p_id p) in
  inl (set_repo_latest (filter (λ kv, kv.1 ∉ ids) (repo_latest d)) d).

(** [DELETE FROM repo_topic_latest WHERE repo_id IN (SELECT ...)] *)
Definition delete_topics_of_conflict (p : RepoParams) (d : DB) : DB + exn :=
  let ids := conflicting_ids d (p_name p) (p_id p) in
  inl (set_repo_topic_latest
         (filter (λ rt, rt.1 ∉ ids) (repo_topic_latest d)) d).

(** [name_with_owner || '-renamed-' || id]: [id] is the column of the row
    being updated. *)
Definition renamed (id : Z) (r : RepoRow) : RepoRow :=
  {| r_name_with_owner :=
       r_name_with_owner r +:+ "-renamed-" +:+ Text.of_int id;
     r_description := r_description r;
     r_homepage_url := r_homepage_url r;
     r_created_at := r_created_at r |}.

(** [UPDATE repo SET name_with_owner = ... WHERE name_with_owner = ? AND id != ?] *)
Definition rename_conflict (p : RepoParams) (d : DB) : DB + exn :=
  write_repo
    (map_imap (λ id r, Some (if decide (name_conflict (p_name p) (p_id p) (id, r))
                             then renamed id r else r))
              (repo d)) d.

(** [INSERT INTO repo ... ON CONFLICT(id) DO UPDATE SET name_with_owner,
    description, homepage_url].  [name_with_owner] is [NOT NULL]. *)
Definition upsert_repo (p : RepoParams) (d : DB) : DB + exn :=
  match p_name p with
  | None => inr IntegrityError
  | Some name =>
      let created :=
        match repo d !! p_id p with
        | Some old => r_created_at old
        | None => p_created_at p
        end in
      write_repo
        (<[p_id p := {| r_name_with_owner := name;
                        r_description := p_description p;
                        r_homepage_url := p_homepage_url p;
                        r_created_at := created |}]> (repo d)) d
  end.

(** The three [executemany] calls over [conflict_params]. *)
Definition resolve_conflicts (repo_rows : list RepoParams) (d : DB)
    : DB + exn :=
  do d1 ← executemany delete_latest_of_conflict repo_rows d;
  do d2 ← executemany delete_topics_of_conflict repo_rows d1;
  executemany rename_conflict repo_rows d2.

Definition resolve_and_upsert (repo_rows : list RepoParams) (d : DB)
    : DB + exn :=
  do d3 ← resolve_conflicts repo_rows d;
  executemany upsert_repo repo_rows d3.

(* --------------------------------------------------------------------- *)
(** *** The second loop: diff against [repo_latest], plan the writes *)

(** [int(n.get(key, 0))] *)
Definition int_get0 (f : field Z) : Z + exn :=
  match f with
  | Absent => inl 0
  | Null => inr TypeError
  | Present z => inl z
  end.

(** [int((n.get("watchers") or {}).get("totalCount", 0))] *)
Definition watchers_total (f : field (field Z)) : Z + exn :=
  match f with
  | Absent | Null => inl 0
  | Present w => int_get0 w
  end.

(** [pl.get("name")] when [primaryLanguage] is an object, else [None]. *)
Definition primary_language_name (f : field (field string)) : option string :=
  match f with
  | Present pl => get pl
  | Absent | Null => None
  end.

(** The topic names of a snapshot: the non-empty string names, in order. *)
Definition topic_names (f : field (field (list (option string))))
    : list string :=
  match f with
  | Present (Present nodes2) =>
      filter (λ tname, tname ≠ EmptyString) (omap id nodes2)
  | _ => []
  end.

(** The metric quadruple of [repo_latest] and [repo_metrics_hist] rows. *)
Definition quadruple : Type := Z * Z * Z * option Z.

Definition latest_quadruple (rl : LatestRow) : quadruple :=
  (rl_stars rl, rl_forks rl, rl_watchers rl, rl_disk_usage rl).

Definition hist_quadruple (h : HistRow) : quadruple :=
  (h_stars h, h_forks h, h_watchers h, h_disk_usage h).

(** [changed = old_stars != stars or old_forks != forks or
    old_watchers != watchers or old_disk_i != disk_usage_i] *)
Definition changed (old : LatestRow) (stars forks watchers : Z)
    (disk_usage_i : option Z) : bool :=
  negb (rl_stars old =? stars) || negb (rl_forks old =? forks)
  || negb (rl_watchers old =? watchers)
  || negb (bool_decide (rl_disk_usage old = disk_usage_i)).

(** The rows gathered by the loop, each list in append order.
    [hist_insert_rows]: [(repo_id, start_run_id, row)];
    [hist_extend_rows]: [(end_run_id, repo_id, start_run_id)]. *)
Record Plan := {
  latest_rows : list (Z * LatestRow);
  hist_insert_rows : list (Z * Z * HistRow);
  hist_extend_rows : list (Z * Z * Z);
  topic_repo_ids_to_refresh : list Z;
  topic_pairs_to_insert : list (Z * Z);
}.

Definition empty_plan : Plan :=
  {| latest_rows := []; hist_insert_rows := []; hist_extend_rows := [];
     topic_repo_ids_to_refresh := []; topic_pairs_to_insert := [] |}.

(** The values read from one snapshot before any interning. *)
Record Metrics := {
  m_repo_id : Z;
  m_stars : Z;
  m_forks : Z;
  m_watchers : Z;
  m_disk_usage_i : option Z;
  m_updated_at : option Z;
  m_pushed_at : option Z;
  m_is_archived : Z;
}.

Definition node_metrics (n : Node) : Metrics + exn :=
  do repo_id ← int_index (databaseId n);
  do stars ← int_get0 (stargazerCount n);
  do forks ← int_get0 (forkCount n);
  do watchers ← watchers_total (watchers n);
  inl {| m_repo_id := repo_id; m_stars := stars; m_forks := forks;
         m_watchers := watchers; m_disk_usage_i := get (diskUsage n);
         m_updated_at := get (updatedAt n);
         m_pushed_at := get (pushedAt n);
         m_is_archived :=
           if default false (get (isArchived n)) then 1 else 0 |}.

(** The history decision for one snapshot: the [history_start_run_id] of its
    new [repo_latest] row, with the rows to insert into and to extend in
    [repo_metrics_hist]. *)
Definition history_step (run_id : Z) (old : option LatestRow) (m : Metrics)
    : Z * list (Z * Z * HistRow) * list (Z * Z * Z) :=
  let new_segment :=
    (m_repo_id m, run_id,
     {| h_end_run_id := run_id; h_stars := m_stars m; h_forks := m_forks m;
        h_watchers := m_watchers m; h_disk_usage := m_disk_usage_i m |}) in
  match old with
  | None => (run_id, [new_segment], [])
  | Some o =>
      if changed o (m_stars m) (m_forks m) (m_watchers m) (m_disk_usage_i m)
      then (run_id, [new_segment], [])
      else (rl_history_start_run_id o, [],
            [(run_id, m_repo_id m, rl_history_start_run_id o)])
  end.

Fixpoint intern_topics (repo_id : Z) (topics : list string) (s : RepoDB)
    : RepoDB * list (Z * Z) :=
  match topics with
  | [] => (s, [])
  | tname :: rest =>
      let '(s1, tid) := _get_or_create_topic_id tname s in
      let '(s2, pairs) := intern_topics repo_id rest s1 in
      (s2, (repo_id, tid) :: pairs)
  end.

Definition plan_node (run_id : Z) (existing_latest : gmap Z LatestRow)
    (n : Node) (s : RepoDB) (pl : Plan) : RepoDB * (Plan + exn) :=
  match node_metrics n with
  | inr e => (s, inr e)
  | inl m =>
      let '(s1, pl_id) :=
        _get_or_create_language_id
          (primary_language_name (primaryLanguage n)) s in
      let '(history_start_run_id, ins, ext) :=
        history_step run_id (existing_latest !! m_repo_id m) m in
      let row :=
        {| rl_run_id := run_id;
           rl_history_start_run_id := history_start_run_id;
           rl_stars := m_stars m; rl_forks := m_forks m;
           rl_watchers := m_watchers m;
           rl_disk_usage := m_disk_usage_i m;
           rl_updated_at := m_updated_at m;
           rl_pushed_at := m_pushed_at m;
           rl_is_archived := m_is_archived m;
           rl_primary_language_id := pl_id |} in
      let '(s2, pairs) :=
        intern_topics (m_repo_id m) (topic_names (repositoryTopics n)) s1 in
      (s2, inl {| latest_rows := latest_rows pl ++ [(m_repo_id m, row)];
                  hist_insert_rows := hist_insert_rows pl ++ ins;
                  hist_extend_rows := hist_extend_rows pl ++ ext;
                  topic_repo_ids_to_refresh :=
                    topic_repo_ids_to_refresh pl ++ [m_repo_id m];
                  topic_pairs_to_insert :=
                    topic_pairs_to_insert pl ++ pairs |})
  end.

Fixpoint plan_rows (run_id : Z) (existing_latest : gmap Z LatestRow)
    (fresh_nodes : list Node) (s : RepoDB) (pl : Plan)
    : RepoDB * (Plan + exn) :=
  match fresh_nodes with
  | [] => (s, inl pl)
  | n :: ns =>
      match plan_node run_id existing_latest n s pl with
      | (s', inl pl') => plan_rows run_id existing_latest ns s' pl'
      | (s', inr e) => (s', inr e)
      end
  end.

(* --------------------------------------------------------------------- *)
(** *** The second transaction: latest, history, topics *)

(** A foreign key into a table keyed by row id. *)
Definition references {A : Type} (t : gmap Z A) (k : Z) : Prop := is_Some (t !! k).

Definition references_opt {A : Type} (t : gmap Z A) (k : option Z) : Prop :=
  match k with
  | None => True
  | Some k' => references t k'
  end.

#[global] Instance references_dec {A} (t : gmap Z A) k : Decision (references t k).
Proof. unfold references. apply _. Defined.

#[global] Instance references_opt_dec {A} (t : gmap Z A) k :
  Decision (references_opt t k).
Proof. destruct k; simpl; apply _. Defined.

(** [INSERT INTO repo_latest ... ON CONFLICT(repo_id) DO UPDATE SET] every
    other column. *)
Definition upsert_latest (p : Z * LatestRow) (d : DB) : DB + exn :=
  let '(repo_id, row) := p in
  if bool_decide (references (repo d) repo_id
                  ∧ references (fetch_run d) (rl_run_id row)
                  ∧ references (fetch_run d) (rl_history_start_run_id row)
                  ∧ references_opt (language d) (rl_primary_language_id row))
  then inl (set_repo_latest (<[repo_id := row]> (repo_latest d)) d)
  else inr IntegrityError.

(** [INSERT INTO repo_metrics_hist ...]: the primary key must be free. *)
Definition insert_hist (p : Z * Z * HistRow) (d : DB) : DB + exn :=
  let '(repo_id, start_run_id, row) := p in
  if bool_decide (repo_metrics_hist d !! (repo_id, start_run_id) = None
                  ∧ references (repo d) repo_id
                  ∧ references (fetch_run d) start_run_id
                  ∧ references (fetch_run d) (h_end_run_id row))
  then inl (set_repo_metrics_hist
              (<[(repo_id, start_run_id) := row]> (repo_metrics_hist d)) d)
  else inr IntegrityError.

Definition with_end_run_id (end_run_id : Z) (h : HistRow) : HistRow :=
  {| h_end_run_id := end_run_id; h_stars := h_stars h; h_forks := h_forks h;
     h_watchers := h_watchers h; h_disk_usage := h_disk_usage h |}.

(** [UPDATE repo_metrics_hist SET end_run_id = ? WHERE repo_id = ? AND
    start_run_id = ?] *)
Definition extend_hist (p : Z * Z * Z) (d : DB) : DB + exn :=
  let '(end_run_id, repo_id, start_run_id) := p in
  match repo_metrics_hist d !! (repo_id, start_run_id) with
  | None => inl d
  | Some h =>
      if bool_decide (references (fetch_run d) end_run_id)
      then inl (set_repo_metrics_hist
                  (<[(repo_id, start_run_id) := with_end_run_id end_run_id h]>
                     (repo_metrics_hist d)) d)
      else inr IntegrityError
  end.

(** [DELETE FROM repo_topic_latest WHERE repo_id IN (...)], over all chunks
    of the id list. *)
Definition delete_topics (repo_ids : list Z) (d : DB) : DB :=
  set_repo_topic_latest
    (filter (λ rt, rt.1 ∉ repo_ids) (repo_topic_latest d)) d.

(** [INSERT OR IGNORE INTO repo_topic_latest(repo_id, topic_id)] *)
Definition insert_topic_pair (p : Z * Z) (d : DB) : DB + exn :=
  if bool_decide (references (repo d) p.1 ∧ references (topic d) p.2)
  then inl (set_repo_topic_latest ({[p]} ∪ repo_topic_latest d) d)
  else inr IntegrityError.

Definition write_plan (pl : Plan) (d : DB) : DB + exn :=
  do d1 ← executemany upsert_latest (latest_rows pl) d;
  do d2 ← executemany insert_hist (hist_insert_rows pl) d1;
  do d3 ← executemany extend_hist (hist_extend_rows pl) d2;
  executemany insert_topic_pair (topic_pairs_to_insert pl)
    (delete_topics (topic_repo_ids_to_refresh pl) d3).

(* --------------------------------------------------------------------- *)
(** *** [upsert_from_github_nodes] *)

(** The engine after the call, and the exception it raised if any. *)
Definition upsert_from_github_nodes (now : Z) (s : RepoDB) (nodes : list Node)
    : RepoDB * option exn :=
  let '(s1, run_id) := begin_run None now s in
  let '(seen, fresh_nodes) := fresh_scan (_processed_repo_ids s1) nodes in
  let s2 := set_processed seen s1 in
  match fresh_nodes with
  | [] => (s2, None)
  | _ :: _ =>
      match build_repo_rows fresh_nodes with
      | inr e => (s2, Some e)
      | inl repo_rows =>
          match transaction (resolve_and_upsert repo_rows) (conn s2) with
          | (_, Some e) => (s2, Some e)
          | (d3, None) =>
              let existing_latest :=
                _fetch_latest_metrics d3 (p_id <$> repo_rows) in
              match plan_rows run_id existing_latest fresh_nodes
                      (set_conn d3 s2) empty_plan with
              | (s4, inr e) => (s4, Some e)
              | (s4, inl pl) =>
                  let '(d5, raised) := transaction (write_plan pl) (conn s4) in
                  (set_conn d5 s4, raised)
              end
          end
      end
  end.

(** [ingest] of a sequence of batches in one pass; the pass stops at the
    first exception, as [crawl] does not catch any. *)
Fixpoint ingest_pass (now : Z) (s : RepoDB) (batches : list (list Node))
    : RepoDB * option exn :=
  match batches with
  | [] => (s, None)
  | b :: bs =>
      match upsert_from_github_nodes now s b with
      | (s', None) => ingest_pass now s' bs
      | (s', Some e) => (s', Some e)
      end
  end.

(* ===================================================================== *)
(** ** The query layer *)
(* ===================================================================== *)

(** A row of [FROM repo_latest rl JOIN repo r ON r.id = rl.repo_id]. *)
Record Joined := {
  j_repo_id : Z;
  j_rl : LatestRow;
  j_r : RepoRow;
}.

Definition latest_join (d : DB) : list Joined :=
  omap (λ kv, (λ r, {| j_repo_id := kv.1; j_rl := kv.2; j_r := r |})
                <$> repo d !! kv.1)
       (map_to_list (repo_latest d)).

(** [LEFT JOIN language lang ON lang.id = rl.primary_language_id] *)
Definition language_name (d : DB) (j : Joined) : option string :=
  rl_primary_language_id (j_rl j) ≫= λ id, language d !! id.

(** The names reached by
    [LEFT JOIN repo_topic_latest rtl ... LEFT JOIN topic t ON t.id = rtl.topic_id]. *)
Definition topic_names_of (d : DB) (repo_id : Z) : list string :=
  omap (λ rt : Z * Z, if bool_decide (rt.1 = repo_id) then topic d !! rt.2 else None)
       (elements (repo_topic_latest d)).

(** NULLs sort below every integer. *)
Definition key_ltb (a b : option Z) : bool :=
  match a, b with
  | None, Some _ => true
  | Some x, Some y => x <? y
  | _, _ => false
  end.

(** [ORDER BY key DESC, r.name_with_owner ASC]: [x] is placed no later than [y]. *)
Definition static_order (key : Joined → option Z) (x y : Joined) : Prop :=
  key_ltb (key y) (key x) = true
  ∨ (key x = key y
     ∧ String.leb (r_name_with_owner (j_r x)) (r_name_with_owner (j_r y)) = true).

#[global] Instance static_order_dec key x y : Decision (static_order key x y).
Proof. unfold static_order. apply _. Defined.

Definition stars_key (j : Joined) : option Z := Some (rl_stars (j_rl j)).
Definition forks_key (j : Joined) : option Z := Some (rl_forks (j_rl j)).
Definition watchers_key (j : Joined) : option Z := Some (rl_watchers (j_rl j)).
Definition disk_usage_key (j : Joined) : option Z := rl_disk_usage (j_rl j).

(** [ROW_NUMBER() OVER (ORDER BY rl2.stars DESC, r2.name_with_owner ASC)] *)
Definition row_number (d : DB) (repo_id : Z) : option Z :=
  (λ p, Z.of_nat (S p.1))
    <$> list_find (λ j, j_repo_id j = repo_id)
          (merge_sort (static_order stars_key) (latest_join d)).

(** A result row of [select_latest_base_sql ... GROUP BY rl.repo_id]. *)
Record Row := {
  row_repo_id : Z;
  row_nameWithOwner : string;
  row_globalRank : option Z;
  row_stargazerCount : Z;
  row_newStars : option Z;
  row_forkCount : Z;
  row_watchersCount : Z;
  row_diskUsage : option Z;
  row_description : option string;
  row_homepageUrl : option string;
  row_createdAtUnix : option Z;
  row_updatedAtUnix : option Z;
  row_pushedAtUnix : option Z;
  row_isArchived : Z;
  row_primaryLanguage : option string;
  row_topicsConcat : option string;
  row_fetchedAtUnix : Z;
}.

(** The group of one joined row: the inner joins (rank, [fetch_run]) must
    find their row. *)
Definition select_row (include_global_rank : bool)
    (extra_select : Joined → option Z) (d : DB) (j : Joined) : option Row :=
  rank ← (if include_global_rank then Some <$> row_number d (j_repo_id j)
          else Some None);
  fetched_at ← fetch_run d !! rl_run_id (j_rl j);
  Some {| row_repo_id := j_repo_id j;
          row_nameWithOwner := r_name_with_owner (j_r j);
          row_globalRank := rank;
          row_stargazerCount := rl_stars (j_rl j);
          row_newStars := extra_select j;
          row_forkCount := rl_forks (j_rl j);
          row_watchersCount := rl_watchers (j_rl j);
          row_diskUsage := rl_disk_usage (j_rl j);
          row_description := r_description (j_r j);
          row_homepageUrl := r_homepage_url (j_r j);
          row_createdAtUnix := r_created_at (j_r j);
          row_updatedAtUnix := rl_updated_at (j_rl j);
          row_pushedAtUnix := rl_pushed_at (j_rl j);
          row_isArchived := rl_is_archived (j_rl j);
          row_primaryLanguage := language_name d j;
          row_topicsConcat :=
            Text.group_concat (ascii_of_nat 31) (topic_names_of d (j_repo_id j));
          row_fetchedAtUnix := fetched_at |}.

(** The JSON object of a repo (instants kept in Unix seconds). *)
Record Obj := {
  o_n : string;
  o_g : option Z;
  o_s : Z;
  o_f : Z;
  o_w : Z;
  o_d : option Z;
  o_a : option string;
  o_h : option string;
  o_c : option Z;
  o_p : option Z;
  o_i : bool;
  o_l : option string;
  o_t : list string;
  o_ns : option Z;
}.

Definition row_to_obj (row : Row) : Obj :=
  let topics :=
    match row_topicsConcat row with
    | None => []
    | Some topics_concat => Text.split (ascii_of_nat 31) topics_concat
    end in
  {| o_n := row_nameWithOwner row;
     o_g := row_globalRank row;
     o_s := row_stargazerCount row;
     o_f := row_forkCount row;
     o_w := row_watchersCount row;
     o_d := row_diskUsage row;
     o_a := row_description row;
     o_h := row_homepageUrl row;
     o_c := row_createdAtUnix row;
     o_p := row_pushedAtUnix row;
     o_i := negb (row_isArchived row =? 0);
     o_l := row_primaryLanguage row;
     o_t := filter (λ t, t ≠ EmptyString) topics;
     (** ["newStars" in row.keys() and row["newStars"]] *)
     o_ns := match row_newStars row with
             | Some v => if v =? 0 then None else Some v
             | None => None
             end |}.

(** The filter tuple [(q, in_description, language, topic)]. *)
Record Filters := {
  q : option string;
  in_description : bool;
  f_language : option string;
  f_topic : option string;
}.

Definition no_filters : Filters :=
  {| q := None; in_description := true; f_language := None; f_topic := None |}.

(** [if x:] on an optional string. *)
Definition truthy (x : option string) : option string :=
  match x with
  | Some s => if bool_decide (s = EmptyString) then None else Some s
  | None => None
  end.

(** [x LIKE pat] on a nullable column. *)
Definition like_opt (x : option string) (pat : string) : bool :=
  match x with
  | Some s => Text.like s pat
  | None => false
  end.

(** [_prepare_filter_conditions]: the [WHERE] clause as a test on a joined
    row. *)
Definition where_clause (fl : Filters) (d : DB) (j : Joined) : bool :=
  match truthy (f_language fl) with
  | Some lang => bool_decide (language_name d j = Some lang)
  | None => true
  end
  && match truthy (f_topic fl) with
     | Some tp => bool_decide (tp ∈ topic_names_of d (j_repo_id j))
     | None => true
     end
  && match truthy (Text.strip <$> truthy (q fl)) with
     | Some stripped =>
         let pat := "%" +:+ stripped +:+ "%" in
         if in_description fl
         then Text.like (r_name_with_owner (j_r j)) pat
              || like_opt (r_description (j_r j)) pat
         else Text.like (r_name_with_owner (j_r j)) pat
     | None => true
     end.

(** [count_leaderboard] *)
Definition count_leaderboard (d : DB) (fl : Filters) : Z :=
  Z.of_nat (length (filter (λ j, where_clause fl d j = true) (latest_join d))).

(** [LIMIT ? OFFSET ?]: a negative offset counts as zero, a negative limit as
    none. *)
Definition limit_offset {A : Type} (limit offset : Z) (rows : list A) : list A :=
  let rest := drop (Z.to_nat offset) rows in
  if limit <? 0 then rest else take (Z.to_nat limit) rest.

Definition page_size : Z := 100.

(** The integers the store takes as parameters: sqlite3 binds a Python
    [int] as a signed 64-bit INTEGER and raises [OverflowError] for any
    other. *)
Definition int64 (z : Z) : Prop :=
  -9223372036854775808 ≤ z ≤ 9223372036854775807.

#[global] Instance int64_dec z : Decision (int64 z).
Proof. unfold int64. apply _. Defined.

Definition bind_int (z : Z) : Z + exn :=
  if bool_decide (int64 z) then inl z else inr OverflowError.

Definition max_list (l : list Z) : option Z :=
  match l with
  | [] => None
  | x :: xs => Some (foldr Z.max x xs)
  end.

Definition _base_run_id_for_window (d : DB) (window_seconds : Z) : Z :=
  match max_list (map_to_list (fetch_run d)).*2 with
  | None => 0
  | Some now_ts =>
      let cutoff := now_ts - window_seconds in
      default 0
        (max_list (filter (λ kv, kv.2 ≤ cutoff) (map_to_list (fetch_run d))).*1)
  end.

(** A history row with its key: [(repo_id, start_run_id, row)]. *)
Definition covers (repo_id base_run_id : Z) (kv : Z * Z * HistRow) : Prop :=
  kv.1.1 = repo_id ∧ kv.1.2 ≤ base_run_id ∧ base_run_id ≤ h_end_run_id kv.2.

#[global] Instance covers_dec repo_id base_run_id kv :
  Decision (covers repo_id base_run_id kv).
Proof. unfold covers. apply _. Defined.

(** [ORDER BY h.end_run_id ASC] *)
Definition by_end_run_id (x y : Z * Z * HistRow) : Prop :=
  h_end_run_id x.2 ≤ h_end_run_id y.2.

#[global] Instance by_end_run_id_dec x y : Decision (by_end_run_id x y).
Proof. unfold by_end_run_id. apply _. Defined.

(** The correlated subquery of the trending select: the stars of the history
    row covering [base_run_id], the earliest-ending one first. *)
Definition base_stars (d : DB) (base_run_id repo_id : Z) : option Z :=
  (λ kv : Z * Z * HistRow, h_stars kv.2)
    <$> head (merge_sort by_end_run_id
                (filter (covers repo_id base_run_id)
                        (map_to_list (repo_metrics_hist d)))).

(** [MAX(rl.stars - COALESCE((SELECT ...), rl.stars), 0) AS newStars] *)
Definition new_stars (d : DB) (base_run_id : Z) (j : Joined) : Z :=
  Z.max (rl_stars (j_rl j)
         - default (rl_stars (j_rl j)) (base_stars d base_run_id (j_repo_id j)))
        0.

(** [ORDER BY newStars DESC, rl.stars DESC, r.name_with_owner ASC] *)
Definition trending_order (ns : Joined → Z) (x y : Joined) : Prop :=
  ns y < ns x
  ∨ (ns x = ns y
     ∧ (rl_stars (j_rl y) < rl_stars (j_rl x)
        ∨ (rl_stars (j_rl x) = rl_stars (j_rl y)
           ∧ String.leb (r_name_with_owner (j_r x))
                        (r_name_with_owner (j_r y)) = true))).

#[global] Instance trending_order_dec ns x y : Decision (trending_order ns x y).
Proof. unfold trending_order. apply _. Defined.

(** The rows of a select before [LIMIT]: joined, filtered, ordered, then
    grouped and projected. *)
Definition select_ordered (d : DB) (fl : Filters)
    (order : relation Joined) `{!∀ x y, Decision (order x y)}
    (extra_select : Joined → option Z) : list Row :=
  omap (select_row false extra_select d)
       (merge_sort order
          (filter (λ j, where_clause fl d j = true) (latest_join d))).

(** [trending_leaderboard]; [offset], computed from the caller's [page], is
    the one parameter of the query that may not fit the store's integers. *)
Definition trending_leaderboard (d : DB) (window_seconds : Z) (page : Z)
    (fl : Filters) : list Obj + exn :=
  let base_run_id := _base_run_id_for_window d window_seconds in
  let offset := (page - 1) * page_size in
  do offset ← bind_int offset;
  inl (row_to_obj
         <$> limit_offset page_size offset
               (select_ordered d fl (trending_order (new_stars d base_run_id))
                  (λ j, Some (new_stars d base_run_id j)))).

Definition trending_map (metric : string) : option Z :=
  if String.eqb metric "trending24h" then Some (24 * 3600)
  else if String.eqb metric "trending3d" then Some (3 * 24 * 3600)
  else if String.eqb metric "trending7d" then Some (7 * 24 * 3600)
  else if String.eqb metric "trending30d" then Some (30 * 24 * 3600)
  else None.

(** [metric_map.get(metric)]: the column the static leaderboard orders by. *)
Definition metric_map (metric : string) : option (Joined → option Z) :=
  if String.eqb metric "stars" then Some stars_key
  else if String.eqb metric "stargazerCount" then Some stars_key
  else if String.eqb metric "forks" then Some forks_key
  else if String.eqb metric "forkCount" then Some forks_key
  else if String.eqb metric "watchers" then Some watchers_key
  else if String.eqb metric "watchersCount" then Some watchers_key
  else if String.eqb metric "diskUsage" then Some disk_usage_key
  else if String.eqb metric "disk_usage" then Some disk_usage_key
  else None.

Definition leaderboard (d : DB) (metric : string) (page : Z) (fl : Filters)
    : list Obj + exn :=
  match trending_map metric with
  | Some window_seconds => trending_leaderboard d window_seconds page fl
  | None =>
      match metric_map metric with
      | None => inr ValueError
      | Some order_expr =>
          let offset := (page - 1) * page_size in
          do offset ← bind_int offset;
          inl (row_to_obj
                 <$> limit_offset page_size offset
                       (select_ordered d fl (static_order order_expr)
                          (λ _, None)))
      end
  end.

(** [get_repo_latest]: the base select with the rank join, for one name. *)
Definition get_repo_latest (d : DB) (name_with_owner : string) : option Obj :=
  row_to_obj
    <$> head (omap (select_row true (λ _, None) d)
                (filter (λ j, r_name_with_owner (j_r j) = name_with_owner)
                        (latest_join d))).

(** The [WHERE] of the correlated count of [get_global_rank]: [x] (the row
    [rl2], [r2]) is ranked before [y]. *)
Definition outranks (x y : Joined) : Prop :=
  rl_stars (j_rl y) < rl_stars (j_rl x)
  ∨ (rl_stars (j_rl x) = rl_stars (j_rl y)
     ∧ String.ltb (r_name_with_owner (j_r x)) (r_name_with_owner (j_r y)) = true).

#[global] Instance outranks_dec x y : Decision (outranks x y).
Proof. unfold outranks. apply _. Defined.

Definition get_global_rank (d : DB) (name_with_owner : string) : option Z :=
  (λ j, Z.of_nat (length (filter (λ j2, outranks j2 j) (latest_join d))) + 1)
    <$> head (filter (λ j, r_name_with_owner (j_r j) = name_with_owner)
                     (latest_join d)).

(** One history segment on the wire. *)
Record Segment := {
  seg_startFetchedAt : Z;
  seg_endFetchedAt : Z;
  seg_s : Z;
  seg_f : Z;
  seg_w : Z;
  seg_d : option Z;
}.

(** [ORDER BY h.start_run_id ASC] *)
Definition by_start_run_id (x y : Z * Z * HistRow) : Prop := x.1.2 ≤ y.1.2.

#[global] Instance by_start_run_id_dec x y : Decision (by_start_run_id x y).
Proof. unfold by_start_run_id. apply _. Defined.

Definition segment_of (d : DB) (kv : Z * Z * HistRow) : option Segment :=
  start_fetched_at ← fetch_run d !! kv.1.2;
  end_fetched_at ← fetch_run d !! h_end_run_id kv.2;
  Some {| seg_startFetchedAt := start_fetched_at;
          seg_endFetchedAt := end_fetched_at;
          seg_s := h_stars kv.2; seg_f := h_forks kv.2;
          seg_w := h_watchers kv.2; seg_d := h_disk_usage kv.2 |}.

Definition history_segments (d : DB) (name_with_owner : string) (limit : Z)
    : list Segment :=
  match head (filter (λ kv, r_name_with_owner kv.2 = name_with_owner)
                     (map_to_list (repo d))) with
  | None => []
  | Some (repo_id, _) =>
      limit_offset limit 0
        (omap (segment_of d)
           (merge_sort by_start_run_id
              (filter (λ kv, kv.1.1 = repo_id)
                      (map_to_list (repo_metrics_hist d)))))
  end.

(* ===================================================================== *)
(** ** The HTTP handlers of [app.py] *)
(* ===================================================================== *)

Module App.

Definition LEADERBOARD_PAGE_SIZE : Z := 100.

(** The JSON bodies the handlers build. *)
Inductive Body :=
  | LeaderboardBody (page total totalPages : Z) (items : list Obj)
  | RepoBody (o : Obj)
  | HistoryBody (nameWithOwner : string) (segments : list Segment)
  | BadgeBody (label message color : string) (cacheSeconds : option Z).

(** What a route answers.  [RequestValidationError] is FastAPI's answer
    (status 422) to a query parameter that breaks its declared constraint;
    the handler body does not run.  [InternalServerError] is its answer
    (status 500) to an exception the handler lets through. *)
Inductive Response :=
  | Json (body : Body)
  | HTTPException (status_code : Z) (detail : string)
  | RequestValidationError
  | InternalServerError
  | RedirectResponse (url : string) (status_code : Z).

Definition status_of (r : Response) : Z :=
  match r with
  | Json _ => 200
  | HTTPException status_code _ => status_code
  | RequestValidationError => 422
  | InternalServerError => 500
  | RedirectResponse _ status_code => status_code
  end.

(** [class LRUCache]: the [OrderedDict] as an association list, oldest
    entry first. *)
Record LRUCache := {
  max_size : Z;
  cache : list (string * Body);
}.

Definition lookup_key (key : string) (l : list (string * Body)) : option Body :=
  snd <$> head (filter (λ kv, kv.1 = key) l).

Definition remove_key (key : string) (l : list (string * Body))
    : list (string * Body) :=
  filter (λ kv, kv.1 ≠ key) l.

(** [get]: a hit moves the entry to the end. *)
Definition cache_get (key : string) (c : LRUCache) : LRUCache * option Body :=
  match lookup_key key (cache c) with
  | Some v =>
      ({| max_size := max_size c;
          cache := remove_key key (cache c) ++ [(key, v)] |}, Some v)
  | None => (c, None)
  end.

(** [self.cache[key] = value]: in place for a key already present, at the
    end otherwise. *)
Fixpoint assign (key : string) (value : Body) (l : list (string * Body))
    : list (string * Body) :=
  match l with
  | [] => [(key, value)]
  | kv :: rest =>
      if bool_decide (kv.1 = key) then (key, value) :: rest
      else kv :: assign key value rest
  end.

(** [set]: assign, then drop the oldest entry when over capacity. *)
Definition cache_set (key : string) (value : Body) (c : LRUCache) : LRUCache :=
  let l := assign key value (cache c) in
  {| max_size := max_size c;
     cache := if max_size c <? Z.of_nat (length l) then tail l else l |}.

Definition response_cache : LRUCache := {| max_size := 10000; cache := [] |}.

(** [str(x)] inside an f-string. *)
Definition str_opt (x : option string) : string := default "None" x.
Definition str_bool (b : bool) : string := if b then "True" else "False".

(** [f"lb:{metric}:{page}:{q}:{in_description}:{language}:{topic}"] *)
Definition leaderboard_key (metric : string) (page : Z) (fl : Filters)
    : string :=
  "lb:" +:+ metric +:+ ":" +:+ Text.of_int page +:+ ":" +:+ str_opt (q fl)
  +:+ ":" +:+ str_bool (in_description fl) +:+ ":"
  +:+ str_opt (f_language fl) +:+ ":" +:+ str_opt (f_topic fl).

(** [GET /api/leaderboard], the handler body; [except ValueError] catches
    no other exception. *)
Definition leaderboard (d : DB) (c : LRUCache) (metric : string) (page : Z)
    (fl : Filters) : LRUCache * Response :=
  let cache_key := leaderboard_key metric page fl in
  match cache_get cache_key c with
  | (c1, Some cached) => (c1, Json cached)
  | (c1, None) =>
      let total := count_leaderboard d fl in
      match leaderboard d metric page fl with
      | inr ValueError =>
          (c1, HTTPException 400 ("Unsupported metric: " +:+ metric))
      | inr _ => (c1, InternalServerError)
      | inl items =>
          let result :=
            LeaderboardBody page total
              (if 0 <? total
               then (total + LEADERBOARD_PAGE_SIZE - 1) `div` LEADERBOARD_PAGE_SIZE
               else 1)
              items in
          (cache_set cache_key result c1, Json result)
      end
  end.

(** The route: [page: int = Query(1, ge=1)] is checked before the body. *)
Definition api_leaderboard (d : DB) (c : LRUCache) (metric : string)
    (page : Z) (fl : Filters) : LRUCache * Response :=
  if page <? 1 then (c, RequestValidationError)
  else leaderboard d c metric page fl.

(** [GET /api/repo] *)
Definition repo_latest (d : DB) (c : LRUCache) (name : string)
    : LRUCache * Response :=
  let cache_key := "repo:" +:+ name in
  match cache_get cache_key c with
  | (c1, Some cached) => (c1, Json cached)
  | (c1, None) =>
      match get_repo_latest d name with
      | None => (c1, HTTPException 404 "Repo not found")
      | Some result => (cache_set cache_key (RepoBody result) c1,
                        Json (RepoBody result))
      end
  end.

(** [GET /api/repo/history] *)
Definition repo_history (d : DB) (c : LRUCache) (name : string)
    : LRUCache * Response :=
  let cache_key := "hist:" +:+ name in
  match cache_get cache_key c with
  | (c1, Some cached) => (c1, Json cached)
  | (c1, None) =>
      let segs := history_segments d name 2920 in
      let result := HistoryBody name segs in
      (cache_set cache_key result c1, Json result)
  end.

(** [GET /api/rank] *)
Definition shields_rank (d : DB) (c : LRUCache) (name : string)
    : LRUCache * Response :=
  let cache_key := "rank:" +:+ name in
  match cache_get cache_key c with
  | (c1, Some cached) => (c1, Json cached)
  | (c1, None) =>
      match get_global_rank d name with
      | None =>
          let result := BadgeBody "rank" "repo not found" "inactive" None in
          (cache_set cache_key result c1, Json result)
      | Some rank =>
          let color :=
            if rank <=? 100 then "brightgreen"
            else if rank <=? 1000 then "orange" else "blue" in
          let result :=
            BadgeBody "global rank" ("#" +:+ Text.of_int rank) color (Some 3600) in
          (cache_set cache_key result c1, Json result)
      end
  end.

Definition hex_digit (n : N) : ascii :=
  if (n <? 10)%N then ascii_of_N (48 + n) else ascii_of_N (55 + n).

Definition is_unreserved (c : ascii) : bool :=
  let n := N_of_ascii c in
  ((48 <=? n) && (n <=? 57) || (65 <=? n) && (n <=? 90)
   || (97 <=? n) && (n <=? 122)
   || (n =? 45) || (n =? 46) || (n =? 95) || (n =? 126))%N.

(** [urllib.parse.quote(s, safe='')] *)
Fixpoint quote (s : string) : string :=
  match s with
  | EmptyString => EmptyString
  | String c s' =>
      if is_unreserved c then String c (quote s')
      else
        let n := N_of_ascii c in
        String "%" (String (hex_digit (n / 16)) (String (hex_digit (n mod 16))
                                                   (quote s')))
  end.

(** [GET /{owner}/{repo}] *)
Definition repo_short_url (d : DB) (owner repo : string) : Response :=
  let name := owner +:+ "/" +:+ repo in
  match get_global_rank d name with
  | None => HTTPException 404 "Repo not found"
  | Some rank =>
      let page := ((rank - 1) `div` LEADERBOARD_PAGE_SIZE) + 1 in
      let qs :=
        "page=" +:+ Text.of_int page +:+ "&metric=stars&view=table&highlight="
        +:+ quote name +:+ "&open=" +:+ quote name in
      RedirectResponse ("/?" +:+ qs) 302
  end.

End App.

(* ===================================================================== *)
(** ** The properties the specification states *)
(* ===================================================================== *)

(** The static metric keys and the trending keys of the specification. *)
Definition static_metrics : list string :=
  ["stars"; "stargazerCount"; "forks"; "forkCount"; "watchers";
   "watchersCount"; "diskUsage"; "disk_usage"]%string.

Definition trending_metrics : list string :=
  ["trending24h"; "trending3d"; "trending7d"; "trending30d"]%string.

Definition recognised (metric : string) : Prop :=
  metric ∈ static_metrics ∨ metric ∈ trending_metrics.

(** No [repo] row carries the name: the lookup misses. *)
Definition unknown_name (d : DB) (name : string) : Prop :=
  ∀ id r, repo d !! id = Some r → r_name_with_owner r ≠ name.

(** The requests the cached routes serve, the key each is cached under and
    the body the handler stores on a miss ([None] when it raises instead). *)
Inductive Request :=
  | ReqLeaderboard (metric : string) (page : Z) (fl : Filters)
  | ReqRepo (name : string)
  | ReqHistory (name : string)
  | ReqRank (name : string).

Definition key_of (r : Request) : string :=
  match r with
  | ReqLeaderboard metric page fl => App.leaderboard_key metric page fl
  | ReqRepo name => "repo:" +:+ name
  | ReqHistory name => "hist:" +:+ name
  | ReqRank name => "rank:" +:+ name
  end.

Definition serve (d : DB) (c : App.LRUCache) (r : Request)
    : App.LRUCache * App.Response :=
  match r with
  | ReqLeaderboard metric page fl => App.api_leaderboard d c metric page fl
  | ReqRepo name => App.repo_latest d c name
  | ReqHistory name => App.repo_history d c name
  | ReqRank name => App.shields_rank d c name
  end.

(** The cache of a process that has served [reqs] from one database since it
    started. *)
Definition cache_after (d : DB) (reqs : list Request) : App.LRUCache :=
  foldl (λ c r, (serve d c r).1) App.response_cache reqs.

(** Every cached body was built by a handler of this process on a miss. *)
Definition built_by (d : DB) (c : App.LRUCache) : Prop :=
  ∀ key body, (key, body) ∈ App.cache c →
    ∃ r c0, key_of r = key
            ∧ App.lookup_key key (App.cache c0) = None
            ∧ (serve d c0 r).2 = App.Json body.

(** Snapshot [p] of the batch takes the name of repo [k] away: [k] holds the
    name of [p] under another id. *)
Definition conflicts_with (t : gmap Z RepoRow) (k : Z) (p : RepoParams) : Prop :=
  match t !! k with
  | Some r => name_conflict (p_name p) (p_id p) (k, r)
  | None => False
  end.

#[global] Instance conflicts_with_dec t k p : Decision (conflicts_with t k p).
Proof. unfold conflicts_with. destruct (t !! k); apply _. Defined.

Definition disassociated (t : gmap Z RepoRow) (repo_rows : list RepoParams)
    (k : Z) : Prop :=
  Exists (conflicts_with t k) repo_rows.

#[global] Instance disassociated_dec t repo_rows k :
  Decision (disassociated t repo_rows k).
Proof. unfold disassociated. apply _. Defined.

(** What one rename statement, and the whole run of them, makes of the row
    of repo [k]. *)
Definition rename_step (p : RepoParams) (k : Z) (r : RepoRow) : RepoRow :=
  if decide (name_conflict (p_name p) (p_id p) (k, r)) then renamed k r else r.

Fixpoint rename_run (repo_rows : list RepoParams) (k : Z) (r : RepoRow)
    : RepoRow :=
  match repo_rows with
  | [] => r
  | p :: ps => rename_run ps k (rename_step p k r)
  end.

(** [name] with the suffix ["-renamed-"] and [id] appended [m] times. *)
Fixpoint renamed_times (id : Z) (m : nat) (name : string) : string :=
  match m with
  | O => name
  | S m' => renamed_times id m' name +:+ "-renamed-" +:+ Text.of_int id
  end.

(** Which tables a step leaves alone. *)
Record same_but_repo (d d' : DB) : Prop := {
  sbr_language : language d' = language d;
  sbr_topic : topic d' = topic d;
  sbr_fetch_run : fetch_run d' = fetch_run d;
  sbr_repo_latest : repo_latest d' = repo_latest d;
  sbr_repo_metrics_hist : repo_metrics_hist d' = repo_metrics_hist d;
  sbr_repo_topic_latest : repo_topic_latest d' = repo_topic_latest d;
}.

Record same_but_latest (d d' : DB) : Prop := {
  sbl_repo : repo d' = repo d;
  sbl_language : language d' = language d;
  sbl_topic : topic d' = topic d;
  sbl_fetch_run : fetch_run d' = fetch_run d;
  sbl_repo_metrics_hist : repo_metrics_hist d' = repo_metrics_hist d;
  sbl_repo_topic_latest : repo_topic_latest d' = repo_topic_latest d;
}.

Record same_but_hist (d d' : DB) : Prop := {
  sbh_repo : repo d' = repo d;
  sbh_language : language d' = language d;
  sbh_topic : topic d' = topic d;
  sbh_fetch_run : fetch_run d' = fetch_run d;
  sbh_repo_latest : repo_latest d' = repo_latest d;
  sbh_repo_topic_latest : repo_topic_latest d' = repo_topic_latest d;
}.

Record same_but_topics (d d' : DB) : Prop := {
  sbt_repo : repo d' = repo d;
  sbt_language : language d' = language d;
  sbt_topic : topic d' = topic d;
  sbt_fetch_run : fetch_run d' = fetch_run d;
  sbt_repo_latest : repo_latest d' = repo_latest d;
  sbt_repo_metrics_hist : repo_metrics_hist d' = repo_metrics_hist d;
}.

(** Interning writes [language] and [topic] only. *)
Record same_but_names (d d' : DB) : Prop := {
  sbn_repo : repo d' = repo d;
  sbn_fetch_run : fetch_run d' = fetch_run d;
  sbn_repo_latest : repo_latest d' = repo_latest d;
  sbn_repo_metrics_hist : repo_metrics_hist d' = repo_metrics_hist d;
  sbn_repo_topic_latest : repo_topic_latest d' = repo_topic_latest d;
}.

(** The ids of the snapshots of a list, in order. *)
Definition node_ids (nodes : list Node) : list Z :=
  omap (λ n, get (databaseId n)) nodes.

(** The metric quadruple a snapshot delivers. *)
Definition metrics_quadruple (m : Metrics) : quadruple :=
  (m_stars m, m_forks m, m_watchers m, m_disk_usage_i m).

(** The history decision of the second loop for the snapshot read as [m]. *)
Definition planned_history (run_id : Z) (existing_latest : gmap Z LatestRow)
    (m : Metrics) : Z * list (Z * Z * HistRow) * list (Z * Z * Z) :=
  history_step run_id (existing_latest !! m_repo_id m) m.

(** What the second loop adds to the plan for the snapshots read as [ms]. *)
Record planned (run_id : Z) (existing_latest : gmap Z LatestRow)
    (ms : list Metrics) (pl0 pl : Plan) : Prop := {
  planned_latest :
    ∃ rows, latest_rows pl = latest_rows pl0 ++ rows
      ∧ Forall2 (λ m (kr : Z * LatestRow),
                   kr.1 = m_repo_id m ∧ rl_run_id kr.2 = run_id
                   ∧ rl_history_start_run_id kr.2
                     = (planned_history run_id existing_latest m).1.1
                   ∧ latest_quadruple kr.2 = metrics_quadruple m) ms rows;
  planned_insert :
    hist_insert_rows pl
    = hist_insert_rows pl0
      ++ (ms ≫= λ m, (planned_history run_id existing_latest m).1.2);
  planned_extend :
    hist_extend_rows pl
    = hist_extend_rows pl0
      ++ (ms ≫= λ m, (planned_history run_id existing_latest m).2);
  planned_refresh :
    topic_repo_ids_to_refresh pl
    = topic_repo_ids_to_refresh pl0 ++ (m_repo_id <$> ms);
  planned_pairs :
    ∃ pairs, topic_pairs_to_insert pl = topic_pairs_to_insert pl0 ++ pairs
      ∧ Forall (λ rt : Z * Z, rt.1 ∈ m_repo_id <$> ms) pairs;
}.

(** The run id of a call, the snapshots it keeps, and the engine once the
    run is begun and the kept ids are recorded. *)
Definition run_of (now : Z) (s : RepoDB) : Z := (begin_run None now s).2.

Definition fresh_of (s : RepoDB) (nodes : list Node) : list Node :=
  (fresh_scan (_processed_repo_ids s) nodes).2.

Definition entered (now : Z) (s : RepoDB) (nodes : list Node) : RepoDB :=
  set_processed (fresh_scan (_processed_repo_ids s) nodes).1
                (begin_run None now s).1.

(** The ways a call of [upsert_from_github_nodes] ends: the engine it leaves
    and the exception it raises. *)
Inductive outcome (now : Z) (s : RepoDB) (nodes : list Node)
    : RepoDB → option exn → Prop :=
  | nothing_fresh :
      fresh_of s nodes = [] →
      outcome now s nodes (entered now s nodes) None
  | snapshot_raised e :
      build_repo_rows (fresh_of s nodes) = inr e →
      outcome now s nodes (entered now s nodes) (Some e)
  | first_rolled_back repo_rows e :
      build_repo_rows (fresh_of s nodes) = inl repo_rows →
      resolve_and_upsert repo_rows (conn (entered now s nodes)) = inr e →
      outcome now s nodes (entered now s nodes) (Some e)
  | plan_raised repo_rows d3 s4 e :
      build_repo_rows (fresh_of s nodes) = inl repo_rows →
      resolve_and_upsert repo_rows (conn (entered now s nodes)) = inl d3 →
      plan_rows (run_of now s) (_fetch_latest_metrics d3 (p_id <$> repo_rows))
        (fresh_of s nodes) (set_conn d3 (entered now s nodes)) empty_plan
      = (s4, inr e) →
      outcome now s nodes s4 (Some e)
  | second_rolled_back repo_rows d3 s4 pl e :
      build_repo_rows (fresh_of s nodes) = inl repo_rows →
      resolve_and_upsert repo_rows (conn (entered now s nodes)) = inl d3 →
      plan_rows (run_of now s) (_fetch_latest_metrics d3 (p_id <$> repo_rows))
        (fresh_of s nodes) (set_conn d3 (entered now s nodes)) empty_plan
      = (s4, inl pl) →
      write_plan pl (conn s4) = inr e →
      outcome now s nodes s4 (Some e)
  | committed repo_rows d3 s4 pl d5 :
      fresh_of s nodes ≠ [] →
      build_repo_rows (fresh_of s nodes) = inl repo_rows →
      resolve_and_upsert repo_rows (conn (entered now s nodes)) = inl d3 →
      plan_rows (run_of now s) (_fetch_latest_metrics d3 (p_id <$> repo_rows))
        (fresh_of s nodes) (set_conn d3 (entered now s nodes)) empty_plan
      = (s4, inl pl) →
      write_plan pl (conn s4) = inl d5 →
      outcome now s nodes (set_conn d5 s4) None.

(** Invariant 2 of the data model: every [repo_latest] row has the history
    row it points at, with the same metric quadruple. *)
Definition latest_consistent (d : DB) : Prop :=
  ∀ id rl, repo_latest d !! id = Some rl →
    ∃ h, repo_metrics_hist d !! (id, rl_history_start_run_id rl) = Some h
         ∧ hist_quadruple h = latest_quadruple rl.

(** The history row a new segment starts with. *)
Definition new_segment (run_id : Z) (m : Metrics) : HistRow :=
  {| h_end_run_id := run_id; h_stars := m_stars m; h_forks := m_forks m;
     h_watchers := m_watchers m; h_disk_usage := m_disk_usage_i m |}.

(** The [repo_latest] row the second loop finds for repo [k]: the row the
    call started with, unless the conflict deletes of the call took it. *)
Definition existing_row (d : DB) (repo_rows : list RepoParams) (k : Z)
    : option LatestRow :=
  if decide (disassociated (repo d) repo_rows k) then None
  else repo_latest d !! k.

(** What every history store built by ingestion satisfies, beyond the
    uniqueness the schema enforces: invariant 2, [repo_latest] rows whose
    segment starts no later than the run that wrote them, and run ids that
    are rows of [fetch_run]. *)
Record store_invariant (d : DB) : Prop := {
  si_consistent : latest_consistent d;
  si_latest_span : ∀ k rl, repo_latest d !! k = Some rl →
    rl_history_start_run_id rl ≤ rl_run_id rl;
  si_latest_run : ∀ k rl, repo_latest d !! k = Some rl →
    is_Some (fetch_run d !! rl_run_id rl);
  si_hist_end : ∀ key h, repo_metrics_hist d !! key = Some h →
    is_Some (fetch_run d !! h_end_run_id h);
}.

(** What holds of the engine between the calls of a pass: the run it has
    begun is the latest row of [fetch_run], and a repo it has not processed
    was last written by an earlier run. *)
Record pass_invariant (s : RepoDB) : Prop := {
  pi_store : store_invariant (conn s);
  pi_run : ∀ r, _run_id s = Some r →
    is_Some (fetch_run (conn s) !! r)
    ∧ ∀ x, is_Some (fetch_run (conn s) !! x) → x ≤ r;
  pi_unprocessed : ∀ r k, _run_id s = Some r → k ∉ _processed_repo_ids s →
    (∀ st h, repo_metrics_hist (conn s) !! (k, st) = Some h → h_end_run_id h < r)
    ∧ (∀ rl, repo_latest (conn s) !! k = Some rl → rl_run_id rl < r);
}.

(** A snapshot as the search returns it, for the scenarios of the
    specification. *)
Definition snapshot (id : Z) (name : string) (stars : Z) : Node :=
  {| databaseId := Present id; nameWithOwner := Present name;
     stargazerCount := Present stars; forkCount := Present 0;
     description := Null; watchers := Present (Present 0);
     homepageUrl := Null; createdAt := Present 0; updatedAt := Present 0;
     pushedAt := Present 0; isArchived := Present false; diskUsage := Null;
     primaryLanguage := Null; repositoryTopics := Present (Present []) |}.

(** Scenario S1: one batch with repo [a/x] (id 1, 10 stars) into an empty
    database. *)
Definition scenario_S1 : RepoDB :=
  (upsert_from_github_nodes 0 (open_db empty_db) [snapshot 1 "a/x" 10]).1.

(** The metrics read from [snapshot id name stars]. *)
Definition snapshot_metrics (id stars : Z) : Metrics :=
  {| m_repo_id := id; m_stars := stars; m_forks := 0; m_watchers := 0;
     m_disk_usage_i := None; m_updated_at := Some 0; m_pushed_at := Some 0;
     m_is_archived := 0 |}.

(** Scenario S5: the database holds Repo(id=7, name="old/x"), ingested in an
    earlier pass; the next pass opens it. *)
Definition scenario_S5 : RepoDB :=
  open_db (conn (upsert_from_github_nodes 0 (open_db empty_db)
                   [snapshot 7 "old/x" 10]).1).

(** A snapshot without [nameWithOwner]. *)
Definition nameless (id : Z) : Node :=
  {| databaseId := Present id; nameWithOwner := Absent;
     stargazerCount := Present 5; forkCount := Present 0;
     description := Null; watchers := Present (Present 0);
     homepageUrl := Null; createdAt := Present 0; updatedAt := Present 0;
     pushedAt := Present 0; isArchived := Present false; diskUsage := Null;
     primaryLanguage := Null; repositoryTopics := Present (Present []) |}.

(** One crawl: a fresh engine on the database, one batch. *)
Definition crawl (now : Z) (d : DB) (nodes : list Node) : DB :=
  conn (upsert_from_github_nodes now (open_db d) nodes).1.

Definition day : Z := 86400.

(** Scenario S4: runs at 0, 1d, 2d, 3d, 4d; the stars of [a/x] go
    100, 100, 120, 150, 200; [b/new] is first seen by the fifth run. *)
Definition scenario_S4 : DB :=
  crawl (4 * day)
    (crawl (3 * day)
       (crawl (2 * day)
          (crawl day
             (crawl 0 empty_db [snapshot 1 "a/x" 100])
             [snapshot 1 "a/x" 100])
          [snapshot 1 "a/x" 120])
       [snapshot 1 "a/x" 150])
    [snapshot 1 "a/x" 200; snapshot 2 "b/new" 50].

(** The object of [a/x] on the [trending3d] page of scenario S4. *)
Definition obj_S4 : Obj :=
  {| o_n := "a/x"; o_g := None; o_s := 200; o_f := 0; o_w := 0;
     o_d := None; o_a := None; o_h := None; o_c := Some 0; o_p := Some 0;
     o_i := false; o_l := None; o_t := []; o_ns := Some 100 |}.

(** [totalPages] of the [/api/leaderboard] body. *)
Definition total_pages (total : Z) : Z :=
  if 0 <? total then (total + page_size - 1) `div` page_size else 1.

(** A scan of a leaderboard: its pages [1 .. totalPages], one after
    another. *)
Definition leaderboard_pages (d : DB) (metric : string) (fl : Filters)
    (n : nat) : list Obj :=
  seq 1 n ≫= λ page,
    match leaderboard d metric (Z.of_nat page) fl with
    | inl items => items
    | inr _ => []
    end.

Definition leaderboard_scan (d : DB) (metric : string) (fl : Filters)
    : list Obj :=
  leaderboard_pages d metric fl
    (Z.to_nat (total_pages (count_leaderboard d fl))).

(** The 1-based position of the first object named [name]. *)
Definition position (name : string) (items : list Obj) : option Z :=
  (λ p, Z.of_nat p.1 + 1) <$> list_find (λ o, o_n o = name) items.

(** Every [repo_latest] row points at a row of [fetch_run] (the foreign key
    of [repo_latest.run_id]). *)
Definition latest_runs_exist (d : DB) : Prop :=
  ∀ k rl, repo_latest d !! k = Some rl → is_Some (fetch_run d !! rl_run_id rl).

(* ===================================================================== *)
(** ** The helpers of [db.py] the engine calls in chunks *)
(* ===================================================================== *)

(** [range(0, stop, step)] for a positive [step]: the loop counter runs
    while it is below [stop]; [stop] rounds are enough. *)
Fixpoint range_go (fuel i stop step : nat) : list nat :=
  match fuel with
  | O => []
  | S fuel' =>
      if (i <? stop)%nat then i :: range_go fuel' (i + step) stop step else []
  end.

Definition range (stop step : nat) : list nat := range_go stop 0 stop step.

(** [chunks(seq, n)]: the slices [seq[i : i + n]] for [i] in
    [range(0, len(seq), n)], as the list the generator yields.  [range]
    refuses a zero step and is empty for a negative one. *)
Definition chunks {A : Type} (seq : list A) (n : Z) : list (list A) + exn :=
  if n =? 0 then inr ValueError
  else if n <? 0 then inl []
  else inl ((λ i, take (Z.to_nat n) (drop i seq))
              <$> range (length seq) (Z.to_nat n)).

(** [for row in rows: out[key(row)] = value(row)] *)
Definition store_rows {K V : Type} `{Countable K} (rows : list (K * V))
    (out : gmap K V) : gmap K V :=
  foldl (λ out kv, <[kv.1 := kv.2]> out) out rows.

(** [for chunk in cs: for row in rows_of(chunk): out[key(row)] = value(row)] *)
Definition collect {K V : Type} `{Countable K}
    (rows_of : list K → list (K * V)) (cs : list (list K)) (out : gmap K V)
    : gmap K V :=
  foldl (λ out chunk, store_rows (rows_of chunk) out) out cs.

(** [_fetch_latest_metrics] with its chunks: one [SELECT ... WHERE repo_id IN
    (chunk)] per chunk of 500 ids, each row stored under its repo id. *)
Definition _fetch_latest_metrics_by_chunks (d : DB) (repo_ids : list Z)
    : gmap Z LatestRow + exn :=
  match repo_ids with
  | [] => inl ∅
  | _ :: _ =>
      do cs ← chunks repo_ids 500;
      inl (collect (λ chunk, filter (λ kv, kv.1 ∈ chunk)
                                    (map_to_list (repo_latest d)))
                   cs ∅)
  end.

(** [_fetch_repo_ids]: the ids of the repos carrying one of [names], as a
    dictionary by name. *)
Definition _fetch_repo_ids (d : DB) (names : list string)
    : gmap string Z + exn :=
  match names with
  | [] => inl ∅
  | _ :: _ =>
      do cs ← chunks names 500;
      inl (collect
             (λ chunk,
                (λ kv : Z * RepoRow, (r_name_with_owner kv.2, kv.1))
                  <$> filter (λ kv : Z * RepoRow,
                                r_name_with_owner kv.2 ∈ chunk)
                             (map_to_list (repo d)))
             cs ∅)
  end.

(* ===================================================================== *)
(** ** Interning tables and their caches *)
(* ===================================================================== *)

(** What the engine relies on between calls: the names of an interning
    table are unique (its [UNIQUE] constraint) and every cache entry is a row
    of the table. *)
Record interned (t : gmap Z string) (cache : gmap string Z) : Prop := {
  interned_unique : NoDup (map_to_list t).*2;
  interned_cache : ∀ name id, cache !! name = Some id → t !! id = Some name;
}.

Definition caches_coherent (s : RepoDB) : Prop :=
  interned (language (conn s)) (_lang_cache s)
  ∧ interned (topic (conn s)) (_topic_cache s).

(* ===================================================================== *)
(** ** [crawler.py]: what the search query asks for *)
(* ===================================================================== *)

(** The fields [GRAPHQL_QUERY] selects on a [Repository] node. *)
Definition GRAPHQL_FIELDS : list string :=
  ["nameWithOwner"; "stargazerCount"; "forkCount"; "description"; "watchers";
   "homepageUrl"; "createdAt"; "updatedAt"; "pushedAt"; "isArchived";
   "diskUsage"; "primaryLanguage"; "repositoryTopics"]%string.

(** A GraphQL answer carries the selected fields only. *)
Definition keep {A : Type} (fields : list string) (key : string)
    (f : field A) : field A :=
  if bool_decide (key ∈ fields) then f else Absent.

Definition select_fields (fields : list string) (n : Node) : Node :=
  {| databaseId := keep fields "databaseId" (databaseId n);
     nameWithOwner := keep fields "nameWithOwner" (nameWithOwner n);
     stargazerCount := keep fields "stargazerCount" (stargazerCount n);
     forkCount := keep fields "forkCount" (forkCount n);
     description := keep fields "description" (description n);
     watchers := keep fields "watchers" (watchers n);
     homepageUrl := keep fields "homepageUrl" (homepageUrl n);
     createdAt := keep fields "createdAt" (createdAt n);
     updatedAt := keep fields "updatedAt" (updatedAt n);
     pushedAt := keep fields "pushedAt" (pushedAt n);
     isArchived := keep fields "isArchived" (isArchived n);
     diskUsage := keep fields "diskUsage" (diskUsage n);
     primaryLanguage := keep fields "primaryLanguage" (primaryLanguage n);
     repositoryTopics := keep fields "repositoryTopics" (repositoryTopics n) |}.

(** The [nodes] of a search answer that lists the repositories [repos]. *)
Definition search_nodes (repos : list Node) : list Node :=
  select_fields GRAPHQL_FIELDS <$> repos.


(* ===================================================================== *)
(** ** What a call leaves in [repo] *)
(* ===================================================================== *)

(** The row an upsert writes: [created_at] is taken from the snapshot only
    when the repo is new. *)
Definition upserted_row (p : RepoParams) (name : string)
    (old : option RepoRow) : RepoRow :=
  {| r_name_with_owner := name;
     r_description := p_description p;
     r_homepage_url := p_homepage_url p;
     r_created_at := match old with
                     | Some o => r_created_at o
                     | None => p_created_at p
                     end |}.

(* ===================================================================== *)
(** ** The order of history segments *)
(* ===================================================================== *)

(** The segments of a repo are intervals of runs that follow one another
    without overlap, and the segment [repo_latest] points at is the last. *)
Record segments_ordered (d : DB) : Prop := {
  so_span : ∀ k st h, repo_metrics_hist d !! (k, st) = Some h →
    st ≤ h_end_run_id h;
  so_disjoint : ∀ k st1 st2 h1 h2,
    repo_metrics_hist d !! (k, st1) = Some h1 →
    repo_metrics_hist d !! (k, st2) = Some h2 →
    st1 < st2 → h_end_run_id h1 < st2;
  so_latest_last : ∀ k rl st h,
    repo_latest d !! k = Some rl →
    repo_metrics_hist d !! (k, st) = Some h →
    st ≤ rl_history_start_run_id rl;
}.

(** What a call does to the segments of a repo [k] it ingests, [run] being
    its run: it opens a new segment at [run], or extends the segment
    [repo_latest] points at to [run]. *)
Inductive segment_step (d d' : DB) (run k : Z) : Prop :=
  | segment_opened h rl' :
      repo_metrics_hist d !! (k, run) = None →
      repo_metrics_hist d' !! (k, run) = Some h →
      h_end_run_id h = run →
      (∀ st, st ≠ run →
             repo_metrics_hist d' !! (k, st) = repo_metrics_hist d !! (k, st)) →
      repo_latest d' !! k = Some rl' →
      rl_history_start_run_id rl' = run →
      segment_step d d' run k
  | segment_extended o rl' :
      repo_latest d !! k = Some o →
      repo_metrics_hist d' !! (k, rl_history_start_run_id o)
      = with_end_run_id run
          <$> repo_metrics_hist d !! (k, rl_history_start_run_id o) →
      (∀ st, st ≠ rl_history_start_run_id o →
             repo_metrics_hist d' !! (k, st) = repo_metrics_hist d !! (k, st)) →
      repo_latest d' !! k = Some rl' →
      rl_history_start_run_id rl' = rl_history_start_run_id o →
      segment_step d d' run k.

(** No call forgets a repo or the instant it was created. *)
Definition keeps_repos (d d' : DB) : Prop :=
  ∀ k r, repo d !! k = Some r →
    ∃ r', repo d' !! k = Some r' ∧ r_created_at r' = r_created_at r.

(* ===================================================================== *)
(** ** The query layer without [LIMIT] *)
(* ===================================================================== *)

(** The objects of the whole ordered select that [leaderboard] pages
    through: the query of the method without its [LIMIT ? OFFSET ?]. *)
Definition listing (d : DB) (metric : string) (fl : Filters)
    : list Obj + exn :=
  match trending_map metric with
  | Some window_seconds =>
      let base_run_id := _base_run_id_for_window d window_seconds in
      inl (row_to_obj
             <$> select_ordered d fl (trending_order (new_stars d base_run_id))
                   (λ j, Some (new_stars d base_run_id j)))
  | None =>
      match metric_map metric with
      | None => inr ValueError
      | Some order_expr =>
          inl (row_to_obj
                 <$> select_ordered d fl (static_order order_expr) (λ _, None))
      end
  end.

(** The sort key of a metric, read off an object: the column a static
    metric orders by, the delta (0 when [ns] is left out) for a trending
    one. *)
Definition obj_key (metric : string) (o : Obj) : option Z :=
  match trending_map metric with
  | Some _ => Some (default 0 (o_ns o))
  | None =>
      if String.eqb metric "stars" then Some (o_s o)
      else if String.eqb metric "stargazerCount" then Some (o_s o)
      else if String.eqb metric "forks" then Some (o_f o)
      else if String.eqb metric "forkCount" then Some (o_f o)
      else if String.eqb metric "watchers" then Some (o_w o)
      else if String.eqb metric "watchersCount" then Some (o_w o)
      else o_d o
  end.

(** [a] is listed no later than [b]: by key descending (NULL last), then,
    for a trending metric, by stars descending, then by name ascending. *)
Definition listed_before (metric : string) (a b : Obj) : Prop :=
  key_ltb (obj_key metric b) (obj_key metric a) = true
  ∨ (obj_key metric a = obj_key metric b
     ∧ match trending_map metric with
       | Some _ =>
           o_s b < o_s a
           ∨ (o_s a = o_s b ∧ String.leb (o_n a) (o_n b) = true)
       | None => String.leb (o_n a) (o_n b) = true
       end).

(* ===================================================================== *)
(** ** Topics and filters *)
(* ===================================================================== *)

(** The byte [char(31)] that joins the topic names of a repo. *)
Definition unit_separator : ascii := ascii_of_nat 31.

(** The text holds no [char(31)]. *)
Definition separator_free (t : string) : Prop :=
  unit_separator ∉ list_ascii_of_string t.

#[global] Instance separator_free_dec t : Decision (separator_free t).
Proof. unfold separator_free. apply _. Defined.

(** A snapshot with a language and topics. *)
Definition tagged (id : Z) (name : string) (stars : Z) (lang : string)
    (topics : list string) : Node :=
  {| databaseId := Present id; nameWithOwner := Present name;
     stargazerCount := Present stars; forkCount := Present 0;
     description := Present "a tool"; watchers := Present (Present 0);
     homepageUrl := Null; createdAt := Present 0; updatedAt := Present 0;
     pushedAt := Present 0; isArchived := Present false; diskUsage := Null;
     primaryLanguage := Present (Present lang);
     repositoryTopics := Present (Present (Some <$> topics)) |}.

(** Two repos with languages and topics, ingested into an empty database. *)
Definition scenario_tagged : DB :=
  crawl 0 empty_db
    [tagged 1 "a/x" 10 "Rust" ["cli"; "tui"]; tagged 2 "b/y" 20 "Go" ["cli"]].

(* ===================================================================== *)
(** ** The response cache over a sequence of requests *)
(* ===================================================================== *)

(** The cache after a run of requests, each served from the database of
    its moment. *)
Definition serve_all (c : App.LRUCache) (dreqs : list (DB * Request))
    : App.LRUCache :=
  foldl (λ c dr, (serve dr.1 c dr.2).1) c dreqs.

(** No key twice, no more entries than [max_size]. *)
Record cache_wf (c : App.LRUCache) : Prop := {
  wf_keys : NoDup (App.cache c).*1;
  wf_size : Z.of_nat (length (App.cache c)) ≤ App.max_size c;
}.

(** [key] is cached once, with [body], and at most [k] entries are newer. *)
Definition recent (key : string) (body : App.Body) (k : nat)
    (c : App.LRUCache) : Prop :=
  ∃ l1 l2, App.cache c = l1 ++ (key, body) :: l2
    ∧ (key ∉ l1.*1) ∧ (key ∉ l2.*1) ∧ (length l2 ≤ k)%nat.

(** The request passes the check of its query parameters
    ([page: int = Query(1, ge=1)]). *)
Definition valid (r : Request) : Prop :=
  match r with
  | ReqLeaderboard _ page _ => 1 ≤ page
  | _ => True
  end.

(** The body of a JSON answer. *)
Definition body_of (r : App.Response) : option App.Body :=
  match r with
  | App.Json body => Some body
  | _ => None
  end.

(* ===================================================================== *)
(** ** The scheduler of [crawler.py] *)
(* ===================================================================== *)

(** One turn of the loop of [run_at_hours], on the hour the clock shows:
    whether [func] is called, and [last_run_hour] after the turn. *)
Definition run_at_hours_turn (hours_list : list Z)
    (last_run_hour current_hour : Z) : bool * Z :=
  let called :=
    bool_decide (current_hour ∈ hours_list)
    && negb (current_hour =? last_run_hour) in
  let last_run_hour := if called then current_hour else last_run_hour in
  let last_run_hour :=
    if bool_decide (current_hour ∉ hours_list) then -1 else last_run_hour in
  (called, last_run_hour).

(** The loop, over the readings of the clock: each gives the hour of a turn
    and whether [func], if called on that turn, returns; the loop ends when
    [func] raises.  The result tells, turn by turn, whether [func] was
    called. *)
Fixpoint run_at_hours_loop (hours_list : list Z) (last_run_hour : Z)
    (clock : list (Z * bool)) : list bool :=
  match clock with
  | [] => []
  | (current_hour, returns) :: rest =>
      let '(called, last) :=
        run_at_hours_turn hours_list last_run_hour current_hour in
      if called && negb returns then [true]
      else called :: run_at_hours_loop hours_list last rest
  end.

Definition run_at_hours (hours_list : list Z) (clock : list (Z * bool))
    : list bool :=
  run_at_hours_loop hours_list (-1) clock.

(** The hour of the turn before turn [i] differs from [h] (the first turn
    has none before). *)
Definition hour_changed (clock : list (Z * bool)) (i : nat) (h : Z) : Prop :=
  match i with
  | O => True
  | S i' => ∃ h' b', clock !! i' = Some (h', b') ∧ h' ≠ h
  end.

(* ===================================================================== *)
(** ** The total that [deploy_site] publishes *)
(* ===================================================================== *)

(** The foreign key of [repo_latest.repo_id]: every row has its repo. *)
Definition latest_has_repo (d : DB) : Prop :=
  ∀ k rl, repo_latest d !! k = Some rl → is_Some (repo d !! k).

(** [total_repos] of [deploy_site]: the count of the rows of
    [repo_latest]. *)
Definition deploy_total_repos (d : DB) : Z :=
  Z.of_nat (length (map_to_list (repo_latest d))).

(* ===================================================================== *)
(** ** The language and topics a call stores *)
(* ===================================================================== *)

(** The language a [repo_latest] row names. *)
Definition language_of (d : DB) (rl : LatestRow) : option string :=
  rl_primary_language_id rl ≫= λ id, language d !! id.

(** The interning tables only grow. *)
Definition names_kept (d d' : DB) : Prop :=
  (∀ k v, language d !! k = Some v → language d' !! k = Some v)
  ∧ (∀ k v, topic d !! k = Some v → topic d' !! k = Some v).

(** The language id the second loop stores for a snapshot whose language
    name is [name]: none for a missing or empty name, else the id of a
    [language] row that carries the name. *)
Definition language_stored (d : DB) (name : option string)
    (pl_id : option Z) : Prop :=
  match truthy name with
  | None => pl_id = None
  | Some nm => ∃ id, pl_id = Some id ∧ language d !! id = Some nm
  end.

#[local] Set Warnings "-clear-no-such-hyp".

(* ===================================================================== *)
(** ** The response cache *)
(* ===================================================================== *)

Section cache.

Lemma lookup_key_Some key l v : App.lookup_key key l = Some v → (key, v) ∈ l.
Proof.
  unfold App.lookup_key. intros H.
  destruct (head _) as [[k b]|] eqn:Hh; simplify_eq/=.
  apply head_Some_elem_of in Hh.
  apply list_elem_of_filter in Hh as [? ?]. by simplify_eq/=.
Qed.

Lemma lookup_key_None key l v : App.lookup_key key l = None → (key, v) ∉ l.
Proof.
  unfold App.lookup_key. intros H Hin.
  destruct (head _) as [[k b]|] eqn:Hh; simplify_eq/=.
  apply head_None in Hh.
  assert ((key, v) ∈ filter (λ kv : string * App.Body, kv.1 = key) l) as Hf
    by (by apply list_elem_of_filter).
  rewrite Hh in Hf. by apply elem_of_nil in Hf.
Qed.

Lemma cache_get_incl key c kv :
  kv ∈ App.cache (App.cache_get key c).1 → kv ∈ App.cache c.
Proof.
  unfold App.cache_get. destruct (App.lookup_key key (App.cache c)) eqn:Hl; simpl; [|done].
  rewrite elem_of_app, list_elem_of_singleton. intros [H| ->].
  - unfold App.remove_key in H. by apply list_elem_of_filter in H as [_ ?].
  - by apply lookup_key_Some.
Qed.

Lemma cache_get_hit key c v :
  (App.cache_get key c).2 = Some v → (key, v) ∈ App.cache c.
Proof.
  unfold App.cache_get. destruct (App.lookup_key key (App.cache c)) eqn:Hl; simpl; [|done].
  intros [= ->]. by apply lookup_key_Some.
Qed.

Lemma cache_get_miss key c :
  (App.cache_get key c).2 = None → App.lookup_key key (App.cache c) = None.
Proof.
  unfold App.cache_get. by destruct (App.lookup_key key (App.cache c)).
Qed.

Lemma assign_incl key value l kv :
  kv ∈ App.assign key value l → kv = (key, value) ∨ kv ∈ l.
Proof.
  induction l as [|x l IH]; simpl.
  - rewrite list_elem_of_singleton. auto.
  - case_bool_decide; rewrite !elem_of_cons; intros [?|?]; auto.
    destruct IH; auto.
Qed.

Lemma cache_set_incl key value c kv :
  kv ∈ App.cache (App.cache_set key value c) → kv = (key, value) ∨ kv ∈ App.cache c.
Proof.
  unfold App.cache_set; simpl. intros H. apply (assign_incl key value).
  destruct (_ <? _); [|done].
  destruct (App.assign key value (App.cache c)); simpl in *; [done|].
  by apply elem_of_cons; right.
Qed.

Lemma cache_get_cases key c :
  (∃ c' v, App.cache_get key c = (c', Some v) ∧ (key, v) ∈ App.cache c
           ∧ ∀ kv, kv ∈ App.cache c' → kv ∈ App.cache c)
  ∨ (App.cache_get key c = (c, None) ∧ App.lookup_key key (App.cache c) = None).
Proof.
  pose proof (cache_get_incl key c) as Hincl.
  unfold App.cache_get in *.
  destruct (App.lookup_key key (App.cache c)) eqn:Hl; [left|right; done].
  eexists _, _. split; [done|]. split; [by apply lookup_key_Some|done].
Qed.

Lemma built_by_incl d c c' :
  built_by d c → (∀ kv, kv ∈ App.cache c' → kv ∈ App.cache c) → built_by d c'.
Proof. intros H Hincl key body Hin. apply H, Hincl, Hin. Qed.

Lemma built_by_set d c r body :
  built_by d c →
  App.lookup_key (key_of r) (App.cache c) = None →
  (serve d c r).2 = App.Json body →
  built_by d (App.cache_set (key_of r) body c).
Proof.
  intros H Hmiss Hs key b Hin.
  apply cache_set_incl in Hin as [[= -> ->]|Hin]; [|by apply H].
  by exists r, c.
Qed.

Lemma built_by_empty d : built_by d App.response_cache.
Proof. intros key body Hin. by apply elem_of_nil in Hin. Qed.

(** The ways a cached route answers: a hit, a body built and stored on a
    miss, or an error (raised by the handler, let through by it, or found
    by the check of the parameters) that leaves the cache as it was. *)
Lemma serve_cases d c r :
  (∃ c' v, serve d c r = (c', App.Json v) ∧ (key_of r, v) ∈ App.cache c
           ∧ ∀ kv, kv ∈ App.cache c' → kv ∈ App.cache c)
  ∨ (App.lookup_key (key_of r) (App.cache c) = None
     ∧ ∃ body, serve d c r = (App.cache_set (key_of r) body c, App.Json body))
  ∨ (App.lookup_key (key_of r) (App.cache c) = None
     ∧ ∃ status detail, serve d c r = (c, App.HTTPException status detail))
  ∨ (App.lookup_key (key_of r) (App.cache c) = None
     ∧ serve d c r = (c, App.InternalServerError))
  ∨ serve d c r = (c, App.RequestValidationError).
Proof.
  destruct r as [metric page fl|name|name|name]; simpl.
  - unfold App.api_leaderboard. destruct (page <? 1); [by do 4 right|].
    unfold App.leaderboard.
    destruct (cache_get_cases (App.leaderboard_key metric page fl) c)
      as [(c' & v & -> & ? & ?)|[-> Hmiss]].
    { left. by eexists _, _. }
    right. destruct (leaderboard d metric page fl) as [items|[]].
    + left. split; [done|]. by eexists.
    + by do 2 right; left.
    + by do 2 right; left.
    + by do 2 right; left.
    + right; left. split; [done|]. by eexists _, _.
    + by do 2 right; left.
  - unfold App.repo_latest.
    destruct (cache_get_cases ("repo:" +:+ name) c)
      as [(c' & v & -> & ? & ?)|[-> Hmiss]].
    { left. by eexists _, _. }
    right. destruct (get_repo_latest d name).
    + left. split; [done|]. by eexists.
    + right; left. split; [done|]. by eexists _, _.
  - unfold App.repo_history.
    destruct (cache_get_cases ("hist:" +:+ name) c)
      as [(c' & v & -> & ? & ?)|[-> Hmiss]].
    { left. by eexists _, _. }
    right; left. split; [done|]. by eexists.
  - unfold App.shields_rank.
    destruct (cache_get_cases ("rank:" +:+ name) c)
      as [(c' & v & -> & ? & ?)|[-> Hmiss]].
    { left. by eexists _, _. }
    right; left. split; [done|]. destruct (get_global_rank d name); by eexists.
Qed.

(** Serving a request keeps the cache made of bodies built on a miss. *)
Lemma serve_built_by d c r : built_by d c → built_by d (serve d c r).1.
Proof.
  intros H.
  destruct (serve_cases d c r)
    as [(c' & v & Hs & ? & ?)
       |[[Hmiss [body Hs]]|[[_ (? & ? & Hs)]|[[_ Hs]|Hs]]]].
  - rewrite Hs. by eapply built_by_incl.
  - rewrite Hs. simpl. apply built_by_set; [done..|]. by rewrite Hs.
  - by rewrite Hs.
  - by rewrite Hs.
  - by rewrite Hs.
Qed.

Lemma cache_after_built_by d reqs : built_by d (cache_after d reqs).
Proof.
  unfold cache_after.
  induction reqs as [|r reqs IH] using rev_ind; simpl.
  - apply built_by_empty.
  - rewrite foldl_app. simpl. by apply serve_built_by.
Qed.

Lemma key_of_repo r name : key_of r = "repo:" +:+ name → r = ReqRepo name.
Proof.
  destruct r as [? ? ?|n|n|n]; intros H; try discriminate H.
  injection H as H. change (n = name) in H. by subst.
Qed.

Lemma key_of_hist r name : key_of r = "hist:" +:+ name → r = ReqHistory name.
Proof.
  destruct r as [? ? ?|n|n|n]; intros H; try discriminate H.
  injection H as H. change (n = name) in H. by subst.
Qed.

Lemma key_of_rank r name : key_of r = "rank:" +:+ name → r = ReqRank name.
Proof.
  destruct r as [? ? ?|n|n|n]; intros H; try discriminate H.
  injection H as H. change (n = name) in H. by subst.
Qed.

End cache.

(* ===================================================================== *)
(** ** Lookups by name *)
(* ===================================================================== *)

Lemma elem_of_latest_join d j :
  j ∈ latest_join d ↔
  repo_latest d !! j_repo_id j = Some (j_rl j)
  ∧ repo d !! j_repo_id j = Some (j_r j).
Proof.
  unfold latest_join. rewrite list_elem_of_omap. split.
  - intros ([id rl] & Hin & Hj). apply elem_of_map_to_list in Hin.
    simpl in Hj. destruct (repo d !! id) eqn:Hr; simplify_eq/=. done.
  - intros [Hl Hr]. exists (j_repo_id j, j_rl j). split.
    + by apply elem_of_map_to_list.
    + simpl. rewrite Hr. by destruct j.
Qed.

Lemma named_rows_unknown d name :
  unknown_name d name →
  filter (λ j, r_name_with_owner (j_r j) = name) (latest_join d) = [].
Proof.
  intros Hun. apply elem_of_nil_inv. intros j Hj.
  apply list_elem_of_filter in Hj as [Hn Hj].
  apply elem_of_latest_join in Hj as [_ Hr]. by eapply Hun.
Qed.

Lemma get_repo_latest_unknown d name :
  unknown_name d name → get_repo_latest d name = None.
Proof. intros H. unfold get_repo_latest. by rewrite named_rows_unknown. Qed.

Lemma get_global_rank_unknown d name :
  unknown_name d name → get_global_rank d name = None.
Proof. intros H. unfold get_global_rank. by rewrite named_rows_unknown. Qed.

Lemma history_segments_unknown d name limit :
  unknown_name d name → history_segments d name limit = [].
Proof.
  intros Hun. unfold history_segments.
  destruct (head _) as [[id r]|] eqn:Hh; [|done].
  apply head_Some_elem_of, list_elem_of_filter in Hh as [Hn Hin].
  apply elem_of_map_to_list in Hin. by apply Hun in Hin.
Qed.

Lemma cache_get_None key c :
  App.lookup_key key (App.cache c) = None → App.cache_get key c = (c, None).
Proof. unfold App.cache_get. by intros ->. Qed.

(** On a cache of bodies built by the handlers, the three routes keyed by a
    repo name answer as if there were no cache. *)
Lemma repo_latest_transparent d c name :
  built_by d c →
  (App.repo_latest d c name).2 =
  match get_repo_latest d name with
  | None => App.HTTPException 404 "Repo not found"
  | Some result => App.Json (App.RepoBody result)
  end.
Proof.
  intros Hb.
  assert (∀ c0, App.lookup_key ("repo:" +:+ name) (App.cache c0) = None →
    (App.repo_latest d c0 name).2 =
    match get_repo_latest d name with
    | None => App.HTTPException 404 "Repo not found"
    | Some result => App.Json (App.RepoBody result)
    end) as Hmiss.
  { intros c0 H0. unfold App.repo_latest. rewrite (cache_get_None _ _ H0).
    by destruct (get_repo_latest d name). }
  destruct (cache_get_cases ("repo:" +:+ name) c)
    as [(c' & v & Hg & Hin & _)|[_ H0]]; [|by apply Hmiss].
  destruct (Hb _ _ Hin) as (r & c0 & Hk & H0 & Hs).
  apply key_of_repo in Hk as ->. simpl in Hs. rewrite Hmiss in Hs by done.
  unfold App.repo_latest. rewrite Hg. simpl. by rewrite Hs.
Qed.

Lemma repo_history_transparent d c name :
  built_by d c →
  (App.repo_history d c name).2 =
  App.Json (App.HistoryBody name (history_segments d name 2920)).
Proof.
  intros Hb.
  assert (∀ c0, App.lookup_key ("hist:" +:+ name) (App.cache c0) = None →
    (App.repo_history d c0 name).2 =
    App.Json (App.HistoryBody name (history_segments d name 2920))) as Hmiss.
  { intros c0 H0. unfold App.repo_history. by rewrite (cache_get_None _ _ H0). }
  destruct (cache_get_cases ("hist:" +:+ name) c)
    as [(c' & v & Hg & Hin & _)|[_ H0]]; [|by apply Hmiss].
  destruct (Hb _ _ Hin) as (r & c0 & Hk & H0 & Hs).
  apply key_of_hist in Hk as ->. simpl in Hs. rewrite Hmiss in Hs by done.
  unfold App.repo_history. rewrite Hg. simpl. by rewrite Hs.
Qed.

Lemma shields_rank_transparent d c name :
  built_by d c →
  (App.shields_rank d c name).2 =
  App.Json
    match get_global_rank d name with
    | None => App.BadgeBody "rank" "repo not found" "inactive" None
    | Some rank =>
        App.BadgeBody "global rank" ("#" +:+ Text.of_int rank)
          (if rank <=? 100 then "brightgreen"
           else if rank <=? 1000 then "orange" else "blue")
          (Some 3600)
    end.
Proof.
  intros Hb.
  assert (∀ c0, App.lookup_key ("rank:" +:+ name) (App.cache c0) = None →
    (App.shields_rank d c0 name).2 =
    App.Json
      match get_global_rank d name with
      | None => App.BadgeBody "rank" "repo not found" "inactive" None
      | Some rank =>
          App.BadgeBody "global rank" ("#" +:+ Text.of_int rank)
            (if rank <=? 100 then "brightgreen"
             else if rank <=? 1000 then "orange" else "blue")
            (Some 3600)
      end) as Hmiss.
  { intros c0 H0. unfold App.shields_rank. rewrite (cache_get_None _ _ H0).
    by destruct (get_global_rank d name). }
  destruct (cache_get_cases ("rank:" +:+ name) c)
    as [(c' & v & Hg & Hin & _)|[_ H0]]; [|by apply Hmiss].
  destruct (Hb _ _ Hin) as (r & c0 & Hk & H0 & Hs).
  apply key_of_rank in Hk as ->. simpl in Hs. rewrite Hmiss in Hs by done.
  unfold App.shields_rank. rewrite Hg. simpl. by rewrite Hs.
Qed.

(** C9 (as amended).  A lookup by a name no [repo] row carries answers 404 on
    [/api/repo] and on [/{owner}/{repo}], 200 with the "repo not found" badge
    on [/api/rank], and 200 with an empty segment list on
    [/api/repo/history], whatever requests the process has served before. *)
Theorem lookup_miss_responses (d : DB) (reqs : list Request) (name : string) :
  unknown_name d name →
  (App.repo_latest d (cache_after d reqs) name).2
    = App.HTTPException 404 "Repo not found"
  ∧ (∀ owner repo, owner +:+ "/" +:+ repo = name →
       App.repo_short_url d owner repo = App.HTTPException 404 "Repo not found")
  ∧ (App.shields_rank d (cache_after d reqs) name).2
    = App.Json (App.BadgeBody "rank" "repo not found" "inactive" None)
  ∧ (App.repo_history d (cache_after d reqs) name).2
    = App.Json (App.HistoryBody name []).
Proof.
  intros Hun. pose proof (cache_after_built_by d reqs) as Hb.
  repeat split.
  - rewrite repo_latest_transparent by done.
    by rewrite get_repo_latest_unknown.
  - intros owner repo <-. unfold App.repo_short_url.
    by rewrite get_global_rank_unknown.
  - rewrite shields_rank_transparent by done.
    by rewrite get_global_rank_unknown.
  - rewrite repo_history_transparent by done.
    by rewrite history_segments_unknown.
Qed.

(** After scenario S1 the store knows [a/x] only. *)
Lemma lookup_miss_responses_witness :
  unknown_name (conn scenario_S1) "nope/x"
  ∧ App.status_of
      (App.repo_latest (conn scenario_S1)
         (cache_after (conn scenario_S1) [ReqRank "nope/x"; ReqRepo "a/x"])
         "nope/x").2 = 404.
Proof.
  assert (unknown_name (conn scenario_S1) "nope/x") as H.
  { intros id r Hr. apply elem_of_map_to_list in Hr.
    vm_compute in Hr. by apply list_elem_of_singleton in Hr as [= -> ->]. }
  split; [done|].
  by rewrite (proj1 (lookup_miss_responses (conn scenario_S1)
                       [ReqRank "nope/x"; ReqRepo "a/x"] "nope/x" H)).
Defined.

(** C9, counterexample: [/api/repo/history] with an unknown name answers 200,
    not 404. *)
Lemma history_unknown_name_is_200 :
  unknown_name empty_db "nope/x"
  ∧ App.status_of (App.repo_history empty_db App.response_cache "nope/x").2 = 200
  ∧ App.status_of (App.repo_history empty_db App.response_cache "nope/x").2 ≠ 404.
Proof. split; [by intros id r Hr|]. by vm_compute. Qed.

(* ===================================================================== *)
(** ** Which requests the leaderboard rejects *)
(* ===================================================================== *)

Ltac case_metric :=
  repeat match goal with
         | |- context [String.eqb ?a ?b] =>
             destruct (String.eqb_spec a b) as [->|?]
         end.

Lemma trending_map_Some metric :
  is_Some (trending_map metric) ↔ metric ∈ trending_metrics.
Proof.
  unfold trending_map, trending_metrics. case_metric.
  all: rewrite list_elem_of_In; simpl.
  all: first [ split; [intros _; tauto | intros _; eexists; reflexivity]
             | split; [by intros [? [=]] | intros H; exfalso; intuition congruence] ].
Qed.

Lemma metric_map_Some metric :
  is_Some (metric_map metric) ↔ metric ∈ static_metrics.
Proof.
  unfold metric_map, static_metrics. case_metric.
  all: rewrite list_elem_of_In; simpl.
  all: first [ split; [intros _; tauto | intros _; eexists; reflexivity]
             | split; [by intros [? [=]] | intros H; exfalso; intuition congruence] ].
Qed.

Lemma bind_int_inl z : int64 z → bind_int z = inl z.
Proof. intros H. unfold bind_int. by rewrite bool_decide_eq_true_2. Qed.

Lemma bind_int_inr z : ¬ int64 z → bind_int z = inr OverflowError.
Proof. intros H. unfold bind_int. by rewrite bool_decide_eq_false_2. Qed.

(** The offset of page 1 and of every page up to 92233720368547759 fits the
    store's integers. *)
Lemma offset_int64 page :
  1 ≤ page → int64 ((page - 1) * page_size) ↔ page ≤ 92233720368547759.
Proof. unfold int64, page_size. lia. Qed.

(** The operation raises [ValueError] for an unrecognised metric and
    [OverflowError] for an offset the store cannot take, and nothing
    else. *)
Lemma leaderboard_raises d metric page fl e :
  leaderboard d metric page fl = inr e ↔
  (e = ValueError ∧ ¬ recognised metric)
  ∨ (e = OverflowError ∧ recognised metric
     ∧ ¬ int64 ((page - 1) * page_size)).
Proof.
  unfold leaderboard, trending_leaderboard, recognised.
  rewrite <-trending_map_Some, <-metric_map_Some.
  assert (∀ (rows : Z → list Obj),
    is_Some (metric_map metric) ∨ is_Some (trending_map metric) →
    (do offset ← bind_int ((page - 1) * page_size); inl (rows offset))
    = inr e ↔
    (e = ValueError
     ∧ ¬ (is_Some (metric_map metric) ∨ is_Some (trending_map metric)))
    ∨ (e = OverflowError
       ∧ (is_Some (metric_map metric) ∨ is_Some (trending_map metric))
       ∧ ¬ int64 ((page - 1) * page_size))) as Hrec.
  { intros rows Hr.
    destruct (decide (int64 ((page - 1) * page_size))) as [Hi|Hi].
    - rewrite (bind_int_inl _ Hi). simpl. split; [done|].
      by intros [[_ ?]|(_ & _ & ?)].
    - rewrite (bind_int_inr _ Hi). simpl. split.
      + intros [= <-]. by right.
      + by intros [[_ ?]|(-> & _ & _)]. }
  destruct (trending_map metric) as [w|] eqn:Ht.
  { apply (Hrec (λ offset, row_to_obj <$> limit_offset page_size offset _)).
    right. by eexists. }
  destruct (metric_map metric) as [key|] eqn:Hm.
  { apply (Hrec (λ offset, row_to_obj <$> limit_offset page_size offset _)).
    left. by eexists. }
  split.
  - intros [= <-]. left. split; [done|]. by intros [[? [=]]|[? [=]]].
  - by intros [[-> _]|(_ & [[? [=]]|[? [=]]] & _)].
Qed.

Lemma leaderboard_returns d metric page fl :
  (∃ items, leaderboard d metric page fl = inl items) ↔
  recognised metric ∧ int64 ((page - 1) * page_size).
Proof.
  destruct (leaderboard d metric page fl) as [items|e] eqn:Hl.
  - split; [intros _|by eexists].
    destruct (decide (recognised metric)) as [Hr|Hr].
    + split; [done|].
      destruct (decide (int64 ((page - 1) * page_size))) as [Hi|Hi]; [done|].
      assert (leaderboard d metric page fl = inr OverflowError) as Hl'
        by (apply leaderboard_raises; by right).
      congruence.
    + assert (leaderboard d metric page fl = inr ValueError) as Hl'
        by (apply leaderboard_raises; by left).
      congruence.
  - split; [by intros [? [=]]|]. intros [Hr Hi].
    apply leaderboard_raises in Hl as [[_ ?]|(_ & _ & ?)]; done.
Qed.

Lemma limit_offset_nonpos {A} limit offset (rows : list A) :
  offset ≤ 0 → limit_offset limit offset rows = limit_offset limit 0 rows.
Proof.
  intros H. unfold limit_offset.
  by replace (Z.to_nat offset) with (Z.to_nat 0) by lia.
Qed.

(** The store reads a negative [OFFSET] as zero: every page below 1 whose
    offset it can take is the first page. *)
Lemma leaderboard_page_below_1 d metric page fl :
  page ≤ 1 → int64 ((page - 1) * page_size) →
  leaderboard d metric page fl = leaderboard d metric 1 fl.
Proof.
  intros H Hi. unfold leaderboard, trending_leaderboard.
  rewrite (bind_int_inl _ Hi), (bind_int_inl ((1 - 1) * page_size))
    by (unfold int64, page_size; lia).
  simpl. destruct (trending_map metric).
  - by rewrite (limit_offset_nonpos _ ((page - 1) * page_size))
      by (unfold page_size; lia).
  - destruct (metric_map metric); [|done].
    by rewrite (limit_offset_nonpos _ ((page - 1) * page_size))
      by (unfold page_size; lia).
Qed.

(** C5 (as amended).  The leaderboard operation raises [ValueError] exactly
    when the metric is neither a static key nor a trending key, whatever
    the page.  For a recognised metric it returns exactly when the offset
    [(page - 1) * 100] fits a signed 64-bit integer, and raises
    [OverflowError] otherwise; a page below 1 that it takes is served as
    page 1.  Over HTTP the route answers 400 only for an unrecognised
    metric on a page of at least 1, and does so whenever the request is not
    answered from the cache; a page below 1 is rejected by the route's own
    validation (422) before the operation runs; a recognised metric with a
    page from 1 to 92233720368547759 is answered 200; beyond that page the
    offset does not fit, the handler lets the [OverflowError] through and
    the answer is 500 unless the cache has one, and 500 is answered in no
    other case. *)
Theorem leaderboard_invalid_argument (d : DB) (c : App.LRUCache)
    (metric : string) (page : Z) (fl : Filters) :
  (leaderboard d metric page fl = inr ValueError ↔ ¬ recognised metric)
  ∧ (leaderboard d metric page fl = inr OverflowError ↔
       recognised metric ∧ ¬ int64 ((page - 1) * 100))
  ∧ ((∃ items, leaderboard d metric page fl = inl items) ↔
       recognised metric ∧ int64 ((page - 1) * 100))
  ∧ (page ≤ 1 → int64 ((page - 1) * 100) →
       leaderboard d metric page fl = leaderboard d metric 1 fl)
  ∧ (App.status_of (App.api_leaderboard d c metric page fl).2 = 400 →
       ¬ recognised metric ∧ 1 ≤ page)
  ∧ (¬ recognised metric → 1 ≤ page →
       App.lookup_key (App.leaderboard_key metric page fl) (App.cache c) = None →
       App.api_leaderboard d c metric page fl
       = (c, App.HTTPException 400 ("Unsupported metric: " +:+ metric)))
  ∧ (page < 1 →
       App.api_leaderboard d c metric page fl = (c, App.RequestValidationError))
  ∧ (recognised metric → 1 ≤ page ≤ 92233720368547759 →
       App.status_of (App.api_leaderboard d c metric page fl).2 = 200)
  ∧ (recognised metric → 92233720368547759 < page →
       App.lookup_key (App.leaderboard_key metric page fl) (App.cache c) = None →
       App.api_leaderboard d c metric page fl = (c, App.InternalServerError))
  ∧ (App.status_of (App.api_leaderboard d c metric page fl).2 = 500 →
       recognised metric ∧ 92233720368547759 < page).
Proof.
  change 100 with page_size.
  assert (∀ e, leaderboard d metric page fl = inr e →
               match e with
               | ValueError => ¬ recognised metric
               | OverflowError =>
                   recognised metric ∧ ¬ int64 ((page - 1) * page_size)
               | _ => False
               end) as Hexn.
  { intros e [[-> ?]|(-> & ? & ?)]%leaderboard_raises; done. }
  split; [|split; [|split; [|split; [|split; [|split; [|split; [|split;
    [|split]]]]]]]].
  - rewrite leaderboard_raises. split; [by intros [[_ ?]|[[=] _]]|by left].
  - rewrite leaderboard_raises.
    split; [by intros [[[=] _]|(_ & ? & ?)]|by right].
  - apply leaderboard_returns.
  - apply leaderboard_page_below_1.
  - unfold App.api_leaderboard, App.leaderboard.
    destruct (Z.ltb_spec page 1); [done|].
    destruct (App.cache_get _ c) as [c1 [cached|]]; [done|].
    destruct (leaderboard d metric page fl) as [items|e] eqn:Hl; [done|].
    specialize (Hexn e eq_refl). by destruct e.
  - intros Hn Hp Hmiss. unfold App.api_leaderboard, App.leaderboard.
    destruct (Z.ltb_spec page 1); [lia|].
    rewrite (cache_get_None _ _ Hmiss).
    assert (leaderboard d metric page fl = inr ValueError) as ->
      by (apply leaderboard_raises; by left).
    done.
  - intros Hp. unfold App.api_leaderboard.
    by destruct (Z.ltb_spec page 1); [|lia].
  - intros Hrec Hp. unfold App.api_leaderboard, App.leaderboard.
    destruct (Z.ltb_spec page 1); [lia|].
    destruct (App.cache_get _ c) as [c1 [cached|]]; [done|].
    destruct (proj2 (leaderboard_returns d metric page fl)) as [items ->];
      [|done].
    split; [done|]. apply offset_int64; lia.
  - intros Hrec Hp Hmiss. unfold App.api_leaderboard, App.leaderboard.
    destruct (Z.ltb_spec page 1); [lia|].
    rewrite (cache_get_None _ _ Hmiss).
    assert (leaderboard d metric page fl = inr OverflowError) as ->.
    { apply leaderboard_raises. right. split; [done|]. split; [done|].
      rewrite offset_int64 by lia. lia. }
    done.
  - unfold App.api_leaderboard, App.leaderboard.
    destruct (Z.ltb_spec page 1); [done|].
    destruct (App.cache_get _ c) as [c1 [cached|]]; [done|].
    destruct (leaderboard d metric page fl) as [items|e] eqn:Hl; [done|].
    specialize (Hexn e eq_refl). destruct e; try done.
    intros _. destruct Hexn as [Hr Hi]. split; [done|].
    rewrite offset_int64 in Hi by lia. lia.
Qed.

Lemma leaderboard_invalid_argument_witness :
  ¬ recognised "star"
  ∧ App.api_leaderboard empty_db App.response_cache "star" 1 no_filters
    = (App.response_cache, App.HTTPException 400 "Unsupported metric: star").
Proof.
  assert (¬ recognised "star") as Hn.
  { unfold recognised, static_metrics, trending_metrics.
    rewrite !list_elem_of_In. simpl. intuition congruence. }
  split; [done|].
  apply (leaderboard_invalid_argument empty_db App.response_cache "star" 1
           no_filters); [done|lia|reflexivity].
Defined.

(** C5, counterexample: with a recognised metric and page 0 the operation
    returns a page, and the route answers 422, not 400; and a recognised
    metric with a page of at least 1 does not always succeed: on page
    92233720368547760 the operation raises and the route answers 500. *)
Lemma nonpositive_page_is_not_400 :
  leaderboard empty_db "stars" 0 no_filters = inl []
  ∧ App.status_of
      (App.api_leaderboard empty_db App.response_cache "stars" 0 no_filters).2
    = 422
  ∧ leaderboard empty_db "stars" 92233720368547760 no_filters
    = inr OverflowError
  ∧ App.status_of
      (App.api_leaderboard empty_db App.response_cache "stars"
         92233720368547760 no_filters).2
    = 500.
Proof. by vm_compute. Qed.

(* ===================================================================== *)
(** ** Statements, one table at a time *)
(* ===================================================================== *)

Section executemany.
Context {P : Type} (stmt : P → DB → DB + exn).

Lemma executemany_cons p ps d d' :
  executemany stmt (p :: ps) d = inl d' ↔
  ∃ d1, stmt p d = inl d1 ∧ executemany stmt ps d1 = inl d'.
Proof.
  simpl. destruct (stmt p d) as [d1|e]; split.
  - intros H. by exists d1.
  - by intros (? & [= <-] & ?).
  - done.
  - by intros (? & [=] & _).
Qed.

Lemma executemany_app ps qs d d' :
  executemany stmt (ps ++ qs) d = inl d' ↔
  ∃ d1, executemany stmt ps d = inl d1 ∧ executemany stmt qs d1 = inl d'.
Proof.
  revert d. induction ps as [|p ps IH]; intros d; simpl.
  - split; [intros H; by exists d | by intros (? & [= <-] & ?)].
  - destruct (stmt p d) as [d1|e]; [apply IH|].
    split; [done | by intros (? & [=] & _)].
Qed.

(** A relation every successful statement respects is respected by the
    whole run. *)
Lemma executemany_rel (R : relation DB) `{!PreOrder R} ps d d' :
  (∀ p d0 d1, p ∈ ps → stmt p d0 = inl d1 → R d0 d1) →
  executemany stmt ps d = inl d' → R d d'.
Proof.
  revert d. induction ps as [|p ps IH]; intros d Hstep; simpl.
  - by intros [= <-].
  - destruct (stmt p d) as [d1|e] eqn:Hp; [|done]. intros H.
    trans d1.
    + eapply Hstep; [|done]. by left.
    + apply IH; [|done]. intros ? ? ? ?. apply Hstep. by right.
Qed.

End executemany.


#[global] Instance same_but_repo_preorder : PreOrder same_but_repo.
Proof.
  split.
  - by intros d.
  - intros d1 d2 d3 [] []. split; congruence.
Qed.


#[global] Instance same_but_latest_preorder : PreOrder same_but_latest.
Proof.
  split.
  - by intros d.
  - intros d1 d2 d3 [] []. split; congruence.
Qed.


#[global] Instance same_but_hist_preorder : PreOrder same_but_hist.
Proof.
  split.
  - by intros d.
  - intros d1 d2 d3 [] []. split; congruence.
Qed.


#[global] Instance same_but_topics_preorder : PreOrder same_but_topics.
Proof.
  split.
  - by intros d.
  - intros d1 d2 d3 [] []. split; congruence.
Qed.


#[global] Instance same_but_names_preorder : PreOrder same_but_names.
Proof.
  split.
  - by intros d.
  - intros d1 d2 d3 [] []. split; congruence.
Qed.

Lemma write_repo_inl t d d' :
  write_repo t d = inl d' ↔ names_unique t ∧ d' = set_repo t d.
Proof.
  unfold write_repo. case_bool_decide; split.
  - by intros [= <-].
  - by intros [_ ->].
  - done.
  - by intros [? _].
Qed.

(* --------------------------------------------------------------------- *)
(** *** The conflict deletes *)

Lemma elem_of_conflicting_ids d name id k :
  k ∈ conflicting_ids d name id ↔
  ∃ r, repo d !! k = Some r ∧ name_conflict name id (k, r).
Proof.
  unfold conflicting_ids. rewrite elem_of_dom. split.
  - intros [r Hr]. apply map_lookup_filter_Some in Hr as [? ?]. by exists r.
  - intros (r & ? & ?). exists r. by apply map_lookup_filter_Some.
Qed.

Lemma conflicts_with_spec t p k :
  conflicts_with t k p ↔
  ∃ r, t !! k = Some r ∧ name_conflict (p_name p) (p_id p) (k, r).
Proof.
  unfold conflicts_with. destruct (t !! k) as [r|].
  - split; [by exists r | by intros (? & [= <-] & ?)].
  - split; [done | by intros (? & [=] & _)].
Qed.

Lemma delete_latest_of_conflict_frame p d d' :
  delete_latest_of_conflict p d = inl d' → same_but_latest d d'.
Proof. intros [= <-]. by split. Qed.

Lemma delete_topics_of_conflict_frame p d d' :
  delete_topics_of_conflict p d = inl d' → same_but_topics d d'.
Proof. intros [= <-]. by split. Qed.

Lemma delete_latest_many_frame rows d d' :
  executemany delete_latest_of_conflict rows d = inl d' → same_but_latest d d'.
Proof.
  apply (executemany_rel _ same_but_latest). intros ? ? ? _.
  apply delete_latest_of_conflict_frame.
Qed.

Lemma delete_topics_many_frame rows d d' :
  executemany delete_topics_of_conflict rows d = inl d' → same_but_topics d d'.
Proof.
  apply (executemany_rel _ same_but_topics). intros ? ? ? _.
  apply delete_topics_of_conflict_frame.
Qed.

Lemma delete_latest_many_lookup rows d d' k :
  executemany delete_latest_of_conflict rows d = inl d' →
  repo_latest d' !! k =
  if decide (disassociated (repo d) rows k) then None else repo_latest d !! k.
Proof.
  revert d. induction rows as [|p rows IH]; intros d.
  - intros [= <-]. by rewrite decide_False by (by intros ?%Exists_nil).
  - intros (d1 & [= <-] & H)%executemany_cons.
    rewrite (IH _ H). simpl. unfold disassociated.
    destruct (decide (Exists (conflicts_with (repo d) k) rows)) as [He|He].
    { rewrite decide_True; [done|by right]. }
    destruct (decide (conflicts_with (repo d) k p)) as [Hc|Hc].
    + rewrite decide_True by (by left).
      apply map_lookup_filter_None. right. intros rl _. simpl.
      intros Hn. apply Hn.
      by apply elem_of_conflicting_ids, conflicts_with_spec.
    + rewrite decide_False by (by intros [?|?]%Exists_cons).
      destruct (repo_latest d !! k) as [rl|] eqn:Hl.
      * apply map_lookup_filter_Some. split; [done|]. simpl.
        by rewrite elem_of_conflicting_ids, <-conflicts_with_spec.
      * apply map_lookup_filter_None. by left.
Qed.

Lemma delete_topics_many_elem rows d d' rt :
  executemany delete_topics_of_conflict rows d = inl d' →
  rt ∈ repo_topic_latest d' ↔
  rt ∈ repo_topic_latest d ∧ ¬ disassociated (repo d) rows rt.1.
Proof.
  revert d. induction rows as [|p rows IH]; intros d.
  - intros [= <-]. split; [|by intros [? _]].
    intros ?. split; [done|]. by intros ?%Exists_nil.
  - intros (d1 & [= <-] & H)%executemany_cons.
    rewrite (IH _ H). simpl. rewrite elem_of_filter.
    rewrite elem_of_conflicting_ids, <-conflicts_with_spec.
    unfold disassociated. rewrite Exists_cons. tauto.
Qed.

(* --------------------------------------------------------------------- *)
(** *** The renames *)

Lemma rename_conflict_inl p d d' :
  rename_conflict p d = inl d' →
  same_but_repo d d'
  ∧ names_unique (repo d')
  ∧ ∀ k, repo d' !! k = rename_step p k <$> repo d !! k.
Proof.
  unfold rename_conflict. intros [Hu ->]%write_repo_inl.
  split; [by split|]. split; [done|]. intros k. simpl.
  rewrite map_lookup_imap. unfold rename_step.
  by destruct (repo d !! k).
Qed.

Lemma rename_many rows d d' :
  executemany rename_conflict rows d = inl d' →
  same_but_repo d d'
  ∧ (rows ≠ [] → names_unique (repo d'))
  ∧ ∀ k, repo d' !! k = rename_run rows k <$> repo d !! k.
Proof.
  revert d. induction rows as [|p rows IH]; intros d.
  - intros [= <-]. split; [done|]. split; [done|]. intros k. simpl.
    by destruct (repo d !! k).
  - intros (d1 & (Hf1 & Hu1 & Hl1)%rename_conflict_inl & H)%executemany_cons.
    destruct (IH _ H) as (Hf & Hu & Hl). split; [by trans d1|]. split.
    + intros _. destruct rows; [|by apply Hu]. by injection H as <-.
    + intros k. rewrite Hl, Hl1. simpl. by destruct (repo d !! k).
Qed.




(* --------------------------------------------------------------------- *)
(** *** The [repo] upsert *)

Lemma upsert_repo_inl p d d' :
  upsert_repo p d = inl d' →
  same_but_repo d d'
  ∧ names_unique (repo d')
  ∧ is_Some (repo d' !! p_id p)
  ∧ (∃ name, p_name p = Some name ∧ ∀ r, repo d' !! p_id p = Some r →
                                         r_name_with_owner r = name)
  ∧ ∀ k, k ≠ p_id p → repo d' !! k = repo d !! k.
Proof.
  unfold upsert_repo. destruct (p_name p) as [name|]; [|done].
  intros [Hu ->]%write_repo_inl. simpl.
  split; [by split|]. split; [done|]. rewrite lookup_insert_eq.
  split; [done|]. split.
  - exists name. split; [done|]. by intros r [= <-].
  - intros k Hk. by rewrite lookup_insert_ne.
Qed.

Lemma upsert_repo_many rows d d' :
  executemany upsert_repo rows d = inl d' →
  same_but_repo d d'
  ∧ (rows ≠ [] → names_unique (repo d'))
  ∧ (∀ k, is_Some (repo d !! k) → is_Some (repo d' !! k))
  ∧ (∀ p, p ∈ rows → is_Some (repo d' !! p_id p))
  ∧ ∀ k, k ∉ p_id <$> rows → repo d' !! k = repo d !! k.
Proof.
  revert d. induction rows as [|p rows IH]; intros d.
  - intros [= <-]. repeat split; try done. by intros p ?%elem_of_nil.
  - intros (d1 & (Hf1 & Hu1 & Hs1 & _ & Hl1)%upsert_repo_inl & H)%executemany_cons.
    destruct (IH _ H) as (Hf & Hu & Hdom & Hin & Hl).
    split; [by trans d1|]. split; [|split; [|split]].
    + intros _. destruct rows; [|by apply Hu]. by injection H as <-.
    + intros k Hk. apply Hdom.
      destruct (decide (k = p_id p)) as [->|Hne]; [done|]. by rewrite Hl1.
    + intros p' [->|Hp']%elem_of_cons; [by apply Hdom|by apply Hin].
    + intros k Hk. rewrite fmap_cons, not_elem_of_cons in Hk.
      destruct Hk as [Hk1 Hk2]. by rewrite Hl, Hl1.
Qed.

(* ===================================================================== *)
(** ** The pass: run id, fresh snapshots, the plan *)
(* ===================================================================== *)

Lemma begin_run_frame fetched_at_unix now s :
  let s1 := (begin_run fetched_at_unix now s).1 in
  repo (conn s1) = repo (conn s)
  ∧ language (conn s1) = language (conn s)
  ∧ topic (conn s1) = topic (conn s)
  ∧ repo_latest (conn s1) = repo_latest (conn s)
  ∧ repo_metrics_hist (conn s1) = repo_metrics_hist (conn s)
  ∧ repo_topic_latest (conn s1) = repo_topic_latest (conn s)
  ∧ _processed_repo_ids s1 = _processed_repo_ids s
  ∧ _run_id s1 = Some (begin_run fetched_at_unix now s).2.
Proof. unfold begin_run. by destruct (_run_id s) eqn:Hr. Qed.

(** Once the run is begun, [begin_run] returns it and changes nothing. *)
Lemma begin_run_begun fetched_at_unix now s r :
  _run_id s = Some r → begin_run fetched_at_unix now s = (s, r).
Proof. unfold begin_run. by intros ->. Qed.

Lemma fresh_scan_spec seen nodes :
  let seen' := (fresh_scan seen nodes).1 in
  let fresh := (fresh_scan seen nodes).2 in
  Forall (λ n, ∃ i, databaseId n = Present i ∧ 0 < i ∧ i ∉ seen) fresh
  ∧ NoDup (node_ids fresh)
  ∧ (∀ n, n ∈ fresh → n ∈ nodes)
  ∧ ∀ i, i ∈ seen' ↔ i ∈ seen ∨ i ∈ node_ids fresh.
Proof.
  revert seen. induction nodes as [|n nodes IH]; intros seen; simpl.
  { split; [constructor|]. split; [apply NoDup_nil_2|]. split; [done|].
    intros i. unfold node_ids. simpl. rewrite elem_of_nil. tauto. }
  assert (
    let seen' := (fresh_scan seen nodes).1 in
    let fresh := (fresh_scan seen nodes).2 in
    Forall (λ n, ∃ i, databaseId n = Present i ∧ 0 < i ∧ i ∉ seen) fresh
    ∧ NoDup (node_ids fresh)
    ∧ (∀ n0, n0 ∈ fresh → n0 ∈ n :: nodes)
    ∧ ∀ i, i ∈ seen' ↔ i ∈ seen ∨ i ∈ node_ids fresh) as Hskip.
  { destruct (IH seen) as (H1 & H2 & H3 & H4).
    split; [done|]. split; [done|]. split; [|done].
    intros ? ?. right. by apply H3. }
  destruct (databaseId n) as [| |i] eqn:Hid; simpl; [by apply Hskip..|].
  case_bool_decide as Hpos; [by apply Hskip|].
  case_bool_decide as Hseen; [by apply Hskip|].
  clear Hskip. specialize (IH ({[i]} ∪ seen)).
  destruct (fresh_scan ({[i]} ∪ seen) nodes) as [seen' fresh]. simpl in *.
  destruct IH as (H1 & H2 & H3 & H4).
  assert (i ∉ node_ids fresh) as Hi.
  { unfold node_ids. rewrite list_elem_of_omap. intros (n' & Hn' & Hg).
    eapply Forall_forall in H1 as (j & Hj & _ & Hnj); [|done].
    rewrite Hj in Hg. simpl in Hg. set_solver. }
  split; [|split; [|split]].
  - constructor.
    + exists i. repeat split; [done|lia|done].
    + eapply Forall_impl; [exact H1|]. simpl.
      intros n' (j & ? & ? & ?). exists j. set_solver.
  - unfold node_ids. simpl. rewrite Hid. simpl. by apply NoDup_cons_2.
  - intros n' [->|?]%elem_of_cons; [by left|right; by apply H3].
  - intros j. rewrite H4. unfold node_ids at 2. simpl. rewrite Hid. simpl.
    rewrite elem_of_cons. set_solver.
Qed.

Lemma repo_params_inl n p :
  repo_params n = inl p →
  databaseId n = Present (p_id p) ∧ index (nameWithOwner n) = inl (p_name p).
Proof.
  unfold repo_params. destruct (databaseId n); simpl; try done.
  destruct (index (nameWithOwner n)); simpl; [|done]. by intros [= <-].
Qed.

Lemma build_repo_rows_inl fresh rows :
  build_repo_rows fresh = inl rows →
  Forall2 (λ n p, databaseId n = Present (p_id p)
                  ∧ index (nameWithOwner n) = inl (p_name p)) fresh rows.
Proof.
  revert rows. induction fresh as [|n fresh IH]; intros rows; simpl.
  - intros [= <-]. constructor.
  - destruct (repo_params n) as [p|] eqn:Hp; simpl; [|done].
    destruct (build_repo_rows fresh) as [ps|]; simpl; [|done].
    intros [= <-]. constructor; [by apply repo_params_inl|by apply IH].
Qed.

Lemma build_repo_rows_ids fresh rows :
  build_repo_rows fresh = inl rows → p_id <$> rows = node_ids fresh.
Proof.
  intros H%build_repo_rows_inl. induction H as [|n p fresh rows [Hid _] _ IH].
  - done.
  - unfold node_ids. simpl. rewrite Hid. simpl. by f_equal.
Qed.

(* --------------------------------------------------------------------- *)
(** *** Interning *)

Lemma get_or_create_language_id_frame name s :
  let s' := (_get_or_create_language_id name s).1 in
  same_but_names (conn s) (conn s')
  ∧ _run_id s' = _run_id s
  ∧ _processed_repo_ids s' = _processed_repo_ids s.
Proof.
  unfold _get_or_create_language_id.
  destruct name as [nm|]; [|done].
  case_bool_decide; [done|].
  destruct (_lang_cache s !! nm); [done|].
  destruct (id_by_name _ nm); simpl; by repeat split.
Qed.

Lemma get_or_create_topic_id_frame name s :
  let s' := (_get_or_create_topic_id name s).1 in
  same_but_names (conn s) (conn s')
  ∧ _run_id s' = _run_id s
  ∧ _processed_repo_ids s' = _processed_repo_ids s.
Proof.
  unfold _get_or_create_topic_id.
  destruct (_topic_cache s !! name); [done|].
  simpl; by repeat split.
Qed.

Lemma intern_topics_spec repo_id topics s :
  let s' := (intern_topics repo_id topics s).1 in
  same_but_names (conn s) (conn s')
  ∧ _run_id s' = _run_id s
  ∧ _processed_repo_ids s' = _processed_repo_ids s
  ∧ Forall (λ rt : Z * Z, rt.1 = repo_id) (intern_topics repo_id topics s).2.
Proof.
  revert s. induction topics as [|tname topics IH]; intros s; simpl.
  - by repeat split.
  - pose proof (get_or_create_topic_id_frame tname s) as (Hf1 & Hr1 & Hp1).
    destruct (_get_or_create_topic_id tname s) as [s1 tid]. simpl in *.
    specialize (IH s1).
    destruct (intern_topics repo_id topics s1) as [s2 pairs]. simpl in *.
    destruct IH as (Hf & Hr & Hp & Hall).
    split; [by trans (conn s1)|]. split; [congruence|]. split; [congruence|].
    by constructor.
Qed.

(* --------------------------------------------------------------------- *)
(** *** The plan *)

Lemma planned_refl run_id existing pl : planned run_id existing [] pl pl.
Proof.
  split; simpl; rewrite ?app_nil_r; try done.
  - exists []. rewrite app_nil_r. split; [done|constructor].
  - exists []. rewrite app_nil_r. split; [done|constructor].
Qed.

Lemma planned_snoc run_id existing m ms pl0 pl1 pl2 :
  planned run_id existing [m] pl0 pl1 →
  planned run_id existing ms pl1 pl2 →
  planned run_id existing (m :: ms) pl0 pl2.
Proof.
  intros [(r1 & Hl1 & Hf1) Hi1 He1 Hr1 (p1 & Hp1 & Ha1)]
         [(r2 & Hl2 & Hf2) Hi2 He2 Hr2 (p2 & Hp2 & Ha2)].
  simpl in *. rewrite app_nil_r in Hi1, He1.
  split; simpl.
  - exists (r1 ++ r2). rewrite Hl2, Hl1, <-app_assoc. split; [done|].
    change (m :: ms) with ([m] ++ ms). by apply Forall2_app.
  - by rewrite Hi2, Hi1, <-app_assoc.
  - by rewrite He2, He1, <-app_assoc.
  - by rewrite Hr2, Hr1, <-app_assoc.
  - exists (p1 ++ p2). rewrite Hp2, Hp1, <-app_assoc. split; [done|].
    apply Forall_app. split.
    + eapply Forall_impl; [exact Ha1|]. simpl. intros rt Hrt.
      apply elem_of_cons. left. by apply list_elem_of_singleton in Hrt.
    + eapply Forall_impl; [exact Ha2|]. simpl. intros rt Hrt.
      by apply elem_of_cons; right.
Qed.

Lemma plan_node_frame run_id existing n s pl :
  let s' := (plan_node run_id existing n s pl).1 in
  same_but_names (conn s) (conn s')
  ∧ _run_id s' = _run_id s
  ∧ _processed_repo_ids s' = _processed_repo_ids s.
Proof.
  unfold plan_node. destruct (node_metrics n) as [m|]; [|done].
  pose proof (get_or_create_language_id_frame
                (primary_language_name (primaryLanguage n)) s) as (Hf1 & Hr1 & Hp1).
  destruct (_get_or_create_language_id _ s) as [s1 pl_id]. simpl in *.
  destruct (history_step run_id (existing !! m_repo_id m) m) as [[hs ins] ext].
  pose proof (intern_topics_spec (m_repo_id m)
                (topic_names (repositoryTopics n)) s1) as (Hf2 & Hr2 & Hp2 & _).
  destruct (intern_topics _ _ s1) as [s2 pairs]. simpl in *.
  split; [by trans (conn s1)|]. split; congruence.
Qed.

Lemma plan_node_inl run_id existing n s pl s' pl' :
  plan_node run_id existing n s pl = (s', inl pl') →
  ∃ m, node_metrics n = inl m ∧ planned run_id existing [m] pl pl'.
Proof.
  unfold plan_node. destruct (node_metrics n) as [m|]; [|done].
  destruct (_get_or_create_language_id _ s) as [s1 pl_id].
  unfold planned_history.
  pose proof (intern_topics_spec (m_repo_id m)
                (topic_names (repositoryTopics n)) s1) as (_ & _ & _ & Hall).
  destruct (history_step run_id (existing !! m_repo_id m) m)
    as [[hs ins] ext] eqn:Hstep.
  destruct (intern_topics _ _ s1) as [s2 pairs]. simpl in *.
  intros [= <- <-]. exists m. split; [done|].
  split; simpl; unfold planned_history; rewrite ?Hstep; simpl;
    rewrite ?app_nil_r; try done.
  - eexists. split; [done|]. constructor; [|constructor]. simpl.
    by rewrite Hstep.
  - exists pairs. split; [done|].
    eapply Forall_impl; [exact Hall|]. simpl. intros rt ->. by left.
Qed.

Lemma plan_rows_frame run_id existing fresh s pl :
  let s' := (plan_rows run_id existing fresh s pl).1 in
  same_but_names (conn s) (conn s')
  ∧ _run_id s' = _run_id s
  ∧ _processed_repo_ids s' = _processed_repo_ids s.
Proof.
  revert s pl. induction fresh as [|n fresh IH]; intros s pl; simpl; [done|].
  pose proof (plan_node_frame run_id existing n s pl) as (Hf1 & Hr1 & Hp1).
  destruct (plan_node run_id existing n s pl) as [s1 [pl1|e]]; simpl in *.
  - destruct (IH s1 pl1) as (Hf & Hr & Hp).
    split; [by trans (conn s1)|]. split; congruence.
  - done.
Qed.

Lemma plan_rows_inl run_id existing fresh s pl0 s' pl :
  plan_rows run_id existing fresh s pl0 = (s', inl pl) →
  ∃ ms, Forall2 (λ n m, node_metrics n = inl m) fresh ms
        ∧ planned run_id existing ms pl0 pl.
Proof.
  revert s pl0. induction fresh as [|n fresh IH]; intros s pl0; simpl.
  - intros [= <- <-]. exists []. split; [constructor|apply planned_refl].
  - destruct (plan_node run_id existing n s pl0) as [s1 [pl1|e]] eqn:Hn; [|done].
    intros (ms & Hms & Hpl)%IH.
    apply plan_node_inl in Hn as (m & Hm & Hpl1).
    exists (m :: ms). split; [by constructor|]. by eapply planned_snoc.
Qed.

Lemma node_metrics_id n m :
  node_metrics n = inl m → databaseId n = Present (m_repo_id m).
Proof.
  unfold node_metrics. destruct (databaseId n); simpl; try done.
  destruct (int_get0 _); simpl; [|done].
  destruct (int_get0 _); simpl; [|done].
  destruct (watchers_total _); simpl; [|done]. by intros [= <-].
Qed.

Lemma node_metrics_ids fresh ms :
  Forall2 (λ n m, node_metrics n = inl m) fresh ms →
  m_repo_id <$> ms = node_ids fresh.
Proof.
  induction 1 as [|n m fresh ms Hm _ IH]; [done|].
  unfold node_ids. simpl. rewrite (node_metrics_id _ _ Hm). simpl. by f_equal.
Qed.

(** The parameter tuple built from a kept snapshot. *)
Lemma build_repo_rows_elem fresh rows n :
  build_repo_rows fresh = inl rows → n ∈ fresh →
  ∃ p, p ∈ rows ∧ databaseId n = Present (p_id p)
       ∧ index (nameWithOwner n) = inl (p_name p).
Proof.
  intros H%build_repo_rows_inl Hn.
  apply list_elem_of_lookup in Hn as [i Hi].
  destruct (Forall2_lookup_l _ _ _ _ _ H Hi) as (p & Hp & ? & ?).
  exists p. split; [by eapply list_elem_of_lookup_2|done].
Qed.

Lemma build_repo_rows_elem_inv fresh rows p :
  build_repo_rows fresh = inl rows → p ∈ rows →
  ∃ n, n ∈ fresh ∧ databaseId n = Present (p_id p)
       ∧ index (nameWithOwner n) = inl (p_name p).
Proof.
  intros H%build_repo_rows_inl Hp.
  apply list_elem_of_lookup in Hp as [i Hi].
  destruct (Forall2_lookup_r _ _ _ _ _ H Hi) as (n & Hn & ? & ?).
  exists n. split; [by eapply list_elem_of_lookup_2|done].
Qed.

Lemma index_Present {A} (f : field A) a : index f = inl (Some a) ↔ f = Present a.
Proof. destruct f; simpl; split; intros; by simplify_eq. Qed.

(* ===================================================================== *)
(** ** The second transaction *)
(* ===================================================================== *)

Lemma upsert_latest_inl p d d' :
  upsert_latest p d = inl d' →
  d' = set_repo_latest (<[p.1 := p.2]> (repo_latest d)) d
  ∧ references (repo d) p.1
  ∧ references (fetch_run d) (rl_run_id p.2)
  ∧ references (fetch_run d) (rl_history_start_run_id p.2)
  ∧ references_opt (language d) (rl_primary_language_id p.2).
Proof.
  unfold upsert_latest. destruct p as [k row]. case_bool_decide; [|done].
  by intros [= <-].
Qed.

Lemma upsert_latest_many rows d d' :
  executemany upsert_latest rows d = inl d' →
  same_but_latest d d'
  ∧ (∀ k, k ∉ rows.*1 → repo_latest d' !! k = repo_latest d !! k)
  ∧ (NoDup rows.*1 → ∀ kr, kr ∈ rows → repo_latest d' !! kr.1 = Some kr.2).
Proof.
  revert d. induction rows as [|p rows IH]; intros d.
  - intros [= <-]. split; [done|]. split; [done|]. by intros _ ? ?%elem_of_nil.
  - intros (d1 & (-> & _)%upsert_latest_inl & H)%executemany_cons.
    destruct (IH _ H) as (Hf & Hother & Hin). simpl in *.
    split; [|split].
    + destruct Hf. by split.
    + intros k [Hk1 Hk2]%not_elem_of_cons. rewrite Hother by done.
      by rewrite lookup_insert_ne.
    + intros [Hp Hnd]%NoDup_cons kr [->|Hkr]%elem_of_cons.
      * rewrite Hother by done. by rewrite lookup_insert_eq.
      * by apply Hin.
Qed.

Lemma insert_hist_inl p d d' :
  insert_hist p d = inl d' →
  d' = set_repo_metrics_hist (<[(p.1.1, p.1.2) := p.2]> (repo_metrics_hist d)) d
  ∧ repo_metrics_hist d !! (p.1.1, p.1.2) = None.
Proof.
  unfold insert_hist. destruct p as [[k st] row]. case_bool_decide as H; [|done].
  intros [= <-]. by destruct H.
Qed.

Lemma insert_hist_many rows d d' :
  executemany insert_hist rows d = inl d' →
  same_but_hist d d'
  ∧ (∀ key, key ∉ rows.*1 → repo_metrics_hist d' !! key = repo_metrics_hist d !! key)
  ∧ (∀ p, p ∈ rows → repo_metrics_hist d !! p.1 = None
                     ∧ repo_metrics_hist d' !! p.1 = Some p.2).
Proof.
  revert d. induction rows as [|p rows IH]; intros d.
  - intros [= <-]. split; [done|]. split; [done|]. by intros ? ?%elem_of_nil.
  - intros (d1 & (-> & Hfree)%insert_hist_inl & H)%executemany_cons.
    destruct (IH _ H) as (Hf & Hother & Hin). simpl in *.
    assert (p.1 = (p.1.1, p.1.2)) as Hp by (by destruct p as [[? ?] ?]).
    rewrite <-Hp in *.
    assert (p.1 ∉ rows.*1) as Hfresh.
    { intros (q & Hq & Hqin)%list_elem_of_fmap.
      destruct (Hin q Hqin) as [Hnone _]. rewrite <-Hq in Hnone.
      by rewrite lookup_insert_eq in Hnone. }
    split; [|split].
    + destruct Hf. by split.
    + intros key [Hk1 Hk2]%not_elem_of_cons. rewrite Hother by done.
      by rewrite lookup_insert_ne.
    + intros q [->|Hq]%elem_of_cons.
      * split; [done|]. rewrite Hother by done. by rewrite lookup_insert_eq.
      * destruct (Hin q Hq) as [Hnone Hsome]. split; [|done].
        rewrite lookup_insert_ne in Hnone; [done|].
        intros Heq. apply Hfresh. rewrite Heq. by apply list_elem_of_fmap_2.
Qed.

Lemma extend_hist_inl p d d' :
  extend_hist p d = inl d' →
  same_but_hist d d'
  ∧ ∀ key, repo_metrics_hist d' !! key =
           if decide (key = (p.1.2, p.2))
           then with_end_run_id p.1.1 <$> repo_metrics_hist d !! key
           else repo_metrics_hist d !! key.
Proof.
  unfold extend_hist. destruct p as [[e k] st]. simpl.
  destruct (repo_metrics_hist d !! (k, st)) as [h|] eqn:Hh.
  - case_bool_decide; [|done]. intros [= <-]. split; [by split|].
    intros key. simpl. case_decide as Hk.
    + subst. by rewrite lookup_insert_eq, Hh.
    + by rewrite lookup_insert_ne.
  - intros [= <-]. split; [done|]. intros key. case_decide; [|done].
    subst. by rewrite Hh.
Qed.

Lemma with_end_run_id_idemp e h :
  with_end_run_id e (with_end_run_id e h) = with_end_run_id e h.
Proof. done. Qed.

Lemma extend_hist_many run_id rows d d' :
  Forall (λ p : Z * Z * Z, p.1.1 = run_id) rows →
  executemany extend_hist rows d = inl d' →
  same_but_hist d d'
  ∧ ∀ key, repo_metrics_hist d' !! key =
           if decide (key ∈ (λ p : Z * Z * Z, (p.1.2, p.2)) <$> rows)
           then with_end_run_id run_id <$> repo_metrics_hist d !! key
           else repo_metrics_hist d !! key.
Proof.
  intros Hall. revert d.
  induction Hall as [|p rows Hp _ IH]; intros d.
  - intros [= <-]. split; [done|]. intros key.
    by rewrite decide_False by (by intros ?%elem_of_nil).
  - intros (d1 & (Hf1 & Hl1)%extend_hist_inl & H)%executemany_cons.
    destruct (IH _ H) as (Hf & Hl). split; [by trans d1|].
    intros key. rewrite Hl, Hl1, Hp. rewrite fmap_cons.
    destruct (decide (key = (p.1.2, p.2))) as [Hk|Hk].
    + rewrite (decide_True (P := key ∈ _ :: _)) by (by apply elem_of_cons; left).
      case_decide; [|done].
      destruct (repo_metrics_hist d !! key); simpl; [|done].
      by rewrite with_end_run_id_idemp.
    + case_decide as Hin.
      * by rewrite decide_True by (by right).
      * by rewrite decide_False by (by intros [?|?]%elem_of_cons).
Qed.

Lemma insert_topic_pair_inl p d d' :
  insert_topic_pair p d = inl d' →
  d' = set_repo_topic_latest ({[p]} ∪ repo_topic_latest d) d.
Proof. unfold insert_topic_pair. case_bool_decide; [|done]. by intros [= <-]. Qed.

Lemma insert_topic_pair_many pairs d d' :
  executemany insert_topic_pair pairs d = inl d' →
  same_but_topics d d'
  ∧ ∀ rt, rt ∈ repo_topic_latest d' ↔ rt ∈ pairs ∨ rt ∈ repo_topic_latest d.
Proof.
  revert d. induction pairs as [|p pairs IH]; intros d.
  - intros [= <-]. split; [done|]. intros rt. rewrite elem_of_nil. tauto.
  - intros (d1 & ->%insert_topic_pair_inl & H)%executemany_cons.
    destruct (IH _ H) as (Hf & Hl). simpl in *. split.
    + destruct Hf. by split.
    + intros rt. rewrite Hl, elem_of_cons. set_solver.
Qed.

Lemma upsert_latest_many_inv rows d d' k row :
  executemany upsert_latest rows d = inl d' →
  repo_latest d' !! k = Some row →
  (k, row) ∈ rows ∨ repo_latest d !! k = Some row.
Proof.
  revert d. induction rows as [|p rows IH]; intros d.
  - intros [= <-]. by right.
  - intros (d1 & (-> & _)%upsert_latest_inl & H)%executemany_cons Hk.
    destruct (IH _ H Hk) as [?|Hk1]; [left; by right|]. simpl in Hk1.
    destruct (decide (p.1 = k)) as [<-|Hne].
    + rewrite lookup_insert_eq in Hk1. injection Hk1 as <-.
      left. apply elem_of_cons. left. by destruct p.
    + rewrite lookup_insert_ne in Hk1 by done. by right.
Qed.

(** What a committed second transaction leaves; [hist2] is
    [repo_metrics_hist] between the inserts and the extensions. *)
Lemma write_plan_inl run_id pl d d' :
  Forall (λ p : Z * Z * Z, p.1.1 = run_id) (hist_extend_rows pl) →
  write_plan pl d = inl d' →
  repo d' = repo d ∧ language d' = language d ∧ topic d' = topic d
  ∧ fetch_run d' = fetch_run d
  ∧ (∀ k, k ∉ (latest_rows pl).*1 → repo_latest d' !! k = repo_latest d !! k)
  ∧ (NoDup (latest_rows pl).*1 →
     ∀ kr, kr ∈ latest_rows pl → repo_latest d' !! kr.1 = Some kr.2)
  ∧ (∀ k row, repo_latest d' !! k = Some row →
       (k, row) ∈ latest_rows pl ∨ repo_latest d !! k = Some row)
  ∧ (∃ hist2 : gmap (Z * Z) HistRow,
       (∀ key, key ∉ (hist_insert_rows pl).*1 →
               hist2 !! key = repo_metrics_hist d !! key)
       ∧ (∀ p, p ∈ hist_insert_rows pl →
               repo_metrics_hist d !! p.1 = None ∧ hist2 !! p.1 = Some p.2)
       ∧ ∀ key, repo_metrics_hist d' !! key =
           if decide (key ∈ (λ p : Z * Z * Z, (p.1.2, p.2))
                              <$> hist_extend_rows pl)
           then with_end_run_id run_id <$> hist2 !! key
           else hist2 !! key)
  ∧ (∀ rt, rt ∈ repo_topic_latest d' ↔
       rt ∈ topic_pairs_to_insert pl
       ∨ (rt ∈ repo_topic_latest d ∧ rt.1 ∉ topic_repo_ids_to_refresh pl)).
Proof.
  intros Hext. unfold write_plan.
  destruct (executemany upsert_latest _ d) as [d1|] eqn:H1; simpl; [|done].
  destruct (executemany insert_hist _ d1) as [d2|] eqn:H2; simpl; [|done].
  destruct (executemany extend_hist _ d2) as [d3|] eqn:H3; simpl; [|done].
  intros H4.
  pose proof (λ k row, upsert_latest_many_inv _ _ _ k row H1) as Hinv.
  apply upsert_latest_many in H1 as ([] & Hl1 & Hl2).
  apply insert_hist_many in H2 as ([] & Hh1 & Hh2).
  apply (extend_hist_many run_id) in H3 as ([] & Hh3); [|done].
  apply insert_topic_pair_many in H4 as ([] & Ht). simpl in *.
  split; [congruence|]. split; [congruence|]. split; [congruence|].
  split; [congruence|]. split; [|split; [|split; [|split]]].
  - intros k Hk. rewrite <-Hl1 by done. congruence.
  - intros Hnd kr Hkr. rewrite <-(Hl2 Hnd kr Hkr). congruence.
  - intros k row Hk. apply Hinv. congruence.
  - exists (repo_metrics_hist d2). split; [|split].
    + intros key Hkey. rewrite Hh1 by done. congruence.
    + intros p Hp. destruct (Hh2 p Hp) as [Hnone Hsome].
      split; [congruence|done].
    + intros key. rewrite <-Hh3. congruence.
  - intros rt. rewrite Ht, elem_of_filter.
    replace (repo_topic_latest d3) with (repo_topic_latest d) by congruence.
    tauto.
Qed.

(* ===================================================================== *)
(** ** [upsert_from_github_nodes] as a whole *)
(* ===================================================================== *)

Lemma set_conn_conn s : set_conn (conn s) s = s.
Proof. by destruct s. Qed.

Lemma fresh_of_entered now s nodes :
  (fresh_scan (_processed_repo_ids (begin_run None now s).1) nodes)
  = (fresh_scan (_processed_repo_ids s) nodes).
Proof.
  by destruct (begin_run_frame None now s) as (_ & _ & _ & _ & _ & _ & -> & _).
Qed.

(** Every call ends in one of the six ways of [outcome]. *)
Lemma upsert_outcome now s nodes :
  outcome now s nodes (upsert_from_github_nodes now s nodes).1
                      (upsert_from_github_nodes now s nodes).2.
Proof.
  unfold upsert_from_github_nodes.
  pose proof (nothing_fresh now s nodes) as C1.
  pose proof (snapshot_raised now s nodes) as C2.
  pose proof (first_rolled_back now s nodes) as C3.
  pose proof (plan_raised now s nodes) as C4.
  pose proof (second_rolled_back now s nodes) as C5.
  pose proof (committed now s nodes) as C6.
  unfold entered, run_of, fresh_of in *.
  rewrite <-(fresh_of_entered now s nodes) in *.
  destruct (begin_run None now s) as [s1 run_id]. simpl in *.
  destruct (fresh_scan (_processed_repo_ids s1) nodes) as [seen fresh].
  simpl in *.
  destruct fresh as [|n fresh]; [by apply C1|].
  remember (n :: fresh) as fresh' eqn:Hfresh.
  assert (fresh' ≠ []) as Hne by (by subst).
  clear Hfresh.
  destruct (build_repo_rows fresh') as [rows|e] eqn:Hb; [|by apply C2].
  unfold transaction.
  destruct (resolve_and_upsert rows _) as [d3|e] eqn:H1; [|by eapply C3].
  destruct (plan_rows _ _ _ _ _) as [s4 [pl|e]] eqn:Hp; [|by eapply C4].
  destruct (write_plan pl (conn s4)) as [d5|e] eqn:Hw.
  - by eapply C6.
  - simpl. rewrite set_conn_conn. by eapply C5.
Qed.

Lemma upsert_outcome_eq now s nodes s' raised :
  upsert_from_github_nodes now s nodes = (s', raised) →
  outcome now s nodes s' raised.
Proof. intros H. pose proof (upsert_outcome now s nodes) as Ho. by rewrite H in Ho. Qed.

(** The engine a call enters with differs from the one it was given by the
    run it may have begun and by the ids it recorded. *)
Lemma entered_frame now s nodes :
  repo (conn (entered now s nodes)) = repo (conn s)
  ∧ language (conn (entered now s nodes)) = language (conn s)
  ∧ topic (conn (entered now s nodes)) = topic (conn s)
  ∧ repo_latest (conn (entered now s nodes)) = repo_latest (conn s)
  ∧ repo_metrics_hist (conn (entered now s nodes)) = repo_metrics_hist (conn s)
  ∧ repo_topic_latest (conn (entered now s nodes)) = repo_topic_latest (conn s)
  ∧ _run_id (entered now s nodes) = Some (run_of now s).
Proof.
  destruct (begin_run_frame None now s) as (? & ? & ? & ? & ? & ? & ? & ?).
  unfold entered, run_of. simpl. by repeat split.
Qed.

Lemma fresh_of_spec s nodes :
  Forall (λ n, ∃ i, databaseId n = Present i ∧ 0 < i
                    ∧ i ∉ _processed_repo_ids s) (fresh_of s nodes)
  ∧ NoDup (node_ids (fresh_of s nodes))
  ∧ (∀ n, n ∈ fresh_of s nodes → n ∈ nodes).
Proof.
  destruct (fresh_scan_spec (_processed_repo_ids s) nodes) as (? & ? & ? & _).
  by repeat split.
Qed.

Lemma entered_processed now s nodes i :
  i ∈ _processed_repo_ids (entered now s nodes) ↔
  i ∈ _processed_repo_ids s ∨ i ∈ node_ids (fresh_of s nodes).
Proof.
  destruct (fresh_scan_spec (_processed_repo_ids s) nodes) as (_ & _ & _ & H).
  apply H.
Qed.

Lemma upsert_repo_many_named rows d d' :
  executemany upsert_repo rows d = inl d' →
  NoDup (p_id <$> rows) → ∀ p, p ∈ rows →
  ∃ r, repo d' !! p_id p = Some r ∧ p_name p = Some (r_name_with_owner r).
Proof.
  revert d. induction rows as [|p rows IH]; intros d.
  - by intros _ _ p ?%elem_of_nil.
  - intros (d1 & H1 & H)%executemany_cons [Hp Hnd]%NoDup_cons q.
    intros [->|Hq]%elem_of_cons; [|by eapply IH].
    apply upsert_repo_inl in H1 as (_ & _ & [r Hr] & (name & Hn & Hrn) & _).
    apply upsert_repo_many in H as (_ & _ & _ & _ & Hother).
    exists r. rewrite Hother by done. split; [done|].
    by rewrite Hn, (Hrn r Hr).
Qed.

(** What the first transaction leaves when it commits. *)
Lemma resolve_and_upsert_inl rows d d' :
  resolve_and_upsert rows d = inl d' →
  language d' = language d ∧ topic d' = topic d
  ∧ fetch_run d' = fetch_run d
  ∧ repo_metrics_hist d' = repo_metrics_hist d
  ∧ (∀ k, repo_latest d' !! k =
          if decide (disassociated (repo d) rows k) then None
          else repo_latest d !! k)
  ∧ (∀ rt, rt ∈ repo_topic_latest d' ↔
           rt ∈ repo_topic_latest d ∧ ¬ disassociated (repo d) rows rt.1)
  ∧ (∀ k, k ∉ p_id <$> rows → repo d' !! k = rename_run rows k <$> repo d !! k)
  ∧ (∀ k, is_Some (repo d !! k) → is_Some (repo d' !! k))
  ∧ (NoDup (p_id <$> rows) → ∀ p, p ∈ rows →
       ∃ r, repo d' !! p_id p = Some r ∧ p_name p = Some (r_name_with_owner r))
  ∧ (rows ≠ [] → names_unique (repo d')).
Proof.
  unfold resolve_and_upsert, resolve_conflicts.
  destruct (executemany delete_latest_of_conflict rows d) as [d1|] eqn:H1;
    simpl; [|done].
  destruct (executemany delete_topics_of_conflict rows d1) as [d2|] eqn:H2;
    simpl; [|done].
  destruct (executemany rename_conflict rows d2) as [d3|] eqn:H3;
    simpl; [|done].
  intros H4.
  pose proof (delete_latest_many_frame _ _ _ H1) as [].
  pose proof (delete_topics_many_frame _ _ _ H2) as [].
  pose proof (λ k, delete_latest_many_lookup _ _ _ k H1) as Hl.
  pose proof (λ rt, delete_topics_many_elem _ _ _ rt H2) as Ht.
  apply rename_many in H3 as ([] & _ & Hr).
  pose proof (upsert_repo_many_named _ _ _ H4) as Hnamed.
  apply upsert_repo_many in H4 as ([] & Hu & Hdom & Hin & Hother).
  split; [congruence|]. split; [congruence|]. split; [congruence|].
  split; [congruence|]. split; [|split; [|split; [|split; [|split]]]].
  - intros k. rewrite <-Hl. congruence.
  - intros rt.
    replace (repo_topic_latest d') with (repo_topic_latest d2) by congruence.
    rewrite Ht.
    replace (repo_topic_latest d1) with (repo_topic_latest d) by congruence.
    by replace (repo d1) with (repo d) by congruence.
  - intros k Hk. rewrite Hother, Hr by done. congruence.
  - intros k Hk. apply Hdom. rewrite Hr.
    replace (repo d2) with (repo d) by congruence. by apply fmap_is_Some.
  - done.
  - done.
Qed.

(* ===================================================================== *)
(** ** The history decision *)
(* ===================================================================== *)

Lemma changed_false old m :
  changed old (m_stars m) (m_forks m) (m_watchers m) (m_disk_usage_i m) = false
  ↔ latest_quadruple old = metrics_quadruple m.
Proof.
  unfold changed, latest_quadruple, metrics_quadruple.
  rewrite !orb_false_iff, !negb_false_iff, !Z.eqb_eq, bool_decide_eq_true.
  split.
  - intros [[[-> ->] ->] ->]. done.
  - intros [= -> -> -> ->]. done.
Qed.

(** The two decisions of the second loop: open a segment at the current run,
    or extend the segment [repo_latest] points at. *)
Lemma history_step_cases run_id old m :
  (history_step run_id old m
     = (run_id, [(m_repo_id m, run_id, new_segment run_id m)], [])
   ∧ ∀ o, old = Some o → latest_quadruple o ≠ metrics_quadruple m)
  ∨ (∃ o, old = Some o ∧ latest_quadruple o = metrics_quadruple m
          ∧ history_step run_id old m
            = (rl_history_start_run_id o, [],
               [(run_id, m_repo_id m, rl_history_start_run_id o)])).
Proof.
  unfold history_step. destruct old as [o|]; [|by left].
  destruct (changed o _ _ _ _) eqn:Hc.
  - left. split; [done|]. intros ? [= <-] Hq%changed_false. congruence.
  - right. exists o. by apply changed_false in Hc.
Qed.

Lemma fetch_latest_metrics_lookup d ids k :
  _fetch_latest_metrics d ids !! k =
  if decide (k ∈ ids) then repo_latest d !! k else None.
Proof.
  unfold _fetch_latest_metrics. case_decide as Hk.
  - destruct (repo_latest d !! k) eqn:Hl.
    + by apply map_lookup_filter_Some.
    + apply map_lookup_filter_None. by left.
  - apply map_lookup_filter_None. right. by intros ? _.
Qed.

Lemma planned_extend_run run_id existing ms pl :
  planned run_id existing ms empty_plan pl →
  Forall (λ p : Z * Z * Z, p.1.1 = run_id) (hist_extend_rows pl).
Proof.
  intros [_ _ -> _ _]. simpl. apply Forall_forall. intros p Hp.
  apply list_elem_of_bind in Hp as (m & Hp & _).
  unfold planned_history in Hp.
  destruct (history_step_cases run_id (existing !! m_repo_id m) m)
    as [[Hs _]|(o & _ & _ & Hs)]; rewrite Hs in Hp; simpl in Hp.
  - by apply elem_of_nil in Hp.
  - by apply list_elem_of_singleton in Hp as ->.
Qed.

Lemma with_end_run_id_quadruple e h :
  hist_quadruple (with_end_run_id e h) = hist_quadruple h.
Proof. done. Qed.

(* ===================================================================== *)
(** ** Latest consistency *)
(* ===================================================================== *)

Lemma latest_consistent_sub d d' :
  (∀ k rl, repo_latest d' !! k = Some rl → repo_latest d !! k = Some rl) →
  repo_metrics_hist d' = repo_metrics_hist d →
  latest_consistent d → latest_consistent d'.
Proof.
  intros Hsub Hh Hc k rl Hk. rewrite Hh. by apply Hc, Hsub.
Qed.

Lemma latest_consistent_entered now s nodes :
  latest_consistent (conn s) → latest_consistent (conn (entered now s nodes)).
Proof.
  destruct (entered_frame now s nodes) as (_ & _ & _ & Hl & Hh & _).
  apply latest_consistent_sub; [|done]. intros k rl. by rewrite Hl.
Qed.

Lemma latest_consistent_first rows d d' :
  resolve_and_upsert rows d = inl d' →
  latest_consistent d → latest_consistent d'.
Proof.
  intros (_ & _ & _ & Hh & Hl & _)%resolve_and_upsert_inl.
  apply latest_consistent_sub; [|done]. intros k rl. rewrite Hl.
  by case_decide.
Qed.

Lemma latest_consistent_names d d' :
  same_but_names d d' → latest_consistent d → latest_consistent d'.
Proof.
  intros []. apply latest_consistent_sub; [|done]. intros k rl. congruence.
Qed.

(** The second transaction keeps the invariant: a row it writes points at
    the segment it opens or at the one the row it replaces pointed at. *)
Lemma latest_consistent_second run_id d3 ids ms pl d d' :
  planned run_id (_fetch_latest_metrics d3 ids) ms empty_plan pl →
  repo_latest d = repo_latest d3 →
  write_plan pl d = inl d' →
  latest_consistent d → latest_consistent d'.
Proof.
  intros Hpl Hd3 Hw Hc.
  pose proof (planned_extend_run _ _ _ _ Hpl) as Hext.
  destruct Hpl as [(rows & Hrows & Hall) Hins _ _ _]. simpl in *.
  apply (write_plan_inl run_id) in Hw
    as (_ & _ & _ & _ & _ & _ & Hinv & (hist2 & Hh1 & Hh2 & Hh3) & _);
    [|done].
  assert (∀ key h, repo_metrics_hist d !! key = Some h → hist2 !! key = Some h)
    as Hkeep.
  { intros key h Hkey. rewrite Hh1; [done|].
    intros (p & -> & Hp)%list_elem_of_fmap.
    destruct (Hh2 p Hp) as [Hnone _]. congruence. }
  assert (∀ key h, hist2 !! key = Some h →
            ∃ h', repo_metrics_hist d' !! key = Some h'
                  ∧ hist_quadruple h' = hist_quadruple h) as Hfinal.
  { intros key h Hkey. rewrite Hh3, Hkey. case_decide; simpl; eauto. }
  intros k rl Hk. destruct (Hinv k rl Hk) as [Hin|Hold].
  - rewrite Hrows in Hin. apply list_elem_of_lookup in Hin as [i Hi].
    destruct (Forall2_lookup_r _ _ _ _ _ Hall Hi)
      as (m & Hm & Hid & _ & Hhs & Hq). simpl in *. subst k.
    apply list_elem_of_lookup_2 in Hm.
    unfold planned_history in *.
    destruct (history_step_cases run_id
                (_fetch_latest_metrics d3 ids !! m_repo_id m) m)
      as [[Hstep _]|(o & Ho & Hqo & Hstep)]; rewrite Hstep in Hhs; simpl in Hhs.
    + assert ((m_repo_id m, run_id, new_segment run_id m)
                ∈ hist_insert_rows pl) as Hp.
      { rewrite Hins. apply list_elem_of_bind. exists m. split; [|done].
        rewrite Hstep. simpl. by left. }
      destruct (Hh2 _ Hp) as [_ Hsome]. rewrite Hhs.
      destruct (Hfinal _ _ Hsome) as (h' & Hh' & Hq').
      exists h'. split; [done|]. by rewrite Hq', Hq.
    + rewrite fetch_latest_metrics_lookup in Ho. case_decide; [|done].
      rewrite <-Hd3 in Ho. destruct (Hc _ _ Ho) as (h & Hh & Hqh).
      rewrite Hhs. destruct (Hfinal _ _ (Hkeep _ _ Hh)) as (h' & Hh' & Hq').
      exists h'. split; [done|]. congruence.
  - destruct (Hc _ _ Hold) as (h & Hh & Hqh).
    destruct (Hfinal _ _ (Hkeep _ _ Hh)) as (h' & Hh' & Hq').
    exists h'. split; [done|]. congruence.
Qed.

Lemma latest_consistent_empty : latest_consistent empty_db.
Proof. intros k rl Hk. simpl in Hk. by rewrite lookup_empty in Hk. Qed.

Lemma latest_consistent_outcome now s nodes s' raised :
  outcome now s nodes s' raised →
  latest_consistent (conn s) → latest_consistent (conn s').
Proof.
  intros Ho Hc. apply (latest_consistent_entered now s nodes) in Hc.
  destruct Ho as [ | | |rows d3 s4 e Hb H1 Hp|rows d3 s4 pl e Hb H1 Hp Hw
                 |rows d3 s4 pl d5 Hne Hb H1 Hp Hw]; try done.
  - pose proof (plan_rows_frame (run_of now s)
      (_fetch_latest_metrics d3 (p_id <$> rows)) (fresh_of s nodes)
      (set_conn d3 (entered now s nodes)) empty_plan) as (Hf & _).
    rewrite Hp in Hf. simpl in Hf.
    eapply latest_consistent_names; [done|].
    by eapply latest_consistent_first.
  - pose proof (plan_rows_frame (run_of now s)
      (_fetch_latest_metrics d3 (p_id <$> rows)) (fresh_of s nodes)
      (set_conn d3 (entered now s nodes)) empty_plan) as (Hf & _).
    rewrite Hp in Hf. simpl in Hf.
    eapply latest_consistent_names; [done|].
    by eapply latest_consistent_first.
  - pose proof (plan_rows_frame (run_of now s)
      (_fetch_latest_metrics d3 (p_id <$> rows)) (fresh_of s nodes)
      (set_conn d3 (entered now s nodes)) empty_plan) as (Hf & _).
    rewrite Hp in Hf. simpl in Hf.
    apply plan_rows_inl in Hp as (ms & Hms & Hpl). simpl.
    eapply latest_consistent_second; [done| |done|].
    + by destruct Hf.
    + eapply latest_consistent_names; [done|].
      by eapply latest_consistent_first.
Qed.

(** C7.  The empty database satisfies invariant 2, and every call of
    [upsert_from_github_nodes], whether it returns or raises, leaves it
    true: each [repo_latest] row has a [repo_metrics_hist] row of the same
    repo starting at its [history_start_run_id], with the same metric
    quadruple. *)
Theorem latest_consistency_preserved :
  latest_consistent empty_db
  ∧ ∀ (now : Z) (s : RepoDB) (nodes : list Node),
      latest_consistent (conn s) →
      latest_consistent (conn (upsert_from_github_nodes now s nodes).1).
Proof.
  split; [apply latest_consistent_empty|].
  intros now s nodes.
  apply (latest_consistent_outcome now s nodes _ _ (upsert_outcome now s nodes)).
Qed.

(** Scenario S3: the store of scenario S1, then [a/x] with 15 stars in the
    next pass. *)
Lemma latest_consistency_preserved_witness :
  latest_consistent (conn (open_db (conn scenario_S1)))
  ∧ latest_consistent
      (conn (upsert_from_github_nodes 21600 (open_db (conn scenario_S1))
               [snapshot 1 "a/x" 15]).1).
Proof.
  assert (latest_consistent (conn (open_db (conn scenario_S1)))) as H.
  { apply (proj2 latest_consistency_preserved 0 (open_db empty_db)
             [snapshot 1 "a/x" 10]).
    apply (proj1 latest_consistency_preserved). }
  split; [exact H|].
  apply (proj2 latest_consistency_preserved 21600 (open_db (conn scenario_S1))
           [snapshot 1 "a/x" 15] H).
Defined.

(* ===================================================================== *)
(** ** A committed call, one snapshot at a time *)
(* ===================================================================== *)

Lemma NoDup_fmap_eq {A B} (f : A → B) (l : list A) x y :
  NoDup (f <$> l) → x ∈ l → y ∈ l → f x = f y → x = y.
Proof.
  induction l as [|a l IH]; simpl; [by intros _ ?%elem_of_nil|].
  intros [Ha Hnd]%NoDup_cons [->|Hx]%elem_of_cons [->|Hy]%elem_of_cons Hf.
  - done.
  - contradict Ha. rewrite Hf. by apply list_elem_of_fmap_2.
  - contradict Ha. rewrite <-Hf. by apply list_elem_of_fmap_2.
  - by apply IH.
Qed.

(** The tables a committed call leaves, in terms of the tables it started
    with, for the repo of one ingested snapshot. *)
Lemma committed_snapshot now s nodes s' n m :
  outcome now s nodes s' None →
  n ∈ fresh_of s nodes → node_metrics n = inl m →
  ∃ rows old,
    build_repo_rows (fresh_of s nodes) = inl rows
    ∧ old = existing_row (conn s) rows (m_repo_id m)
    ∧ (∃ rl', repo_latest (conn s') !! m_repo_id m = Some rl'
              ∧ rl_run_id rl' = run_of now s
              ∧ rl_history_start_run_id rl'
                = (history_step (run_of now s) old m).1.1
              ∧ latest_quadruple rl' = metrics_quadruple m)
    ∧ ((∀ o, old = Some o → latest_quadruple o ≠ metrics_quadruple m) →
       repo_metrics_hist (conn s) !! (m_repo_id m, run_of now s) = None
       ∧ repo_metrics_hist (conn s') !! (m_repo_id m, run_of now s)
         = Some (new_segment (run_of now s) m)
       ∧ ∀ st, st ≠ run_of now s →
           repo_metrics_hist (conn s') !! (m_repo_id m, st)
           = repo_metrics_hist (conn s) !! (m_repo_id m, st))
    ∧ (∀ o, old = Some o → latest_quadruple o = metrics_quadruple m →
       repo_metrics_hist (conn s') !! (m_repo_id m, rl_history_start_run_id o)
       = with_end_run_id (run_of now s)
           <$> repo_metrics_hist (conn s) !! (m_repo_id m, rl_history_start_run_id o)
       ∧ ∀ st, st ≠ rl_history_start_run_id o →
           repo_metrics_hist (conn s') !! (m_repo_id m, st)
           = repo_metrics_hist (conn s) !! (m_repo_id m, st)).
Proof.
  intros Hup Hn Hm.
  inversion Hup as [Hnil| | | | |rows d3 s4 pl d5 Hne Hb H1 Hp Hw]; subst.
  { rewrite Hnil in Hn. by apply elem_of_nil in Hn. }
  set (run := run_of now s) in *. set (k := m_repo_id m).
  exists rows, (existing_row (conn s) rows k). split; [done|]. split; [done|].
  destruct (entered_frame now s nodes) as (Her & _ & _ & Hel & Heh & _ & _).
  destruct (fresh_of_spec s nodes) as (_ & Hnd & _).
  pose proof (build_repo_rows_ids _ _ Hb) as Hids.
  apply resolve_and_upsert_inl in H1
    as (_ & _ & _ & Hh3 & Hl3 & _ & _ & _ & _ & _).
  pose proof (plan_rows_frame run
      (_fetch_latest_metrics d3 (p_id <$> rows)) (fresh_of s nodes)
      (set_conn d3 (entered now s nodes)) empty_plan) as (Hf & _).
  rewrite Hp in Hf. simpl in Hf. destruct Hf as [_ _ Hl4 Hh4 _].
  apply plan_rows_inl in Hp as (ms & Hms & Hpl).
  pose proof (node_metrics_ids _ _ Hms) as Hmids.
  pose proof (planned_extend_run _ _ _ _ Hpl) as Hext.
  assert (m ∈ ms) as Hmin.
  { apply list_elem_of_lookup in Hn as [i Hi].
    destruct (Forall2_lookup_l _ _ _ _ _ Hms Hi) as (m' & Hm' & Hnm).
    assert (m' = m) as -> by congruence. by eapply list_elem_of_lookup_2. }
  assert (NoDup (m_repo_id <$> ms)) as Hndm by (by rewrite Hmids).
  assert (k ∈ p_id <$> rows) as Hk.
  { rewrite Hids, <-Hmids. by apply list_elem_of_fmap_2. }
  assert (_fetch_latest_metrics d3 (p_id <$> rows) !! k
          = existing_row (conn s) rows k) as Hold.
  { rewrite fetch_latest_metrics_lookup, decide_True by done.
    rewrite Hl3. unfold existing_row. by rewrite Her, Hel. }
  destruct Hpl as [(lrows & Hlrows & Hall) Hins Hexts _ _]. simpl in *.
  apply (write_plan_inl run) in Hw
    as (_ & _ & _ & _ & _ & Hlat & _ & (hist2 & Hh1 & Hh2 & Hh5) & _);
    [|done].
  assert (repo_metrics_hist (conn s4) = repo_metrics_hist (conn s)) as Hh0
    by congruence.
  rewrite Hh0 in *. clear Hh0.
  (* the history decisions of the other snapshots do not touch repo [k] *)
  assert (∀ m', m' ∈ ms → m_repo_id m' = k → m' = m) as Huniq.
  { intros m' Hm' Hk'. by eapply (NoDup_fmap_eq m_repo_id ms). }
  assert (∀ st, (k, st) ∈ (hist_insert_rows pl).*1 →
     (planned_history run (_fetch_latest_metrics d3 (p_id <$> rows)) m).1.2
       = [(k, run, new_segment run m)] ∧ st = run) as Hinskey.
  { intros st (p & Hp1 & Hp)%list_elem_of_fmap. rewrite Hins in Hp.
    apply list_elem_of_bind in Hp as (m' & Hp & Hm').
    unfold planned_history in *.
    destruct (history_step_cases run
                (_fetch_latest_metrics d3 (p_id <$> rows) !! m_repo_id m') m')
      as [[Hs _]|(o & _ & _ & Hs)]; rewrite Hs in Hp; simpl in Hp;
      [|by apply elem_of_nil in Hp].
    apply list_elem_of_singleton in Hp as ->. simpl in Hp1.
    injection Hp1 as Hk' ->. rewrite (Huniq m' Hm') in Hs by done.
    by rewrite Hs. }
  assert (∀ st, (k, st) ∈ (λ p : Z * Z * Z, (p.1.2, p.2)) <$> hist_extend_rows pl →
     ∃ o, _fetch_latest_metrics d3 (p_id <$> rows) !! k = Some o
          ∧ latest_quadruple o = metrics_quadruple m
          ∧ st = rl_history_start_run_id o) as Hextkey.
  { intros st (p & Hp1 & Hp)%list_elem_of_fmap. rewrite Hexts in Hp.
    apply list_elem_of_bind in Hp as (m' & Hp & Hm').
    unfold planned_history in *.
    destruct (history_step_cases run
                (_fetch_latest_metrics d3 (p_id <$> rows) !! m_repo_id m') m')
      as [[Hs _]|(o & Ho & Hq & Hs)]; rewrite Hs in Hp; simpl in Hp;
      [by apply elem_of_nil in Hp|].
    apply list_elem_of_singleton in Hp as ->. simpl in Hp1.
    injection Hp1 as Hk' ->. rewrite (Huniq m' Hm') in * by done.
    by exists o. }
  split; [|split].
  - (* the [repo_latest] row *)
    apply list_elem_of_lookup in Hmin as [i Hi].
    destruct (Forall2_lookup_l _ _ _ _ _ Hall Hi)
      as ([k' rl'] & Hrl & Hk' & Hrun & Hhs & Hq). simpl in *. subst k'.
    exists rl'. rewrite <-Hold. split; [|done].
    apply (Hlat) with (kr := (m_repo_id m, rl')).
    + rewrite Hlrows. simpl.
      replace (lrows.*1) with (m_repo_id <$> ms); [done|].
      clear -Hall. induction Hall as [|? [? ?] ? ? (? & _) _ IH]; [done|].
      simpl in *. by f_equal.
    + rewrite Hlrows. by eapply list_elem_of_lookup_2.
  - (* a new segment *)
    intros Hnew. unfold planned_history in *. rewrite Hold in *.
    destruct (history_step_cases run (existing_row (conn s) rows k) m)
      as [[Hs _]|(o & Ho & Hq & _)]; [|by destruct (Hnew o Ho)].
    assert ((k, run, new_segment run m) ∈ hist_insert_rows pl) as Hp.
    { rewrite Hins. apply list_elem_of_bind. exists m. split; [|done].
      unfold planned_history. fold k. rewrite Hold, Hs. simpl. by left. }
    destruct (Hh2 _ Hp) as [Hnone Hsome]. simpl in *.
    assert (∀ st, (k, st) ∉ (λ p : Z * Z * Z, (p.1.2, p.2)) <$> hist_extend_rows pl)
      as Hnoext.
    { intros st (o & Ho & Hq & _)%Hextkey. by destruct (Hnew o Ho). }
    split; [done|]. split.
    + by rewrite Hh5, decide_False.
    + intros st Hst. rewrite Hh5, decide_False by done. apply Hh1.
      intros [_ ?]%Hinskey. done.
  - (* an extension *)
    intros o Ho Hq. unfold planned_history in *. rewrite Hold in *.
    assert (∀ st, (k, st) ∉ (hist_insert_rows pl).*1) as Hnoins.
    { intros st [Hs _]%Hinskey. fold k in Hs. rewrite Hold in Hs.
      destruct (history_step_cases run (existing_row (conn s) rows k) m)
        as [[_ Hne']|(o' & _ & _ & Hs')]; [by destruct (Hne' o Ho)|].
      by rewrite Hs' in Hs. }
    assert ((k, rl_history_start_run_id o)
              ∈ (λ p : Z * Z * Z, (p.1.2, p.2)) <$> hist_extend_rows pl) as Hin.
    { apply list_elem_of_fmap. exists (run, k, rl_history_start_run_id o).
      split; [done|]. rewrite Hexts. apply list_elem_of_bind. exists m.
      split; [|done]. unfold planned_history. fold k. rewrite Hold.
      destruct (history_step_cases run (existing_row (conn s) rows k) m)
        as [[_ Hne']|(o' & Ho' & _ & Hs')]; [by destruct (Hne' o Ho)|].
      rewrite Hs'. simpl. assert (o' = o) as -> by congruence. by left. }
    split.
    + rewrite Hh5, decide_True by done. by rewrite Hh1.
    + intros st Hst. rewrite Hh5, decide_False, Hh1; [done..|].
      intros (o' & Ho' & _ & ->)%Hextkey. congruence.
Qed.

Lemma planned_keys run_id existing ms pl :
  planned run_id existing ms empty_plan pl →
  (latest_rows pl).*1 = m_repo_id <$> ms
  ∧ (∀ key, key ∈ (hist_insert_rows pl).*1 → key.1 ∈ m_repo_id <$> ms)
  ∧ (∀ key, key ∈ (λ p : Z * Z * Z, (p.1.2, p.2)) <$> hist_extend_rows pl →
            key.1 ∈ m_repo_id <$> ms)
  ∧ topic_repo_ids_to_refresh pl = m_repo_id <$> ms
  ∧ ∀ rt, rt ∈ topic_pairs_to_insert pl → rt.1 ∈ m_repo_id <$> ms.
Proof.
  intros [(lrows & Hl & Hall) Hins Hext Href (pairs & Hp & Hpairs)].
  simpl in *. split; [|split; [|split; [|split]]].
  - rewrite Hl. clear -Hall.
    induction Hall as [|? [? ?] ? ? (? & _) _ IH]; [done|].
    simpl in *. by f_equal.
  - intros key (p & -> & Hp')%list_elem_of_fmap. rewrite Hins in Hp'.
    apply list_elem_of_bind in Hp' as (m & Hp' & Hm).
    unfold planned_history in Hp'.
    destruct (history_step_cases run_id (existing !! m_repo_id m) m)
      as [[Hs _]|(o & _ & _ & Hs)]; rewrite Hs in Hp'; simpl in Hp';
      [|by apply elem_of_nil in Hp'].
    apply list_elem_of_singleton in Hp' as ->. simpl.
    by apply list_elem_of_fmap_2.
  - intros key (p & -> & Hp')%list_elem_of_fmap. rewrite Hext in Hp'.
    apply list_elem_of_bind in Hp' as (m & Hp' & Hm).
    unfold planned_history in Hp'.
    destruct (history_step_cases run_id (existing !! m_repo_id m) m)
      as [[Hs _]|(o & _ & _ & Hs)]; rewrite Hs in Hp'; simpl in Hp';
      [by apply elem_of_nil in Hp'|].
    apply list_elem_of_singleton in Hp' as ->. simpl.
    by apply list_elem_of_fmap_2.
  - done.
  - intros rt Hrt. rewrite Hp in Hrt. simpl in Hrt.
    by eapply Forall_forall in Hpairs.
Qed.

(** The tables a committed call leaves for a repo that is not in the batch:
    it may have lost its [repo_latest] row, its topics and its name to a
    conflict; its history is untouched. *)
Lemma committed_other now s nodes s' k :
  outcome now s nodes s' None →
  k ∉ node_ids (fresh_of s nodes) →
  ∃ rows,
    build_repo_rows (fresh_of s nodes) = inl rows
    ∧ repo_latest (conn s') !! k = existing_row (conn s) rows k
    ∧ (∀ st, repo_metrics_hist (conn s') !! (k, st)
             = repo_metrics_hist (conn s) !! (k, st))
    ∧ (∀ t, (k, t) ∈ repo_topic_latest (conn s') ↔
            (k, t) ∈ repo_topic_latest (conn s)
            ∧ ¬ disassociated (repo (conn s)) rows k)
    ∧ repo (conn s') !! k = rename_run rows k <$> repo (conn s) !! k.
Proof.
  intros Hup Hk.
  destruct (entered_frame now s nodes) as (Her & _ & _ & Hel & Heh & Het & _).
  inversion Hup as [Hnil| | | | |rows d3 s4 pl d5 Hne Hb H1 Hp Hw]; subst.
  { exists []. rewrite Hnil. split; [done|]. unfold existing_row, disassociated.
    rewrite decide_False by (by intros ?%Exists_nil).
    rewrite Her, Hel, Heh, Het. split; [done|]. split; [done|]. split.
    - intros t. split; [|by intros [? _]].
      intros ?. split; [done|]. by intros ?%Exists_nil.
    - simpl. by destruct (repo (conn s) !! k). }
  exists rows. split; [done|].
  pose proof (build_repo_rows_ids _ _ Hb) as Hids.
  apply resolve_and_upsert_inl in H1
    as (_ & _ & _ & Hh3 & Hl3 & Ht3 & Hr3 & _ & _ & _).
  pose proof (plan_rows_frame (run_of now s)
      (_fetch_latest_metrics d3 (p_id <$> rows)) (fresh_of s nodes)
      (set_conn d3 (entered now s nodes)) empty_plan) as (Hf & _).
  rewrite Hp in Hf. simpl in Hf. destruct Hf as [Hr4 _ Hl4 Hh4 Ht4].
  apply plan_rows_inl in Hp as (ms & Hms & Hpl).
  pose proof (node_metrics_ids _ _ Hms) as Hmids.
  pose proof (planned_extend_run _ _ _ _ Hpl) as Hext.
  apply planned_keys in Hpl as (Hk1 & Hk2 & Hk3 & Hk4 & Hk5).
  rewrite Hmids in *.
  apply (write_plan_inl (run_of now s)) in Hw
    as (Hr5 & _ & _ & _ & Hlat & _ & _ & (hist2 & Hh1 & _ & Hh5) & Ht5);
    [|done].
  simpl. split; [|split; [|split]].
  - rewrite Hlat by (by rewrite Hk1). rewrite Hl4, Hl3.
    unfold existing_row. by rewrite Her, Hel.
  - intros st. rewrite Hh5, decide_False, Hh1.
    + congruence.
    + intros Hin. apply Hk2 in Hin. done.
    + intros Hin. apply Hk3 in Hin. done.
  - intros t. rewrite Ht5, Hk4, Ht4, Ht3, Her, Het. simpl. split.
    + intros [Hin|[? _]]; [|done]. apply Hk5 in Hin. done.
    + intros ?. by right.
  - rewrite Hr5, Hr4, Hr3, Her; [done|]. by rewrite Hids.
Qed.

(** A committed call read the metrics of every snapshot it kept. *)
Lemma committed_metrics now s nodes s' n :
  outcome now s nodes s' None →
  n ∈ fresh_of s nodes → ∃ m, node_metrics n = inl m.
Proof.
  intros Hup Hn.
  inversion Hup as [Hnil| | | | |rows d3 s4 pl d5 Hne Hb H1 Hp Hw]; subst.
  { rewrite Hnil in Hn. by apply elem_of_nil in Hn. }
  apply plan_rows_inl in Hp as (ms & Hms & _).
  apply list_elem_of_lookup in Hn as [i Hi].
  destruct (Forall2_lookup_l _ _ _ _ _ Hms Hi) as (m & _ & Hm). by exists m.
Qed.

(** A call that raises, or finds nothing fresh, leaves the history as it
    was and no [repo_latest] row that was not there. *)
Lemma uncommitted now s nodes s' raised :
  outcome now s nodes s' raised →
  raised ≠ None ∨ fresh_of s nodes = [] →
  repo_metrics_hist (conn s') = repo_metrics_hist (conn s)
  ∧ (∀ k rl, repo_latest (conn s') !! k = Some rl →
             repo_latest (conn s) !! k = Some rl).
Proof.
  intros Ho Hun.
  destruct (entered_frame now s nodes) as (_ & _ & _ & Hel & Heh & _ & _).
  assert (∀ rows d3 s4 res,
    resolve_and_upsert rows (conn (entered now s nodes)) = inl d3 →
    plan_rows (run_of now s) (_fetch_latest_metrics d3 (p_id <$> rows))
      (fresh_of s nodes) (set_conn d3 (entered now s nodes)) empty_plan
    = (s4, res) →
    repo_metrics_hist (conn s4) = repo_metrics_hist (conn s)
    ∧ ∀ k rl, repo_latest (conn s4) !! k = Some rl →
              repo_latest (conn s) !! k = Some rl) as Hplan.
  { intros rows d3 s4 res H1 Hp.
    apply resolve_and_upsert_inl in H1
      as (_ & _ & _ & Hh3 & Hl3 & _ & _ & _ & _ & _).
    pose proof (plan_rows_frame (run_of now s)
      (_fetch_latest_metrics d3 (p_id <$> rows)) (fresh_of s nodes)
      (set_conn d3 (entered now s nodes)) empty_plan) as (Hf & _).
    rewrite Hp in Hf. simpl in Hf. destruct Hf as [_ _ Hl4 Hh4 _].
    split; [congruence|]. intros k rl. rewrite Hl4, Hl3, Hel.
    by case_decide. }
  destruct Ho as [ | | |rows d3 s4 e Hb H1 Hp|rows d3 s4 pl e Hb H1 Hp Hw
                 |rows d3 s4 pl d5 Hne Hb H1 Hp Hw].
  - split; [done|]. intros k rl. by rewrite Hel.
  - split; [done|]. intros k rl. by rewrite Hel.
  - split; [done|]. intros k rl. by rewrite Hel.
  - by eapply Hplan.
  - by eapply Hplan.
  - by destruct Hun.
Qed.

(** However a call ends, it has begun the run and recorded the ids it
    kept; it writes [fetch_run] only to begin the run. *)
Lemma outcome_pass now s nodes s' raised :
  outcome now s nodes s' raised →
  fetch_run (conn s') = fetch_run (conn (entered now s nodes))
  ∧ _run_id s' = Some (run_of now s)
  ∧ _processed_repo_ids s'
    = _processed_repo_ids (entered now s nodes).
Proof.
  intros Ho.
  destruct (entered_frame now s nodes) as (_ & _ & _ & _ & _ & _ & Hrun).
  assert (∀ rows d3 s4 res,
    resolve_and_upsert rows (conn (entered now s nodes)) = inl d3 →
    plan_rows (run_of now s) (_fetch_latest_metrics d3 (p_id <$> rows))
      (fresh_of s nodes) (set_conn d3 (entered now s nodes)) empty_plan
    = (s4, res) →
    fetch_run (conn s4) = fetch_run (conn (entered now s nodes))
    ∧ _run_id s4 = Some (run_of now s)
    ∧ _processed_repo_ids s4
      = _processed_repo_ids (entered now s nodes)) as Hplan.
  { intros rows d3 s4 res H1 Hp.
    apply resolve_and_upsert_inl in H1 as (_ & _ & Hf3 & _).
    pose proof (plan_rows_frame (run_of now s)
      (_fetch_latest_metrics d3 (p_id <$> rows)) (fresh_of s nodes)
      (set_conn d3 (entered now s nodes)) empty_plan) as (Hf & Hr & Hpr).
    rewrite Hp in Hf, Hr, Hpr.
    cbn [fst set_conn _run_id _processed_repo_ids conn] in Hf, Hr, Hpr.
    destruct Hf as [_ Hf4 _ _ _].
    split; [by rewrite Hf4|]. split; [by rewrite Hr|done]. }
  destruct Ho as [ | | |rows d3 s4 e Hb H1 Hp|rows d3 s4 pl e Hb H1 Hp Hw
                 |rows d3 s4 pl d5 Hne Hb H1 Hp Hw]; try done.
  - by eapply Hplan.
  - by eapply Hplan.
  - destruct (Hplan _ _ _ _ H1 Hp) as (Hf & ? & ?).
    apply plan_rows_inl in Hp as (ms & _ & Hpl).
    pose proof (planned_extend_run _ _ _ _ Hpl) as Hext.
    apply (write_plan_inl (run_of now s)) in Hw as (_ & _ & _ & Hf5 & _);
      [|done].
    simpl. split; [by rewrite Hf5|done].
Qed.

(* ===================================================================== *)
(** ** The invariant of a pass *)
(* ===================================================================== *)

Lemma foldr_max_ge (x : Z) (l : list Z) y :
  y = x ∨ y ∈ l → y ≤ foldr Z.max x l.
Proof.
  induction l as [|a l IH]; simpl.
  - intros [->|?%elem_of_nil]; [lia|done].
  - rewrite elem_of_cons. intros [?|[->|?]]; [| lia |].
    + specialize (IH (or_introl H)). lia.
    + specialize (IH (or_intror H)). lia.
Qed.

(** A fresh row id is above every id in use. *)
Lemma next_rowid_gt {A} (t : gmap Z A) x :
  is_Some (t !! x) → x < next_rowid t.
Proof.
  intros [a Hx]. unfold next_rowid.
  assert (x ∈ (map_to_list t).*1) as Hin.
  { apply list_elem_of_fmap. exists (x, a). split; [done|].
    by apply elem_of_map_to_list. }
  destruct ((map_to_list t).*1) as [|k ks]; [by apply elem_of_nil in Hin|].
  apply elem_of_cons in Hin. pose proof (foldr_max_ge k ks x Hin). lia.
Qed.

Lemma entered_run now s nodes :
  pass_invariant s →
  is_Some (fetch_run (conn (entered now s nodes)) !! run_of now s)
  ∧ (∀ x, is_Some (fetch_run (conn (entered now s nodes)) !! x) →
          x ≤ run_of now s)
  ∧ ∀ x, is_Some (fetch_run (conn s) !! x) →
         is_Some (fetch_run (conn (entered now s nodes)) !! x).
Proof.
  intros [_ Hrun _]. unfold entered, run_of, begin_run.
  destruct (_run_id s) as [r|] eqn:Hr; simpl.
  - destruct (Hrun r eq_refl) as [? ?]. by repeat split.
  - split; [by rewrite lookup_insert_eq|]. split.
    + intros x. rewrite lookup_insert. case_decide; [lia|].
      intros ?%next_rowid_gt. lia.
    + intros x Hx. rewrite lookup_insert. by case_decide.
Qed.

(** A repo the pass has not processed was last written before the run of
    the call. *)
Lemma unprocessed_before now s k :
  pass_invariant s → k ∉ _processed_repo_ids s →
  (∀ st h, repo_metrics_hist (conn s) !! (k, st) = Some h →
           h_end_run_id h < run_of now s)
  ∧ (∀ rl, repo_latest (conn s) !! k = Some rl → rl_run_id rl < run_of now s).
Proof.
  intros [[_ _ Hlr Hhe] _ Hun] Hk. unfold run_of, begin_run.
  destruct (_run_id s) as [r|] eqn:Hr; simpl.
  - by apply Hun.
  - split.
    + intros st h Hh. by eapply next_rowid_gt, Hhe.
    + intros rl Hl. by eapply next_rowid_gt, Hlr.
Qed.

Lemma store_invariant_empty : store_invariant empty_db.
Proof.
  split; [apply latest_consistent_empty|..]; simpl;
    intros ? ?; by rewrite lookup_empty.
Qed.

(** A freshly opened engine satisfies the invariant of a pass when its
    store satisfies the store's. *)
Lemma pass_invariant_open d : store_invariant d → pass_invariant (open_db d).
Proof. intros Hd. split; [done|by intros r [=]|by intros r k [=]]. Qed.

Lemma fresh_of_unprocessed s nodes k :
  k ∈ node_ids (fresh_of s nodes) → k ∉ _processed_repo_ids s.
Proof.
  destruct (fresh_of_spec s nodes) as (Hall & _ & _).
  unfold node_ids. intros (n & Hn & Hg)%list_elem_of_omap.
  eapply Forall_forall in Hall as (i & Hi & _ & Hni); [|done].
  rewrite Hi in Hg. by injection Hg as <-.
Qed.

Lemma fresh_of_id s nodes k :
  k ∈ node_ids (fresh_of s nodes) →
  ∃ n, n ∈ fresh_of s nodes ∧ databaseId n = Present k.
Proof.
  unfold node_ids. intros (n & Hn & Hg)%list_elem_of_omap.
  exists n. split; [done|]. by destruct (databaseId n); simplify_eq/=.
Qed.

Lemma existing_row_Some d rows k o :
  existing_row d rows k = Some o → repo_latest d !! k = Some o.
Proof. unfold existing_row. by case_decide. Qed.

(** The snapshot of a committed call that carries a given kept id. *)
Lemma committed_id now s nodes s' k :
  outcome now s nodes s' None →
  k ∈ node_ids (fresh_of s nodes) →
  ∃ n m, n ∈ fresh_of s nodes ∧ node_metrics n = inl m ∧ m_repo_id m = k.
Proof.
  intros Ho (n & Hn & Hid)%fresh_of_id.
  destruct (committed_metrics _ _ _ _ _ Ho Hn) as [m Hm].
  exists n, m. split; [done|]. split; [done|].
  apply node_metrics_id in Hm. congruence.
Qed.

(** Every call, however it ends, keeps the invariant of the pass. *)
Lemma pass_invariant_outcome now s nodes s' raised :
  outcome now s nodes s' raised →
  pass_invariant s → pass_invariant s'.
Proof.
  intros Ho Hinv.
  pose proof (latest_consistent_outcome _ _ _ _ _ Ho
                (si_consistent _ (pi_store _ Hinv))) as Hcons.
  destruct (outcome_pass _ _ _ _ _ Ho) as (Hfr & Hrun & Hproc).
  destruct (entered_run now s nodes Hinv) as (Hrun_in & Hrun_max & Hmono).
  rewrite <-Hfr in Hrun_in, Hrun_max, Hmono.
  pose proof (λ k, unprocessed_before now s k Hinv) as Hbefore.
  assert (∀ k, k ∉ _processed_repo_ids s' →
            (k ∉ _processed_repo_ids s) ∧ (k ∉ node_ids (fresh_of s nodes)))
    as Hunproc.
  { intros k. rewrite Hproc, entered_processed. tauto. }
  destruct Hinv as [[_ Hspan Hlrun Hhend] _ _].
  assert (raised = None ∨ (raised ≠ None ∨ fresh_of s nodes = []))
    as Hcase by (destruct Ho; eauto).
  destruct Hcase as [->|Hun]; revgoals.
  - (* nothing was committed beyond the first transaction *)
    destruct (uncommitted _ _ _ _ _ Ho Hun) as (Hh & Hl).
    split; [split|..].
    + done.
    + intros k rl Hk. eapply Hspan, Hl, Hk.
    + intros k rl Hk. eapply Hmono, Hlrun, Hl, Hk.
    + intros key h Hk. rewrite Hh in Hk. eapply Hmono, Hhend, Hk.
    + intros r. rewrite Hrun. by intros [= <-].
    + intros r k. rewrite Hrun. intros [= <-] Hk.
      destruct (Hunproc k Hk) as [Hk' _]. destruct (Hbefore k Hk') as [Hb1 Hb2].
      split.
      * intros st h. rewrite Hh. apply Hb1.
      * intros rl Hrl. by apply Hb2, Hl.
  - (* the second transaction committed, or nothing was fresh *)
    assert (∀ k rl, repo_latest (conn s') !! k = Some rl →
              k ∉ node_ids (fresh_of s nodes) →
              repo_latest (conn s) !! k = Some rl) as Hl_other.
    { intros k rl Hk Hid.
      destruct (committed_other _ _ _ _ k Ho Hid) as (rows & _ & Hl & _).
      rewrite Hl in Hk. by eapply existing_row_Some. }
    assert (∀ k st, k ∉ node_ids (fresh_of s nodes) →
              repo_metrics_hist (conn s') !! (k, st)
              = repo_metrics_hist (conn s) !! (k, st)) as Hh_other.
    { intros k st Hid.
      by destruct (committed_other _ _ _ _ k Ho Hid) as (rows & _ & _ & Hh & _). }
    split; [split|..].
    + done.
    + intros k rl Hk.
      destruct (decide (k ∈ node_ids (fresh_of s nodes))) as [Hid|Hid];
        [|by eapply Hspan, Hl_other].
      destruct (committed_id _ _ _ _ _ Ho Hid) as (n & m & Hn & Hm & <-).
      destruct (committed_snapshot _ _ _ _ _ _ Ho Hn Hm)
        as (rows & old & _ & -> & (rl' & Hrl' & Hr' & Hhs' & _) & _).
      assert (rl' = rl) as -> by congruence. rewrite Hhs', Hr'.
      destruct (history_step_cases (run_of now s)
                  (existing_row (conn s) rows (m_repo_id m)) m)
        as [[-> _]|(o & Ho' & _ & ->)]; simpl; [lia|].
      apply existing_row_Some in Ho'.
      pose proof (Hspan _ _ Ho').
      destruct (Hbefore _ (fresh_of_unprocessed _ _ _ Hid)) as [_ Hb2].
      specialize (Hb2 _ Ho'). lia.
    + intros k rl Hk.
      destruct (decide (k ∈ node_ids (fresh_of s nodes))) as [Hid|Hid];
        [|by eapply Hmono, Hlrun, Hl_other].
      destruct (committed_id _ _ _ _ _ Ho Hid) as (n & m & Hn & Hm & <-).
      destruct (committed_snapshot _ _ _ _ _ _ Ho Hn Hm)
        as (rows & old & _ & -> & (rl' & Hrl' & Hr' & _) & _).
      assert (rl' = rl) as -> by congruence. by rewrite Hr'.
    + intros [k st] h Hk.
      destruct (decide (k ∈ node_ids (fresh_of s nodes))) as [Hid|Hid];
        [|rewrite Hh_other in Hk by done; eapply Hmono, Hhend, Hk].
      destruct (committed_id _ _ _ _ _ Ho Hid) as (n & m & Hn & Hm & <-).
      destruct (committed_snapshot _ _ _ _ _ _ Ho Hn Hm)
        as (rows & old & _ & -> & _ & Hnew & Hextend).
      destruct (history_step_cases (run_of now s)
                  (existing_row (conn s) rows (m_repo_id m)) m)
        as [[_ Hne]|(o & Ho' & Hq & _)].
      * destruct (Hnew Hne) as (_ & Hat & Hrest).
        destruct (decide (st = run_of now s)) as [->|Hst].
        -- rewrite Hat in Hk. by injection Hk as <-.
        -- rewrite Hrest in Hk by done. eapply Hmono, Hhend, Hk.
      * destruct (Hextend o Ho' Hq) as (Hat & Hrest).
        destruct (decide (st = rl_history_start_run_id o)) as [->|Hst].
        -- rewrite Hat in Hk.
           destruct (repo_metrics_hist (conn s) !! _); simplify_eq/=. done.
        -- rewrite Hrest in Hk by done. eapply Hmono, Hhend, Hk.
    + intros r. rewrite Hrun. by intros [= <-].
    + intros r k. rewrite Hrun. intros [= <-] Hk.
      destruct (Hunproc k Hk) as [Hk' Hid].
      destruct (Hbefore k Hk') as [Hb1 Hb2]. split.
      * intros st h. rewrite Hh_other by done. apply Hb1.
      * intros rl Hrl. by eapply Hb2, Hl_other.
Qed.

Lemma pass_invariant_upsert now s nodes :
  pass_invariant s → pass_invariant (upsert_from_github_nodes now s nodes).1.
Proof. apply (pass_invariant_outcome _ _ _ _ _ (upsert_outcome now s nodes)). Qed.

(** The store a pass leaves satisfies the store invariant, so the next pass
    can open it. *)
Lemma pass_invariant_pass now batches s :
  pass_invariant s → pass_invariant (ingest_pass now s batches).1.
Proof.
  revert s. induction batches as [|b bs IH]; intros s Hs; simpl; [done|].
  pose proof (pass_invariant_upsert now s b Hs) as Hs'.
  destruct (upsert_from_github_nodes now s b) as [s' [e|]]; simpl in *;
    [done|by apply IH].
Qed.

(* ===================================================================== *)
(** ** Change detection and segment extension *)
(* ===================================================================== *)

(** The row the diff finds for repo [k] is the row [k] had when the call
    began, unless a snapshot the call ingests carries, under another id,
    the name [k] holds in the database: then the conflict deletes of the
    first transaction have removed it and the diff finds none. *)
Lemma existing_row_cases s nodes rows k :
  build_repo_rows (fresh_of s nodes) = inl rows →
  ((∃ r n' id', repo (conn s) !! k = Some r ∧ n' ∈ fresh_of s nodes
                ∧ nameWithOwner n' = Present (r_name_with_owner r)
                ∧ databaseId n' = Present id' ∧ id' ≠ k) →
   existing_row (conn s) rows k = None)
  ∧ ((∀ r n' id', repo (conn s) !! k = Some r → n' ∈ fresh_of s nodes →
                  nameWithOwner n' = Present (r_name_with_owner r) →
                  databaseId n' = Present id' → id' = k) →
     existing_row (conn s) rows k = repo_latest (conn s) !! k).
Proof.
  intros Hb. unfold existing_row, disassociated. split.
  - intros (r & n' & id' & Hr & Hn' & Hname & Hid & Hne).
    rewrite decide_True; [done|].
    destruct (build_repo_rows_elem _ _ _ Hb Hn') as (p & Hp & Hpid & Hpn).
    apply Exists_exists. exists p. split; [done|].
    apply conflicts_with_spec. exists r. split; [done|].
    rewrite Hname in Hpn. simpl in Hpn. injection Hpn as Hpn.
    rewrite Hid in Hpid. injection Hpid as Hpid.
    split; simpl; congruence.
  - intros Hnone. rewrite decide_False; [done|].
    intros (p & Hp & Hc)%Exists_exists.
    apply conflicts_with_spec in Hc as (r & Hr & Hname & Hne). simpl in *.
    destruct (build_repo_rows_elem_inv _ _ _ Hb Hp) as (n' & Hn' & Hid & Hi).
    rewrite <-Hname in Hi. apply index_Present in Hi.
    by rewrite (Hnone r n' (p_id p) Hr Hn' Hi Hid) in Hne.
Qed.

(** C6 (as amended).  A call that returns has, for every snapshot it
    ingested (read as [m], for repo [k]), done one of two things.  The row
    the diff finds for [k] is [existing_row]: the [repo_latest] row of [k]
    at the start of the call, unless the name-conflict deletes of this very
    call removed it, which they do exactly when a snapshot the call ingests
    carries, under another id, the name [k] holds in the database.
    - If there is such a row and its quadruple equals the snapshot's, no
      history row of [k] is created or removed, the row starting at its
      [history_start_run_id] gets the current run as [end_run_id] and every
      other row of [k] is untouched; [repo_latest] keeps that
      [history_start_run_id].  In a pass (under [pass_invariant]) that row
      exists, carries the quadruple, and is the only row of [k] covering
      both the run that last wrote [k] and the current one.
    - Otherwise (no row at the start, a row removed by the conflict
      deletes, or another quadruple) a row [(k, run)] with
      [end_run_id = run] and the snapshot's quadruple is inserted, no other
      row of [k] changes, and [history_start_run_id] becomes the current
      run. *)
Theorem history_segment_step (now : Z) (s s' : RepoDB) (nodes : list Node)
    (n : Node) (m : Metrics) :
  upsert_from_github_nodes now s nodes = (s', None) →
  n ∈ fresh_of s nodes →
  node_metrics n = inl m →
  ∃ repo_rows,
    build_repo_rows (fresh_of s nodes) = inl repo_rows
    ∧ (∀ o, existing_row (conn s) repo_rows (m_repo_id m) = Some o →
            latest_quadruple o = metrics_quadruple m →
         (∀ st, repo_metrics_hist (conn s') !! (m_repo_id m, st) =
                if decide (st = rl_history_start_run_id o)
                then with_end_run_id (run_of now s)
                       <$> repo_metrics_hist (conn s) !! (m_repo_id m, st)
                else repo_metrics_hist (conn s) !! (m_repo_id m, st))
         ∧ (∃ rl', repo_latest (conn s') !! m_repo_id m = Some rl'
                   ∧ rl_history_start_run_id rl' = rl_history_start_run_id o
                   ∧ rl_run_id rl' = run_of now s
                   ∧ latest_quadruple rl' = metrics_quadruple m)
         ∧ (pass_invariant s →
            ∃ h, repo_metrics_hist (conn s)
                   !! (m_repo_id m, rl_history_start_run_id o) = Some h
                 ∧ hist_quadruple h = metrics_quadruple m
                 ∧ repo_metrics_hist (conn s')
                     !! (m_repo_id m, rl_history_start_run_id o)
                   = Some (with_end_run_id (run_of now s) h)
                 ∧ ∀ st h', repo_metrics_hist (conn s') !! (m_repo_id m, st)
                            = Some h' →
                     (st ≤ rl_run_id o ≤ h_end_run_id h'
                      ∧ st ≤ run_of now s ≤ h_end_run_id h')
                     ↔ st = rl_history_start_run_id o))
    ∧ ((∀ o, existing_row (conn s) repo_rows (m_repo_id m) = Some o →
             latest_quadruple o ≠ metrics_quadruple m) →
         repo_metrics_hist (conn s) !! (m_repo_id m, run_of now s) = None
         ∧ (∀ st, repo_metrics_hist (conn s') !! (m_repo_id m, st) =
                  if decide (st = run_of now s)
                  then Some (new_segment (run_of now s) m)
                  else repo_metrics_hist (conn s) !! (m_repo_id m, st))
         ∧ (∃ rl', repo_latest (conn s') !! m_repo_id m = Some rl'
                   ∧ rl_history_start_run_id rl' = run_of now s
                   ∧ rl_run_id rl' = run_of now s
                   ∧ latest_quadruple rl' = metrics_quadruple m))
    ∧ ((∃ r n' id', repo (conn s) !! m_repo_id m = Some r
                    ∧ n' ∈ fresh_of s nodes
                    ∧ nameWithOwner n' = Present (r_name_with_owner r)
                    ∧ databaseId n' = Present id' ∧ id' ≠ m_repo_id m) →
       existing_row (conn s) repo_rows (m_repo_id m) = None)
    ∧ ((∀ r n' id', repo (conn s) !! m_repo_id m = Some r →
                    n' ∈ fresh_of s nodes →
                    nameWithOwner n' = Present (r_name_with_owner r) →
                    databaseId n' = Present id' → id' = m_repo_id m) →
       existing_row (conn s) repo_rows (m_repo_id m)
       = repo_latest (conn s) !! m_repo_id m).
Proof.
  intros Hup Hn Hm. apply upsert_outcome_eq in Hup.
  destruct (committed_snapshot _ _ _ _ _ _ Hup Hn Hm)
    as (rows & old & Hb & -> & (rl' & Hrl' & Hr' & Hhs' & Hq') & Hnew & Hextend).
  exists rows. split; [done|].
  split; [|split; [|apply (existing_row_cases s nodes rows _ Hb)]].
  - intros o Ho Hq. destruct (Hextend o Ho Hq) as [Hat Hrest].
    split; [|split].
    + intros st. case_decide as Hst; [by subst|by apply Hrest].
    + exists rl'. split; [done|]. split; [|done].
      rewrite Hhs'.
      destruct (history_step_cases (run_of now s)
                  (existing_row (conn s) rows (m_repo_id m)) m)
        as [[_ Hne]|(o' & Ho' & _ & ->)]; [by destruct (Hne o Ho)|].
      simpl. congruence.
    + intros Hinv.
      pose proof (existing_row_Some _ _ _ _ Ho) as Hlo.
      assert (m_repo_id m ∈ node_ids (fresh_of s nodes)) as Hid.
      { unfold node_ids. apply list_elem_of_omap. exists n. split; [done|].
        by rewrite (node_metrics_id _ _ Hm). }
      destruct (unprocessed_before now s _ Hinv
                  (fresh_of_unprocessed _ _ _ Hid)) as [Hb1 Hb2].
      destruct Hinv as [[Hcons Hspan _ _] _ _].
      destruct (Hcons _ _ Hlo) as (h & Hh & Hqh).
      exists h. split; [done|]. split; [congruence|].
      split; [by rewrite Hat, Hh|].
      intros st h' Hst. specialize (Hspan _ _ Hlo). specialize (Hb2 _ Hlo).
      split.
      * intros [_ [_ Hend]].
        destruct (decide (st = rl_history_start_run_id o)) as [|Hne]; [done|].
        rewrite Hrest in Hst by done. specialize (Hb1 _ _ Hst). lia.
      * intros ->. rewrite Hat, Hh in Hst. injection Hst as <-. simpl. lia.
  - intros Hne. destruct (Hnew Hne) as (Hnone & Hat & Hrest).
    split; [done|]. split.
    + intros st. case_decide as Hst; [by subst|by apply Hrest].
    + exists rl'. split; [done|]. split; [|done].
      rewrite Hhs'.
      destruct (history_step_cases (run_of now s)
                  (existing_row (conn s) rows (m_repo_id m)) m)
        as [[-> _]|(o' & Ho' & Hq & _)]; [done|by destruct (Hne o' Ho')].
Qed.

Lemma pass_invariant_S1_reopened : pass_invariant (open_db (conn scenario_S1)).
Proof.
  apply pass_invariant_open, pi_store.
  apply pass_invariant_upsert, pass_invariant_open, store_invariant_empty.
Qed.

(** Scenario S2: the same snapshot in the next pass extends the segment. *)
Lemma history_segment_step_witness :
  (upsert_from_github_nodes 21600 (open_db (conn scenario_S1))
     [snapshot 1 "a/x" 10]).2 = None
  ∧ snapshot 1 "a/x" 10 ∈ fresh_of (open_db (conn scenario_S1))
                            [snapshot 1 "a/x" 10]
  ∧ node_metrics (snapshot 1 "a/x" 10) = inl (snapshot_metrics 1 10)
  ∧ repo_metrics_hist
      (conn (upsert_from_github_nodes 21600 (open_db (conn scenario_S1))
               [snapshot 1 "a/x" 10]).1) !! (1, 1)
    = Some {| h_end_run_id := 2; h_stars := 10; h_forks := 0;
              h_watchers := 0; h_disk_usage := None |}.
Proof.
  assert (snapshot 1 "a/x" 10 ∈ fresh_of (open_db (conn scenario_S1))
                                  [snapshot 1 "a/x" 10]) as Hin.
  { vm_compute. apply list_elem_of_here. }
  split; [by vm_compute|]. split; [done|]. split; [done|].
  destruct (history_segment_step 21600 (open_db (conn scenario_S1))
              (upsert_from_github_nodes 21600 (open_db (conn scenario_S1))
                 [snapshot 1 "a/x" 10]).1
              [snapshot 1 "a/x" 10] (snapshot 1 "a/x" 10)
              (snapshot_metrics 1 10))
    as (rows & Hb & Hsame & _); [by vm_compute|done|done|].
  vm_compute in Hb. injection Hb as <-.
  destruct (Hsame {| rl_run_id := 1; rl_history_start_run_id := 1;
                     rl_stars := 10; rl_forks := 0; rl_watchers := 0;
                     rl_disk_usage := None; rl_updated_at := Some 0;
                     rl_pushed_at := Some 0; rl_is_archived := 0;
                     rl_primary_language_id := None |})
    as (Hh & _ & _); [by vm_compute|done|].
  etrans; [exact (Hh 1)|by vm_compute].
Defined.

(** C6, counterexample: a repo with a [repo_latest] row whose quadruple
    equals the snapshot's does not always have its segment extended.  Repo
    1 is stored as ["a/a"] with 10 stars by run 1; the next pass ingests
    the batch [(1, "b/b", 10 stars), (2, "a/a", 20 stars)].  The call
    returns; the second snapshot takes the name of repo 1, so the conflict
    delete removes the [repo_latest] row of repo 1 before the diff, a new
    segment [(1, 2)] is inserted and the segment [(1, 1)] still ends at
    run 1: two segments, none covering both runs. *)
Lemma renamed_repo_opens_new_segment :
  (upsert_from_github_nodes 21600
     (open_db (conn (upsert_from_github_nodes 0 (open_db empty_db)
                       [snapshot 1 "a/a" 10]).1))
     [snapshot 1 "b/b" 10; snapshot 2 "a/a" 20]).2 = None
  ∧ latest_quadruple
      <$> repo_latest
            (conn (upsert_from_github_nodes 0 (open_db empty_db)
                     [snapshot 1 "a/a" 10]).1) !! 1
    = Some (metrics_quadruple (snapshot_metrics 1 10))
  ∧ node_metrics (snapshot 1 "b/b" 10) = inl (snapshot_metrics 1 10)
  ∧ repo_metrics_hist
      (conn (upsert_from_github_nodes 21600
               (open_db (conn (upsert_from_github_nodes 0 (open_db empty_db)
                                 [snapshot 1 "a/a" 10]).1))
               [snapshot 1 "b/b" 10; snapshot 2 "a/a" 20]).1) !! (1, 2)
    = Some {| h_end_run_id := 2; h_stars := 10; h_forks := 0;
              h_watchers := 0; h_disk_usage := None |}
  ∧ repo_metrics_hist
      (conn (upsert_from_github_nodes 21600
               (open_db (conn (upsert_from_github_nodes 0 (open_db empty_db)
                                 [snapshot 1 "a/a" 10]).1))
               [snapshot 1 "b/b" 10; snapshot 2 "a/a" 20]).1) !! (1, 1)
    = Some {| h_end_run_id := 1; h_stars := 10; h_forks := 0;
              h_watchers := 0; h_disk_usage := None |}.
Proof. by vm_compute. Qed.

(* ===================================================================== *)
(** ** Dropped snapshots *)
(* ===================================================================== *)

(** The filter drops a snapshot without a positive integer id: the scan of
    the batch is the scan of the batch without it. *)
Lemma fresh_scan_drop_invalid seen l1 n l2 :
  (∀ i, get (databaseId n) = Some i → i ≤ 0) →
  fresh_scan seen (l1 ++ n :: l2) = fresh_scan seen (l1 ++ l2).
Proof.
  intros Hn. revert seen. induction l1 as [|a l1 IH]; intros seen; simpl.
  - destruct (get (databaseId n)) as [i|]; [|done].
    by rewrite bool_decide_eq_true_2 by (by apply Hn).
  - destruct (get (databaseId a)); [|done].
    repeat case_bool_decide; try done. by rewrite IH.
Qed.

(** The filter drops a snapshot whose id the pass has processed, or that an
    earlier snapshot of the batch carries. *)
Lemma fresh_scan_drop_seen seen l1 n l2 i :
  get (databaseId n) = Some i →
  i ∈ seen ∨ (0 < i ∧ ∃ n1, n1 ∈ l1 ∧ get (databaseId n1) = Some i) →
  fresh_scan seen (l1 ++ n :: l2) = fresh_scan seen (l1 ++ l2).
Proof.
  intros Hn. revert seen. induction l1 as [|a l1 IH]; intros seen Hi; simpl.
  - destruct Hi as [Hi|(_ & n1 & ?%elem_of_nil & _)]; [|done].
    rewrite Hn. case_bool_decide; [done|].
    by rewrite bool_decide_eq_true_2.
  - destruct (get (databaseId a)) as [j|] eqn:Ha.
    + case_bool_decide as Hj.
      { apply IH. destruct Hi as [?|(Hpos & n1 & [->|?]%elem_of_cons & Hn1)];
          [by left| |right; eauto].
        rewrite Ha in Hn1. injection Hn1 as ->. lia. }
      case_bool_decide as Hseen.
      { apply IH. destruct Hi as [?|(Hpos & n1 & [->|?]%elem_of_cons & Hn1)];
          [by left| |right; eauto].
        rewrite Ha in Hn1. injection Hn1 as ->. by left. }
      rewrite IH; [done|].
      destruct Hi as [?|(Hpos & n1 & [->|?]%elem_of_cons & Hn1)].
      * left. set_solver.
      * rewrite Ha in Hn1. injection Hn1 as ->. left. set_solver.
      * right. eauto.
    + apply IH. destruct Hi as [?|(Hpos & n1 & [->|?]%elem_of_cons & Hn1)];
        [by left| |right; eauto].
      by rewrite Ha in Hn1.
Qed.

(** The call depends on the batch through the scan only. *)
Lemma upsert_scan now s nodes nodes' :
  fresh_scan (_processed_repo_ids s) nodes
  = fresh_scan (_processed_repo_ids s) nodes' →
  upsert_from_github_nodes now s nodes = upsert_from_github_nodes now s nodes'.
Proof.
  intros H. unfold upsert_from_github_nodes.
  rewrite <-(fresh_of_entered now s nodes) in H.
  rewrite <-(fresh_of_entered now s nodes') in H.
  destruct (begin_run None now s) as [s1 run_id]. simpl in H. by rewrite H.
Qed.

(** Every positive id of the batch is recorded by the scan. *)
Lemma fresh_scan_records seen nodes n i :
  n ∈ nodes → get (databaseId n) = Some i → 0 < i →
  i ∈ (fresh_scan seen nodes).1.
Proof.
  intros Hin Hn Hi. destruct (fresh_scan_spec seen nodes) as (_ & _ & _ & Hs).
  apply Hs. clear Hs.
  revert seen. induction nodes as [|a nodes IH]; intros seen;
    [by apply elem_of_nil in Hin|].
  apply elem_of_cons in Hin as [->|Hin].
  - simpl. rewrite Hn. rewrite bool_decide_eq_false_2 by lia.
    case_bool_decide; [by left|].
    right. destruct (fresh_scan ({[i]} ∪ seen) nodes) as [? ?]. simpl.
    unfold node_ids. simpl. rewrite Hn. simpl. by left.
  - simpl. destruct (get (databaseId a)) as [j|] eqn:Ha; [|by apply IH].
    case_bool_decide; [by apply IH|].
    case_bool_decide; [by apply IH|].
    destruct (IH Hin ({[j]} ∪ seen)) as [Hj|Hj].
    + apply elem_of_union in Hj as [->%elem_of_singleton|?]; [|by left].
      right. destruct (fresh_scan ({[j]} ∪ seen) nodes) as [? ?]. simpl.
      unfold node_ids. simpl. rewrite Ha. simpl. by left.
    + right. destruct (fresh_scan ({[j]} ∪ seen) nodes) as [? ?]. simpl in *.
      unfold node_ids. simpl. rewrite Ha. simpl. by right.
Qed.

Lemma fresh_scan_nothing seen nodes :
  (∀ n i, n ∈ nodes → get (databaseId n) = Some i → i ≤ 0 ∨ i ∈ seen) →
  fresh_scan seen nodes = (seen, []).
Proof.
  induction nodes as [|a nodes IH]; intros H; simpl; [done|].
  assert (fresh_scan seen nodes = (seen, [])) as Hrest.
  { apply IH. intros n i ?. apply H. by right. }
  destruct (get (databaseId a)) as [j|] eqn:Ha; [|done].
  case_bool_decide; [done|]. case_bool_decide; [done|].
  destruct (H a j) as [?|?]; [by left|done|lia|done].
Qed.

Lemma set_processed_same s : set_processed (_processed_repo_ids s) s = s.
Proof. by destruct s. Qed.

(** A call on a batch whose ids are all processed writes nothing and
    returns. *)
Lemma upsert_nothing now s nodes r :
  _run_id s = Some r →
  (∀ n i, n ∈ nodes → get (databaseId n) = Some i →
          i ≤ 0 ∨ i ∈ _processed_repo_ids s) →
  upsert_from_github_nodes now s nodes = (s, None).
Proof.
  intros Hr Hall. unfold upsert_from_github_nodes.
  rewrite (begin_run_begun _ _ _ _ Hr).
  rewrite (fresh_scan_nothing _ _ Hall). by rewrite set_processed_same.
Qed.

(** After a call, however it ended, the run is begun and every positive id
    of the batch is processed. *)
Lemma upsert_processed now s nodes :
  let s' := (upsert_from_github_nodes now s nodes).1 in
  _run_id s' = Some (run_of now s)
  ∧ (∀ i, i ∈ _processed_repo_ids s → i ∈ _processed_repo_ids s')
  ∧ ∀ n i, n ∈ nodes → get (databaseId n) = Some i → 0 < i →
           i ∈ _processed_repo_ids s'.
Proof.
  destruct (outcome_pass _ _ _ _ _ (upsert_outcome now s nodes))
    as (_ & Hrun & Hproc).
  simpl. split; [done|]. rewrite Hproc. split.
  - intros i Hi. apply entered_processed. by left.
  - intros n i Hn Hid Hi. unfold entered. simpl.
    by eapply fresh_scan_records.
Qed.

Lemma ingest_pass_processed now s batches s' :
  ingest_pass now s batches = (s', None) →
  (∀ i, i ∈ _processed_repo_ids s → i ∈ _processed_repo_ids s')
  ∧ ∀ b n i, b ∈ batches → n ∈ b → get (databaseId n) = Some i → 0 < i →
             i ∈ _processed_repo_ids s'.
Proof.
  revert s. induction batches as [|b bs IH]; intros s; simpl.
  - intros [= <-]. split; [done|]. by intros b n i ?%elem_of_nil.
  - pose proof (upsert_processed now s b) as (_ & Hmono & Hrec).
    destruct (upsert_from_github_nodes now s b) as [s1 [e|]]; [done|].
    simpl in *. intros [Hmono' Hrec']%IH. split.
    + intros i Hi. by apply Hmono', Hmono.
    + intros b' n i [->|Hb]%elem_of_cons Hn Hid Hi.
      * by eapply Hmono', Hrec.
      * by eapply Hrec'.
Qed.

(** C8.  A snapshot whose id was already processed in the pass, or that
    follows a snapshot with the same id in its batch, is dropped before any
    write: the call on the batch with it is the call on the batch without
    it.  So calling with the same batch twice leaves the engine the first
    call left, and after any batches of a pass a later batch can repeat any
    of their snapshots without changing the result. *)
Theorem ingestion_idempotent_within_pass :
  (∀ (now : Z) (s : RepoDB) (l1 l2 : list Node) (n : Node) (i : Z),
     get (databaseId n) = Some i →
     i ∈ _processed_repo_ids s
     ∨ (0 < i ∧ ∃ n1, n1 ∈ l1 ∧ get (databaseId n1) = Some i) →
     upsert_from_github_nodes now s (l1 ++ n :: l2)
     = upsert_from_github_nodes now s (l1 ++ l2))
  ∧ (∀ (now : Z) (s : RepoDB) (nodes : list Node),
       upsert_from_github_nodes now
         (upsert_from_github_nodes now s nodes).1 nodes
       = ((upsert_from_github_nodes now s nodes).1, None))
  ∧ (∀ (now : Z) (s s' : RepoDB) (batches : list (list Node))
       (b l1 l2 : list Node) (n : Node) (i : Z),
       ingest_pass now s batches = (s', None) →
       b ∈ batches → n ∈ b → get (databaseId n) = Some i →
       upsert_from_github_nodes now s' (l1 ++ n :: l2)
       = upsert_from_github_nodes now s' (l1 ++ l2)).
Proof.
  split; [|split].
  - intros now s l1 l2 n i Hn Hi. apply upsert_scan.
    by eapply fresh_scan_drop_seen.
  - intros now s nodes.
    pose proof (upsert_processed now s nodes) as (Hrun & _ & Hrec).
    eapply upsert_nothing; [done|].
    intros n i Hn Hid. destruct (decide (i ≤ 0)); [by left|right].
    eapply Hrec; [done..|lia].
  - intros now s s' batches b l1 l2 n i Hpass Hb Hn Hid. apply upsert_scan.
    destruct (decide (i ≤ 0)) as [Hi|Hi].
    + apply fresh_scan_drop_invalid. intros j. rewrite Hid.
      by intros [= <-].
    + eapply fresh_scan_drop_seen; [done|]. left.
      apply ingest_pass_processed in Hpass as [_ Hrec].
      eapply Hrec; [done..|lia].
Qed.

Lemma ingestion_idempotent_within_pass_witness :
  get (databaseId (snapshot 1 "a/x" 99)) = Some 1
  ∧ (1 ∈ _processed_repo_ids scenario_S1)
  ∧ upsert_from_github_nodes 0 scenario_S1
      ([snapshot 2 "b/y" 5] ++ snapshot 1 "a/x" 99 :: [])
    = upsert_from_github_nodes 0 scenario_S1 ([snapshot 2 "b/y" 5] ++ []).
Proof.
  assert (1 ∈ _processed_repo_ids scenario_S1) as H by (by vm_compute).
  split; [done|]. split; [done|].
  apply (proj1 ingestion_idempotent_within_pass 0 scenario_S1
           [snapshot 2 "b/y" 5] [] (snapshot 1 "a/x" 99) 1);
    [reflexivity|by left].
Defined.

(* ===================================================================== *)
(** ** Name conflicts *)
(* ===================================================================== *)

(** Two rows of a table with unique names that carry one name are one row. *)
Lemma names_unique_eq t i j r1 r2 :
  names_unique t → t !! i = Some r1 → t !! j = Some r2 →
  r_name_with_owner r1 = r_name_with_owner r2 → i = j.
Proof.
  intros Hu H1 H2 Hn.
  apply elem_of_map_to_list in H1, H2.
  assert ((i, r1) = (j, r2)) as Heq; [|congruence].
  by eapply (NoDup_fmap_eq (λ kv : Z * RepoRow, r_name_with_owner kv.2)).
Qed.

(** The [repo] table a committed call leaves is the one its first
    transaction left. *)
Lemma committed_repo now s nodes s' :
  outcome now s nodes s' None →
  ∃ rows d3,
    build_repo_rows (fresh_of s nodes) = inl rows
    ∧ resolve_and_upsert rows (conn (entered now s nodes)) = inl d3
    ∧ repo (conn s') = repo d3.
Proof.
  intros Ho.
  inversion Ho as [Hnil| | | | |rows d3 s4 pl d5 Hne Hb H1 Hp Hw]; subst.
  { exists [], (conn (entered now s nodes)). by rewrite Hnil. }
  exists rows, d3. split; [done|]. split; [done|].
  pose proof (plan_rows_frame (run_of now s)
      (_fetch_latest_metrics d3 (p_id <$> rows)) (fresh_of s nodes)
      (set_conn d3 (entered now s nodes)) empty_plan) as (Hf & _).
  rewrite Hp in Hf. simpl in Hf. destruct Hf as [Hr4 _ _ _ _].
  apply plan_rows_inl in Hp as (ms & _ & Hpl).
  pose proof (planned_extend_run _ _ _ _ Hpl) as Hext.
  apply (write_plan_inl (run_of now s)) in Hw as (Hr5 & _); [|done].
  simpl. by rewrite Hr5.
Qed.

(** A kept snapshot that carries the name of another repo disassociates
    that repo. *)
Lemma snapshot_disassociates s nodes rows n id name k r :
  build_repo_rows (fresh_of s nodes) = inl rows →
  n ∈ fresh_of s nodes →
  databaseId n = Present id → nameWithOwner n = Present name →
  repo (conn s) !! k = Some r → r_name_with_owner r = name → k ≠ id →
  Exists (λ p, name_conflict (p_name p) (p_id p) (k, r)) rows
  ∧ disassociated (repo (conn s)) rows k.
Proof.
  intros Hb Hn Hid Hname Hk Hr Hne.
  destruct (build_repo_rows_elem _ _ _ Hb Hn) as (p & Hp & Hpid & Hpn).
  rewrite Hname in Hpn. simpl in Hpn. injection Hpn as Hpn.
  rewrite Hid in Hpid. injection Hpid as Hpid.
  assert (name_conflict (p_name p) (p_id p) (k, r)) as Hc.
  { split; simpl; [congruence|congruence]. }
  split; apply Exists_exists; exists p; (split; [done|]).
  - done.
  - unfold conflicts_with. by rewrite Hk.
Qed.




(** A snapshot of the same batch that carries the suffixed name renames the
    loser again: over Repo(id=7, "old/x") the batch
    [(8, "old/x"), (9, "old/x-renamed-7")] leaves repo 7 named
    ["old/x-renamed-7-renamed-7"]. *)
Lemma renamed_again_in_one_batch :
  (upsert_from_github_nodes 0 scenario_S5
     [snapshot 8 "old/x" 3; snapshot 9 "old/x-renamed-7" 4]).2 = None
  ∧ r_name_with_owner
      <$> repo (conn (upsert_from_github_nodes 0 scenario_S5
                        [snapshot 8 "old/x" 3;
                         snapshot 9 "old/x-renamed-7" 4]).1) !! 7
    = Some (renamed_times 7 2 "old/x").
Proof. by vm_compute. Qed.

(* ===================================================================== *)
(** ** A repo without a [repo_latest] row *)
(* ===================================================================== *)

Lemma get_repo_latest_no_latest d name :
  (∀ id r, repo d !! id = Some r → r_name_with_owner r = name →
           repo_latest d !! id = None) →
  get_repo_latest d name = None.
Proof.
  intros H. unfold get_repo_latest.
  replace (filter _ (latest_join d)) with (@nil Joined); [done|].
  symmetry. apply elem_of_nil_inv. intros j Hj.
  apply list_elem_of_filter in Hj as [Hn Hj].
  apply elem_of_latest_join in Hj as [Hl Hr].
  by rewrite (H _ _ Hr Hn) in Hl.
Qed.

(** C10.  [get_repo_latest] finds nothing for a name whose [repo] rows have
    no [repo_latest] row, and [/api/repo] then answers 404 whatever the
    process served before.  In particular, after a call that returns, a
    repo [k] that lost its name to a snapshot of the batch (and is not in
    the batch itself) is not found under the name it now carries. *)
Theorem repo_without_latest_not_found :
  (∀ (d : DB) (name : string) (reqs : list Request),
     (∀ id r, repo d !! id = Some r → r_name_with_owner r = name →
              repo_latest d !! id = None) →
     get_repo_latest d name = None
     ∧ (App.repo_latest d (cache_after d reqs) name).2
       = App.HTTPException 404 "Repo not found")
  ∧ (∀ (now : Z) (s s' : RepoDB) (nodes : list Node) (n : Node) (id : Z)
       (name : string) (k : Z) (r r' : RepoRow) (reqs : list Request),
       upsert_from_github_nodes now s nodes = (s', None) →
       n ∈ fresh_of s nodes →
       databaseId n = Present id → nameWithOwner n = Present name →
       repo (conn s) !! k = Some r → r_name_with_owner r = name → k ≠ id →
       k ∉ node_ids (fresh_of s nodes) →
       repo (conn s') !! k = Some r' →
       (∀ st, repo_metrics_hist (conn s') !! (k, st)
              = repo_metrics_hist (conn s) !! (k, st))
       ∧ get_repo_latest (conn s') (r_name_with_owner r') = None
       ∧ (App.repo_latest (conn s') (cache_after (conn s') reqs)
            (r_name_with_owner r')).2
         = App.HTTPException 404 "Repo not found").
Proof.
  assert (∀ (d : DB) (name : string) (reqs : list Request),
     (∀ id r, repo d !! id = Some r → r_name_with_owner r = name →
              repo_latest d !! id = None) →
     get_repo_latest d name = None
     ∧ (App.repo_latest d (cache_after d reqs) name).2
       = App.HTTPException 404 "Repo not found") as Hgen.
  { intros d name reqs H.
    pose proof (get_repo_latest_no_latest d name H) as Hnone.
    split; [done|].
    rewrite repo_latest_transparent by apply cache_after_built_by.
    by rewrite Hnone. }
  split; [done|].
  intros now s s' nodes n id name k r r' reqs Hup Hn Hid Hname Hk Hr Hne Hout Hk'.
  apply upsert_outcome_eq in Hup.
  destruct (committed_other _ _ _ _ k Hup Hout)
    as (rows & Hb & Hl & Hh & _ & _).
  destruct (snapshot_disassociates _ _ _ _ _ _ _ _ Hb Hn Hid Hname Hk Hr Hne)
    as [_ Hdis].
  split; [done|].
  apply Hgen. intros j rj Hj Hnj.
  destruct (committed_repo _ _ _ _ Hup) as (rows' & d3 & Hb' & H1 & Hrepo).
  assert (rows' = rows) as -> by congruence.
  apply resolve_and_upsert_inl in H1
    as (_ & _ & _ & _ & _ & _ & _ & _ & _ & Huniq).
  assert (rows ≠ []) as Hrows.
  { intros ->. by apply Exists_nil in Hdis. }
  rewrite <-Hrepo in Huniq.
  assert (j = k) as -> by (by eapply names_unique_eq; [apply Huniq|..]).
  rewrite Hl. unfold existing_row. by rewrite decide_True.
Qed.

(** Scenario S5 again: repo 7, once renamed, is not found. *)
Lemma repo_without_latest_not_found_witness :
  (upsert_from_github_nodes 0 scenario_S5 [snapshot 8 "old/x" 3]).2 = None
  ∧ get_repo_latest
      (conn (upsert_from_github_nodes 0 scenario_S5 [snapshot 8 "old/x" 3]).1)
      "old/x-renamed-7" = None
  ∧ (App.repo_latest
       (conn (upsert_from_github_nodes 0 scenario_S5 [snapshot 8 "old/x" 3]).1)
       App.response_cache "old/x-renamed-7").2
    = App.HTTPException 404 "Repo not found".
Proof.
  split; [by vm_compute|].
  refine (proj2 (proj2 repo_without_latest_not_found 0 scenario_S5
            (upsert_from_github_nodes 0 scenario_S5 [snapshot 8 "old/x" 3]).1
            [snapshot 8 "old/x" 3] (snapshot 8 "old/x" 3) 8 "old/x" 7
            {| r_name_with_owner := "old/x"; r_description := None;
               r_homepage_url := None; r_created_at := Some 0 |}
            {| r_name_with_owner := "old/x-renamed-7"; r_description := None;
               r_homepage_url := None; r_created_at := Some 0 |}
            [] _ _ _ _ _ _ _ _ _)).
  - by vm_compute.
  - vm_compute. apply list_elem_of_here.
  - reflexivity.
  - reflexivity.
  - by vm_compute.
  - reflexivity.
  - lia.
  - vm_compute. by intros [[=]|?%elem_of_nil]%elem_of_cons.
  - by vm_compute.
Defined.

(* ===================================================================== *)
(** ** Malformed snapshots *)
(* ===================================================================== *)

(** Building the [repo] parameter rows raises [KeyError] as soon as a kept
    snapshot has no [nameWithOwner] key. *)
Lemma build_repo_rows_nameless fresh n :
  Forall (λ n, ∃ i, databaseId n = Present i) fresh →
  n ∈ fresh → nameWithOwner n = Absent →
  build_repo_rows fresh = inr KeyError.
Proof.
  induction 1 as [|a fresh [i Hi] _ IH]; [by intros ?%elem_of_nil|].
  intros Hn Hname. simpl. unfold repo_params. rewrite Hi. simpl.
  destruct (nameWithOwner a) eqn:Ha; simpl; [done|..].
  all: apply elem_of_cons in Hn as [->|Hn]; [congruence|].
  all: by rewrite IH.
Qed.

(** C3.  A snapshot without a positive integer id is skipped: the call on
    the batch with it is the call on the batch without it.  A kept snapshot
    without [nameWithOwner] is NOT skipped: the call raises [KeyError]
    before its first transaction, no table but [fetch_run] differs from the
    one the call was given, and the ids of all kept snapshots of the batch
    are recorded as processed, so the pass drops them from then on. *)
Theorem malformed_snapshot_handling :
  (∀ (now : Z) (s : RepoDB) (l1 l2 : list Node) (n : Node),
     (∀ i, get (databaseId n) = Some i → i ≤ 0) →
     upsert_from_github_nodes now s (l1 ++ n :: l2)
     = upsert_from_github_nodes now s (l1 ++ l2))
  ∧ (∀ (now : Z) (s : RepoDB) (nodes : list Node) (n : Node),
       n ∈ fresh_of s nodes → nameWithOwner n = Absent →
       upsert_from_github_nodes now s nodes
       = (entered now s nodes, Some KeyError)
       ∧ repo (conn (entered now s nodes)) = repo (conn s)
       ∧ repo_latest (conn (entered now s nodes)) = repo_latest (conn s)
       ∧ repo_metrics_hist (conn (entered now s nodes))
         = repo_metrics_hist (conn s)
       ∧ repo_topic_latest (conn (entered now s nodes))
         = repo_topic_latest (conn s)
       ∧ (∀ i, i ∈ node_ids (fresh_of s nodes) →
               i ∈ _processed_repo_ids (entered now s nodes))).
Proof.
  split.
  - intros now s l1 l2 n Hn. apply upsert_scan.
    by apply fresh_scan_drop_invalid.
  - intros now s nodes n Hn Hname.
    destruct (entered_frame now s nodes) as (Hr & _ & _ & Hl & Hh & Ht & _).
    split; [|split; [done|split; [done|split; [done|split; [done|]]]]].
    + assert (build_repo_rows (fresh_of s nodes) = inr KeyError) as Hb.
      { destruct (fresh_of_spec s nodes) as (Hf & _).
        eapply build_repo_rows_nameless; [|done..].
        eapply Forall_impl; [exact Hf|]. intros a (i & Hi & _). by exists i. }
      pose proof (upsert_outcome now s nodes) as Ho.
      destruct (upsert_from_github_nodes now s nodes) as [s' raised].
      simpl in Ho.
      inversion Ho as [Hnil|e He|? ? He|? ? ? ? He|? ? ? ? ? He|? ? ? ? ? _ He];
        subst; try congruence.
      rewrite Hnil in Hn. by apply elem_of_nil in Hn.
    + intros i Hi. apply entered_processed. by right.
Qed.

Lemma malformed_snapshot_handling_witness :
  upsert_from_github_nodes 0 (open_db empty_db)
    [nameless 1; snapshot 2 "a/x" 10]
  = (entered 0 (open_db empty_db) [nameless 1; snapshot 2 "a/x" 10],
     Some KeyError).
Proof.
  refine (proj1 (proj2 malformed_snapshot_handling 0 (open_db empty_db)
            [nameless 1; snapshot 2 "a/x" 10] (nameless 1) _ _)).
  - vm_compute. apply list_elem_of_here.
  - reflexivity.
Defined.

(** C3, failing input: the batch [nameless 1; snapshot 2 "a/x" 10] on an
    empty database.  The call raises [KeyError]; repo 2 is not ingested,
    and a later batch of the pass that carries its snapshot again is
    dropped whole, although the snapshot alone would have been ingested. *)
Lemma missing_name_faults_batch :
  let s0 := open_db empty_db in
  let r := upsert_from_github_nodes 0 s0 [nameless 1; snapshot 2 "a/x" 10] in
  let r' := upsert_from_github_nodes 0 r.1 [snapshot 2 "a/x" 10] in
  r.2 = Some KeyError
  ∧ repo (conn r.1) = ∅ ∧ repo_latest (conn r.1) = ∅
  ∧ r' = (r.1, None)
  ∧ is_Some (repo_latest
               (conn (upsert_from_github_nodes 0 s0 [snapshot 2 "a/x" 10]).1)
               !! 2).
Proof.
  vm_compute. split; [done|]. split; [done|]. split; [done|]. split; [done|].
  by eexists.
Qed.

(* ===================================================================== *)
(** ** Ordered selects *)
(* ===================================================================== *)

Section sorting.
Context {A : Type} (R : relation A) `{!∀ x y, Decision (R x y)}.

Lemma elem_of_merge_sort (l : list A) x : x ∈ merge_sort R l ↔ x ∈ l.
Proof. by rewrite merge_sort_Permutation. Qed.

(** [ORDER BY ... LIMIT 1]: the first row of an ordered select is a row of
    the select that no row precedes strictly. *)
Lemma head_merge_sort_Some `{!Transitive R, !Total R} (l : list A) x :
  head (merge_sort R l) = Some x → x ∈ l ∧ ∀ y, y ∈ l → R x y.
Proof.
  intros Hh.
  pose proof (StronglySorted_merge_sort R l) as Hs.
  pose proof (merge_sort_Permutation R l) as Hp.
  destruct (merge_sort R l) as [|x' l'] eqn:Hm; [done|].
  injection Hh as ->. apply StronglySorted_inv in Hs as [_ Hall].
  split.
  - rewrite <-Hp. apply list_elem_of_here.
  - intros y Hy. rewrite <-Hp in Hy.
    apply elem_of_cons in Hy as [->|Hy].
    + destruct (total R x x); done.
    + by eapply Forall_forall in Hall.
Qed.

Lemma head_merge_sort_None (l : list A) :
  head (merge_sort R l) = None → l = [].
Proof.
  intros Hh. pose proof (merge_sort_Permutation R l) as Hp.
  destruct (merge_sort R l); [|done].
  by apply Permutation_nil in Hp.
Qed.

End sorting.

Lemma elem_of_limit_offset {A} limit offset (rows : list A) x :
  x ∈ limit_offset limit offset rows → x ∈ rows.
Proof.
  unfold limit_offset. intros H.
  assert (x ∈ drop (Z.to_nat offset) rows) as Hd.
  { destruct (limit <? 0); [done|].
    apply elem_of_take in H as (i & Hi & _). by eapply list_elem_of_lookup_2. }
  apply list_elem_of_lookup in Hd as [i Hi]. rewrite lookup_drop in Hi.
  by eapply list_elem_of_lookup_2.
Qed.

(** Every row of an ordered select is the projection of a joined row that
    passes the filter. *)
Lemma elem_of_select_ordered d fl order `{!∀ x y, Decision (order x y)}
    extra_select row :
  row ∈ select_ordered d fl order extra_select →
  ∃ j, j ∈ latest_join d ∧ where_clause fl d j = true
       ∧ select_row false extra_select d j = Some row.
Proof.
  unfold select_ordered. rewrite list_elem_of_omap.
  intros (j & Hj & Hrow). rewrite elem_of_merge_sort in Hj.
  apply list_elem_of_filter in Hj as [Hw Hj]. by exists j.
Qed.

Lemma select_row_Some rank extra_select d j row :
  select_row rank extra_select d j = Some row →
  row_repo_id row = j_repo_id j
  ∧ row_nameWithOwner row = r_name_with_owner (j_r j)
  ∧ row_stargazerCount row = rl_stars (j_rl j)
  ∧ row_newStars row = extra_select j.
Proof.
  unfold select_row. intros H.
  apply bind_Some in H as (rk & _ & H).
  apply bind_Some in H as (fa & _ & H).
  by injection H as <-.
Qed.

(* ===================================================================== *)
(** ** The trending delta *)
(* ===================================================================== *)

#[local] Instance by_end_run_id_trans : Transitive by_end_run_id.
Proof. unfold by_end_run_id. intros x y z. lia. Qed.

#[local] Instance by_end_run_id_total : Total by_end_run_id.
Proof. unfold by_end_run_id. intros x y. lia. Qed.

(** The base of the delta is the stars of a history row of the repo that
    covers the base run, the earliest-ending one; there is none exactly
    when no history row of the repo covers the base run. *)
Lemma base_stars_Some d base id v :
  base_stars d base id = Some v →
  ∃ st h, repo_metrics_hist d !! (id, st) = Some h
          ∧ st ≤ base ∧ base ≤ h_end_run_id h ∧ v = h_stars h
          ∧ ∀ st' h', repo_metrics_hist d !! (id, st') = Some h' →
                      st' ≤ base → base ≤ h_end_run_id h' →
                      h_end_run_id h ≤ h_end_run_id h'.
Proof.
  unfold base_stars. intros H. apply fmap_Some in H as ([[i st] h] & Hh & ->).
  apply head_merge_sort_Some in Hh as [Hin Hmin]; [|apply _..].
  apply list_elem_of_filter in Hin as [(Hi & Hst & Hend) Hin]. simpl in *.
  subst i. apply elem_of_map_to_list in Hin.
  exists st, h. repeat (split; [done|]).
  intros st' h' Hh' Hst' Hend'.
  apply (Hmin (id, st', h')). apply list_elem_of_filter. split; [done|].
  by apply elem_of_map_to_list.
Qed.

Lemma base_stars_None d base id :
  base_stars d base id = None ↔
  ∀ st h, repo_metrics_hist d !! (id, st) = Some h →
          ¬ (st ≤ base ∧ base ≤ h_end_run_id h).
Proof.
  unfold base_stars. rewrite fmap_None. split.
  - intros Hnil%head_merge_sort_None st h Hh Hc.
    assert ((id, st, h) ∈ filter (covers id base)
              (map_to_list (repo_metrics_hist d))) as Hin.
    { apply list_elem_of_filter. split; [by split|].
      by apply elem_of_map_to_list. }
    rewrite Hnil in Hin. by apply elem_of_nil in Hin.
  - intros Hno.
    replace (filter _ _) with (@nil (Z * Z * HistRow)); [done|].
    symmetry. apply elem_of_nil_inv. intros [[i st] h] Hin.
    apply list_elem_of_filter in Hin as [(Hi & Hst & Hend) Hin]. simpl in *.
    subst i. apply elem_of_map_to_list in Hin. by eapply Hno.
Qed.

(** C2.  Every object of a trending page (the list [trending_leaderboard]
    returns; it raises only for an offset outside the store's integers,
    and then there is no page) is the projection of a joined row
    [j] that passes the filter, and its delta is
    [newStars = max (0, stars - baseStars)], with [baseStars] the stars of a
    history row of the repo whose interval holds [baseRunId] (the one there
    is, when there is only one) and [baseStars = stars] when there is none.
    So [0 ≤ newStars], and [newStars = 0] for a repo whose history rows all
    start after [baseRunId].  The object carries the delta as [ns], left
    out when it is zero. *)
Theorem trending_new_stars (d : DB) (window_seconds page : Z) (fl : Filters)
    (items : list Obj) (o : Obj) :
  trending_leaderboard d window_seconds page fl = inl items → o ∈ items →
  let base_run_id := _base_run_id_for_window d window_seconds in
  ∃ j newStars baseStars,
    j ∈ latest_join d ∧ where_clause fl d j = true
    ∧ o_n o = r_name_with_owner (j_r j) ∧ o_s o = rl_stars (j_rl j)
    ∧ o_ns o = (if decide (newStars = 0) then None else Some newStars)
    ∧ newStars = Z.max 0 (rl_stars (j_rl j) - baseStars)
    ∧ 0 ≤ newStars
    ∧ ((∃ st h, repo_metrics_hist d !! (j_repo_id j, st) = Some h
                ∧ st ≤ base_run_id ∧ base_run_id ≤ h_end_run_id h
                ∧ baseStars = h_stars h)
       ∨ ((∀ st h, repo_metrics_hist d !! (j_repo_id j, st) = Some h →
                   ¬ (st ≤ base_run_id ∧ base_run_id ≤ h_end_run_id h))
          ∧ baseStars = rl_stars (j_rl j)))
    ∧ (∀ st h, repo_metrics_hist d !! (j_repo_id j, st) = Some h →
               st ≤ base_run_id → base_run_id ≤ h_end_run_id h →
               (∀ st' h', repo_metrics_hist d !! (j_repo_id j, st') = Some h' →
                          st' ≤ base_run_id → base_run_id ≤ h_end_run_id h' →
                          st' = st) →
               baseStars = h_stars h)
    ∧ ((∀ st h, repo_metrics_hist d !! (j_repo_id j, st) = Some h →
                base_run_id < st) →
       newStars = 0).
Proof.
  intros Hl Ho base_run_id. unfold trending_leaderboard in Hl.
  fold base_run_id in Hl.
  destruct (bind_int ((page - 1) * page_size)) as [offset|e]; [|done].
  simpl in Hl. injection Hl as <-.
  apply list_elem_of_fmap in Ho as (row & -> & Hrow).
  apply elem_of_limit_offset in Hrow.
  apply elem_of_select_ordered in Hrow as (j & Hj & Hw & Hrow).
  apply select_row_Some in Hrow as (_ & Hn & Hs & Hns).
  exists j, (new_stars d base_run_id j),
    (default (rl_stars (j_rl j)) (base_stars d base_run_id (j_repo_id j))).
  split; [done|]. split; [done|]. split; [done|]. split; [done|].
  split; [|split; [|split; [|split; [|split]]]].
  - simpl. rewrite Hns. destruct (Z.eqb_spec (new_stars d base_run_id j) 0).
    + by rewrite decide_True.
    + by rewrite decide_False.
  - unfold new_stars. lia.
  - unfold new_stars. lia.
  - destruct (base_stars d base_run_id (j_repo_id j)) as [v|] eqn:Hb.
    + left. apply base_stars_Some in Hb as (st & h & ? & ? & ? & ? & _).
      by exists st, h.
    + right. by rewrite base_stars_None in Hb.
  - intros st h Hh Hst Hend Huniq.
    destruct (base_stars d base_run_id (j_repo_id j)) as [v|] eqn:Hb.
    + apply base_stars_Some in Hb as (st' & h' & Hh' & ? & ? & -> & _).
      simpl. assert (st' = st) as -> by by eapply Huniq. congruence.
    + rewrite base_stars_None in Hb. destruct (Hb st h Hh). done.
  - intros Hafter. unfold new_stars.
    replace (base_stars d base_run_id (j_repo_id j)) with (@None Z).
    { simpl. lia. }
    symmetry. apply base_stars_None. intros st h Hh [Hst _].
    specialize (Hafter st h Hh). lia.
Qed.

(** Scenario S4: [a/x] on the [trending3d] page at the fifth run. *)
Lemma trending_new_stars_witness :
  ∃ items,
    trending_leaderboard scenario_S4 (3 * day) 1 no_filters = inl items
    ∧ obj_S4 ∈ items
    ∧ ∃ j newStars baseStars,
        j ∈ latest_join scenario_S4
        ∧ o_n obj_S4 = r_name_with_owner (j_r j)
        ∧ o_ns obj_S4 = (if decide (newStars = 0) then None else Some newStars)
        ∧ newStars = Z.max 0 (rl_stars (j_rl j) - baseStars).
Proof.
  assert (∃ items,
    trending_leaderboard scenario_S4 (3 * day) 1 no_filters = inl items
    ∧ obj_S4 ∈ items) as (items & Hl & Hin).
  { eexists. split; [vm_compute; reflexivity|]. apply list_elem_of_here. }
  exists items. split; [exact Hl|]. split; [exact Hin|].
  destruct (trending_new_stars scenario_S4 (3 * day) 1 no_filters items obj_S4
              Hl Hin)
    as (j & ns & bs & Hj & _ & Hn & _ & Hns & Hmax & _).
  exists j, ns, bs. split; [exact Hj|]. split; [exact Hn|].
  split; [exact Hns|exact Hmax].
Defined.

(* ===================================================================== *)
(** ** The order of names *)
(* ===================================================================== *)

Lemma ascii_compare_Lt_trans (a b c : ascii) :
  Ascii.compare a b = Lt → Ascii.compare b c = Lt → Ascii.compare a c = Lt.
Proof.
  unfold Ascii.compare. rewrite !N.compare_lt_iff. apply N.lt_trans.
Qed.

Lemma string_compare_Lt_trans (s1 s2 s3 : string) :
  String.compare s1 s2 = Lt → String.compare s2 s3 = Lt →
  String.compare s1 s3 = Lt.
Proof.
  revert s2 s3. induction s1 as [|a s1 IH]; intros [|b s2] [|c s3]; simpl;
    try done.
  destruct (Ascii.compare a b) eqn:Hab; [|clear IH|done];
    (destruct (Ascii.compare b c) eqn:Hbc; [| |done]).
  - apply Ascii.compare_eq_iff in Hab as ->. rewrite Hbc. apply IH.
  - apply Ascii.compare_eq_iff in Hab as ->. by rewrite Hbc.
  - apply Ascii.compare_eq_iff in Hbc as <-. by rewrite Hab.
  - by rewrite (ascii_compare_Lt_trans _ _ _ Hab Hbc).
Qed.

Lemma string_leb_spec (s1 s2 : string) :
  String.leb s1 s2 = true ↔ String.compare s1 s2 = Lt ∨ s1 = s2.
Proof.
  unfold String.leb. split.
  - destruct (String.compare s1 s2) eqn:Hc; [|by left|done].
    right. by apply String.compare_eq_iff.
  - intros [->| ->]; [done|].
    pose proof (String.compare_antisym s2 s2) as H.
    by destruct (String.compare s2 s2).
Qed.

Lemma string_ltb_spec (s1 s2 : string) :
  String.ltb s1 s2 = true ↔ String.leb s1 s2 = true ∧ s1 ≠ s2.
Proof.
  rewrite string_leb_spec. unfold String.ltb. split.
  - destruct (String.compare s1 s2) eqn:Hc; try done. intros _.
    split; [by left|]. intros ->.
    pose proof (String.compare_antisym s2 s2) as H. rewrite Hc in H. done.
  - intros [[->| ->] Hne]; done.
Qed.

Lemma string_leb_trans (s1 s2 s3 : string) :
  String.leb s1 s2 = true → String.leb s2 s3 = true →
  String.leb s1 s3 = true.
Proof.
  rewrite !string_leb_spec. intros [H1| ->] [H2| ->]; auto.
  left. by eapply string_compare_Lt_trans.
Qed.

(* ===================================================================== *)
(** ** The static order on stars *)
(* ===================================================================== *)

#[local] Instance static_order_stars_total : Total (static_order stars_key).
Proof.
  intros x y. unfold static_order, stars_key. simpl.
  destruct (Z.lt_trichotomy (rl_stars (j_rl x)) (rl_stars (j_rl y)))
    as [H|[H|H]].
  - right. left. by apply Z.ltb_lt.
  - destruct (String.leb_total (r_name_with_owner (j_r x))
                (r_name_with_owner (j_r y))).
    + left. right. split; [by f_equal|done].
    + right. right. split; [by f_equal|done].
  - left. left. by apply Z.ltb_lt.
Qed.

#[local] Instance static_order_stars_trans : Transitive (static_order stars_key).
Proof.
  intros x y z. unfold static_order, stars_key. simpl.
  rewrite !Z.ltb_lt.
  intros [H1|[[= H1] L1]] [H2|[[= H2] L2]].
  - left. lia.
  - left. lia.
  - left. lia.
  - right. split; [f_equal; lia|]. by eapply string_leb_trans.
Qed.

(** On rows with different names, being placed no later by the [stars]
    order is outranking. *)
Lemma static_order_outranks x y :
  r_name_with_owner (j_r x) ≠ r_name_with_owner (j_r y) →
  static_order stars_key x y → outranks x y.
Proof.
  unfold static_order, stars_key, outranks. simpl. rewrite Z.ltb_lt.
  intros Hne [H|[[= H] L]]; [by left|right].
  split; [done|]. by apply string_ltb_spec.
Qed.

Lemma outranks_asym x y : outranks x y → ¬ outranks y x.
Proof.
  unfold outranks. rewrite !string_ltb_spec.
  intros [H1|[H1 [L1 N1]]] [H2|[H2 [L2 N2]]]; try lia.
  apply N1. by apply String.leb_antisym.
Qed.

Lemma outranks_irrefl x : ¬ outranks x x.
Proof. intros H. by apply (outranks_asym x x). Qed.

(* ===================================================================== *)
(** ** Positions in a sorted list *)
(* ===================================================================== *)

Lemma NoDup_omap {A B} (f : A → option B) (l : list A) :
  (∀ x y z, f x = Some z → f y = Some z → x = y) →
  NoDup l → NoDup (omap f l).
Proof.
  intros Hinj. induction 1 as [|x l Hx _ IH]; simpl; [apply NoDup_nil_2|].
  destruct (f x) as [z|] eqn:Hz; [|done].
  apply NoDup_cons_2; [|done].
  intros (y & Hy & Hfy)%list_elem_of_omap.
  by rewrite (Hinj x y z Hz Hfy) in Hx.
Qed.

Lemma filter_all {A} (P : A → Prop) `{!∀ x, Decision (P x)} (l : list A) :
  Forall P l → filter P l = l.
Proof.
  induction 1 as [|x l Hx _ IH]; [done|].
  by rewrite filter_cons, decide_True, IH.
Qed.

Lemma filter_none {A} (P : A → Prop) `{!∀ x, Decision (P x)} (l : list A) :
  Forall (λ x, ¬ P x) l → filter P l = [].
Proof.
  induction 1 as [|x l Hx _ IH]; [done|].
  by rewrite filter_cons, decide_False, IH.
Qed.

Lemma omap_total {A B} (f : A → option B) (g : A → B) (l : list A) :
  Forall (λ x, f x = Some (g x)) l → omap f l = g <$> l.
Proof.
  induction 1 as [|x l Hx _ IH]; [done|]. simpl. rewrite Hx. simpl.
  f_equal. exact IH.
Qed.

Section position.
Context {A : Type} (R Q : relation A) (name : A → string).
Context `{!∀ x y, Decision (R x y), !∀ x y, Decision (Q x y)}.
Context `{!Transitive R, !Total R}.
Hypothesis R_Q : ∀ x y, name x ≠ name y → R x y → Q x y.
Hypothesis Q_asym : ∀ x y, Q x y → ¬ Q y x.

(** In a list without two rows of one name, sorted by [R], the rows before
    [j] are the rows that precede it strictly. *)
Lemma sorted_split (l1 l2 : list A) (j : A) :
  StronglySorted R (l1 ++ j :: l2) →
  (∀ x, x ∈ l1 ++ l2 → name x ≠ name j) →
  filter (λ x, Q x j) (l1 ++ j :: l2) = l1
  ∧ list_find (λ x, name x = name j) (l1 ++ j :: l2) = Some (length l1, j).
Proof.
  intros Hs Hne. split.
  - rewrite filter_app, filter_cons, decide_False
      by (intros Hjj; by apply (Q_asym j j)).
    rewrite filter_all, filter_none; [by rewrite app_nil_r|..].
    + apply Forall_forall. intros y Hy Hq.
      apply (Q_asym _ _ Hq), R_Q.
      * apply not_eq_sym, Hne, elem_of_app. by right.
      * apply StronglySorted_app_1_r, StronglySorted_inv in Hs as [_ Hall].
        by eapply Forall_forall in Hall.
    + apply Forall_forall. intros x Hx. apply R_Q.
      * apply Hne, elem_of_app. by left.
      * eapply StronglySorted_app_1_elem_of; [done..|apply list_elem_of_here].
  - rewrite list_find_app_r.
    + simpl. rewrite decide_True by done. simpl. do 2 f_equal.
    + apply list_find_None, Forall_forall. intros x Hx.
      apply Hne, elem_of_app. by left.
Qed.

(** So the position of [j] in the sorted list is one more than the number
    of rows that precede it strictly. *)
Lemma sorted_position (l : list A) (j : A) :
  NoDup l → (∀ x y, x ∈ l → y ∈ l → name x = name y → x = y) → j ∈ l →
  list_find (λ x, name x = name j) (merge_sort R l)
  = Some (length (filter (λ x, Q x j) l), j).
Proof.
  intros Hnd Hname Hj.
  pose proof (StronglySorted_merge_sort R l) as Hs.
  pose proof (merge_sort_Permutation R l) as Hp.
  assert (length (filter (λ x, Q x j) l)
          = length (filter (λ x, Q x j) (merge_sort R l))) as ->.
  { by rewrite Hp. }
  rewrite <-Hp in Hnd, Hj.
  assert (∀ x y, x ∈ merge_sort R l → y ∈ merge_sort R l →
                 name x = name y → x = y) as Hname'.
  { intros x y. rewrite !Hp. apply Hname. }
  destruct (list_elem_of_split _ _ Hj) as (l1 & l2 & Heq).
  rewrite Heq in *.
  destruct (sorted_split l1 l2 j Hs) as [-> ->]; [|done].
  intros x Hx Hxj.
  assert (x = j) as ->.
  { apply Hname'; [|set_solver|done].
    apply elem_of_app in Hx as [?|?]; set_solver. }
  apply NoDup_app in Hnd as (_ & Hdisj & [Hnj _]%NoDup_cons).
  apply elem_of_app in Hx as [Hx|Hx]; [|done].
  apply (Hdisj _ Hx), list_elem_of_here.
Qed.

End position.

(* ===================================================================== *)
(** ** The joined rows *)
(* ===================================================================== *)

Lemma latest_join_NoDup d : NoDup (latest_join d).
Proof.
  unfold latest_join. apply NoDup_omap; [|apply NoDup_map_to_list].
  intros [k1 rl1] [k2 rl2] j H1 H2. simpl in *.
  apply fmap_Some in H1 as (r1 & _ & ->).
  apply fmap_Some in H2 as (r2 & _ & [= -> -> _]). done.
Qed.

Lemma latest_join_names d x y :
  names_unique (repo d) → x ∈ latest_join d → y ∈ latest_join d →
  r_name_with_owner (j_r x) = r_name_with_owner (j_r y) → x = y.
Proof.
  intros Hu [Hlx Hrx]%elem_of_latest_join [Hly Hry]%elem_of_latest_join Hn.
  pose proof (names_unique_eq _ _ _ _ _ Hu Hrx Hry Hn) as Hid.
  destruct x as [ix lx rx], y as [iy ly ry]. simpl in *. subst iy.
  congruence.
Qed.

Lemma named_row_unique d j :
  names_unique (repo d) → j ∈ latest_join d →
  filter (λ x, r_name_with_owner (j_r x) = r_name_with_owner (j_r j))
         (latest_join d) = [j].
Proof.
  intros Hu Hj.
  pose proof (latest_join_NoDup d) as Hnd.
  pose proof (λ x Hx, latest_join_names d x j Hu Hx Hj) as Hn.
  induction (latest_join d) as [|a l IH]; [by apply elem_of_nil in Hj|].
  apply NoDup_cons in Hnd as [Ha Hnd]. rewrite filter_cons.
  apply elem_of_cons in Hj as [->|Hj].
  - rewrite decide_True by done. f_equal. apply filter_none, Forall_forall.
    intros x Hx Hxn. apply Ha.
    by rewrite <-(Hn x (list_elem_of_further _ _ _ Hx) Hxn).
  - rewrite decide_False.
    + apply IH; [done..|]. intros x Hx. apply Hn. by apply list_elem_of_further.
    + intros Han. apply Ha. by rewrite (Hn a (list_elem_of_here _ _) Han).
Qed.

(* ===================================================================== *)
(** ** Pages *)
(* ===================================================================== *)

Lemma limit_offset_page {A} (rows : list A) (n : nat) :
  limit_offset page_size ((Z.of_nat (S n) - 1) * page_size) rows
  = take 100 (drop (n * 100) rows).
Proof.
  unfold limit_offset, page_size. simpl (100 <? 0).
  change (Z.to_nat 100) with 100%nat. do 2 f_equal. lia.
Qed.

Lemma bind_singleton {A B} (f : A → list B) (x : A) : [x] ≫= f = f x.
Proof. cbn. apply app_nil_r. Qed.

(** The pages [1 .. n] of a select, one after another, are its first
    [100 n] rows. *)
Lemma pages_take {A B} (f : A → B) (rows : list A) (n : nat) :
  (seq 1 n ≫= λ page,
     f <$> limit_offset page_size ((Z.of_nat page - 1) * page_size) rows)
  = f <$> take (n * 100) rows.
Proof.
  induction n as [|n IH]; [done|].
  rewrite seq_S, bind_app, IH. simpl (1 + n)%nat.
  rewrite bind_singleton, limit_offset_page, <-fmap_app.
  rewrite take_take_drop. do 2 f_equal. lia.
Qed.

Lemma total_pages_enough (n : nat) :
  (n ≤ Z.to_nat (total_pages (Z.of_nat n)) * 100)%nat.
Proof.
  unfold total_pages, page_size.
  destruct (Z.ltb_spec 0 (Z.of_nat n)); [|lia].
  pose proof (Z.div_mod (Z.of_nat n + 100 - 1) 100).
  pose proof (Z.mod_pos_bound (Z.of_nat n + 100 - 1) 100). lia.
Qed.

Lemma where_clause_no_filters d j : where_clause no_filters d j = true.
Proof. done. Qed.

(** A page of a static metric, when the store takes its offset. *)
Lemma leaderboard_static d metric key page fl :
  trending_map metric = None → metric_map metric = Some key →
  int64 ((page - 1) * page_size) →
  leaderboard d metric page fl
  = inl (row_to_obj
           <$> limit_offset page_size ((page - 1) * page_size)
                 (select_ordered d fl (static_order key) (λ _, None))).
Proof.
  intros Ht Hm Hi. unfold leaderboard.
  by rewrite Ht, Hm, (bind_int_inl _ Hi).
Qed.

(** A page of a trending metric, when the store takes its offset. *)
Lemma leaderboard_trending d metric w page fl :
  trending_map metric = Some w → int64 ((page - 1) * page_size) →
  leaderboard d metric page fl
  = inl (row_to_obj
           <$> limit_offset page_size ((page - 1) * page_size)
                 (select_ordered d fl
                    (trending_order
                       (new_stars d (_base_run_id_for_window d w)))
                    (λ j, Some (new_stars d (_base_run_id_for_window d w) j)))).
Proof.
  intros Ht Hi. unfold leaderboard, trending_leaderboard.
  by rewrite Ht, (bind_int_inl _ Hi).
Qed.

(** Every object of a page is the projection of a joined row that passes
    the filter. *)
Lemma leaderboard_inv d metric page fl items o :
  leaderboard d metric page fl = inl items → o ∈ items →
  ∃ j row extra, j ∈ latest_join d ∧ where_clause fl d j = true
    ∧ select_row false extra d j = Some row ∧ o = row_to_obj row.
Proof.
  unfold leaderboard, trending_leaderboard.
  destruct (bind_int ((page - 1) * page_size)) as [offset|e];
    [|by destruct (trending_map metric), (metric_map metric)].
  simpl. destruct (trending_map metric) as [w|].
  - intros [= <-] (row & -> & Hrow)%list_elem_of_fmap.
    apply elem_of_limit_offset, elem_of_select_ordered in Hrow
      as (j & Hj & Hw & Hrow).
    by eexists j, row, _.
  - destruct (metric_map metric) as [key|]; [|done].
    intros [= <-] (row & -> & Hrow)%list_elem_of_fmap.
    apply elem_of_limit_offset, elem_of_select_ordered in Hrow
      as (j & Hj & Hw & Hrow).
    by eexists j, row, _.
Qed.

Lemma leaderboard_pages_inv d metric fl n o :
  o ∈ leaderboard_pages d metric fl n →
  ∃ j, j ∈ latest_join d ∧ o_n o = r_name_with_owner (j_r j).
Proof.
  unfold leaderboard_pages. intros (page & Ho & _)%list_elem_of_bind.
  destruct (leaderboard d metric (Z.of_nat page) fl) as [items|e] eqn:Hl;
    [|by apply elem_of_nil in Ho].
  destruct (leaderboard_inv _ _ _ _ _ _ Hl Ho)
    as (j & row & extra & Hj & _ & Hsel & ->).
  exists j. split; [done|].
  by apply select_row_Some in Hsel as (_ & Hn & _).
Qed.

Lemma bind_ext_in {A B} (f g : A → list B) (l : list A) :
  (∀ x, x ∈ l → f x = g x) → l ≫= f = l ≫= g.
Proof.
  induction l as [|x l IH]; intros H; [done|].
  cbn. rewrite (H x) by apply list_elem_of_here. f_equal.
  apply IH. intros y Hy. apply H. by apply list_elem_of_further.
Qed.

(** The offsets of the pages [1 .. totalPages] fit the store's integers
    when the count does. *)
Lemma scan_offsets_int64 (total : Z) (page : nat) :
  0 ≤ total → int64 total →
  page ∈ seq 1 (Z.to_nat (total_pages total)) →
  int64 ((Z.of_nat page - 1) * page_size).
Proof.
  intros H0 Hi Hp. apply elem_of_seq in Hp.
  unfold total_pages, page_size, int64 in *.
  destruct (Z.ltb_spec 0 total); [|lia].
  pose proof (Z.div_mod (total + 100 - 1) 100).
  pose proof (Z.mod_pos_bound (total + 100 - 1) 100). lia.
Qed.

(** The unfiltered [stars] scan lists the joined rows in the order of the
    rank window, as long as every row finds its fetch run. *)
Lemma stars_scan d :
  latest_runs_exist d → int64 (count_leaderboard d no_filters) →
  o_n <$> leaderboard_scan d "stars" no_filters
  = (λ j, r_name_with_owner (j_r j))
      <$> merge_sort (static_order stars_key) (latest_join d).
Proof.
  intros Hfk Hcount. unfold leaderboard_scan, leaderboard_pages.
  rewrite (bind_ext_in _
    (λ page,
       row_to_obj
         <$> limit_offset page_size ((Z.of_nat page - 1) * page_size)
               (select_ordered d no_filters (static_order stars_key)
                  (λ _, None)))).
  2: { intros page Hp.
       rewrite (leaderboard_static d "stars" stars_key); [done..|].
       apply (scan_offsets_int64 (count_leaderboard d no_filters));
         [unfold count_leaderboard; lia|done..]. }
  unfold count_leaderboard.
  assert (filter (λ j, where_clause no_filters d j = true) (latest_join d)
          = latest_join d) as Hall.
  { apply filter_all, Forall_forall. intros j _. apply where_clause_no_filters. }
  rewrite Hall.
  set (sorted := merge_sort (static_order stars_key) (latest_join d)).
  assert (∃ rows, select_ordered d no_filters (static_order stars_key)
                    (λ _, None) = rows
                  ∧ row_nameWithOwner <$> rows
                    = (λ j, r_name_with_owner (j_r j)) <$> sorted
                  ∧ length rows = length (latest_join d))
    as (rows & Hrows & Hnames & Hlen).
  { eexists. split; [done|]. unfold select_ordered. rewrite Hall. fold sorted.
    assert (Forall (λ j, j ∈ latest_join d) sorted) as Hin.
    { apply Forall_forall. intros j. unfold sorted.
      by rewrite merge_sort_Permutation. }
    assert (length sorted = length (latest_join d)) as <-.
    { unfold sorted. by rewrite merge_sort_Permutation. }
    clearbody sorted. induction Hin as [|j l Hj _ [IH1 IH2]]; [done|].
    apply elem_of_latest_join in Hj as [Hl _].
    destruct (Hfk _ _ Hl) as [fa Hfa].
    assert (∃ row, select_row false (λ _, None) d j = Some row
                   ∧ row_nameWithOwner row = r_name_with_owner (j_r j))
      as (row & Hrow & Hname).
    { unfold select_row. simpl. rewrite Hfa. simpl. by eexists. }
    simpl. rewrite Hrow. simpl. split; f_equal; done. }
  rewrite Hrows, pages_take, take_ge.
  - rewrite <-Hnames, <-!list_fmap_compose. done.
  - rewrite Hlen. apply total_pages_enough.
Qed.

Lemma position_names name items :
  position name items
  = (λ p, Z.of_nat p.1 + 1) <$> list_find (λ s, s = name) (o_n <$> items).
Proof.
  unfold position. rewrite list_find_fmap, <-option_fmap_compose.
  by f_equal.
Qed.

Lemma store_invariant_crawl now d nodes :
  store_invariant d → store_invariant (crawl now d nodes).
Proof.
  intros Hd. apply pi_store, pass_invariant_upsert, pass_invariant_open, Hd.
Qed.

(* ===================================================================== *)
(** ** What the schema keeps true *)
(* ===================================================================== *)

(** [UNIQUE(name_with_owner)] survives every call, whatever its outcome. *)
Lemma names_unique_upsert now s nodes :
  names_unique (repo (conn s)) →
  names_unique (repo (conn (upsert_from_github_nodes now s nodes).1)).
Proof.
  intros Hu.
  destruct (entered_frame now s nodes) as (Her & _).
  assert (∀ rows d3,
    resolve_and_upsert rows (conn (entered now s nodes)) = inl d3 →
    names_unique (repo d3)) as Hfirst.
  { intros rows d3 H1.
    apply resolve_and_upsert_inl in H1
      as (_ & _ & _ & _ & _ & _ & Hother & _ & _ & Hnames).
    destruct rows as [|p rows]; [|by apply Hnames].
    replace (repo d3) with (repo (conn s)); [done|].
    apply map_eq. intros k. rewrite Hother, Her by apply not_elem_of_nil.
    simpl. by destruct (repo (conn s) !! k). }
  assert (∀ rows d3 s4 res,
    resolve_and_upsert rows (conn (entered now s nodes)) = inl d3 →
    plan_rows (run_of now s) (_fetch_latest_metrics d3 (p_id <$> rows))
      (fresh_of s nodes) (set_conn d3 (entered now s nodes)) empty_plan
    = (s4, res) →
    names_unique (repo (conn s4))) as Hplan.
  { intros rows d3 s4 res H1 Hp.
    pose proof (plan_rows_frame (run_of now s)
      (_fetch_latest_metrics d3 (p_id <$> rows)) (fresh_of s nodes)
      (set_conn d3 (entered now s nodes)) empty_plan) as (Hf & _).
    rewrite Hp in Hf. simpl in Hf. destruct Hf as [Hr4 _ _ _ _].
    rewrite Hr4. by eapply Hfirst. }
  pose proof (upsert_outcome now s nodes) as Ho.
  destruct (upsert_from_github_nodes now s nodes) as [s' raised].
  simpl in Ho |- *. destruct raised as [e|].
  - inversion Ho as [|e' He|rows e' Hb H1|rows d3 s4 e' Hb H1 Hp
                     |rows d3 s4 pl e' Hb H1 Hp Hw|]; subst.
    + by rewrite Her.
    + by rewrite Her.
    + by eapply Hplan.
    + by eapply Hplan.
  - destruct (committed_repo _ _ _ _ Ho) as (rows & d3 & _ & H1 & ->).
    by eapply Hfirst.
Qed.

(** A crawl keeps the names unique, the store invariant, and with it the
    fetch runs the [repo_latest] rows point at; the empty database has all
    three. *)
Lemma crawl_schema now d nodes :
  names_unique (repo d) → store_invariant d →
  names_unique (repo (crawl now d nodes))
  ∧ store_invariant (crawl now d nodes)
  ∧ latest_runs_exist (crawl now d nodes).
Proof.
  intros Hu Hd. split; [|split].
  - by apply (names_unique_upsert now (open_db d) nodes).
  - by apply store_invariant_crawl.
  - intros k rl. by apply si_latest_run, store_invariant_crawl.
Qed.

Lemma empty_schema :
  names_unique (repo empty_db) ∧ store_invariant empty_db
  ∧ latest_runs_exist empty_db.
Proof.
  split; [|split; [apply store_invariant_empty|]].
  - unfold names_unique. simpl. rewrite map_to_list_empty. apply NoDup_nil_2.
  - intros k rl. simpl. by rewrite lookup_empty.
Qed.

(** C4.  In a database whose repo names are unique and whose [repo_latest]
    rows point at their fetch runs, for every repo with a [repo_latest]
    row, [get_global_rank] of its name is one more than the number of
    joined rows with more stars, or with as many stars and a smaller name,
    and it is the 1-based position of the name in the pages
    [1 .. totalPages] of the unfiltered [stars] leaderboard, one after
    another (the count of the leaderboard being an integer of the store,
    as a COUNT of the store is: [leaderboard] raises on a page whose
    offset is not).  For a name that no repo with a [repo_latest] row
    carries, there is neither a rank nor a position. *)
Theorem global_rank_is_scan_position (d : DB) :
  names_unique (repo d) → latest_runs_exist d →
  (∀ (id : Z) (r : RepoRow) (rl : LatestRow),
     repo d !! id = Some r → repo_latest d !! id = Some rl →
     get_global_rank d (r_name_with_owner r)
     = Some (1 + Z.of_nat (length
         (filter (λ j2,
            rl_stars rl < rl_stars (j_rl j2)
            ∨ (rl_stars (j_rl j2) = rl_stars rl
               ∧ String.ltb (r_name_with_owner (j_r j2))
                            (r_name_with_owner r) = true))
            (latest_join d))))
     ∧ (int64 (count_leaderboard d no_filters) →
        position (r_name_with_owner r) (leaderboard_scan d "stars" no_filters)
        = get_global_rank d (r_name_with_owner r)))
  ∧ (∀ name : string,
       (∀ id r, repo d !! id = Some r → r_name_with_owner r = name →
                repo_latest d !! id = None) →
       get_global_rank d name = None
       ∧ position name (leaderboard_scan d "stars" no_filters) = None).
Proof.
  intros Hu Hfk. split.
  - intros id r rl Hr Hl.
    set (j := {| j_repo_id := id; j_rl := rl; j_r := r |}).
    assert (j ∈ latest_join d) as Hj by by apply elem_of_latest_join.
    assert (get_global_rank d (r_name_with_owner r)
            = Some (1 + Z.of_nat (length
                (filter (λ j2, outranks j2 j) (latest_join d))))) as Hrank.
    { unfold get_global_rank.
      pose proof (named_row_unique d j Hu Hj) as Hf. simpl in Hf.
      rewrite Hf. simpl. f_equal. lia. }
    split; [exact Hrank|]. intros Hcount.
    rewrite Hrank, position_names, stars_scan, list_find_fmap by done.
    rewrite (list_find_ext _ (λ x, r_name_with_owner (j_r x)
                                   = r_name_with_owner (j_r j)))
      by done.
    rewrite (sorted_position (static_order stars_key) outranks
               (λ x, r_name_with_owner (j_r x))
               static_order_outranks outranks_asym (latest_join d) j
               (latest_join_NoDup d)); [| |done].
    + simpl. f_equal. lia.
    + intros x y Hx Hy. by apply (latest_join_names d).
  - intros name Hnone.
    assert (∀ j, j ∈ latest_join d → r_name_with_owner (j_r j) ≠ name) as Hno.
    { intros j [Hl Hr]%elem_of_latest_join Hn.
      by rewrite (Hnone _ _ Hr Hn) in Hl. }
    split.
    + unfold get_global_rank. rewrite filter_none; [done|].
      apply Forall_forall. intros j Hj. by apply Hno.
    + rewrite position_names.
      replace (list_find _ _) with (@None (nat * string)); [done|].
      symmetry. apply list_find_None, Forall_forall.
      intros s (o & -> & Ho)%list_elem_of_fmap.
      apply leaderboard_pages_inv in Ho as (j & Hj & ->). by apply Hno.
Qed.

(** Scenario S4: [b/new] has 50 stars, [a/x] has 200. *)
Lemma global_rank_is_scan_position_witness :
  get_global_rank scenario_S4 "b/new" = Some 2
  ∧ position "b/new" (leaderboard_scan scenario_S4 "stars" no_filters)
    = get_global_rank scenario_S4 "b/new".
Proof.
  split; [by vm_compute|].
  refine (proj2 (proj1 (global_rank_is_scan_position scenario_S4 _ _) 2
            {| r_name_with_owner := "b/new"; r_description := None;
               r_homepage_url := None; r_created_at := Some 0 |}
            {| rl_run_id := 5; rl_history_start_run_id := 5; rl_stars := 50;
               rl_forks := 0; rl_watchers := 0; rl_disk_usage := None;
               rl_updated_at := Some 0; rl_pushed_at := Some 0;
               rl_is_archived := 0; rl_primary_language_id := None |} _ _) _).
  - apply (bool_decide_unpack _). by vm_compute.
  - intros k rl. apply si_latest_run. unfold scenario_S4.
    do 5 apply store_invariant_crawl. apply store_invariant_empty.
  - by vm_compute.
  - by vm_compute.
  - apply (bool_decide_unpack _). by vm_compute.
Defined.

(* ===================================================================== *)
(** ** Chunks *)
(* ===================================================================== *)

Section chunks.
Context {A : Type} (l : list A) (n : nat).
Hypothesis n_pos : (0 < n)%nat.

(** The slices from offset [i] on make up the rest of the list. *)
Lemma range_go_concat (fuel i : nat) :
  (length l ≤ i + fuel * n)%nat →
  concat ((λ j, take n (drop j l)) <$> range_go fuel i (length l) n)
  = drop i l.
Proof.
  revert i. induction fuel as [|fuel IH]; intros i Hi; simpl.
  - rewrite drop_ge; [done|lia].
  - destruct (Nat.ltb_spec i (length l)) as [Hlt|Hge].
    + simpl. rewrite IH by lia. rewrite <-drop_drop. apply take_drop.
    + simpl. by rewrite drop_ge.
Qed.

(** The [k]-th loop counter is [i + k n], and it is below the length. *)
Lemma range_go_lookup (fuel i k j : nat) :
  range_go fuel i (length l) n !! k = Some j →
  (j = i + k * n ∧ j < length l)%nat.
Proof.
  revert i k. induction fuel as [|fuel IH]; intros i k; simpl; [done|].
  destruct (Nat.ltb_spec i (length l)) as [Hlt|Hge]; [|done].
  destruct k as [|k]; simpl.
  - intros [= <-]. lia.
  - intros Hk. apply IH in Hk. lia.
Qed.

Lemma range_go_length (fuel i : nat) :
  (length l ≤ i + fuel * n)%nat →
  (length l ≤ i + length (range_go fuel i (length l) n) * n
   ∧ (i < length l →
      i + length (range_go fuel i (length l) n) * n < length l + n))%nat.
Proof.
  revert i. induction fuel as [|fuel IH]; intros i Hi; simpl.
  - lia.
  - destruct (Nat.ltb_spec i (length l)) as [Hlt|Hge]; simpl; [|lia].
    destruct (IH (i + n)%nat) as [IH1 IH2]; [lia|].
    split; [lia|]. intros _.
    destruct (Nat.ltb_spec (i + n) (length l)) as [Hlt'|Hge']; [lia|].
    destruct fuel as [|fuel']; simpl in *; [lia|].
    destruct (Nat.ltb_spec (i + n) (length l)); simpl; lia.
Qed.

End chunks.

(** The slices of a positive step. *)
Lemma chunks_positive {A : Type} (seq : list A) (n : Z) :
  0 < n →
  ∃ cs, chunks seq n = inl cs
    ∧ concat cs = seq
    ∧ Forall (λ c, (0 < length c ≤ Z.to_nat n)%nat) cs
    ∧ (∀ k c, cs !! k = Some c → (S k < length cs)%nat →
              length c = Z.to_nat n)
    ∧ (length seq ≤ length cs * Z.to_nat n
       ∧ length cs * Z.to_nat n < length seq + Z.to_nat n)%nat.
Proof.
  unfold chunks.
  - intros Hn. destruct (Z.eqb_spec n 0); [lia|].
    destruct (Z.ltb_spec n 0); [lia|].
    set (m := Z.to_nat n). assert (0 < m)%nat as Hm by lia.
    eexists. split; [done|]. unfold range.
    split; [|split; [|split]].
    + rewrite (range_go_concat seq m Hm) by nia. done.
    + apply Forall_forall. intros c Hc.
      apply list_elem_of_lookup in Hc as [k Hk].
      rewrite list_lookup_fmap in Hk.
      apply fmap_Some in Hk as (j & Hj & ->).
      apply (range_go_lookup seq m Hm) in Hj as [_ Hj].
      rewrite length_take, length_drop. lia.
    + intros k c Hk Hlen. rewrite length_fmap in Hlen.
      rewrite list_lookup_fmap in Hk.
      apply fmap_Some in Hk as (j & Hj & ->).
      apply (range_go_lookup seq m Hm) in Hj as [-> _].
      destruct (lookup_lt_is_Some_2 _ _ Hlen) as [j' Hj'].
      apply (range_go_lookup seq m Hm) in Hj' as [-> Hj'].
      rewrite length_take, length_drop. simpl in Hj'. lia.
    + rewrite length_fmap.
      destruct (range_go_length seq m Hm (length seq) 0) as [H1 H2]; [nia|].
      split; [lia|].
      destruct (decide (length seq = 0)%nat) as [H0|H0]; [|lia].
      destruct seq; [simpl; lia|done].
Qed.

(** X1.  [chunks(seq, n)] with a positive [n] cuts the sequence into
    consecutive slices: put together they are the sequence again, none is
    empty or longer than [n], every slice but the last has [n] elements,
    and there are [ceil(len / n)] of them.  A zero [n] raises (the step of
    [range]), a negative one yields nothing. *)
Theorem chunks_partition {A : Type} (seq : list A) (n : Z) :
  (n = 0 → chunks seq n = inr ValueError)
  ∧ (n < 0 → chunks seq n = inl [])
  ∧ (0 < n →
     ∃ cs, chunks seq n = inl cs
       ∧ concat cs = seq
       ∧ Forall (λ c, (0 < length c ≤ Z.to_nat n)%nat) cs
       ∧ (∀ k c, cs !! k = Some c → (S k < length cs)%nat →
                 length c = Z.to_nat n)
       ∧ (length seq ≤ length cs * Z.to_nat n
          ∧ length cs * Z.to_nat n < length seq + Z.to_nat n)%nat).
Proof.
  split; [by intros ->|]. split; [|apply chunks_positive].
  intros Hn. unfold chunks. destruct (Z.eqb_spec n 0); [lia|].
  by destruct (Z.ltb_spec n 0); [|lia].
Qed.

Lemma chunks_partition_witness :
  chunks [1; 2; 3; 4; 5] 2 = inl [[1; 2]; [3; 4]; [5]]
  ∧ ∃ cs, chunks [1; 2; 3; 4; 5] 2 = inl cs ∧ concat cs = [1; 2; 3; 4; 5].
Proof.
  split; [reflexivity|].
  destruct (proj2 (proj2 (chunks_partition [1; 2; 3; 4; 5] 2)))
    as (cs & Hcs & Hcat & _); [lia|].
  by exists cs.
Defined.

(* ===================================================================== *)
(** ** Dictionaries gathered chunk by chunk *)
(* ===================================================================== *)

Lemma elem_of_concat {A} (x : A) (ls : list (list A)) :
  x ∈ concat ls ↔ ∃ l, x ∈ l ∧ l ∈ ls.
Proof.
  induction ls as [|l ls IH]; simpl.
  - split; [by intros ?%elem_of_nil|by intros (? & _ & ?%elem_of_nil)].
  - rewrite elem_of_app, IH. split.
    + intros [Hx|(l' & Hx & Hl')].
      * exists l. split; [done|apply list_elem_of_here].
      * exists l'. split; [done|by apply list_elem_of_further].
    + intros (l' & Hx & [->|Hl']%elem_of_cons); [by left|].
      right. by exists l'.
Qed.

Section collect.
Context {K V : Type} `{Countable K}.
Context (rows_of : list K → list (K * V)) (R : K → V → Prop).
Hypothesis rows_of_spec : ∀ c k v, (k, v) ∈ rows_of c ↔ k ∈ c ∧ R k v.
Hypothesis R_fun : ∀ k v v', R k v → R k v' → v = v'.

Lemma store_rows_sound (rows : list (K * V)) out k v :
  store_rows rows out !! k = Some v → (k, v) ∈ rows ∨ out !! k = Some v.
Proof.
  revert out. induction rows as [|[k' v'] rows IH]; intros out; simpl.
  - by right.
  - intros [Hin|Hout]%IH; [left; by apply list_elem_of_further|].
    simpl in Hout. destruct (decide (k' = k)) as [->|Hne].
    + rewrite lookup_insert_eq in Hout. injection Hout as ->.
      left. apply list_elem_of_here.
    + rewrite lookup_insert_ne in Hout by done. by right.
Qed.

Lemma store_rows_keep (rows : list (K * V)) out k v :
  (∀ v', (k, v') ∈ rows → v' = v) → out !! k = Some v →
  store_rows rows out !! k = Some v.
Proof.
  revert out. induction rows as [|[k' v'] rows IH]; intros out Hf Hout;
    simpl; [done|].
  apply IH.
  - intros v'' Hin. apply Hf. by apply list_elem_of_further.
  - simpl. destruct (decide (k' = k)) as [->|Hne].
    + rewrite lookup_insert_eq. f_equal. apply Hf, list_elem_of_here.
    + by rewrite lookup_insert_ne.
Qed.

Lemma store_rows_complete (rows : list (K * V)) out k v :
  (∀ v', (k, v') ∈ rows → v' = v) → (k, v) ∈ rows →
  store_rows rows out !! k = Some v.
Proof.
  revert out. induction rows as [|[k' v'] rows IH]; intros out Hf Hin;
    [by apply elem_of_nil in Hin|].
  simpl.
  assert (∀ v'', (k, v'') ∈ rows → v'' = v) as Hf'.
  { intros v'' Hin'. apply Hf. by apply list_elem_of_further. }
  destruct (decide (k ∈ rows.*1)) as [Hrest|Hrest].
  - apply IH; [done|].
    apply list_elem_of_fmap in Hrest as ([k1 v1] & -> & Hin1). simpl in *.
    by rewrite <-(Hf' v1 Hin1).
  - apply elem_of_cons in Hin as [[= <- <-]|Hin].
    + apply store_rows_keep; [done|]. simpl. by rewrite lookup_insert_eq.
    + destruct Hrest. apply list_elem_of_fmap. by exists (k, v).
Qed.

Lemma collect_sound cs out k v :
  collect rows_of cs out !! k = Some v →
  (k ∈ concat cs ∧ R k v) ∨ out !! k = Some v.
Proof.
  revert out. induction cs as [|c cs IH]; intros out; simpl; [by right|].
  intros [[Hk Hr]|Hout]%IH.
  - left. split; [|done]. apply elem_of_app. by right.
  - apply store_rows_sound in Hout as [Hin|Hout]; [|by right].
    apply rows_of_spec in Hin as [Hk Hr]. left.
    split; [|done]. apply elem_of_app. by left.
Qed.

Lemma collect_keep cs out k v :
  R k v → out !! k = Some v → collect rows_of cs out !! k = Some v.
Proof.
  revert out. induction cs as [|c cs IH]; intros out Hr Hout; simpl; [done|].
  apply IH; [done|]. apply store_rows_keep; [|done].
  intros v' [_ Hr']%rows_of_spec. by eapply R_fun.
Qed.

Lemma collect_complete cs out k v :
  k ∈ concat cs → R k v → collect rows_of cs out !! k = Some v.
Proof.
  revert out. induction cs as [|c cs IH]; intros out Hk Hr; simpl in *;
    [by apply elem_of_nil in Hk|].
  destruct (decide (k ∈ c)) as [Hc|Hc].
  - apply collect_keep; [done|]. apply store_rows_complete.
    + intros v' [_ Hr']%rows_of_spec. by eapply R_fun.
    + by apply rows_of_spec.
  - apply IH; [|done]. by apply elem_of_app in Hk as [?|?].
Qed.

Lemma collect_lookup cs k v :
  collect rows_of cs ∅ !! k = Some v ↔ k ∈ concat cs ∧ R k v.
Proof.
  split.
  - intros [?|Hout]%collect_sound; [done|]. by rewrite lookup_empty in Hout.
  - intros [Hk Hr]. by apply collect_complete.
Qed.

End collect.

(** X2.  [_fetch_latest_metrics] returns exactly the [repo_latest] rows
    whose id is in the list it is given, whatever the cut into chunks of
    500: a listed id with a row is mapped to that row, any other id is not
    in the dictionary, and an empty list gives the empty dictionary. *)
Theorem fetch_latest_metrics_chunked (d : DB) (repo_ids : list Z) :
  _fetch_latest_metrics_by_chunks d repo_ids
  = inl (_fetch_latest_metrics d repo_ids)
  ∧ (∀ k, _fetch_latest_metrics d repo_ids !! k
          = if decide (k ∈ repo_ids) then repo_latest d !! k else None)
  ∧ _fetch_latest_metrics_by_chunks d [] = inl ∅.
Proof.
  assert (∀ k, _fetch_latest_metrics d repo_ids !! k
               = if decide (k ∈ repo_ids) then repo_latest d !! k else None)
    as Hlookup.
  { intros k. unfold _fetch_latest_metrics. apply option_eq. intros v.
    rewrite map_lookup_filter_Some. simpl.
    case_decide; [tauto|]. split; [tauto|done]. }
  split; [|done].
  unfold _fetch_latest_metrics_by_chunks.
  destruct repo_ids as [|i ids] eqn:Hids.
  { f_equal. apply map_eq. intros k. rewrite Hlookup, lookup_empty.
    by rewrite decide_False by apply not_elem_of_nil. }
  rewrite <-Hids in *.
  destruct (chunks_positive repo_ids 500)
    as (cs & -> & Hcat & _); [lia|].
  simpl. f_equal. apply map_eq. intros k. apply option_eq. intros v.
  rewrite Hlookup.
  pose proof (collect_lookup
    (λ chunk, filter (λ kv : Z * LatestRow, kv.1 ∈ chunk)
                     (map_to_list (repo_latest d)))
    (λ k v, repo_latest d !! k = Some v)) as Hc.
  rewrite Hc, Hcat.
  - case_decide; [tauto|]. split; [tauto|done].
  - intros c k' v'. rewrite list_elem_of_filter, elem_of_map_to_list. done.
  - congruence.
Qed.

(** X3.  In a table with unique names, [_fetch_repo_ids(names)] maps a name
    to an id exactly when the name is one of [names] and the [repo] row of
    that id carries it; an empty list gives the empty dictionary. *)
Theorem fetch_repo_ids_lookup (d : DB) (names : list string) :
  names_unique (repo d) →
  ∃ out, _fetch_repo_ids d names = inl out
    ∧ (names = [] → out = ∅)
    ∧ ∀ name id, out !! name = Some id ↔
        name ∈ names
        ∧ ∃ r, repo d !! id = Some r ∧ r_name_with_owner r = name.
Proof.
  intros Hu. unfold _fetch_repo_ids.
  destruct names as [|nm names'] eqn:Hnames.
  { exists ∅. split; [done|]. split; [done|]. intros name id.
    rewrite lookup_empty. split; [done|]. by intros [?%elem_of_nil _]. }
  rewrite <-Hnames.
  destruct (chunks_positive names 500)
    as (cs & -> & Hcat & _); [lia|].
  simpl. eexists. split; [done|]. split; [by rewrite Hnames|].
  intros name id. rewrite <-Hcat.
  apply (collect_lookup _
    (λ name id, ∃ r, repo d !! id = Some r ∧ r_name_with_owner r = name)).
  - intros c k v. rewrite list_elem_of_fmap. split.
    + intros ([i r] & [= -> ->] & [Hc Hin]%list_elem_of_filter).
      apply elem_of_map_to_list in Hin. simpl in *.
      split; [done|]. by exists r.
    + intros (Hc & r & Hr & <-). exists (v, r). split; [done|].
      apply list_elem_of_filter. split; [done|].
      by apply elem_of_map_to_list.
  - intros k v v' (r & Hr & Hn) (r' & Hr' & Hn').
    eapply names_unique_eq; [done..|congruence].
Qed.

(** After scenario S1, [a/x] is repo 1. *)
Lemma fetch_repo_ids_lookup_witness :
  ∃ out, _fetch_repo_ids (conn scenario_S1) ["a/x"; "b/y"]%string = inl out
    ∧ out !! "a/x"%string = Some 1.
Proof.
  destruct (fetch_repo_ids_lookup (conn scenario_S1) ["a/x"; "b/y"]%string)
    as (out & Hout & _ & Hl).
  { apply (bool_decide_unpack _). by vm_compute. }
  exists out. split; [done|]. apply Hl. split.
  - apply list_elem_of_here.
  - eexists. split; [by vm_compute|done].
Defined.

(* ===================================================================== *)
(** ** Runs *)
(* ===================================================================== *)

(** X4.  [begin_run] allocates the run of an engine once: a later call, with
    any arguments, returns the same id and changes nothing.  The first call
    gives an id above every id of [fetch_run], stores the given instant
    (the clock reading when none is given) under it, and leaves every other
    table alone. *)
Theorem begin_run_once (fetched_at_unix fetched_at_unix' : option Z)
    (now now' : Z) (s : RepoDB) :
  let s1 := (begin_run fetched_at_unix now s).1 in
  let r := (begin_run fetched_at_unix now s).2 in
  begin_run fetched_at_unix' now' s1 = (s1, r)
  ∧ (_run_id s = None →
     fetch_run (conn s) !! r = None
     ∧ (∀ x, is_Some (fetch_run (conn s) !! x) → x < r)
     ∧ fetch_run (conn s1)
       = <[r := default now fetched_at_unix]> (fetch_run (conn s)))
  ∧ (∀ r0, _run_id s = Some r0 → s1 = s ∧ r = r0)
  ∧ repo (conn s1) = repo (conn s)
  ∧ language (conn s1) = language (conn s)
  ∧ topic (conn s1) = topic (conn s)
  ∧ repo_latest (conn s1) = repo_latest (conn s)
  ∧ repo_metrics_hist (conn s1) = repo_metrics_hist (conn s)
  ∧ repo_topic_latest (conn s1) = repo_topic_latest (conn s).
Proof.
  intros s1 r.
  destruct (begin_run_frame fetched_at_unix now s)
    as (Hr & Hl & Ht & Hrl & Hh & Htl & _ & Hrun).
  fold s1 r in Hr, Hl, Ht, Hrl, Hh, Htl, Hrun.
  split; [by apply begin_run_begun|].
  split; [|split; [|done]].
  - intros Hnone. unfold s1, r, begin_run. rewrite Hnone. simpl.
    assert (∀ x, is_Some (fetch_run (conn s) !! x) →
                 x < next_rowid (fetch_run (conn s))) as Hgt
      by (intros x; apply next_rowid_gt).
    split; [|done].
    destruct (fetch_run (conn s) !! next_rowid (fetch_run (conn s)))
      as [ts|] eqn:Hts; [|done].
    specialize (Hgt _ (mk_is_Some _ _ Hts)). lia.
  - intros r0 Hr0. unfold s1, r.
    by rewrite (begin_run_begun _ _ _ _ Hr0).
Qed.

Lemma begin_run_once_witness :
  (begin_run (Some 100) 0 (open_db empty_db)).2 = 1
  ∧ fetch_run (conn (begin_run (Some 100) 0 (open_db empty_db)).1) !! 1
    = Some 100.
Proof.
  split; [reflexivity|].
  destruct (proj1 (proj2 (begin_run_once (Some 100) None 0 7
                            (open_db empty_db))))
    as (_ & _ & ->); [done|].
  apply lookup_insert_eq.
Defined.

(* ===================================================================== *)
(** ** Interning *)
(* ===================================================================== *)

Lemma id_by_name_Some t name id :
  id_by_name t name = Some id → t !! id = Some name.
Proof.
  unfold id_by_name. intros ([i nm] & Hh & ->)%fmap_Some.
  apply head_Some_elem_of, list_elem_of_filter in Hh as [Hn Hin].
  simpl in *. subst nm. by apply elem_of_map_to_list.
Qed.

Lemma id_by_name_None t name id :
  id_by_name t name = None → t !! id ≠ Some name.
Proof.
  unfold id_by_name. intros Hh%fmap_None%head_None Hid.
  assert ((id, name) ∈ filter (λ kv : Z * string, kv.2 = name) (map_to_list t))
    as Hin.
  { apply list_elem_of_filter. split; [done|]. by apply elem_of_map_to_list. }
  rewrite Hh in Hin. by apply elem_of_nil in Hin.
Qed.

Lemma unique_name_id (t : gmap Z string) i j name :
  NoDup (map_to_list t).*2 → t !! i = Some name → t !! j = Some name → i = j.
Proof.
  intros Hnd Hi Hj. apply elem_of_map_to_list in Hi, Hj.
  assert ((i, name) = (j, name)) as Heq; [|congruence].
  by eapply (NoDup_fmap_eq (λ kv : Z * string, kv.2)).
Qed.

Lemma id_by_name_unique t name id :
  NoDup (map_to_list t).*2 → t !! id = Some name →
  id_by_name t name = Some id.
Proof.
  intros Hnd Hid. destruct (id_by_name t name) as [j|] eqn:Hj.
  - f_equal. apply id_by_name_Some in Hj. by eapply unique_name_id.
  - by apply (id_by_name_None _ _ id) in Hj.
Qed.

(** [INSERT OR IGNORE]: the table keeps its rows and its unique names, and
    afterwards holds the name. *)
Lemma insert_or_ignore_name_spec name t :
  NoDup (map_to_list t).*2 →
  let t' := insert_or_ignore_name name t in
  NoDup (map_to_list t').*2
  ∧ (∀ k v, t !! k = Some v → t' !! k = Some v)
  ∧ (∃ id, id_by_name t' name = Some id ∧ t' !! id = Some name)
  ∧ (∀ k, t !! k = Some name → t' = t)
  ∧ (∀ k v, t' !! k = Some v → t !! k = Some v ∨ v = name).
Proof.
  intros Hnd. unfold insert_or_ignore_name.
  destruct (id_by_name t name) as [id|] eqn:Hid; simpl.
  - split; [done|]. split; [done|]. split; [|split; [done|by left]].
    exists id. split; [done|]. by apply id_by_name_Some.
  - assert (t !! next_rowid t = None) as Hfresh.
    { destruct (t !! next_rowid t) as [v|] eqn:Hv; [|done].
      pose proof (next_rowid_gt t _ (mk_is_Some _ _ Hv)). lia. }
    assert (NoDup (map_to_list (<[next_rowid t := name]> t)).*2) as Hnd'.
    { rewrite map_to_list_insert by done. simpl.
      apply NoDup_cons_2; [|done].
      intros ([k v] & -> & Hin)%list_elem_of_fmap.
      apply elem_of_map_to_list in Hin.
      by apply (id_by_name_None _ _ k) in Hid. }
    split; [done|]. split; [|split; [|split]].
    + intros k v Hk. rewrite lookup_insert_ne; [done|]. congruence.
    + exists (next_rowid t).
      split; [|by rewrite lookup_insert_eq].
      apply id_by_name_unique; [done|]. by rewrite lookup_insert_eq.
    + intros k Hk. by apply (id_by_name_None _ _ k) in Hid.
    + intros k v. destruct (decide (k = next_rowid t)) as [->|Hne].
      * rewrite lookup_insert_eq. intros [= <-]. by right.
      * rewrite lookup_insert_ne by done. by left.
Qed.

Section language.
Context (s : RepoDB).
Hypothesis Hint : interned (language (conn s)) (_lang_cache s).

Lemma language_interned name :
  interned (language (conn (_get_or_create_language_id name s).1))
           (_lang_cache (_get_or_create_language_id name s).1).
Proof.
  destruct Hint as [Hu Hc]. unfold _get_or_create_language_id.
  destruct name as [nm|]; [|done]. case_bool_decide; [done|].
  destruct (_lang_cache s !! nm) as [i|] eqn:Hi; [done|].
  destruct (insert_or_ignore_name_spec nm (language (conn s)) Hu)
    as (Hu' & Hkeep & (id & Hid & Hrowid) & _).
  rewrite Hid. simpl. split; [done|].
  intros name i'. destruct (decide (name = nm)) as [->|Hne].
  - rewrite lookup_insert_eq. by intros [= <-].
  - rewrite lookup_insert_ne by done. intros Hi'. by apply Hkeep, Hc.
Qed.

Lemma language_rows_kept name k v :
  language (conn s) !! k = Some v →
  language (conn (_get_or_create_language_id name s).1) !! k = Some v.
Proof.
  destruct Hint as [Hu Hc]. unfold _get_or_create_language_id.
  destruct name as [nm|]; [|done]. case_bool_decide; [done|].
  destruct (_lang_cache s !! nm) as [i|] eqn:Hi; [done|].
  destruct (insert_or_ignore_name_spec nm (language (conn s)) Hu)
    as (_ & Hkeep & _).
  destruct (id_by_name _ nm); simpl; apply Hkeep.
Qed.

Lemma language_known nm :
  (∃ k, language (conn s) !! k = Some nm) →
  language (conn (_get_or_create_language_id (Some nm) s).1)
  = language (conn s).
Proof.
  destruct Hint as [Hu Hc]. intros [k Hk]. unfold _get_or_create_language_id.
  case_bool_decide; [done|].
  destruct (_lang_cache s !! nm) as [i|] eqn:Hi; [done|].
  destruct (insert_or_ignore_name_spec nm (language (conn s)) Hu)
    as (_ & _ & _ & Hsame & _).
  destruct (id_by_name _ nm); simpl; by eapply Hsame.
Qed.

Lemma language_id nm :
  nm ≠ EmptyString →
  ∃ id, (_get_or_create_language_id (Some nm) s).2 = Some id
    ∧ language (conn (_get_or_create_language_id (Some nm) s).1) !! id
      = Some nm
    ∧ _lang_cache (_get_or_create_language_id (Some nm) s).1 !! nm = Some id.
Proof.
  destruct Hint as [Hu Hc]. intros Hnm. unfold _get_or_create_language_id.
  rewrite bool_decide_eq_false_2 by done.
  destruct (_lang_cache s !! nm) as [i|] eqn:Hi; simpl.
  - exists i. split; [done|]. split; [by apply Hc|done].
  - destruct (insert_or_ignore_name_spec nm (language (conn s)) Hu)
      as (_ & _ & (id & Hid & Hrowid) & _).
    rewrite Hid. simpl. exists id. split; [done|]. split; [done|].
    by rewrite lookup_insert_eq.
Qed.

End language.

Lemma language_cache_hit nm s id :
  nm ≠ EmptyString → _lang_cache s !! nm = Some id →
  _get_or_create_language_id (Some nm) s = (s, Some id).
Proof.
  intros Hnm Hid. unfold _get_or_create_language_id.
  rewrite bool_decide_eq_false_2 by done. by rewrite Hid.
Qed.

(** X5.  [_get_or_create_language_id] on an engine whose language cache
    agrees with the table: a missing or empty name gives [None] and writes
    nothing; any other name gives the id of a [language] row that carries
    it, keeps every row the table had (adding none when the name was
    already there), keeps cache and table in agreement, and gives the same
    id when asked again.  Two different names never get one id. *)
Theorem language_interning (name : option string) (s : RepoDB) :
  interned (language (conn s)) (_lang_cache s) →
  let s' := (_get_or_create_language_id name s).1 in
  let r := (_get_or_create_language_id name s).2 in
  interned (language (conn s')) (_lang_cache s')
  ∧ (∀ k v, language (conn s) !! k = Some v → language (conn s') !! k = Some v)
  ∧ (name = None ∨ name = Some EmptyString → s' = s ∧ r = None)
  ∧ (∀ nm, name = Some nm → nm ≠ EmptyString →
       ∃ id, r = Some id
         ∧ language (conn s') !! id = Some nm
         ∧ ((∃ k, language (conn s) !! k = Some nm) →
            language (conn s') = language (conn s))
         ∧ _get_or_create_language_id name s' = (s', Some id)
         ∧ ∀ nm' id', (_get_or_create_language_id (Some nm') s').2 = Some id' →
                      nm' ≠ nm → id' ≠ id).
Proof.
  intros Hint s' r.
  pose proof (language_interned s Hint name) as Hint'. fold s' in Hint'.
  split; [done|]. split; [by apply language_rows_kept|]. split.
  { unfold s', r. by intros [->| ->]. }
  intros nm -> Hnm.
  destruct (language_id s Hint nm Hnm) as (id & Hr & Hrow & Hcache).
  fold s' in Hrow, Hcache. fold r in Hr.
  exists id. split; [done|]. split; [done|].
  split; [by apply language_known|].
  split; [by apply language_cache_hit|].
  intros nm' id' Hid' Hne ->.
  assert (nm' ≠ EmptyString) as Hnm'.
  { intros ->. by cbn in Hid'. }
  destruct (language_id s' Hint' nm' Hnm') as (id2 & Hr2 & Hrow2 & _).
  rewrite Hid' in Hr2. injection Hr2 as <-.
  pose proof (language_rows_kept s' Hint' (Some nm') _ _ Hrow) as Hkept.
  congruence.
Qed.

Lemma language_interning_witness :
  (_get_or_create_language_id (Some "Go"%string) (open_db empty_db)).2
  = Some 1
  ∧ language
      (conn (_get_or_create_language_id (Some "Go"%string)
               (open_db empty_db)).1) !! 1 = Some "Go"%string.
Proof.
  split; [reflexivity|].
  destruct (language_interning (Some "Go"%string) (open_db empty_db))
    as (_ & _ & _ & H).
  { split; simpl.
    - rewrite map_to_list_empty. apply NoDup_nil_2.
    - intros name id. by rewrite lookup_empty. }
  destruct (H "Go"%string eq_refl) as (id & Hid & Hrow & _); [done|].
  cbv zeta in Hid. injection Hid as <-. exact Hrow.
Defined.

Section topic.
Context (s : RepoDB).
Hypothesis Hint : interned (topic (conn s)) (_topic_cache s).

Lemma topic_interned name :
  interned (topic (conn (_get_or_create_topic_id name s).1))
           (_topic_cache (_get_or_create_topic_id name s).1).
Proof.
  destruct Hint as [Hu Hc]. unfold _get_or_create_topic_id.
  destruct (_topic_cache s !! name) as [i|] eqn:Hi; [done|].
  destruct (insert_or_ignore_name_spec name (topic (conn s)) Hu)
    as (Hu' & Hkeep & (id & Hid & Hrowid) & _).
  rewrite Hid. simpl. split; [done|].
  intros name' i'. destruct (decide (name' = name)) as [->|Hne].
  - rewrite lookup_insert_eq. by intros [= <-].
  - rewrite lookup_insert_ne by done. intros Hi'. by apply Hkeep, Hc.
Qed.

Lemma topic_rows_kept name k v :
  topic (conn s) !! k = Some v →
  topic (conn (_get_or_create_topic_id name s).1) !! k = Some v.
Proof.
  destruct Hint as [Hu Hc]. unfold _get_or_create_topic_id.
  destruct (_topic_cache s !! name) as [i|] eqn:Hi; [done|].
  destruct (insert_or_ignore_name_spec name (topic (conn s)) Hu)
    as (_ & Hkeep & _).
  simpl. apply Hkeep.
Qed.

Lemma topic_known name :
  (∃ k, topic (conn s) !! k = Some name) →
  topic (conn (_get_or_create_topic_id name s).1) = topic (conn s).
Proof.
  destruct Hint as [Hu Hc]. intros [k Hk]. unfold _get_or_create_topic_id.
  destruct (_topic_cache s !! name) as [i|] eqn:Hi; [done|].
  destruct (insert_or_ignore_name_spec name (topic (conn s)) Hu)
    as (_ & _ & _ & Hsame & _).
  simpl. by eapply Hsame.
Qed.

Lemma topic_id name :
  topic (conn (_get_or_create_topic_id name s).1)
    !! (_get_or_create_topic_id name s).2 = Some name
  ∧ _topic_cache (_get_or_create_topic_id name s).1 !! name
    = Some (_get_or_create_topic_id name s).2.
Proof.
  destruct Hint as [Hu Hc]. unfold _get_or_create_topic_id.
  destruct (_topic_cache s !! name) as [i|] eqn:Hi; simpl.
  - split; [by apply Hc|done].
  - destruct (insert_or_ignore_name_spec name (topic (conn s)) Hu)
      as (_ & _ & (id & Hid & Hrowid) & _).
    rewrite Hid. simpl. split; [done|]. by rewrite lookup_insert_eq.
Qed.

(** The [SELECT] after the [INSERT OR IGNORE] finds a row: the
    [RuntimeError] of the source cannot be raised. *)
Lemma topic_select_finds name :
  is_Some (id_by_name (insert_or_ignore_name name (topic (conn s))) name).
Proof.
  destruct Hint as [Hu _].
  destruct (insert_or_ignore_name_spec name (topic (conn s)) Hu)
    as (_ & _ & (id & Hid & _) & _).
  by exists id.
Qed.

End topic.

(** X6.  [_get_or_create_topic_id] on an engine whose topic cache agrees
    with the table returns the id of a [topic] row that carries the name:
    the [SELECT] after the [INSERT OR IGNORE] always finds it, so the
    [RuntimeError] is never raised.  The table keeps every row it had (and
    gets none when the name was there), cache and table stay in agreement,
    asking again gives the same id and changes nothing, and two different
    names never get one id. *)
Theorem topic_interning (name : string) (s : RepoDB) :
  interned (topic (conn s)) (_topic_cache s) →
  let s' := (_get_or_create_topic_id name s).1 in
  let id := (_get_or_create_topic_id name s).2 in
  interned (topic (conn s')) (_topic_cache s')
  ∧ topic (conn s') !! id = Some name
  ∧ is_Some (id_by_name (insert_or_ignore_name name (topic (conn s))) name)
  ∧ (∀ k v, topic (conn s) !! k = Some v → topic (conn s') !! k = Some v)
  ∧ ((∃ k, topic (conn s) !! k = Some name) → topic (conn s') = topic (conn s))
  ∧ _get_or_create_topic_id name s' = (s', id)
  ∧ ∀ name', name' ≠ name → (_get_or_create_topic_id name' s').2 ≠ id.
Proof.
  intros Hint s' id.
  pose proof (topic_interned s Hint name) as Hint'. fold s' in Hint'.
  destruct (topic_id s Hint name) as [Hrow Hcache]. fold s' id in Hrow, Hcache.
  split; [done|]. split; [done|]. split; [by apply topic_select_finds|].
  split; [by apply topic_rows_kept|]. split; [by apply topic_known|].
  split.
  - unfold _get_or_create_topic_id at 1. by rewrite Hcache.
  - intros name' Hne Heq.
    destruct (topic_id s' Hint' name') as [Hrow' _].
    pose proof (topic_rows_kept s' Hint' name' _ _ Hrow) as Hkept.
    rewrite Heq in Hrow'. congruence.
Qed.

Lemma topic_interning_witness :
  (_get_or_create_topic_id "web"%string (open_db empty_db)).2 = 1
  ∧ topic (conn (_get_or_create_topic_id "web"%string (open_db empty_db)).1)
      !! 1 = Some "web"%string.
Proof.
  split; [reflexivity|].
  refine (proj1 (proj2 (topic_interning "web"%string (open_db empty_db) _))).
  split; simpl.
  - rewrite map_to_list_empty. apply NoDup_nil_2.
  - intros name id. by rewrite lookup_empty.
Defined.

(* ===================================================================== *)
(** ** The caches over a call *)
(* ===================================================================== *)

Lemma language_call_topic name s :
  topic (conn (_get_or_create_language_id name s).1) = topic (conn s)
  ∧ _topic_cache (_get_or_create_language_id name s).1 = _topic_cache s.
Proof.
  unfold _get_or_create_language_id.
  destruct name as [nm|]; [|done]. case_bool_decide; [done|].
  destruct (_lang_cache s !! nm); [done|].
  by destruct (id_by_name _ nm).
Qed.

Lemma topic_call_language name s :
  language (conn (_get_or_create_topic_id name s).1) = language (conn s)
  ∧ _lang_cache (_get_or_create_topic_id name s).1 = _lang_cache s.
Proof.
  unfold _get_or_create_topic_id. by destruct (_topic_cache s !! name).
Qed.

Lemma language_call_coherent name s :
  caches_coherent s → caches_coherent (_get_or_create_language_id name s).1.
Proof.
  intros [Hl Ht]. destruct (language_call_topic name s) as [Ht1 Ht2].
  split; [by apply language_interned|]. by rewrite Ht1, Ht2.
Qed.

Lemma topic_call_coherent name s :
  caches_coherent s → caches_coherent (_get_or_create_topic_id name s).1.
Proof.
  intros [Hl Ht]. destruct (topic_call_language name s) as [Hl1 Hl2].
  split; [by rewrite Hl1, Hl2|]. by apply topic_interned.
Qed.

Lemma intern_topics_coherent repo_id topics s :
  caches_coherent s → caches_coherent (intern_topics repo_id topics s).1.
Proof.
  revert s. induction topics as [|t topics IH]; intros s Hs; simpl; [done|].
  pose proof (topic_call_coherent t s Hs) as H1.
  destruct (_get_or_create_topic_id t s) as [s1 tid]. simpl in H1.
  specialize (IH s1 H1). by destruct (intern_topics repo_id topics s1).
Qed.

Lemma plan_node_coherent run_id existing n s pl :
  caches_coherent s → caches_coherent (plan_node run_id existing n s pl).1.
Proof.
  intros Hs. unfold plan_node. destruct (node_metrics n) as [m|]; [|done].
  pose proof (language_call_coherent
                (primary_language_name (primaryLanguage n)) s Hs) as H1.
  destruct (_get_or_create_language_id _ s) as [s1 pl_id]. simpl in H1.
  destruct (history_step run_id (existing !! m_repo_id m) m) as [[hs ins] ext].
  pose proof (intern_topics_coherent (m_repo_id m)
                (topic_names (repositoryTopics n)) s1 H1) as H2.
  by destruct (intern_topics _ _ s1).
Qed.

Lemma plan_rows_coherent run_id existing fresh s pl :
  caches_coherent s → caches_coherent (plan_rows run_id existing fresh s pl).1.
Proof.
  revert s pl. induction fresh as [|n fresh IH]; intros s pl Hs; simpl; [done|].
  pose proof (plan_node_coherent run_id existing n s pl Hs) as H1.
  destruct (plan_node run_id existing n s pl) as [s1 [pl1|e]]; simpl in *.
  - by apply IH.
  - done.
Qed.

Lemma caches_coherent_tables s s' :
  language (conn s') = language (conn s) → topic (conn s') = topic (conn s) →
  _lang_cache s' = _lang_cache s → _topic_cache s' = _topic_cache s →
  caches_coherent s → caches_coherent s'.
Proof. unfold caches_coherent. by intros -> -> -> ->. Qed.

Lemma entered_coherent now s nodes :
  caches_coherent s → caches_coherent (entered now s nodes).
Proof.
  destruct (entered_frame now s nodes) as (_ & Hl & Ht & _).
  apply caches_coherent_tables; [done..| |];
    unfold entered, begin_run; by destruct (_run_id s).
Qed.

(** X7.  The engine keeps its two caches in agreement with the [language]
    and [topic] tables: a freshly opened engine on tables with unique names
    has them so, and every call of [upsert_from_github_nodes], whether it
    returns or raises, leaves them so. *)
Theorem caches_stay_coherent :
  (∀ d : DB, NoDup (map_to_list (language d)).*2 →
             NoDup (map_to_list (topic d)).*2 → caches_coherent (open_db d))
  ∧ ∀ (now : Z) (s : RepoDB) (nodes : list Node),
      caches_coherent s →
      caches_coherent (upsert_from_github_nodes now s nodes).1.
Proof.
  split.
  { intros d Hl Ht. split; (split; [done|]); intros name id; simpl;
      by rewrite lookup_empty. }
  intros now s nodes Hs.
  pose proof (entered_coherent now s nodes Hs) as He.
  assert (∀ rows d3 s4 res,
    resolve_and_upsert rows (conn (entered now s nodes)) = inl d3 →
    plan_rows (run_of now s) (_fetch_latest_metrics d3 (p_id <$> rows))
      (fresh_of s nodes) (set_conn d3 (entered now s nodes)) empty_plan
    = (s4, res) → caches_coherent s4) as Hplan.
  { intros rows d3 s4 res H1 Hp.
    apply resolve_and_upsert_inl in H1 as (Hl3 & Ht3 & _).
    pose proof (plan_rows_coherent (run_of now s)
      (_fetch_latest_metrics d3 (p_id <$> rows)) (fresh_of s nodes)
      (set_conn d3 (entered now s nodes)) empty_plan) as Hc.
    rewrite Hp in Hc. apply Hc.
    by apply (caches_coherent_tables (entered now s nodes)). }
  pose proof (upsert_outcome now s nodes) as Ho.
  destruct (upsert_from_github_nodes now s nodes) as [s' raised].
  simpl in Ho |- *.
  inversion Ho as [|e' He'|rows e' Hb H1|rows d3 s4 e' Hb H1 Hp
                   |rows d3 s4 pl e' Hb H1 Hp Hw
                   |rows d3 s4 pl d5 Hne Hb H1 Hp Hw]; subst; try done.
  - by eapply Hplan.
  - by eapply Hplan.
  - pose proof (Hplan _ _ _ _ H1 Hp) as H4.
    apply plan_rows_inl in Hp as (ms & _ & Hpl).
    pose proof (planned_extend_run _ _ _ _ Hpl) as Hext.
    apply (write_plan_inl (run_of now s)) in Hw as (_ & Hl5 & Ht5 & _);
      [|done].
    by apply (caches_coherent_tables s4).
Qed.

Lemma caches_stay_coherent_witness :
  caches_coherent (open_db empty_db)
  ∧ caches_coherent scenario_S1.
Proof.
  assert (caches_coherent (open_db empty_db)) as H.
  { apply (proj1 caches_stay_coherent); simpl; rewrite map_to_list_empty;
      apply NoDup_nil_2. }
  split; [exact H|].
  exact (proj2 caches_stay_coherent 0 (open_db empty_db)
           [snapshot 1 "a/x" 10] H).
Defined.

(* ===================================================================== *)
(** ** The base run of a trending window *)
(* ===================================================================== *)

Lemma foldr_max_elem (x : Z) (l : list Z) :
  foldr Z.max x l = x ∨ foldr Z.max x l ∈ l.
Proof.
  induction l as [|y l IH]; simpl; [by left|].
  destruct (Z.max_spec y (foldr Z.max x l)) as [[_ ->]|[_ ->]].
  - destruct IH as [->|IH]; [by left|]. right. by apply list_elem_of_further.
  - right. apply list_elem_of_here.
Qed.

(** [SELECT MAX(...)]: NULL over no row, else a value of the column that no
    other exceeds. *)
Lemma max_list_Some l m :
  max_list l = Some m ↔ m ∈ l ∧ ∀ x, x ∈ l → x ≤ m.
Proof.
  destruct l as [|x l]; simpl.
  - split; [done|]. by intros [?%elem_of_nil _].
  - split.
    + intros [= <-]. split.
      * destruct (foldr_max_elem x l) as [->|?];
          [apply list_elem_of_here|by apply list_elem_of_further].
      * intros y Hy. apply foldr_max_ge.
        apply elem_of_cons in Hy as [->|?]; auto.
    + intros [Hm Hmax]. f_equal. apply Z.le_antisymm.
      * apply Hmax.
        destruct (foldr_max_elem x l) as [->|?];
          [apply list_elem_of_here|by apply list_elem_of_further].
      * apply foldr_max_ge. apply elem_of_cons in Hm as [->|?]; auto.
Qed.

Lemma max_list_None l : max_list l = None ↔ l = [].
Proof. by destruct l. Qed.

(** X8.  [_base_run_id_for_window]: with no fetch run the base is 0.
    Otherwise the cutoff is the newest [fetched_at] less the window; the
    base is the largest id among the runs fetched at or before the cutoff,
    and 0 when there is no such run.  With ids that are not negative, a
    longer window never gives a later base. *)
Theorem base_run_id_for_window_spec (d : DB) (window_seconds : Z) :
  let base := _base_run_id_for_window d window_seconds in
  (fetch_run d = ∅ → base = 0)
  ∧ (∀ newest, (∃ k, fetch_run d !! k = Some newest) →
       (∀ k ts, fetch_run d !! k = Some ts → ts ≤ newest) →
       ((∃ ts, fetch_run d !! base = Some ts ∧ ts ≤ newest - window_seconds)
        ∧ (∀ k ts, fetch_run d !! k = Some ts →
                   ts ≤ newest - window_seconds → k ≤ base))
       ∨ (base = 0
          ∧ ∀ k ts, fetch_run d !! k = Some ts →
                    newest - window_seconds < ts))
  ∧ ((∀ k, is_Some (fetch_run d !! k) → 0 ≤ k) →
     ∀ longer, window_seconds ≤ longer →
       _base_run_id_for_window d longer ≤ base).
Proof.
  assert (∀ w newest, (∃ k, fetch_run d !! k = Some newest) →
       (∀ k ts, fetch_run d !! k = Some ts → ts ≤ newest) →
       let base := _base_run_id_for_window d w in
       ((∃ ts, fetch_run d !! base = Some ts ∧ ts ≤ newest - w)
        ∧ (∀ k ts, fetch_run d !! k = Some ts → ts ≤ newest - w → k ≤ base))
       ∨ (base = 0
          ∧ ∀ k ts, fetch_run d !! k = Some ts → newest - w < ts)) as Hspec.
  { intros w newest [k0 Hk0] Hmax base. unfold base, _base_run_id_for_window.
    assert (max_list (map_to_list (fetch_run d)).*2 = Some newest) as ->.
    { apply max_list_Some. split.
      - apply list_elem_of_fmap. exists (k0, newest).
        split; [done|]. by apply elem_of_map_to_list.
      - intros x ([k ts] & -> & Hin%elem_of_map_to_list)%list_elem_of_fmap.
        by eapply Hmax. }
    destruct (max_list (filter _ (map_to_list (fetch_run d))).*1)
      as [b|] eqn:Hb; simpl.
    - left. apply max_list_Some in Hb as [Hin Hle].
      apply list_elem_of_fmap in Hin as ([k ts] & -> & Hin).
      apply list_elem_of_filter in Hin as [Hts Hin%elem_of_map_to_list].
      simpl in *. split; [by exists ts|].
      intros k' ts' Hk' Hts'. apply Hle. apply list_elem_of_fmap.
      exists (k', ts'). split; [done|]. apply list_elem_of_filter.
      split; [done|]. by apply elem_of_map_to_list.
    - right. split; [done|]. intros k ts Hk.
      apply max_list_None, fmap_nil_inv in Hb.
      destruct (decide (ts ≤ newest - w)) as [Hts|]; [|lia].
      assert ((k, ts) ∈ filter (λ kv : Z * Z, kv.2 ≤ newest - w)
                (map_to_list (fetch_run d))) as Hin.
      { apply list_elem_of_filter. split; [done|].
        by apply elem_of_map_to_list. }
      rewrite Hb in Hin. by apply elem_of_nil in Hin. }
  intros base. split; [|split].
  - intros He. unfold base, _base_run_id_for_window.
    by rewrite He, map_to_list_empty.
  - intros newest Hk Hmax. by apply Hspec.
  - intros Hpos longer Hlonger.
    destruct (max_list (map_to_list (fetch_run d)).*2) as [newest|] eqn:Hn.
    + apply max_list_Some in Hn as [Hin Hmax].
      apply list_elem_of_fmap in Hin as ([k0 ts0] & -> & Hin).
      apply elem_of_map_to_list in Hin. simpl in *.
      assert (∀ k ts, fetch_run d !! k = Some ts → ts ≤ ts0) as Hmax'.
      { intros k ts Hk. apply Hmax, list_elem_of_fmap. exists (k, ts).
        split; [done|]. by apply elem_of_map_to_list. }
      pose proof (Hspec longer ts0 (ex_intro _ k0 Hin) Hmax') as H1.
      pose proof (Hspec window_seconds ts0 (ex_intro _ k0 Hin) Hmax') as H2.
      cbv zeta in H1, H2. unfold base.
      destruct H1 as [[(ts & Hb & Hts) _]|[Hz _]];
        destruct H2 as [[(ts' & Hb' & Hts') Hle']|[Hz' Hno']].
      * apply (Hle' _ ts); [done|lia].
      * specialize (Hno' _ _ Hb). lia.
      * rewrite Hz. apply Hpos. by exists ts'.
      * lia.
    + unfold base, _base_run_id_for_window. by rewrite Hn.
Qed.

(** Scenario S4: the base of the three-day window at the fifth run is the
    run fetched after one day. *)
Lemma base_run_id_for_window_spec_witness :
  _base_run_id_for_window scenario_S4 (3 * day) = 2
  ∧ _base_run_id_for_window scenario_S4 (4 * day)
    ≤ _base_run_id_for_window scenario_S4 (3 * day).
Proof.
  split; [by vm_compute|].
  apply (base_run_id_for_window_spec scenario_S4 (3 * day)); [|unfold day; lia].
  intros k [ts Hk]. apply elem_of_map_to_list in Hk.
  vm_compute in Hk.
  repeat (apply elem_of_cons in Hk as [[= -> _]|Hk]; [lia|]).
  by apply elem_of_nil in Hk.
Defined.

(* ===================================================================== *)
(** ** The batches of the crawler *)
(* ===================================================================== *)

(** X9.  [GRAPHQL_QUERY] does not select [databaseId], so a node of its
    answer has no such key, and [upsert_from_github_nodes] drops every node
    of a batch that [crawl] hands it: the call begins the run (one
    [fetch_run] row at most), writes no other table, records no id and
    returns; so does a whole pass of such batches. *)
Theorem crawler_batches_store_nothing :
  (∀ (now : Z) (s : RepoDB) (nodes : list Node),
     upsert_from_github_nodes now s (search_nodes nodes)
     = ((begin_run None now s).1, None))
  ∧ ∀ (now : Z) (s : RepoDB) (batches : list (list Node)),
      batches ≠ [] →
      let s' := (ingest_pass now s
                   (search_nodes <$> batches)).1 in
      (ingest_pass now s (search_nodes <$> batches)).2
      = None
      ∧ s' = (begin_run None now s).1
      ∧ repo (conn s') = repo (conn s)
      ∧ repo_latest (conn s') = repo_latest (conn s)
      ∧ repo_metrics_hist (conn s') = repo_metrics_hist (conn s)
      ∧ repo_topic_latest (conn s') = repo_topic_latest (conn s)
      ∧ _processed_repo_ids s' = _processed_repo_ids s.
Proof.
  assert (∀ now s nodes,
     upsert_from_github_nodes now s (search_nodes nodes)
     = ((begin_run None now s).1, None)) as Hcall.
  { intros now s nodes. unfold upsert_from_github_nodes.
    destruct (begin_run None now s) as [s1 run_id]. simpl.
    rewrite fresh_scan_nothing.
    - by rewrite set_processed_same.
    - unfold search_nodes. intros n i (n0 & -> & _)%list_elem_of_fmap. done. }
  split; [done|].
  intros now s batches Hne s'.
  assert (∀ bs s1 r, _run_id s1 = Some r →
            ingest_pass now s1 (search_nodes <$> bs)
            = (s1, None)) as Hrest.
  { induction bs as [|b bs IH]; intros s1 r Hr; simpl; [done|].
    rewrite Hcall, (begin_run_begun _ _ _ _ Hr). simpl. by eapply IH. }
  destruct (begin_run_frame None now s)
    as (Hr & _ & _ & Hl & Hh & Ht & Hp & Hrun).
  assert (ingest_pass now s (search_nodes <$> batches)
          = ((begin_run None now s).1, None)) as Hpass.
  { destruct batches as [|b bs]; [done|]. simpl. rewrite Hcall.
    by eapply Hrest. }
  unfold s'. rewrite Hpass. simpl. done.
Qed.

Lemma crawler_batches_store_nothing_witness :
  (ingest_pass 0 (open_db empty_db)
     [search_nodes [snapshot 1 "a/x" 10]]).2 = None
  ∧ repo (conn (ingest_pass 0 (open_db empty_db)
                  [search_nodes [snapshot 1 "a/x" 10]]).1)
    = ∅.
Proof.
  destruct (proj2 crawler_batches_store_nothing 0 (open_db empty_db)
              [[snapshot 1 "a/x" 10]]) as (H1 & _ & H2 & _); [done|].
  split; [exact H1|exact H2].
Defined.

(* ===================================================================== *)
(** ** Calls that raise *)
(* ===================================================================== *)










(* ===================================================================== *)
(** ** The [repo] row of an ingested snapshot *)
(* ===================================================================== *)

Lemma upsert_repo_row p d d' :
  upsert_repo p d = inl d' →
  ∃ name, p_name p = Some name
    ∧ repo d' = <[p_id p := upserted_row p name (repo d !! p_id p)]> (repo d).
Proof.
  unfold upsert_repo. destruct (p_name p) as [name|]; [|done].
  intros [_ ->]%write_repo_inl. exists name. split; [done|]. simpl.
  unfold upserted_row. by destruct (repo d !! p_id p).
Qed.

Lemma upsert_repo_many_row rows d d' p :
  executemany upsert_repo rows d = inl d' →
  NoDup (p_id <$> rows) → p ∈ rows →
  ∃ name, p_name p = Some name
    ∧ repo d' !! p_id p = Some (upserted_row p name (repo d !! p_id p)).
Proof.
  revert d. induction rows as [|q rows IH]; intros d Hex Hnd Hp;
    [by apply elem_of_nil in Hp|].
  apply executemany_cons in Hex as (d1 & Hq & Hrest).
  apply NoDup_cons in Hnd as [Hq_fresh Hnd].
  destruct (decide (p_id p = p_id q)) as [Heq|Hne].
  - assert (p = q) as ->.
    { apply elem_of_cons in Hp as [->|Hp]; [done|]. destruct Hq_fresh.
      rewrite <-Heq. apply list_elem_of_fmap. by exists p. }
    apply upsert_repo_row in Hq as (name & Hname & Hrepo).
    exists name. split; [done|].
    apply upsert_repo_many in Hrest as (_ & _ & _ & _ & Hother).
    rewrite Hother by done. rewrite Hrepo. apply lookup_insert_eq.
  - apply elem_of_cons in Hp as [->|Hp]; [done|].
    destruct (IH d1 Hrest Hnd Hp) as (name & Hname & Hrow).
    exists name. split; [done|]. rewrite Hrow. do 2 f_equal.
    apply upsert_repo_inl in Hq as (_ & _ & _ & _ & Hother).
    by apply Hother.
Qed.

Lemma rename_run_created_at rows k r :
  r_created_at (rename_run rows k r) = r_created_at r.
Proof.
  revert r. induction rows as [|p rows IH]; intros r; simpl; [done|].
  rewrite IH. unfold rename_step. by case_decide.
Qed.

Lemma repo_params_fields n p :
  repo_params n = inl p →
  p_created_at p = get (createdAt n)
  ∧ p_description p = get (description n)
  ∧ p_homepage_url p = get (homepageUrl n).
Proof.
  unfold repo_params. destruct (databaseId n); simpl; try done.
  destruct (index (nameWithOwner n)); simpl; [|done]. by intros [= <-].
Qed.

Lemma build_repo_rows_fields fresh rows n :
  build_repo_rows fresh = inl rows → n ∈ fresh →
  ∃ p, p ∈ rows ∧ databaseId n = Present (p_id p)
       ∧ index (nameWithOwner n) = inl (p_name p)
       ∧ p_created_at p = get (createdAt n)
       ∧ p_description p = get (description n)
       ∧ p_homepage_url p = get (homepageUrl n).
Proof.
  revert rows. induction fresh as [|a fresh IH]; intros rows Hb Hn;
    [by apply elem_of_nil in Hn|].
  simpl in Hb. destruct (repo_params a) as [p|] eqn:Hp; simpl in Hb; [|done].
  destruct (build_repo_rows fresh) as [ps|] eqn:Hps; simpl in Hb; [|done].
  injection Hb as <-.
  apply elem_of_cons in Hn as [->|Hn].
  - exists p. split; [apply list_elem_of_here|].
    destruct (repo_params_inl _ _ Hp) as [? ?].
    destruct (repo_params_fields _ _ Hp) as (? & ? & ?). done.
  - destruct (IH ps eq_refl Hn) as (q & Hq & Hrest).
    exists q. split; [by apply list_elem_of_further|done].
Qed.

(** The [repo] row a committed call leaves for a snapshot it ingested. *)
Lemma repo_row_written now s s' nodes n id :
  outcome now s nodes s' None →
  n ∈ fresh_of s nodes → databaseId n = Present id →
  ∃ name, nameWithOwner n = Present name
    ∧ repo (conn s') !! id
      = Some {| r_name_with_owner := name;
                r_description := get (description n);
                r_homepage_url := get (homepageUrl n);
                r_created_at :=
                  match repo (conn s) !! id with
                  | Some old => r_created_at old
                  | None => get (createdAt n)
                  end |}.
Proof.
  intros Hup Hn Hid.
  destruct (committed_repo _ _ _ _ Hup) as (rows & d3 & Hb & H1 & ->).
  destruct (build_repo_rows_fields _ _ _ Hb Hn)
    as (p & Hp & Hpid & Hpn & Hc & Hd & Hh).
  rewrite Hid in Hpid. injection Hpid as ->.
  destruct (fresh_of_spec s nodes) as (_ & Hnd & _).
  rewrite <-(build_repo_rows_ids _ _ Hb) in Hnd.
  destruct (entered_frame now s nodes) as (Her & _).
  unfold resolve_and_upsert, resolve_conflicts in H1.
  destruct (executemany delete_latest_of_conflict rows _) as [d0|] eqn:H0;
    simpl in H1; [|done].
  destruct (executemany delete_topics_of_conflict rows d0) as [d1|] eqn:H01;
    simpl in H1; [|done].
  destruct (executemany rename_conflict rows d1) as [d2|] eqn:H2;
    simpl in H1; [|done].
  destruct (upsert_repo_many_row _ _ _ _ H1 Hnd Hp) as (name & Hname & Hrow).
  exists name. split.
  { rewrite Hname in Hpn. by apply index_Present in Hpn. }
  rewrite Hrow. unfold upserted_row. rewrite Hd, Hh, Hc. do 2 f_equal.
  apply rename_many in H2 as (_ & _ & Hr2).
  apply delete_topics_many_frame in H01 as [Hr1 _ _ _ _ _].
  apply delete_latest_many_frame in H0 as [Hr0 _ _ _ _ _].
  rewrite Hr2, Hr1, Hr0, Her.
  destruct (repo (conn s) !! p_id p) as [old|]; simpl; [|done].
  apply rename_run_created_at.
Qed.

(** X11.  After a call that returns, the [repo] row of every snapshot it
    ingested carries the snapshot's name, description and homepage (a
    missing or null one erases the stored one), while [created_at] is
    written once: it is the snapshot's only when the repo had no row, and
    the stored one is kept otherwise. *)
Theorem repo_row_after_ingest (now : Z) (s s' : RepoDB) (nodes : list Node)
    (n : Node) (id : Z) :
  upsert_from_github_nodes now s nodes = (s', None) →
  n ∈ fresh_of s nodes → databaseId n = Present id →
  ∃ name, nameWithOwner n = Present name
    ∧ repo (conn s') !! id
      = Some {| r_name_with_owner := name;
                r_description := get (description n);
                r_homepage_url := get (homepageUrl n);
                r_created_at :=
                  match repo (conn s) !! id with
                  | Some old => r_created_at old
                  | None => get (createdAt n)
                  end |}.
Proof.
  intros Hup Hn Hid. apply upsert_outcome_eq in Hup.
  by eapply repo_row_written.
Qed.

(** Scenario S1, then [a/x] again with a later [createdAt] claimed. *)
Lemma repo_row_after_ingest_witness :
  r_created_at
    <$> repo (conn (upsert_from_github_nodes 21600 (open_db (conn scenario_S1))
                      [snapshot 1 "a/x" 15]).1) !! 1
  = Some (Some 0).
Proof.
  destruct (repo_row_after_ingest 21600 (open_db (conn scenario_S1))
              (upsert_from_github_nodes 21600 (open_db (conn scenario_S1))
                 [snapshot 1 "a/x" 15]).1
              [snapshot 1 "a/x" 15] (snapshot 1 "a/x" 15) 1)
    as (name & _ & ->).
  - by vm_compute.
  - vm_compute. apply list_elem_of_here.
  - reflexivity.
  - by vm_compute.
Defined.

(* ===================================================================== *)
(** ** What a call does to the segments of a repo *)
(* ===================================================================== *)

(** Every call, whatever its outcome, leaves the segments of a repo as they
    are (adding no [repo_latest] row for it), or takes a step on them, and
    then the repo is one the pass had not processed. *)
Lemma upsert_segment_step now s nodes k :
  let s' := (upsert_from_github_nodes now s nodes).1 in
  ((∀ st, repo_metrics_hist (conn s') !! (k, st)
          = repo_metrics_hist (conn s) !! (k, st))
   ∧ (∀ rl, repo_latest (conn s') !! k = Some rl →
            repo_latest (conn s) !! k = Some rl))
  ∨ ((k ∉ _processed_repo_ids s)
     ∧ segment_step (conn s) (conn s') (run_of now s) k).
Proof.
  intros s'. pose proof (upsert_outcome now s nodes) as Ho. fold s' in Ho.
  destruct (upsert_from_github_nodes now s nodes).2 as [e|] eqn:He.
  { destruct (uncommitted _ _ _ _ _ Ho) as [Hh Hl]; [by left|].
    left. split; [by rewrite Hh|apply Hl]. }
  destruct (decide (k ∈ node_ids (fresh_of s nodes))) as [Hk|Hk].
  - destruct (committed_id _ _ _ _ _ Ho Hk) as (n & m & Hn & Hm & <-).
    right. split; [by eapply fresh_of_unprocessed|].
    destruct (committed_snapshot _ _ _ _ _ _ Ho Hn Hm)
      as (rows & old & Hb & -> & (rl' & Hrl' & Hrun' & Hhs' & Hq')
          & Hnew & Hext).
    destruct (history_step_cases (run_of now s)
                (existing_row (conn s) rows (m_repo_id m)) m)
      as [[Hstep Hne]|(o & Ho' & Hq & Hstep)].
    + destruct (Hnew Hne) as (Hnone & Hat & Hrest).
      eapply segment_opened; [done|done|done|done|done|].
      by rewrite Hhs', Hstep.
    + destruct (Hext o Ho' Hq) as [Hat Hrest].
      eapply segment_extended; [by eapply existing_row_Some|done|done|done|].
      by rewrite Hhs', Hstep.
  - destruct (committed_other _ _ _ _ k Ho Hk) as (rows & _ & Hl & Hh & _).
    left. split; [done|]. intros rl. rewrite Hl. apply existing_row_Some.
Qed.

#[local] Instance keeps_repos_preorder : PreOrder keeps_repos.
Proof.
  split.
  - intros d k r Hr. by exists r.
  - intros d1 d2 d3 H12 H23 k r Hr.
    destruct (H12 k r Hr) as (r2 & Hr2 & Hc2).
    destruct (H23 k r2 Hr2) as (r3 & Hr3 & Hc3).
    exists r3. split; [done|congruence].
Qed.

Lemma resolve_and_upsert_keeps rows d d' :
  resolve_and_upsert rows d = inl d' → keeps_repos d d'.
Proof.
  unfold resolve_and_upsert, resolve_conflicts.
  destruct (executemany delete_latest_of_conflict rows d) as [d0|] eqn:H0;
    simpl; [|done].
  destruct (executemany delete_topics_of_conflict rows d0) as [d1|] eqn:H1;
    simpl; [|done].
  destruct (executemany rename_conflict rows d1) as [d2|] eqn:H2;
    simpl; [|done].
  intros H3.
  apply delete_latest_many_frame in H0 as [Hr0 _ _ _ _ _].
  apply delete_topics_many_frame in H1 as [Hr1 _ _ _ _ _].
  apply rename_many in H2 as (_ & _ & Hr2).
  trans d2.
  - intros k r Hr. exists (rename_run rows k r).
    rewrite Hr2, Hr1, Hr0, Hr. split; [done|apply rename_run_created_at].
  - eapply (executemany_rel upsert_repo keeps_repos); [|done].
    intros p d3 d4 _ (name & _ & Hrepo)%upsert_repo_row k r Hr.
    rewrite Hrepo. destruct (decide (k = p_id p)) as [->|Hne].
    + rewrite lookup_insert_eq. eexists. split; [done|]. simpl. by rewrite Hr.
    + rewrite lookup_insert_ne by done. by exists r.
Qed.

Lemma begin_run_keeps_runs fetched_at_unix now s x ts :
  fetch_run (conn s) !! x = Some ts →
  fetch_run (conn (begin_run fetched_at_unix now s).1) !! x = Some ts.
Proof.
  intros Hx. unfold begin_run. destruct (_run_id s); [done|]. simpl.
  rewrite lookup_insert_ne; [done|].
  pose proof (next_rowid_gt (fetch_run (conn s)) x (mk_is_Some _ _ Hx)). lia.
Qed.

(** No call, whatever its outcome, drops a [repo] row or rewrites its
    [created_at]. *)
Lemma upsert_keeps_repos now s nodes :
  keeps_repos (conn s) (conn (upsert_from_github_nodes now s nodes).1).
Proof.
  pose proof (upsert_outcome now s nodes) as Ho.
  set (s' := (upsert_from_github_nodes now s nodes).1) in *.
  destruct (entered_frame now s nodes) as (Her & _).
  assert (keeps_repos (conn s) (conn (entered now s nodes))) as Hent.
  { intros k r Hr. exists r. by rewrite Her. }
  assert (∀ rows d3 s4 res,
    resolve_and_upsert rows (conn (entered now s nodes)) = inl d3 →
    plan_rows (run_of now s) (_fetch_latest_metrics d3 (p_id <$> rows))
      (fresh_of s nodes) (set_conn d3 (entered now s nodes)) empty_plan
    = (s4, res) → keeps_repos (conn s) (conn s4)) as Hplan.
  { intros rows d3 s4 res H1 Hp.
    pose proof (plan_rows_frame (run_of now s)
      (_fetch_latest_metrics d3 (p_id <$> rows)) (fresh_of s nodes)
      (set_conn d3 (entered now s nodes)) empty_plan) as (Hf & _).
    rewrite Hp in Hf. simpl in Hf. destruct Hf as [Hr4 _ _ _ _].
    trans (conn (entered now s nodes)); [done|].
    intros k r Hr. rewrite Hr4.
    by apply (resolve_and_upsert_keeps _ _ _ H1). }
  destruct (upsert_from_github_nodes now s nodes).2 as [e|] eqn:He.
  + inversion Ho as [|e' He'|rows e' Hb H1|rows d3 s4 e' Hb H1 Hp
                     |rows d3 s4 pl e' Hb H1 Hp Hw|]; subst; try done.
    * by eapply Hplan.
    * by eapply Hplan.
  + destruct (committed_repo _ _ _ _ Ho) as (rows & d3 & _ & H1 & Hrepo).
    trans (conn (entered now s nodes)); [done|].
    intros k r Hr. rewrite Hrepo.
    by apply (resolve_and_upsert_keeps _ _ _ H1).
Qed.

(** X12.  No call of [upsert_from_github_nodes], whatever its outcome,
    forgets anything: every [fetch_run] row stays as it is, every repo
    keeps a [repo] row with the [created_at] it had, every history row
    stays under its key with its metric quadruple (only its [end_run_id]
    may move, to the run of the call), and every id recorded as processed
    stays recorded. *)
Theorem calls_never_forget (now : Z) (s : RepoDB) (nodes : list Node) :
  let s' := (upsert_from_github_nodes now s nodes).1 in
  (∀ x ts, fetch_run (conn s) !! x = Some ts →
           fetch_run (conn s') !! x = Some ts)
  ∧ keeps_repos (conn s) (conn s')
  ∧ (∀ k st h, repo_metrics_hist (conn s) !! (k, st) = Some h →
       ∃ h', repo_metrics_hist (conn s') !! (k, st) = Some h'
         ∧ hist_quadruple h' = hist_quadruple h
         ∧ (h_end_run_id h' = h_end_run_id h
            ∨ h_end_run_id h' = run_of now s))
  ∧ (∀ i, i ∈ _processed_repo_ids s → i ∈ _processed_repo_ids s').
Proof.
  intros s'. pose proof (upsert_outcome now s nodes) as Ho. fold s' in Ho.
  split; [|split; [|split]].
  - intros x ts Hx. destruct (outcome_pass _ _ _ _ _ Ho) as (-> & _).
    by apply begin_run_keeps_runs.
  - apply upsert_keeps_repos.
  - intros k st h Hh.
    destruct (upsert_segment_step now s nodes k) as [[Hkept _]|[_ Hstep]];
      [|fold s' in Hstep;
        destruct Hstep as [h0 rl' Hnone _ _ Hrest _ _|o rl' _ Hat Hrest _ _]].
    + exists h. rewrite Hkept. by repeat split; [|left].
    + exists h. rewrite Hrest by congruence. by repeat split; [|left].
    + destruct (decide (st = rl_history_start_run_id o)) as [->|Hne].
      * exists (with_end_run_id (run_of now s) h). rewrite Hat, Hh.
        split; [done|]. split; [done|]. by right.
      * exists h. rewrite Hrest by done. by repeat split; [|left].
  - apply upsert_processed.
Qed.

(* ===================================================================== *)
(** ** Segments never overlap *)
(* ===================================================================== *)

Lemma segments_ordered_empty : segments_ordered empty_db.
Proof. split; simpl; intros *; by rewrite lookup_empty. Qed.

(** One covering segment at most. *)
Lemma segments_ordered_cover d k b st1 st2 h1 h2 :
  segments_ordered d →
  repo_metrics_hist d !! (k, st1) = Some h1 →
  repo_metrics_hist d !! (k, st2) = Some h2 →
  st1 ≤ b ≤ h_end_run_id h1 → st2 ≤ b ≤ h_end_run_id h2 → st1 = st2.
Proof.
  intros [_ Hdis _] H1 H2 Hb1 Hb2.
  destruct (Z.lt_trichotomy st1 st2) as [Hlt|[?|Hlt]]; [|done|].
  - pose proof (Hdis _ _ _ _ _ H1 H2 Hlt). lia.
  - pose proof (Hdis _ _ _ _ _ H2 H1 Hlt). lia.
Qed.

Lemma segments_ordered_step now s nodes :
  pass_invariant s → segments_ordered (conn s) →
  segments_ordered (conn (upsert_from_github_nodes now s nodes).1).
Proof.
  intros Hinv [Hspan Hdis Hlast].
  set (s' := (upsert_from_github_nodes now s nodes).1).
  set (run := run_of now s).
  assert (∀ k st h, k ∉ _processed_repo_ids s →
            repo_metrics_hist (conn s) !! (k, st) = Some h →
            st < run ∧ h_end_run_id h < run) as Hbefore.
  { intros k st h Hk Hh.
    pose proof (proj1 (unprocessed_before now s k Hinv Hk) _ _ Hh).
    pose proof (Hspan _ _ _ Hh). fold run in H. lia. }
  assert (∀ k,
    ((∀ st, repo_metrics_hist (conn s') !! (k, st)
            = repo_metrics_hist (conn s) !! (k, st))
     ∧ (∀ rl, repo_latest (conn s') !! k = Some rl →
              repo_latest (conn s) !! k = Some rl))
    ∨ ((k ∉ _processed_repo_ids s)
       ∧ segment_step (conn s) (conn s') run k)) as Hstep
    by (intros k; apply upsert_segment_step).
  split.
  - intros k st h Hh.
    destruct (Hstep k) as [[Hkept _]|[Hk [h0 rl' Hnone Hat Hend Hrest _ _
                                        |o rl' Hlo Hat Hrest _ _]]].
    + rewrite Hkept in Hh. by eapply Hspan.
    + destruct (decide (st = run)) as [->|Hne].
      * rewrite Hat in Hh. injection Hh as <-. lia.
      * rewrite Hrest in Hh by done. by eapply Hspan.
    + destruct (decide (st = rl_history_start_run_id o)) as [->|Hne].
      * rewrite Hat in Hh. apply fmap_Some in Hh as (h1 & Hh1 & ->). simpl.
        destruct (Hbefore _ _ _ Hk Hh1). lia.
      * rewrite Hrest in Hh by done. by eapply Hspan.
  - intros k st1 st2 h1 h2 H1 H2 Hlt.
    destruct (Hstep k) as [[Hkept _]|[Hk [h0 rl' Hnone Hat Hend Hrest _ _
                                        |o rl' Hlo Hat Hrest _ _]]].
    + rewrite Hkept in H1, H2. by eapply Hdis.
    + destruct (decide (st1 = run)) as [->|Hne1].
      * rewrite Hrest in H2 by lia. destruct (Hbefore _ _ _ Hk H2). lia.
      * rewrite Hrest in H1 by done. destruct (Hbefore _ _ _ Hk H1).
        destruct (decide (st2 = run)) as [->|Hne2]; [lia|].
        rewrite Hrest in H2 by done. by eapply Hdis.
    + destruct (decide (st1 = rl_history_start_run_id o)) as [->|Hne1].
      * rewrite Hrest in H2 by lia.
        pose proof (Hlast _ _ _ _ Hlo H2). lia.
      * rewrite Hrest in H1 by done.
        destruct (decide (st2 = rl_history_start_run_id o)) as [->|Hne2].
        -- rewrite Hat in H2. apply fmap_Some in H2 as (h2' & H2 & ->).
           by eapply Hdis.
        -- rewrite Hrest in H2 by done. by eapply Hdis.
  - intros k rl st h Hrl Hh.
    destruct (Hstep k) as [[Hkept Hl]|[Hk [h0 rl' Hnone Hat Hend Hrest Hrl' Hhs
                                         |o rl' Hlo Hat Hrest Hrl' Hhs]]].
    + rewrite Hkept in Hh. eapply Hlast; [by apply Hl|done].
    + rewrite Hrl' in Hrl. injection Hrl as <-. rewrite Hhs.
      destruct (decide (st = run)) as [->|Hne]; [lia|].
      rewrite Hrest in Hh by done. destruct (Hbefore _ _ _ Hk Hh). lia.
    + rewrite Hrl' in Hrl. injection Hrl as <-. rewrite Hhs.
      destruct (decide (st = rl_history_start_run_id o)) as [->|Hne]; [lia|].
      rewrite Hrest in Hh by done. by eapply Hlast.
Qed.

(** X13.  The segments of a repo never overlap.  In the empty database, and
    after every call of a pass whatever its outcome, each history row spans
    an interval of runs that starts no later than it ends, the rows of one
    repo follow one another without a common run, and the row [repo_latest]
    points at is the last of its repo.  So at most one segment of a repo
    covers a given run. *)
Theorem segments_never_overlap :
  segments_ordered empty_db
  ∧ (∀ (now : Z) (s : RepoDB) (nodes : list Node),
       pass_invariant s → segments_ordered (conn s) →
       pass_invariant (upsert_from_github_nodes now s nodes).1
       ∧ segments_ordered (conn (upsert_from_github_nodes now s nodes).1))
  ∧ ∀ (d : DB) (k b st1 st2 : Z) (h1 h2 : HistRow),
      segments_ordered d →
      repo_metrics_hist d !! (k, st1) = Some h1 →
      repo_metrics_hist d !! (k, st2) = Some h2 →
      st1 ≤ b ≤ h_end_run_id h1 → st2 ≤ b ≤ h_end_run_id h2 →
      st1 = st2.
Proof.
  split; [apply segments_ordered_empty|]. split.
  - intros now s nodes Hinv Hord.
    split; [by apply pass_invariant_upsert|by apply segments_ordered_step].
  - intros d k b st1 st2 h1 h2. apply segments_ordered_cover.
Qed.

(** Scenario S1, then the next pass with a changed [a/x]. *)
Lemma segments_never_overlap_witness :
  segments_ordered
    (conn (upsert_from_github_nodes 21600 (open_db (conn scenario_S1))
             [snapshot 1 "a/x" 15]).1).
Proof.
  assert (pass_invariant (open_db empty_db)) as H0
    by apply pass_invariant_open, store_invariant_empty.
  destruct (proj1 (proj2 segments_never_overlap) 0 (open_db empty_db)
              [snapshot 1 "a/x" 10] H0 (proj1 segments_never_overlap))
    as [H1 H2].
  apply (proj1 (proj2 segments_never_overlap) 21600
           (open_db (conn scenario_S1)) [snapshot 1 "a/x" 15]).
  - apply pass_invariant_open, pi_store, H1.
  - exact H2.
Defined.

(* ===================================================================== *)
(** ** Ranks *)
(* ===================================================================== *)

#[local] Existing Instance static_order_stars_total.
#[local] Existing Instance static_order_stars_trans.

Lemma list_find_agree {A} (P Q : A → Prop) `{!∀ x, Decision (P x)}
    `{!∀ x, Decision (Q x)} (l : list A) i x :
  list_find P l = Some (i, x) → (∀ y, y ∈ l → (Q y ↔ P y)) →
  list_find Q l = Some (i, x).
Proof.
  intros (Hi & Hx & Hbefore)%list_find_Some Hagree.
  apply list_find_Some. split; [done|]. split.
  - apply Hagree; [by eapply list_elem_of_lookup_2|done].
  - intros k y Hk Hlt Hy. apply (Hbefore k y Hk Hlt), Hagree; [|done].
    by eapply list_elem_of_lookup_2.
Qed.

(** The row of a repo stands in the rank order at the place that counts the
    rows outranking it. *)
Lemma rank_lookup d j :
  names_unique (repo d) → j ∈ latest_join d →
  list_find (λ x, r_name_with_owner (j_r x) = r_name_with_owner (j_r j))
            (merge_sort (static_order stars_key) (latest_join d))
  = Some (length (filter (λ x, outranks x j) (latest_join d)), j).
Proof.
  intros Hu Hj.
  apply (sorted_position (static_order stars_key) outranks
           (λ x, r_name_with_owner (j_r x))
           static_order_outranks outranks_asym (latest_join d) j
           (latest_join_NoDup d)); [|done].
  intros x y Hx Hy. by apply (latest_join_names d).
Qed.

Lemma get_global_rank_Some d j :
  names_unique (repo d) → j ∈ latest_join d →
  get_global_rank d (r_name_with_owner (j_r j))
  = Some (Z.of_nat (length (filter (λ x, outranks x j) (latest_join d))) + 1).
Proof.
  intros Hu Hj. unfold get_global_rank.
  by rewrite (named_row_unique d j Hu Hj).
Qed.

Lemma get_global_rank_inv d name rank :
  get_global_rank d name = Some rank →
  ∃ j, j ∈ latest_join d ∧ r_name_with_owner (j_r j) = name
       ∧ rank = Z.of_nat (length (filter (λ x, outranks x j) (latest_join d)))
                + 1.
Proof.
  unfold get_global_rank. intros (j & Hh & ->)%fmap_Some.
  apply head_Some_elem_of, list_elem_of_filter in Hh as [Hn Hj].
  by exists j.
Qed.

Lemma row_number_rank d j :
  names_unique (repo d) → j ∈ latest_join d →
  row_number d (j_repo_id j)
  = get_global_rank d (r_name_with_owner (j_r j)).
Proof.
  intros Hu Hj. rewrite get_global_rank_Some by done. unfold row_number.
  erewrite (list_find_agree _ (λ x, j_repo_id x = j_repo_id j));
    [|by apply rank_lookup|].
  - simpl. f_equal. lia.
  - intros y Hy. rewrite merge_sort_Permutation in Hy. split.
    + intros Hid.
      apply elem_of_latest_join in Hy as [Hly Hry].
      apply elem_of_latest_join in Hj as [Hlj Hrj].
      rewrite Hid, Hrj in Hry. by injection Hry as <-.
    + intros Hn. by rewrite (latest_join_names d y j Hu Hy Hj Hn).
Qed.

(** X14.  [get_repo_latest] and [get_global_rank] agree: for a repo with a
    [repo_latest] row, in a database with unique names whose [repo_latest]
    rows point at their fetch runs, the object of [get_repo_latest] carries
    the name asked for, the current metrics of the row, no [ns], and as
    [g] the rank [get_global_rank] gives the name. *)
Theorem repo_latest_rank_agrees (d : DB) (id : Z) (r : RepoRow)
    (rl : LatestRow) :
  names_unique (repo d) → latest_runs_exist d →
  repo d !! id = Some r → repo_latest d !! id = Some rl →
  ∃ o, get_repo_latest d (r_name_with_owner r) = Some o
    ∧ o_n o = r_name_with_owner r
    ∧ o_s o = rl_stars rl ∧ o_f o = rl_forks rl ∧ o_w o = rl_watchers rl
    ∧ o_d o = rl_disk_usage rl
    ∧ o_a o = r_description r ∧ o_h o = r_homepage_url r
    ∧ o_ns o = None
    ∧ is_Some (o_g o)
    ∧ o_g o = get_global_rank d (r_name_with_owner r).
Proof.
  intros Hu Hfk Hr Hl.
  set (j := {| j_repo_id := id; j_rl := rl; j_r := r |}).
  assert (j ∈ latest_join d) as Hj by by apply elem_of_latest_join.
  pose proof (row_number_rank d j Hu Hj) as Hrank.
  pose proof (get_global_rank_Some d j Hu Hj) as Hg. simpl in Hrank, Hg.
  destruct (Hfk _ _ Hl) as [fa Hfa].
  unfold get_repo_latest.
  pose proof (named_row_unique d j Hu Hj) as Hf. simpl in Hf. rewrite Hf.
  simpl. unfold select_row. simpl. rewrite Hrank, Hg. simpl. rewrite Hfa.
  simpl. eexists. split; [done|]. simpl. by repeat split.
Qed.

Lemma repo_latest_rank_agrees_witness :
  ∃ o, get_repo_latest scenario_S4 "b/new" = Some o ∧ o_g o = Some 2.
Proof.
  destruct (repo_latest_rank_agrees scenario_S4 2
              {| r_name_with_owner := "b/new"; r_description := None;
                 r_homepage_url := None; r_created_at := Some 0 |}
              {| rl_run_id := 5; rl_history_start_run_id := 5; rl_stars := 50;
                 rl_forks := 0; rl_watchers := 0; rl_disk_usage := None;
                 rl_updated_at := Some 0; rl_pushed_at := Some 0;
                 rl_is_archived := 0; rl_primary_language_id := None |})
    as (o & Ho & _ & _ & _ & _ & _ & _ & _ & _ & _ & Hg).
  - apply (bool_decide_unpack _). by vm_compute.
  - intros k rl. apply si_latest_run. unfold scenario_S4.
    do 5 apply store_invariant_crawl. apply store_invariant_empty.
  - by vm_compute.
  - by vm_compute.
  - exists o. split; [exact Ho|]. rewrite Hg. by vm_compute.
Defined.

(** X15.  The global ranks of a database with unique names are the numbers
    [1 .. N], each taken once, [N] being the number of repos with a
    [repo_latest] row (the count of the unfiltered leaderboard): every rank
    lies in that range, two names with one rank are one name, and every
    number of the range is the rank of some name. *)
Theorem ranks_are_a_numbering (d : DB) :
  names_unique (repo d) →
  (∀ name rank, get_global_rank d name = Some rank →
                1 ≤ rank ≤ count_leaderboard d no_filters)
  ∧ (∀ name1 name2 rank,
       get_global_rank d name1 = Some rank →
       get_global_rank d name2 = Some rank → name1 = name2)
  ∧ (∀ rank, 1 ≤ rank ≤ count_leaderboard d no_filters →
             ∃ name, get_global_rank d name = Some rank).
Proof.
  intros Hu.
  set (sorted := merge_sort (static_order stars_key) (latest_join d)).
  assert (count_leaderboard d no_filters = Z.of_nat (length sorted)) as Hcount.
  { unfold count_leaderboard, sorted.
    rewrite filter_all by (apply Forall_forall; intros; apply
                             where_clause_no_filters).
    by rewrite merge_sort_Permutation. }
  assert (∀ name rank, get_global_rank d name = Some rank →
            ∃ j, sorted !! Z.to_nat (rank - 1) = Some j
                 ∧ r_name_with_owner (j_r j) = name ∧ 1 ≤ rank) as Hpos.
  { intros name rank (j & Hj & Hn & ->)%get_global_rank_inv.
    exists j. apply (rank_lookup d j Hu) in Hj.
    apply list_find_Some in Hj as (Hj & _). fold sorted in Hj.
    split; [|split; [done|lia]].
    by replace (Z.to_nat _) with
      (length (filter (λ x, outranks x j) (latest_join d))) by lia. }
  split; [|split].
  - intros name rank (j & Hj & _ & Hr)%Hpos.
    apply lookup_lt_Some in Hj. lia.
  - intros name1 name2 rank (j1 & Hj1 & <- & _)%Hpos (j2 & Hj2 & <- & _)%Hpos.
    congruence.
  - intros rank Hrank.
    destruct (lookup_lt_is_Some_2 sorted (Z.to_nat (rank - 1))) as [j Hj];
      [lia|].
    exists (r_name_with_owner (j_r j)).
    assert (j ∈ latest_join d) as Hin.
    { apply list_elem_of_lookup_2 in Hj. unfold sorted in Hj.
      by rewrite merge_sort_Permutation in Hj. }
    rewrite get_global_rank_Some by done. f_equal.
    pose proof (rank_lookup d j Hu Hin) as Hfind.
    apply list_find_Some in Hfind as (Hj' & _). fold sorted in Hj'.
    assert (NoDup sorted) as Hnd.
    { unfold sorted. rewrite merge_sort_Permutation. apply latest_join_NoDup. }
    pose proof (NoDup_lookup _ _ _ _ Hnd Hj Hj'). lia.
Qed.

Lemma ranks_are_a_numbering_witness :
  count_leaderboard scenario_S4 no_filters = 2
  ∧ ∃ name, get_global_rank scenario_S4 name = Some 2.
Proof.
  split; [by vm_compute|].
  apply (ranks_are_a_numbering scenario_S4).
  - apply (bool_decide_unpack _). by vm_compute.
  - by vm_compute.
Defined.

(* ===================================================================== *)
(** ** Pages *)
(* ===================================================================== *)

Lemma limit_offset_fmap {A B} (f : A → B) limit offset (rows : list A) :
  f <$> limit_offset limit offset rows = limit_offset limit offset (f <$> rows).
Proof.
  unfold limit_offset. destruct (limit <? 0).
  - by rewrite fmap_drop.
  - by rewrite fmap_take, fmap_drop.
Qed.

(** [leaderboard] is a page of [listing], when the store takes the
    offset. *)
Lemma leaderboard_listing d metric page fl :
  int64 ((page - 1) * page_size) →
  leaderboard d metric page fl
  = match listing d metric fl with
    | inl rows => inl (limit_offset page_size ((page - 1) * page_size) rows)
    | inr e => inr e
    end.
Proof.
  intros Hi. unfold leaderboard, listing, trending_leaderboard.
  rewrite (bind_int_inl _ Hi). simpl.
  destruct (trending_map metric) as [w|].
  - by rewrite limit_offset_fmap.
  - destruct (metric_map metric) as [key|]; [|done].
    by rewrite limit_offset_fmap.
Qed.

Lemma listing_inl d metric fl :
  recognised metric → ∃ rows, listing d metric fl = inl rows.
Proof.
  unfold recognised. rewrite <-trending_map_Some, <-metric_map_Some.
  unfold listing. intros [[key ->]|[w ->]]; [|by eexists].
  destruct (trending_map metric); by eexists.
Qed.

(** The rows of a listing are the projections of the joined rows that pass
    the filter, in some order. *)
Lemma listing_rows d metric fl rows :
  listing d metric fl = inl rows →
  ∃ (order : relation Joined) (Hdec : ∀ x y, Decision (order x y))
    (extra : Joined → option Z),
    rows = row_to_obj <$> select_ordered d fl order extra.
Proof.
  unfold listing. destruct (trending_map metric) as [w|].
  - intros [= <-]. by eexists _, _, _.
  - destruct (metric_map metric) as [key|]; [|done].
    intros [= <-]. by eexists _, _, _.
Qed.

Lemma omap_length_total {A B} (f : A → option B) (l : list A) :
  Forall (λ x, is_Some (f x)) l → length (omap f l) = length l.
Proof.
  induction 1 as [|x l [y Hy] _ IH]; [done|]. simpl. rewrite Hy. simpl.
  by f_equal.
Qed.

Lemma select_row_is_Some d extra j :
  latest_runs_exist d → j ∈ latest_join d →
  is_Some (select_row false extra d j).
Proof.
  intros Hfk [Hl _]%elem_of_latest_join. destruct (Hfk _ _ Hl) as [fa Hfa].
  unfold select_row. simpl. rewrite Hfa. by eexists.
Qed.

Lemma select_ordered_length d fl order `{!∀ x y, Decision (order x y)} extra :
  latest_runs_exist d →
  Z.of_nat (length (select_ordered d fl order extra)) = count_leaderboard d fl.
Proof.
  intros Hfk. unfold select_ordered, count_leaderboard.
  rewrite omap_length_total.
  - by rewrite merge_sort_Permutation.
  - apply Forall_forall. intros j Hj. rewrite merge_sort_Permutation in Hj.
    apply list_elem_of_filter in Hj as [_ Hj]. by apply select_row_is_Some.
Qed.

Lemma NoDup_omap_names {A B} (f : A → option B) (na : A → string)
    (nb : B → string) (l : list A) :
  (∀ x y, f x = Some y → nb y = na x) →
  NoDup (na <$> l) → NoDup (nb <$> omap f l).
Proof.
  intros Hname. induction l as [|x l IH]; simpl; [done|].
  intros [Hx Hnd]%NoDup_cons. destruct (f x) as [y|] eqn:Hy; [|by apply IH].
  simpl. apply NoDup_cons_2; [|by apply IH].
  intros (y' & Hny & (x' & Hx' & Hfx')%list_elem_of_omap)%list_elem_of_fmap.
  apply Hx, list_elem_of_fmap. exists x'. split; [|done].
  rewrite <-(Hname _ _ Hy), <-(Hname _ _ Hfx'). done.
Qed.

Lemma select_ordered_names d fl order `{!∀ x y, Decision (order x y)} extra :
  names_unique (repo d) →
  NoDup (o_n <$> (row_to_obj <$> select_ordered d fl order extra)).
Proof.
  intros Hu. rewrite <-list_fmap_compose. unfold select_ordered.
  apply (NoDup_omap_names _ (λ j, r_name_with_owner (j_r j))).
  - intros j row (_ & Hn & _)%select_row_Some. done.
  - rewrite merge_sort_Permutation.
    apply NoDup_fmap_2_strong.
    + intros x y [_ Hx]%list_elem_of_filter [_ Hy]%list_elem_of_filter.
      by apply (latest_join_names d).
    + apply NoDup_filter, latest_join_NoDup.
Qed.

(** X16.  The pages of a leaderboard cut one list.  For a recognised metric
    and any filters there is a list of objects, the ordered select of the
    query, such that page [p], from 1 to 92233720368547759, is its 100
    objects from offset [100 (p - 1)], and a later page raises
    [OverflowError]: pages [1 .. n] put together are its first [100 n]
    objects, a page has at most 100 objects and exactly 100 when a later
    page has any.  When every [repo_latest] row points at its fetch run the
    list has [count_leaderboard] objects and, the count being an integer
    of the store, the pages [1 .. totalPages] are the whole of it; with
    unique names no name comes twice on any pages. *)
Theorem leaderboard_pages_partition (d : DB) (metric : string) (fl : Filters) :
  recognised metric →
  ∃ rows,
    listing d metric fl = inl rows
    ∧ (∀ page, 1 ≤ page ≤ 92233720368547759 →
         leaderboard d metric page fl
         = inl (take 100 (drop (100 * Z.to_nat (page - 1)) rows)))
    ∧ (∀ page, 92233720368547759 < page →
         leaderboard d metric page fl = inr OverflowError)
    ∧ (∀ n, Z.of_nat n ≤ 92233720368547759 →
         leaderboard_pages d metric fl n = take (100 * n) rows)
    ∧ (∀ page items, 1 ≤ page → leaderboard d metric page fl = inl items →
         (length items ≤ 100)%nat
         ∧ ∀ later items', page < later →
             leaderboard d metric later fl = inl items' → items' ≠ [] →
             length items = 100%nat)
    ∧ (latest_runs_exist d →
         Z.of_nat (length rows) = count_leaderboard d fl
         ∧ (int64 (count_leaderboard d fl) →
            leaderboard_scan d metric fl = rows))
    ∧ (names_unique (repo d) → NoDup (o_n <$> rows)).
Proof.
  intros Hrec. destruct (listing_inl d metric fl Hrec) as [rows Hrows].
  exists rows. split; [done|].
  assert (∀ page, 1 ≤ page → int64 ((page - 1) * page_size) →
            leaderboard d metric page fl
            = inl (take 100 (drop (100 * Z.to_nat (page - 1)) rows))) as Hpage.
  { intros page Hp Hi. rewrite leaderboard_listing, Hrows by done.
    unfold limit_offset, page_size. simpl (100 <? 0).
    change (Z.to_nat 100) with 100%nat. do 3 f_equal. lia. }
  assert (∀ page items, leaderboard d metric page fl = inl items →
            int64 ((page - 1) * page_size)) as Hret.
  { intros page items Hl.
    by destruct (proj1 (leaderboard_returns d metric page fl)); [eexists|]. }
  assert (∀ n : nat,
    (∀ page, page ∈ seq 1 n → int64 ((Z.of_nat page - 1) * page_size)) →
    leaderboard_pages d metric fl n = take (100 * n) rows) as Hcat.
  { intros n Hn. unfold leaderboard_pages.
    rewrite <-(list_fmap_id (take (100 * n) rows)).
    replace (100 * n)%nat with (n * 100)%nat by lia.
    rewrite <-(pages_take id rows n).
    apply bind_ext_in. intros page Hin.
    rewrite leaderboard_listing, Hrows by (by apply Hn).
    by rewrite list_fmap_id. }
  split; [|split; [|split; [|split; [|split]]]].
  - intros page Hp. apply Hpage; [lia|]. apply offset_int64; lia.
  - intros page Hp. apply leaderboard_raises. right. split; [done|].
    split; [done|]. rewrite offset_int64 by lia. lia.
  - intros n Hn. apply Hcat. intros page Hin%elem_of_seq.
    apply offset_int64; lia.
  - intros page items Hp Hl. pose proof (Hret _ _ Hl) as Hi.
    rewrite Hpage in Hl by done. injection Hl as <-.
    split; [rewrite length_take; lia|].
    intros later items' Hlater Hl'. pose proof (Hret _ _ Hl') as Hi'.
    rewrite Hpage in Hl' by (done || lia). injection Hl' as <-. intros Hne.
    rewrite length_take, length_drop.
    assert (100 * Z.to_nat (later - 1) < length rows)%nat.
    { destruct (decide (100 * Z.to_nat (later - 1) < length rows)%nat);
        [done|]. destruct Hne. rewrite drop_ge by lia. done. }
    lia.
  - intros Hfk.
    destruct (listing_rows _ _ _ _ Hrows) as (order & Hdec & extra & ->).
    assert (Z.of_nat (length (row_to_obj <$> select_ordered d fl order extra))
            = count_leaderboard d fl) as Hlen.
    { rewrite length_fmap. by apply select_ordered_length. }
    split; [done|]. intros Hcount. unfold leaderboard_scan. rewrite Hcat.
    + rewrite <-Hlen. apply take_ge.
      pose proof (total_pages_enough
                    (length (row_to_obj <$> select_ordered d fl order extra))).
      lia.
    + intros page Hin.
      apply (scan_offsets_int64 (count_leaderboard d fl)); [|done..].
      unfold count_leaderboard. lia.
  - intros Hu.
    destruct (listing_rows _ _ _ _ Hrows) as (order & Hdec & extra & ->).
    by apply select_ordered_names.
Qed.

Lemma leaderboard_pages_partition_witness :
  ∃ rows, listing scenario_S4 "stars" no_filters = inl rows
    ∧ leaderboard scenario_S4 "stars" 1 no_filters = inl (take 100 rows).
Proof.
  destruct (leaderboard_pages_partition scenario_S4 "stars" no_filters)
    as (rows & Hrows & Hpage & _).
  { left. apply list_elem_of_here. }
  exists rows. split; [done|]. rewrite (Hpage 1) by lia. done.
Defined.

(* ===================================================================== *)
(** ** The order of a page *)
(* ===================================================================== *)

Lemma key_ltb_trichotomy a b :
  key_ltb a b = true ∨ a = b ∨ key_ltb b a = true.
Proof.
  destruct a as [x|], b as [y|]; simpl; auto.
  rewrite !Z.ltb_lt. destruct (Z.lt_trichotomy x y) as [?|[->|?]]; auto.
Qed.

Lemma key_ltb_trans a b c :
  key_ltb a b = true → key_ltb b c = true → key_ltb a c = true.
Proof.
  destruct a as [x|], b as [y|], c as [z|]; simpl; try done.
  rewrite !Z.ltb_lt. lia.
Qed.

Lemma key_ltb_irrefl a : key_ltb a a = false.
Proof. destruct a; simpl; [apply Z.ltb_irrefl|done]. Qed.

#[local] Instance static_order_total key : Total (static_order key).
Proof.
  intros x y. unfold static_order.
  destruct (key_ltb_trichotomy (key x) (key y)) as [H|[H|H]].
  - right. by left.
  - destruct (String.leb_total (r_name_with_owner (j_r x))
                (r_name_with_owner (j_r y))).
    + left. by right.
    + right. right. by split.
  - left. by left.
Qed.

#[local] Instance static_order_trans key : Transitive (static_order key).
Proof.
  intros x y z. unfold static_order.
  intros [H1|[H1 L1]] [H2|[H2 L2]].
  - left. by eapply key_ltb_trans.
  - left. by rewrite <-H2.
  - left. by rewrite H1.
  - right. split; [congruence|]. by eapply string_leb_trans.
Qed.

#[local] Instance trending_order_total ns : Total (trending_order ns).
Proof.
  intros x y. unfold trending_order.
  destruct (Z.lt_trichotomy (ns x) (ns y)) as [H|[H|H]]; [by right; left| |by left; left].
  destruct (Z.lt_trichotomy (rl_stars (j_rl x)) (rl_stars (j_rl y)))
    as [H'|[H'|H']].
  - right. right. split; [done|]. by left.
  - destruct (String.leb_total (r_name_with_owner (j_r x))
                (r_name_with_owner (j_r y))).
    + left. right. split; [done|]. right. by split.
    + right. right. split; [done|]. right. by split.
  - left. right. split; [done|]. by left.
Qed.

#[local] Instance trending_order_trans ns : Transitive (trending_order ns).
Proof.
  intros x y z. unfold trending_order.
  intros [H1|[H1 [S1|[S1 L1]]]] [H2|[H2 [S2|[S2 L2]]]];
    try (left; lia); right; (split; [lia|]); try (left; lia).
  right. split; [lia|]. by eapply string_leb_trans.
Qed.

Lemma StronglySorted_omap {A B} (R : relation A) (R' : relation B)
    (f : A → option B) (l : list A) :
  (∀ x y x' y', f x = Some x' → f y = Some y' → R x y → R' x' y') →
  StronglySorted R l → StronglySorted R' (omap f l).
Proof.
  intros Hf. induction 1 as [|x l _ IH Hall]; simpl; [constructor|].
  destruct (f x) as [x'|] eqn:Hx; [|done].
  constructor; [done|]. apply Forall_forall.
  intros y' (y & Hy & Hfy)%list_elem_of_omap.
  eapply Hf; [done..|]. by eapply Forall_forall in Hall.
Qed.

Lemma StronglySorted_limit_offset {A} (R : relation A) limit offset l :
  StronglySorted R l → StronglySorted R (limit_offset limit offset l).
Proof.
  intros Hs. unfold limit_offset.
  assert (StronglySorted R (drop (Z.to_nat offset) l)) as Hd.
  { rewrite <-(take_drop (Z.to_nat offset) l) in Hs.
    by apply StronglySorted_app_1_r in Hs. }
  destruct (limit <? 0); [done|].
  rewrite <-(take_drop (Z.to_nat limit) (drop _ l)) in Hd.
  by apply StronglySorted_app_1_l in Hd.
Qed.

(** Every column of a selected row. *)
Lemma select_row_fields rank extra d j row :
  select_row rank extra d j = Some row →
  row_nameWithOwner row = r_name_with_owner (j_r j)
  ∧ row_stargazerCount row = rl_stars (j_rl j)
  ∧ row_forkCount row = rl_forks (j_rl j)
  ∧ row_watchersCount row = rl_watchers (j_rl j)
  ∧ row_diskUsage row = rl_disk_usage (j_rl j)
  ∧ row_newStars row = extra j
  ∧ row_description row = r_description (j_r j)
  ∧ row_primaryLanguage row = language_name d j
  ∧ row_topicsConcat row
    = Text.group_concat (ascii_of_nat 31) (topic_names_of d (j_repo_id j)).
Proof.
  unfold select_row. intros H.
  apply bind_Some in H as (rk & _ & H).
  apply bind_Some in H as (fa & _ & H).
  by injection H as <-.
Qed.

Lemma obj_key_static d metric key extra j row :
  trending_map metric = None → metric_map metric = Some key →
  select_row false extra d j = Some row →
  obj_key metric (row_to_obj row) = key j.
Proof.
  intros Ht Hm (_ & Hs & Hf & Hw & Hd & _)%select_row_fields.
  unfold obj_key. rewrite Ht. revert Hm. unfold metric_map.
  case_metric; intros [= <-]; simpl; unfold stars_key, forks_key,
    watchers_key, disk_usage_key; congruence.
Qed.

Lemma obj_key_trending d metric w ns j row :
  trending_map metric = Some w → 0 ≤ ns j →
  select_row false (λ j, Some (ns j)) d j = Some row →
  obj_key metric (row_to_obj row) = Some (ns j).
Proof.
  intros Ht Hpos (_ & _ & _ & _ & _ & Hns & _)%select_row_fields.
  unfold obj_key. rewrite Ht. simpl. rewrite Hns.
  destruct (Z.eqb_spec (ns j) 0) as [->|?]; done.
Qed.

(** X17.  Every page of a leaderboard is in the order of its query: by the
    metric's column descending with NULLs last, then by name ascending,
    for a static metric; by [newStars] descending, then stars descending,
    then name ascending, for a trending one, the [newStars] of an object
    being its [ns] and 0 when [ns] is left out. *)
Theorem leaderboard_page_sorted (d : DB) (metric : string) (page : Z)
    (fl : Filters) (items : list Obj) :
  leaderboard d metric page fl = inl items →
  StronglySorted (listed_before metric) items.
Proof.
  unfold leaderboard, trending_leaderboard.
  destruct (bind_int ((page - 1) * page_size)) as [offset|e];
    [|by destruct (trending_map metric), (metric_map metric)].
  simpl. destruct (trending_map metric) as [w|] eqn:Ht.
  - intros [= <-]. apply StronglySorted_fmap with
      (R1 := λ a b, listed_before metric (row_to_obj a) (row_to_obj b));
      [done|].
    apply StronglySorted_limit_offset. unfold select_ordered.
    eapply StronglySorted_omap; [|apply StronglySorted_merge_sort; apply _].
    intros x y x' y' Hx Hy Hxy. unfold listed_before.
    set (ns := new_stars d (_base_run_id_for_window d w)) in *.
    assert (∀ j, 0 ≤ ns j) as Hpos by (intros j; unfold ns, new_stars; lia).
    rewrite (obj_key_trending d metric w ns x x' Ht (Hpos x) Hx).
    rewrite (obj_key_trending d metric w ns y y' Ht (Hpos y) Hy).
    rewrite Ht. simpl. rewrite Z.ltb_lt.
    apply select_row_fields in Hx as (Hnx & Hsx & _).
    apply select_row_fields in Hy as (Hny & Hsy & _).
    rewrite Hnx, Hny, Hsx, Hsy.
    destruct Hxy as [?|[-> ?]]; [by left|by right].
  - destruct (metric_map metric) as [key|] eqn:Hm; [|done].
    intros [= <-]. apply StronglySorted_fmap with
      (R1 := λ a b, listed_before metric (row_to_obj a) (row_to_obj b));
      [done|].
    apply StronglySorted_limit_offset. unfold select_ordered.
    eapply StronglySorted_omap; [|apply StronglySorted_merge_sort; apply _].
    intros x y x' y' Hx Hy Hxy. unfold listed_before.
    rewrite (obj_key_static d metric key _ x x' Ht Hm Hx).
    rewrite (obj_key_static d metric key _ y y' Ht Hm Hy).
    rewrite Ht. simpl.
    apply select_row_fields in Hx as (Hnx & _).
    apply select_row_fields in Hy as (Hny & _).
    by rewrite Hnx, Hny.
Qed.

Lemma leaderboard_page_sorted_witness :
  ∃ items, leaderboard scenario_S4 "trending3d" 1 no_filters = inl items
    ∧ StronglySorted (listed_before "trending3d") items.
Proof.
  eexists. split; [by vm_compute|].
  apply (leaderboard_page_sorted scenario_S4 "trending3d" 1 no_filters).
  by vm_compute.
Defined.

(* ===================================================================== *)
(** ** Topics through [GROUP_CONCAT] and [split] *)
(* ===================================================================== *)

Lemma split_go_app sep cur a b :
  Text.split_go sep cur (a +:+ String sep b)
  = Text.split_go sep cur a ++ Text.split_go sep EmptyString b.
Proof.
  revert cur. induction a as [|c a IH]; intros cur; simpl.
  - by rewrite Ascii.eqb_refl.
  - destruct (Ascii.eqb c sep); [|apply IH]. simpl. f_equal. apply IH.
Qed.

Lemma split_group_concat sep x xs s :
  Text.group_concat sep (x :: xs) = Some s →
  Text.split sep s = (x :: xs) ≫= Text.split sep.
Proof.
  unfold Text.group_concat. intros [= <-]. unfold Text.split.
  revert x. induction xs as [|y ys IH]; intros x.
  - cbn. by rewrite app_nil_r.
  - simpl fold_left. rewrite IH. cbn. rewrite split_go_app.
    by rewrite <-app_assoc.
Qed.

Lemma split_go_free sep cur t :
  sep ∉ list_ascii_of_string t →
  Text.split_go sep cur t = [String.rev_app cur t].
Proof.
  revert cur. induction t as [|c t IH]; intros cur Hf; [done|].
  simpl in *. apply not_elem_of_cons in Hf as [Hc Hf].
  destruct (Ascii.eqb_spec c sep) as [->|_]; [done|]. by rewrite IH.
Qed.

Lemma split_free t : separator_free t → Text.split unit_separator t = [t].
Proof. intros Hf. unfold Text.split. by rewrite split_go_free. Qed.

Lemma bind_split_free ts :
  Forall separator_free ts → ts ≫= Text.split unit_separator = ts.
Proof.
  induction 1 as [|t ts Ht _ IH]; [done|].
  cbn in *. by rewrite split_free, IH.
Qed.

(** The topics of the object of a selected row. *)
Lemma row_to_obj_topics rank extra d j row :
  select_row rank extra d j = Some row →
  o_t (row_to_obj row)
  = filter (λ t, t ≠ EmptyString)
      (topic_names_of d (j_repo_id j) ≫= Text.split unit_separator).
Proof.
  intros (_ & _ & _ & _ & _ & _ & _ & _ & Ht)%select_row_fields.
  unfold row_to_obj. simpl. rewrite Ht.
  destruct (topic_names_of d (j_repo_id j)) as [|x xs] eqn:Hn; [done|].
  destruct (Text.group_concat _ _) as [s|] eqn:Hs; [|done].
  by rewrite (split_group_concat _ _ _ _ Hs).
Qed.

Lemma get_repo_latest_inv d name o :
  get_repo_latest d name = Some o →
  ∃ j row, j ∈ latest_join d ∧ r_name_with_owner (j_r j) = name
    ∧ select_row true (λ _, None) d j = Some row ∧ o = row_to_obj row.
Proof.
  unfold get_repo_latest. intros (row & Hh & ->)%fmap_Some.
  apply head_Some_elem_of, list_elem_of_omap in Hh as (j & Hj & Hrow).
  apply list_elem_of_filter in Hj as [Hn Hj]. by exists j, row.
Qed.

(** X18.  The topics of a returned object, whether from [get_repo_latest]
    or from a leaderboard page, are the topic names that [repo_topic_latest]
    links to the repo, joined with [char(31)] and split again: each name cut
    at the [char(31)] it holds, empty pieces dropped.  When no name of the
    repo holds that byte the object lists exactly the non-empty names. *)
Theorem object_topics_round_trip (d : DB) (o : Obj) :
  (∃ name, get_repo_latest d name = Some o)
  ∨ (∃ metric page fl items,
       leaderboard d metric page fl = inl items ∧ o ∈ items) →
  ∃ j, j ∈ latest_join d ∧ o_n o = r_name_with_owner (j_r j)
    ∧ o_t o = filter (λ t, t ≠ EmptyString)
                (topic_names_of d (j_repo_id j) ≫= Text.split unit_separator)
    ∧ (Forall separator_free (topic_names_of d (j_repo_id j)) →
       o_t o = filter (λ t, t ≠ EmptyString)
                 (topic_names_of d (j_repo_id j))).
Proof.
  assert (∀ rank extra j row, j ∈ latest_join d →
    select_row rank extra d j = Some row →
    ∃ j, j ∈ latest_join d
      ∧ o_n (row_to_obj row) = r_name_with_owner (j_r j)
      ∧ o_t (row_to_obj row)
        = filter (λ t, t ≠ EmptyString)
            (topic_names_of d (j_repo_id j) ≫= Text.split unit_separator)
      ∧ (Forall separator_free (topic_names_of d (j_repo_id j)) →
         o_t (row_to_obj row)
         = filter (λ t, t ≠ EmptyString)
             (topic_names_of d (j_repo_id j)))) as Hrow.
  { intros rank extra j row Hj Hsel. exists j. split; [done|].
    pose proof (row_to_obj_topics _ _ _ _ _ Hsel) as Ht.
    apply select_row_fields in Hsel as (Hn & _).
    split; [done|]. split; [done|].
    intros Hfree. by rewrite Ht, bind_split_free. }
  intros [[name Hg]|(metric & page & fl & items & Hl & Ho)].
  - apply get_repo_latest_inv in Hg as (j & row & Hj & _ & Hsel & ->).
    by eapply Hrow.
  - destruct (leaderboard_inv _ _ _ _ _ _ Hl Ho)
      as (j & row & extra & Hj & _ & Hsel & ->).
    by eapply Hrow.
Qed.

Lemma object_topics_round_trip_witness :
  ∃ o, get_repo_latest scenario_tagged "a/x" = Some o
    ∧ ∃ j, j ∈ latest_join scenario_tagged
        ∧ o_n o = r_name_with_owner (j_r j)
        ∧ o_t o = filter (λ t, t ≠ EmptyString)
                    (topic_names_of scenario_tagged (j_repo_id j)
                       ≫= Text.split unit_separator)
        ∧ (Forall separator_free
             (topic_names_of scenario_tagged (j_repo_id j)) →
           o_t o = filter (λ t, t ≠ EmptyString)
                     (topic_names_of scenario_tagged (j_repo_id j))).
Proof.
  exists (default obj_S4 (get_repo_latest scenario_tagged "a/x")).
  split; [by vm_compute|].
  apply (object_topics_round_trip scenario_tagged).
  left. exists "a/x"%string. by vm_compute.
Defined.

(* ===================================================================== *)
(** ** The filters of a leaderboard *)
(* ===================================================================== *)

Lemma where_clause_true fl d j :
  where_clause fl d j = true →
  (∀ lang, truthy (f_language fl) = Some lang → language_name d j = Some lang)
  ∧ (∀ tp, truthy (f_topic fl) = Some tp → tp ∈ topic_names_of d (j_repo_id j))
  ∧ (∀ s, truthy (Text.strip <$> truthy (q fl)) = Some s →
       Text.like (r_name_with_owner (j_r j)) ("%" +:+ s +:+ "%") = true
       ∨ (in_description fl = true
          ∧ like_opt (r_description (j_r j)) ("%" +:+ s +:+ "%") = true)).
Proof.
  unfold where_clause. rewrite !andb_true_iff. intros [[Hl Ht] Hq].
  split; [|split].
  - intros lang Hlang. rewrite Hlang in Hl. by apply bool_decide_eq_true in Hl.
  - intros tp Htp. rewrite Htp in Ht. by apply bool_decide_eq_true in Ht.
  - intros s Hs. rewrite Hs in Hq. destruct (in_description fl); [|by left].
    apply orb_true_iff in Hq as [?|?]; [by left|by right].
Qed.

(** X19.  Every object of a leaderboard page passes each filter that is
    set.  With a non-empty [language] its [l] is that language; with a
    non-empty [topic] that holds no [char(31)] its [t] lists the topic;
    with a [q] that is not blank, its name matches [%q%] (the stripped
    text) under [LIKE], or, when [in_description] is set, its description
    does. *)
Theorem leaderboard_filters_sound (d : DB) (metric : string) (page : Z)
    (fl : Filters) (items : list Obj) (o : Obj) :
  leaderboard d metric page fl = inl items → o ∈ items →
  (∀ lang, truthy (f_language fl) = Some lang → o_l o = Some lang)
  ∧ (∀ tp, truthy (f_topic fl) = Some tp → separator_free tp → tp ∈ o_t o)
  ∧ (∀ s, truthy (Text.strip <$> truthy (q fl)) = Some s →
       Text.like (o_n o) ("%" +:+ s +:+ "%") = true
       ∨ (in_description fl = true
          ∧ like_opt (o_a o) ("%" +:+ s +:+ "%") = true)).
Proof.
  intros Hl Ho.
  destruct (leaderboard_inv _ _ _ _ _ _ Hl Ho)
    as (j & row & extra & Hj & Hw & Hsel & ->).
  apply where_clause_true in Hw as (Hlang & Htopic & Hq).
  pose proof (row_to_obj_topics _ _ _ _ _ Hsel) as Ht.
  apply select_row_fields in Hsel
    as (Hn & _ & _ & _ & _ & _ & Hdesc & Hlg & _).
  split; [|split].
  - intros lang Hf. simpl. rewrite Hlg. by apply Hlang.
  - intros tp Hf Hfree. rewrite Ht. apply list_elem_of_filter. split.
    + intros ->. unfold truthy in Hf. destruct (f_topic fl) as [s|]; [|done].
      by case_bool_decide; simplify_eq.
    + apply list_elem_of_bind. exists tp. split; [|by apply Htopic].
      rewrite split_free by done. apply list_elem_of_here.
  - intros s Hs. simpl. rewrite Hn, Hdesc. by apply Hq.
Qed.

Lemma leaderboard_filters_sound_witness :
  ∃ items o,
    leaderboard scenario_tagged "stars" 1
      {| q := Some " TOOL "; in_description := true;
         f_language := Some "Rust"; f_topic := Some "cli" |} = inl items
    ∧ o ∈ items ∧ o_l o = Some "Rust"%string ∧ "cli"%string ∈ o_t o.
Proof.
  set (fl := {| q := Some " TOOL "%string; in_description := true;
                f_language := Some "Rust"%string;
                f_topic := Some "cli"%string |}).
  set (items := match leaderboard scenario_tagged "stars" 1 fl with
                | inl items => items | inr _ => [] end).
  assert (leaderboard scenario_tagged "stars" 1 fl = inl items) as Hl
    by (by vm_compute).
  assert (default obj_S4 (head items) ∈ items) as Ho.
  { vm_compute. apply list_elem_of_here. }
  destruct (leaderboard_filters_sound scenario_tagged "stars" 1 fl items _
              Hl Ho) as (Hlang & Htopic & _).
  exists items, (default obj_S4 (head items)).
  split; [done|]. split; [done|]. split.
  - by apply Hlang.
  - apply Htopic; [done|]. apply (bool_decide_unpack _). by vm_compute.
Defined.

(* ===================================================================== *)
(** ** The discipline of the response cache *)
(* ===================================================================== *)

Lemma lookup_key_absent key l :
  App.lookup_key key l = None ↔ key ∉ l.*1.
Proof.
  split.
  - intros H (kv & -> & Hin)%list_elem_of_fmap.
    destruct kv as [k v]. by apply (lookup_key_None _ _ v) in H.
  - intros H. destruct (App.lookup_key key l) as [v|] eqn:Hl; [|done].
    apply lookup_key_Some in Hl. destruct H.
    apply list_elem_of_fmap. by exists (key, v).
Qed.

Lemma filter_key_absent key (l : list (string * App.Body)) :
  key ∉ l.*1 → filter (λ kv, kv.1 = key) l = [].
Proof.
  intros H. apply elem_of_nil_inv. intros kv [Hk Hin]%list_elem_of_filter.
  apply H, list_elem_of_fmap. by exists kv.
Qed.

Lemma remove_key_absent key (l : list (string * App.Body)) :
  key ∉ l.*1 → App.remove_key key l = l.
Proof.
  intros H. unfold App.remove_key. induction l as [|kv l IH]; [done|].
  rewrite fmap_cons in H. apply not_elem_of_cons in H as [Hk H].
  rewrite filter_cons_True by done. f_equal. by apply IH.
Qed.

Lemma remove_key_keys key l : key ∉ (App.remove_key key l).*1.
Proof.
  intros (kv & -> & Hin)%list_elem_of_fmap.
  by apply list_elem_of_filter in Hin as [Hk _].
Qed.

Lemma remove_key_other key key' (l : list (string * App.Body)) :
  key ∉ l.*1 → key ∉ (App.remove_key key' l).*1.
Proof.
  intros H (kv & -> & Hin)%list_elem_of_fmap.
  apply list_elem_of_filter in Hin as [_ Hin].
  apply H, list_elem_of_fmap. by exists kv.
Qed.

Lemma assign_keys key value l :
  (App.assign key value l).*1
  = if decide (key ∈ l.*1) then l.*1 else l.*1 ++ [key].
Proof.
  induction l as [|[k v] l IH].
  - done.
  - cbn [App.assign fst]. rewrite fmap_cons. cbn [fst].
    case_bool_decide as Hk.
    + subst k. rewrite fmap_cons. cbn [fst].
      by rewrite decide_True by apply list_elem_of_here.
    + rewrite fmap_cons, IH. cbn [fst].
      destruct (decide (key ∈ l.*1)) as [Hin|Hin].
      * by rewrite decide_True by (by apply list_elem_of_further).
      * rewrite decide_False; [done|].
        intros [?|?]%elem_of_cons; [by subst|done].
Qed.

Lemma assign_length key value l :
  length (App.assign key value l)
  = if decide (key ∈ l.*1) then length l else S (length l).
Proof.
  rewrite <-(length_fmap fst), assign_keys.
  destruct (decide _); rewrite ?length_app, length_fmap; simpl; lia.
Qed.

Lemma assign_absent key value l :
  key ∉ l.*1 → App.assign key value l = l ++ [(key, value)].
Proof.
  induction l as [|[k v] l IH]; simpl; [done|].
  intros [Hk Hl]%not_elem_of_cons. rewrite bool_decide_eq_false_2 by done.
  by rewrite IH.
Qed.

Lemma assign_app key value l1 l2 :
  App.assign key value (l1 ++ l2)
  = if decide (key ∈ l1.*1) then App.assign key value l1 ++ l2
    else l1 ++ App.assign key value l2.
Proof.
  induction l1 as [|[k v] l1 IH].
  - done.
  - rewrite <-app_comm_cons. cbn [App.assign fst]. rewrite fmap_cons.
    cbn [fst]. case_bool_decide as Hk.
    + subst k. by rewrite decide_True by apply list_elem_of_here.
    + rewrite IH. destruct (decide (key ∈ l1.*1)) as [Hin|Hin].
      * by rewrite decide_True by (by apply list_elem_of_further).
      * rewrite decide_False; [done|].
        intros [?|?]%elem_of_cons; [by subst|done].
Qed.

Lemma NoDup_tail {A} (l : list A) : NoDup l → NoDup (tail l).
Proof. destruct l; [done|]. by intros [_ ?]%NoDup_cons. Qed.

Lemma cache_get_wf key c : cache_wf c → cache_wf (App.cache_get key c).1.
Proof.
  intros [Hk Hs]. unfold App.cache_get.
  destruct (App.lookup_key key (App.cache c)) as [v|] eqn:Hl; [|done].
  apply lookup_key_Some in Hl. split; simpl.
  - rewrite fmap_app. apply NoDup_app. split; [|split].
    + eapply sublist_NoDup; [exact Hk|].
      apply fmap_sublist, sublist_filter.
    + intros k Hin [->|[]%elem_of_nil]%elem_of_cons.
      by apply remove_key_keys in Hin.
    + apply NoDup_singleton.
  - rewrite length_app. simpl.
    pose proof (length_filter_lt (λ kv : string * App.Body, kv.1 ≠ key)
                  (App.cache c) (key, v) Hl (λ H, H eq_refl)) as Hlt.
    unfold App.remove_key. lia.
Qed.

Lemma cache_set_wf key value c :
  cache_wf c → cache_wf (App.cache_set key value c).
Proof.
  intros [Hk Hs]. unfold App.cache_set.
  pose proof (assign_keys key value (App.cache c)) as Hkeys.
  pose proof (assign_length key value (App.cache c)) as Hlen.
  assert (NoDup (App.assign key value (App.cache c)).*1) as Hnd.
  { rewrite Hkeys. destruct (decide _) as [|Hnin]; [done|].
    apply NoDup_app. split; [done|]. split; [|apply NoDup_singleton].
    intros k Hin [->|[]%elem_of_nil]%elem_of_cons. done. }
  split; simpl.
  - destruct (_ <? _); [|done].
    replace ((tail (App.assign key value (App.cache c))).*1)
      with (tail (App.assign key value (App.cache c)).*1)
      by (by destruct (App.assign _ _ _)).
    by apply NoDup_tail.
  - destruct (Z.ltb_spec (App.max_size c)
                (Z.of_nat (length (App.assign key value (App.cache c)))));
      [|lia].
    rewrite length_tl. destruct (decide _); lia.
Qed.

(** The three ways a request ends: a hit, which moves the entry to the end;
    a miss whose body is stored; an answer without a body, which leaves the
    cache alone and comes either after a miss or from the check of the
    query parameters. *)
Lemma serve_result d c r :
  (∃ v, App.lookup_key (key_of r) (App.cache c) = Some v
        ∧ serve d c r = ((App.cache_get (key_of r) c).1, App.Json v))
  ∨ (App.lookup_key (key_of r) (App.cache c) = None
     ∧ ∃ body, serve d c r = (App.cache_set (key_of r) body c, App.Json body))
  ∨ (body_of (serve d c r).2 = None ∧ (serve d c r).1 = c
     ∧ (App.lookup_key (key_of r) (App.cache c) = None ∨ ¬ valid r)).
Proof.
  assert (∀ key (f : App.LRUCache → App.LRUCache * App.Response),
    (∀ c1, (∃ body, f c1 = (App.cache_set key body c1, App.Json body))
           ∨ ((f c1).1 = c1 ∧ body_of (f c1).2 = None)) →
    let res := match App.cache_get key c with
               | (c1, Some cached) => (c1, App.Json cached)
               | (c1, None) => f c1
               end in
    (∃ v, App.lookup_key key (App.cache c) = Some v
          ∧ res = ((App.cache_get key c).1, App.Json v))
    ∨ (App.lookup_key key (App.cache c) = None
       ∧ ∃ body, res = (App.cache_set key body c, App.Json body))
    ∨ (body_of res.2 = None ∧ res.1 = c
       ∧ App.lookup_key key (App.cache c) = None)) as Hgen.
  { intros key f Hf. unfold App.cache_get.
    destruct (App.lookup_key key (App.cache c)) as [v|] eqn:Hl; simpl.
    - left. by exists v.
    - right. destruct (Hf c) as [[body ->]|[H1 H2]].
      + left. split; [done|]. by exists body.
      + right. done. }
  destruct r as [metric page fl|name|name|name]; simpl.
  - unfold App.api_leaderboard. destruct (Z.ltb_spec page 1) as [Hp|Hp].
    { right; right. split; [done|]. split; [done|]. right. lia. }
    unfold App.leaderboard.
    destruct (Hgen (App.leaderboard_key metric page fl)
                (λ c1, match leaderboard d metric page fl with
                       | inr ValueError =>
                           (c1, App.HTTPException 400
                                  ("Unsupported metric: " +:+ metric))
                       | inr _ => (c1, App.InternalServerError)
                       | inl items =>
                           (App.cache_set (App.leaderboard_key metric page fl)
                              (App.LeaderboardBody page
                                 (count_leaderboard d fl)
                                 (if 0 <? count_leaderboard d fl
                                  then (count_leaderboard d fl
                                        + App.LEADERBOARD_PAGE_SIZE - 1)
                                       `div` App.LEADERBOARD_PAGE_SIZE
                                  else 1) items) c1,
                            App.Json
                              (App.LeaderboardBody page
                                 (count_leaderboard d fl)
                                 (if 0 <? count_leaderboard d fl
                                  then (count_leaderboard d fl
                                        + App.LEADERBOARD_PAGE_SIZE - 1)
                                       `div` App.LEADERBOARD_PAGE_SIZE
                                  else 1) items))
                       end)) as [H|[H|(H1 & H2 & H3)]]; auto.
    { intros c1.
      destruct (leaderboard d metric page fl) as [items|[]]; [left|right..];
        eauto. }
    right; right. auto.
  - unfold App.repo_latest.
    destruct (Hgen ("repo:" +:+ name)
                (λ c1, match get_repo_latest d name with
                       | None => (c1, App.HTTPException 404 "Repo not found")
                       | Some result =>
                           (App.cache_set ("repo:" +:+ name)
                              (App.RepoBody result) c1,
                            App.Json (App.RepoBody result))
                       end)) as [H|[H|(H1 & H2 & H3)]]; auto.
    { intros c1. destruct (get_repo_latest d name); [left|right]; eauto. }
    right; right. auto.
  - unfold App.repo_history.
    destruct (Hgen ("hist:" +:+ name)
                (λ c1, (App.cache_set ("hist:" +:+ name)
                          (App.HistoryBody name (history_segments d name 2920))
                          c1,
                        App.Json
                          (App.HistoryBody name
                             (history_segments d name 2920)))))
      as [H|[H|(H1 & H2 & H3)]]; auto.
    { intros c1. left. eauto. }
    right; right. auto.
  - unfold App.shields_rank.
    destruct (Hgen ("rank:" +:+ name)
                (λ c1, match get_global_rank d name with
                       | None =>
                           (App.cache_set ("rank:" +:+ name)
                              (App.BadgeBody "rank" "repo not found"
                                 "inactive" None) c1,
                            App.Json (App.BadgeBody "rank" "repo not found"
                                        "inactive" None))
                       | Some rank =>
                           (App.cache_set ("rank:" +:+ name)
                              (App.BadgeBody "global rank"
                                 ("#" +:+ Text.of_int rank)
                                 (if rank <=? 100 then "brightgreen"
                                  else if rank <=? 1000 then "orange"
                                       else "blue") (Some 3600)) c1,
                            App.Json
                              (App.BadgeBody "global rank"
                                 ("#" +:+ Text.of_int rank)
                                 (if rank <=? 100 then "brightgreen"
                                  else if rank <=? 1000 then "orange"
                                       else "blue") (Some 3600)))
                       end)) as [H|[H|(H1 & H2 & H3)]]; auto.
    { intros c1. destruct (get_global_rank d name); left; eauto. }
    right; right. auto.
Qed.

Lemma serve_cache d c r :
  (serve d c r).1 = c
  ∨ (serve d c r).1 = (App.cache_get (key_of r) c).1
  ∨ (App.lookup_key (key_of r) (App.cache c) = None
     ∧ ∃ body, (serve d c r).1 = App.cache_set (key_of r) body c).
Proof.
  destruct (serve_result d c r)
    as [(v & _ & ->)|[(Hl & body & ->)|(_ & -> & _)]]; eauto.
Qed.

Lemma serve_max_size d c r : App.max_size (serve d c r).1 = App.max_size c.
Proof.
  destruct (serve_cache d c r) as [->|[->|[_ [body ->]]]]; [done| |done].
  unfold App.cache_get. by destruct (App.lookup_key _ _).
Qed.

(** X20.  The response cache never holds a key twice nor more entries than
    [max_size]: this is so when the process starts and stays so through
    every request, whatever database serves it.  A request answered by
    anything but a JSON body (a 400, a 404, a 422, a 500) leaves the cache
    exactly as it was. *)
Theorem response_cache_discipline :
  cache_wf App.response_cache
  ∧ (∀ d c r, cache_wf c → cache_wf (serve d c r).1)
  ∧ (∀ d c r, body_of (serve d c r).2 = None → (serve d c r).1 = c).
Proof.
  split; [|split].
  - split; simpl; [apply NoDup_nil_2|done].
  - intros d c r Hwf.
    destruct (serve_cache d c r) as [->|[->|[_ [body ->]]]]; [done| |].
    + by apply cache_get_wf.
    + by apply cache_set_wf.
  - intros d c r Hb.
    destruct (serve_cases d c r)
      as [(c' & v & Hs & _)|[[_ [body Hs]]|[[_ (? & ? & Hs)]|[[_ Hs]|Hs]]]];
      rewrite Hs in Hb |- *; done.
Qed.

Lemma response_cache_discipline_witness :
  cache_wf (serve_all App.response_cache
              [(scenario_S4, ReqRepo "a/x"); (scenario_S4, ReqRepo "no/one");
               (empty_db, ReqRank "a/x"); (scenario_S4, ReqRepo "a/x")]).
Proof.
  destruct response_cache_discipline as (H0 & Hstep & _).
  unfold serve_all. cbn [foldl fst snd]. do 4 apply Hstep. exact H0.
Defined.

(* ===================================================================== *)
(** ** How long a cached answer lives *)
(* ===================================================================== *)

Lemma recent_lookup key body k c :
  recent key body k c → App.lookup_key key (App.cache c) = Some body.
Proof.
  intros (l1 & l2 & -> & H1 & H2 & _). unfold App.lookup_key.
  rewrite filter_app, filter_cons_True by done.
  by rewrite (filter_key_absent _ _ H1).
Qed.

Lemma recent_get_same key body k c :
  recent key body k c → recent key body 0 (App.cache_get key c).1.
Proof.
  intros Hr. pose proof (recent_lookup _ _ _ _ Hr) as Hl.
  unfold App.cache_get. rewrite Hl. simpl.
  exists (App.remove_key key (App.cache c)), []. split; [done|].
  split; [apply remove_key_keys|]. split; [apply not_elem_of_nil|done].
Qed.

Lemma recent_get_other key body k c key' :
  recent key body k c → key' ≠ key →
  recent key body (S k) (App.cache_get key' c).1.
Proof.
  intros (l1 & l2 & Hc & H1 & H2 & Hk) Hne. unfold App.cache_get.
  destruct (App.lookup_key key' (App.cache c)) as [v|]; simpl.
  - rewrite Hc. unfold App.remove_key.
    rewrite filter_app, filter_cons_True by (simpl; congruence).
    exists (filter (λ kv : string * App.Body, kv.1 ≠ key') l1),
           (filter (λ kv : string * App.Body, kv.1 ≠ key') l2 ++ [(key', v)]).
    split; [by rewrite <-app_assoc|].
    split; [by apply remove_key_other|]. split.
    + rewrite fmap_app. apply not_elem_of_app. split.
      * by apply remove_key_other.
      * simpl. intros [?|[]%elem_of_nil]%elem_of_cons. congruence.
    + rewrite length_app. simpl.
      pose proof (length_filter (λ kv : string * App.Body, kv.1 ≠ key') l2).
      lia.
  - exists l1, l2. repeat split; try done. lia.
Qed.

Lemma recent_set_other key body k c key' value :
  recent key body k c → key' ≠ key →
  Z.of_nat k + 2 ≤ App.max_size c →
  recent key body (S k) (App.cache_set key' value c).
Proof.
  intros (l1 & l2 & Hc & H1 & H2 & Hk) Hne Hmax. unfold App.cache_set.
  rewrite Hc. simpl. rewrite assign_app.
  destruct (decide (key' ∈ l1.*1)) as [Hin|Hin].
  - pose proof (assign_keys key' value l1) as Hkeys.
    rewrite decide_True in Hkeys by done.
    pose proof (assign_length key' value l1) as Hlen.
    rewrite decide_True in Hlen by done.
    rewrite length_app in *. simpl length.
    destruct (_ <? _).
    + destruct (App.assign key' value l1) as [|x l1'] eqn:Ha.
      { destruct l1; [by apply elem_of_nil in Hin|done]. }
      simpl. exists l1', l2. split; [done|]. split.
      * intros Hk'. apply H1. rewrite <-Hkeys, fmap_cons.
        by apply list_elem_of_further.
      * split; [done|lia].
    + exists (App.assign key' value l1), l2. split; [done|].
      split; [by rewrite Hkeys|]. split; [done|lia].
  - simpl. rewrite bool_decide_eq_false_2 by (simpl; congruence).
    pose proof (assign_keys key' value l2) as Hkeys.
    pose proof (assign_length key' value l2) as Hlen.
    assert (key ∉ (App.assign key' value l2).*1) as H2'.
    { rewrite Hkeys. destruct (decide _); [done|].
      apply not_elem_of_app. split; [done|].
      intros [?|[]%elem_of_nil]%elem_of_cons. congruence. }
    assert (length (App.assign key' value l2) ≤ S k)%nat as Hk'.
    { rewrite Hlen. destruct (decide _); lia. }
    rewrite length_app. simpl length.
    destruct (Z.ltb_spec (App.max_size c)
                (Z.of_nat (length l1
                           + S (length (App.assign key' value l2))))).
    + destruct l1 as [|x l1']; [simpl in *; lia|].
      simpl. exists l1', (App.assign key' value l2). split; [done|].
      split; [|done]. rewrite fmap_cons in H1.
      by apply not_elem_of_cons in H1 as [_ ?].
    + by exists l1, (App.assign key' value l2).
Qed.

Lemma recent_mono key body k k' c :
  recent key body k c → (k ≤ k')%nat → recent key body k' c.
Proof.
  intros (l1 & l2 & ? & ? & ? & ?) ?. exists l1, l2. repeat split; try done.
  lia.
Qed.

Lemma recent_serve key body k c d r :
  recent key body k c → Z.of_nat k + 2 ≤ App.max_size c →
  recent key body (S k) (serve d c r).1.
Proof.
  intros Hr Hmax.
  destruct (serve_cache d c r) as [->|[->|[Hmiss [b ->]]]].
  - eapply recent_mono; [done|lia].
  - destruct (decide (key_of r = key)) as [->|Hne].
    + eapply recent_mono; [by eapply recent_get_same|lia].
    + by apply recent_get_other.
  - destruct (decide (key_of r = key)) as [Heq|Hne].
    + rewrite Heq in Hmiss. by rewrite (recent_lookup _ _ _ _ Hr) in Hmiss.
    + by apply recent_set_other.
Qed.

Lemma serve_all_max_size c dreqs :
  App.max_size (serve_all c dreqs) = App.max_size c.
Proof.
  revert c. induction dreqs as [|[d r] dreqs IH]; intros c; [done|].
  simpl. unfold serve_all in IH. by rewrite IH, serve_max_size.
Qed.

Lemma recent_serve_all key body k c dreqs :
  recent key body k c →
  Z.of_nat k + Z.of_nat (length dreqs) + 1 ≤ App.max_size c →
  recent key body (k + length dreqs) (serve_all c dreqs).
Proof.
  revert k c. induction dreqs as [|[d r] dreqs IH]; intros k c Hr Hmax.
  - simpl. eapply recent_mono; [done|lia].
  - simpl in *. replace (k + S (length dreqs))%nat
      with (S k + length dreqs)%nat by lia.
    apply IH.
    + apply recent_serve; [done|lia].
    + rewrite serve_max_size. lia.
Qed.

(** A JSON answer leaves its body cached as the newest entry. *)
Lemma recent_after_serve d c r c1 body :
  serve d c r = (c1, App.Json body) → 1 ≤ App.max_size c →
  recent (key_of r) body 0 c1.
Proof.
  intros Hs Hmax.
  destruct (serve_result d c r)
    as [(v & Hl & Hs')|[(Hl & b & Hs')|(Hb & _)]].
  - rewrite Hs in Hs'. injection Hs' as -> ->.
    unfold App.cache_get. rewrite Hl. simpl.
    exists (App.remove_key (key_of r) (App.cache c)), [].
    split; [done|]. split; [apply remove_key_keys|].
    split; [apply not_elem_of_nil|done].
  - rewrite Hs in Hs'. injection Hs' as -> ->.
    apply lookup_key_absent in Hl. unfold App.cache_set.
    rewrite assign_absent by done. rewrite length_app. simpl length.
    destruct (Z.ltb_spec (App.max_size c)
                (Z.of_nat (length (App.cache c) + 1))).
    + destruct (App.cache c) as [|x l] eqn:Hc; [simpl in *; lia|].
      simpl. exists l, []. split; [done|]. split.
      * rewrite fmap_cons in Hl. by apply not_elem_of_cons in Hl as [_ ?].
      * split; [apply not_elem_of_nil|done].
    + exists (App.cache c), []. split; [done|]. split; [done|].
      split; [apply not_elem_of_nil|done].
  - by rewrite Hs in Hb.
Qed.

(** X21.  An answer, once given, is given again to every request that is
    cached under the same key, for as long as fewer than [max_size] other
    requests were served in between, whatever those were and whatever the
    database has become, at their time and at its own.  The cache is never
    invalidated, and only the arrival of [max_size] newer entries evicts
    an entry.  The key is the printed request, so requests that print
    alike share the entry: an unset filter and the text [None], or filters
    that split differently at a colon. *)
Theorem cached_answer_survives (d d' : DB) (c c1 : App.LRUCache)
    (r r' : Request) (body : App.Body) (dreqs : list (DB * Request)) :
  serve d c r = (c1, App.Json body) →
  key_of r' = key_of r → valid r' →
  Z.of_nat (length dreqs) < App.max_size c →
  (serve d' (serve_all c1 dreqs) r').2 = App.Json body.
Proof.
  intros Hs Hkey Hvalid Hlen.
  assert (App.max_size c1 = App.max_size c) as Hmax.
  { pose proof (serve_max_size d c r) as H. by rewrite Hs in H. }
  assert (recent (key_of r) body (0 + length dreqs) (serve_all c1 dreqs))
    as Hr.
  { apply recent_serve_all.
    - eapply recent_after_serve; [done|lia].
    - lia. }
  apply recent_lookup in Hr. rewrite <-Hkey in Hr.
  destruct (serve_result d' (serve_all c1 dreqs) r')
    as [(v & Hl & ->)|[(Hl & _)|(_ & _ & [Hl|Hv])]].
  - rewrite Hr in Hl. by injection Hl as <-.
  - by rewrite Hr in Hl.
  - by rewrite Hr in Hl.
  - done.
Qed.

(** The unfiltered first page is served to the request for the language
    named [None], which has no repo, after two other requests and on an
    empty database. *)
Lemma cached_answer_survives_witness :
  ∃ body,
    (serve scenario_tagged App.response_cache
       (ReqLeaderboard "stars" 1 no_filters)).2 = App.Json body
    ∧ leaderboard scenario_tagged "stars" 1
        {| q := None; in_description := true; f_language := Some "None";
           f_topic := None |} = inl []
    ∧ (serve empty_db
         (serve_all
            (serve scenario_tagged App.response_cache
               (ReqLeaderboard "stars" 1 no_filters)).1
            [(empty_db, ReqRank "a/x"); (empty_db, ReqRepo "b/y")])
         (ReqLeaderboard "stars" 1
            {| q := None; in_description := true;
               f_language := Some "None"; f_topic := None |})).2
      = App.Json body.
Proof.
  exists (default (App.BadgeBody "" "" "" None)
            (body_of (serve scenario_tagged App.response_cache
                        (ReqLeaderboard "stars" 1 no_filters)).2)).
  split; [by vm_compute|]. split; [by vm_compute|].
  apply (cached_answer_survives scenario_tagged empty_db App.response_cache
           (serve scenario_tagged App.response_cache
              (ReqLeaderboard "stars" 1 no_filters)).1
           (ReqLeaderboard "stars" 1 no_filters)
           (ReqLeaderboard "stars" 1
              {| q := None; in_description := true;
                 f_language := Some "None"; f_topic := None |})
           (default (App.BadgeBody "" "" "" None)
              (body_of (serve scenario_tagged App.response_cache
                          (ReqLeaderboard "stars" 1 no_filters)).2))
           [(empty_db, ReqRank "a/x"); (empty_db, ReqRepo "b/y")]).
  - by vm_compute.
  - by vm_compute.
  - simpl. lia.
  - by vm_compute.
Defined.

(* ===================================================================== *)
(** ** Where the short URL leads *)
(* ===================================================================== *)

Lemma omap_lookup_total {A B} (f : A → option B) (l : list A) i x :
  Forall (λ x, is_Some (f x)) l → l !! i = Some x →
  ∃ y, omap f l !! i = Some y ∧ f x = Some y.
Proof.
  intros Hall. revert i. induction Hall as [|a l [b Hb] _ IH]; intros i Hi;
    [done|].
  simpl. rewrite Hb. simpl. destruct i as [|i]; simpl in *.
  - injection Hi as <-. by exists b.
  - by apply IH.
Qed.

(** The unfiltered [stars] select lists the joined rows in rank order. *)
Lemma stars_select_lookup d i j :
  latest_runs_exist d →
  merge_sort (static_order stars_key) (latest_join d) !! i = Some j →
  ∃ row, select_ordered d no_filters (static_order stars_key) (λ _, None) !! i
         = Some row
       ∧ select_row false (λ _, None) d j = Some row.
Proof.
  intros Hfk Hi. unfold select_ordered.
  rewrite (filter_all _ (latest_join d))
    by (apply Forall_forall; intros x _; apply where_clause_no_filters).
  eapply omap_lookup_total; [|done].
  apply Forall_forall. intros x Hx. rewrite merge_sort_Permutation in Hx.
  by apply select_row_is_Some.
Qed.

Lemma page_lookup {A} (rows : list A) (i : nat) :
  take 100 (drop (100 * (i / 100)) rows) !! (i mod 100)%nat = rows !! i.
Proof.
  pose proof (Nat.mod_upper_bound i 100 ltac:(lia)).
  rewrite lookup_take_lt by done. rewrite lookup_drop. f_equal.
  pose proof (Nat.div_mod_eq i 100). lia.
Qed.

(** X22.  The short URL of a ranked repo answers 302 to the table view of
    the [stars] leaderboard, on the page [(rank - 1) div 100 + 1], with the
    percent-encoded name to highlight and open; in a database with unique
    names whose [repo_latest] rows point at their fetch runs, and the rank
    being an integer of the store, that page of [leaderboard] lists the
    repo, at index [(rank - 1) mod 100]. *)
Theorem short_url_lands_on_page (d : DB) (owner repo_name : string)
    (rank : Z) :
  names_unique (repo d) → latest_runs_exist d →
  get_global_rank d (owner +:+ "/" +:+ repo_name) = Some rank →
  int64 rank →
  App.repo_short_url d owner repo_name
  = App.RedirectResponse
      ("/?page=" +:+ Text.of_int ((rank - 1) `div` 100 + 1)
       +:+ "&metric=stars&view=table&highlight="
       +:+ App.quote (owner +:+ "/" +:+ repo_name)
       +:+ "&open=" +:+ App.quote (owner +:+ "/" +:+ repo_name)) 302
  ∧ ∃ items o,
      leaderboard d "stars" ((rank - 1) `div` 100 + 1) no_filters = inl items
      ∧ items !! Z.to_nat ((rank - 1) `mod` 100) = Some o
      ∧ o_n o = owner +:+ "/" +:+ repo_name.
Proof.
  intros Hu Hfk Hrank Hint. split.
  { unfold App.repo_short_url. by rewrite Hrank. }
  apply get_global_rank_inv in Hrank as (j & Hj & Hname & ->).
  set (i := length (filter (λ x, outranks x j) (latest_join d))).
  pose proof (rank_lookup d j Hu Hj) as Hfind.
  apply list_find_Some in Hfind as (Hi & _ & _). fold i in Hi.
  destruct (stars_select_lookup d i j Hfk Hi) as (row & Hrow & Hsel).
  exists (row_to_obj
            <$> limit_offset page_size
                  (((Z.of_nat i + 1 - 1) `div` 100 + 1 - 1) * page_size)
                  (select_ordered d no_filters (static_order stars_key)
                     (λ _, None))),
         (row_to_obj row).
  split.
  { apply (leaderboard_static _ _ stars_key); [done..|].
    set (i' := Z.of_nat i) in *. unfold int64, page_size in *.
    pose proof (Z.div_mod (i' + 1 - 1) 100).
    pose proof (Z.mod_pos_bound (i' + 1 - 1) 100). lia. }
  split.
  - rewrite list_lookup_fmap.
    replace (Z.of_nat i + 1 - 1) with (Z.of_nat i) by lia.
    change 100 with (Z.of_nat 100).
    rewrite <-(Nat2Z.inj_div i 100), <-(Nat2Z.inj_mod i 100), Nat2Z.id.
    replace (Z.of_nat (i / 100) + 1 - 1) with (Z.of_nat (S (i / 100)) - 1)
      by lia.
    rewrite limit_offset_page.
    replace (i / 100 * 100)%nat with (100 * (i / 100))%nat by lia.
    by rewrite page_lookup, Hrow.
  - apply select_row_fields in Hsel as (Hn & _). simpl. by rewrite Hn.
Qed.

Lemma short_url_lands_on_page_witness :
  App.repo_short_url scenario_S4 "b" "new"
  = App.RedirectResponse
      "/?page=1&metric=stars&view=table&highlight=b%2Fnew&open=b%2Fnew" 302
  ∧ ∃ items o,
      leaderboard scenario_S4 "stars" 1 no_filters = inl items
      ∧ items !! 1%nat = Some o ∧ o_n o = "b/new"%string.
Proof.
  assert (names_unique (repo scenario_S4) ∧ store_invariant scenario_S4
          ∧ latest_runs_exist scenario_S4) as (Hu & _ & Hfk).
  { unfold scenario_S4.
    repeat (apply crawl_schema; [|]); apply empty_schema. }
  apply (short_url_lands_on_page scenario_S4 "b" "new" 2 Hu Hfk).
  - by vm_compute.
  - unfold int64. lia.
Defined.

(* ===================================================================== *)
(** ** Reading back what was ingested *)
(* ===================================================================== *)

(** X23.  What a call ingests is what [get_repo_latest] reads back.  In a
    pass on a database with unique names, after a call that returns, the
    name of every snapshot it ingested is found, and the object carries the
    snapshot's name, its stars, forks, watchers and disk usage as the
    second loop read them, and its description and homepage. *)
Theorem ingested_snapshot_read_back (now : Z) (s s' : RepoDB)
    (nodes : list Node) (n : Node) :
  pass_invariant s → names_unique (repo (conn s)) →
  upsert_from_github_nodes now s nodes = (s', None) →
  n ∈ fresh_of s nodes →
  ∃ name m o,
    nameWithOwner n = Present name ∧ node_metrics n = inl m
    ∧ get_repo_latest (conn s') name = Some o
    ∧ o_n o = name
    ∧ o_s o = m_stars m ∧ o_f o = m_forks m ∧ o_w o = m_watchers m
    ∧ o_d o = m_disk_usage_i m
    ∧ o_a o = get (description n) ∧ o_h o = get (homepageUrl n).
Proof.
  intros Hpass Hu Hup Hn.
  assert (names_unique (repo (conn s'))) as Hu'.
  { pose proof (names_unique_upsert now s nodes Hu) as H. by rewrite Hup in H. }
  assert (store_invariant (conn s')) as Hst.
  { pose proof (pass_invariant_upsert now s nodes Hpass) as H.
    rewrite Hup in H. apply H. }
  apply upsert_outcome_eq in Hup.
  destruct (committed_metrics _ _ _ _ _ Hup Hn) as [m Hm].
  pose proof (node_metrics_id _ _ Hm) as Hid.
  destruct (repo_row_written _ _ _ _ _ _ Hup Hn Hid) as (name & Hname & Hr).
  destruct (committed_snapshot _ _ _ _ _ _ Hup Hn Hm)
    as (rows & old & _ & _ & (rl' & Hl & _ & _ & Hq) & _).
  set (r' := {| r_name_with_owner := name;
                r_description := get (description n);
                r_homepage_url := get (homepageUrl n);
                r_created_at := match repo (conn s) !! m_repo_id m with
                                | Some old => r_created_at old
                                | None => get (createdAt n)
                                end |}) in Hr.
  set (j := {| j_repo_id := m_repo_id m; j_rl := rl'; j_r := r' |}).
  assert (j ∈ latest_join (conn s')) as Hj by (by apply elem_of_latest_join).
  destruct (si_latest_run _ Hst _ _ Hl) as [fa Hfa].
  pose proof (row_number_rank (conn s') j Hu' Hj) as Hrn.
  rewrite (get_global_rank_Some (conn s') j Hu' Hj) in Hrn.
  destruct (select_row true (λ _, None) (conn s') j) as [row|] eqn:Hrow.
  2: { unfold select_row in Hrow. rewrite Hrn in Hrow.
       cbn [fmap option_fmap option_map mbind option_bind] in Hrow.
       change (rl_run_id (j_rl j)) with (rl_run_id rl') in Hrow.
       rewrite Hfa in Hrow. done. }
  assert (row_homepageUrl row = r_homepage_url r') as Hh.
  { unfold select_row in Hrow. rewrite Hrn in Hrow.
    cbn [fmap option_fmap option_map mbind option_bind] in Hrow.
    change (rl_run_id (j_rl j)) with (rl_run_id rl') in Hrow.
    rewrite Hfa in Hrow.
    cbn [fmap option_fmap option_map mbind option_bind] in Hrow.
    by injection Hrow as <-. }
  pose proof Hrow as Hsel.
  apply select_row_fields in Hrow
    as (Hrn' & Hrs & Hrf & Hrw & Hrd & _ & Hra & _).
  exists name, m, (row_to_obj row). split; [done|]. split; [done|].
  split.
  { unfold get_repo_latest.
    pose proof (named_row_unique (conn s') j Hu' Hj) as Hf.
    change (r_name_with_owner (j_r j)) with name in Hf. rewrite Hf.
    cbn [omap list_omap]. by rewrite Hsel. }
  injection Hq as Hs Hfk Hw Hd.
  unfold row_to_obj; cbn [o_n o_s o_f o_w o_d o_a o_h].
  rewrite Hrn', Hrs, Hrf, Hrw, Hrd, Hra, Hh. by repeat split.
Qed.

Lemma ingested_snapshot_read_back_witness :
  ∃ name m o,
    nameWithOwner (tagged 1 "a/x" 10 "Rust" ["cli"]) = Present name
    ∧ node_metrics (tagged 1 "a/x" 10 "Rust" ["cli"]) = inl m
    ∧ get_repo_latest
        (conn (upsert_from_github_nodes 0 (open_db empty_db)
                 [tagged 1 "a/x" 10 "Rust" ["cli"]]).1) name = Some o
    ∧ o_n o = name
    ∧ o_s o = m_stars m ∧ o_f o = m_forks m ∧ o_w o = m_watchers m
    ∧ o_d o = m_disk_usage_i m
    ∧ o_a o = get (description (tagged 1 "a/x" 10 "Rust" ["cli"]))
    ∧ o_h o = get (homepageUrl (tagged 1 "a/x" 10 "Rust" ["cli"])).
Proof.
  apply (ingested_snapshot_read_back 0 (open_db empty_db)
           (upsert_from_github_nodes 0 (open_db empty_db)
              [tagged 1 "a/x" 10 "Rust" ["cli"]]).1
           [tagged 1 "a/x" 10 "Rust" ["cli"]]
           (tagged 1 "a/x" 10 "Rust" ["cli"])).
  - apply pass_invariant_open, store_invariant_empty.
  - apply empty_schema.
  - by vm_compute.
  - vm_compute. apply list_elem_of_here.
Defined.

(* ===================================================================== *)
(** ** When the scheduler calls *)
(* ===================================================================== *)

Lemma run_at_hours_turn_spec hours_list last h :
  run_at_hours_turn hours_list last h
  = (bool_decide (h ∈ hours_list ∧ h ≠ last),
     if bool_decide (h ∈ hours_list) then h else -1).
Proof.
  unfold run_at_hours_turn.
  destruct (decide (h ∈ hours_list)) as [Hin|Hin].
  - rewrite (bool_decide_eq_true_2 _ Hin).
    rewrite (bool_decide_eq_false_2 (h ∉ hours_list)) by tauto.
    destruct (Z.eqb_spec h last) as [->|Hne]; simpl.
    + by rewrite bool_decide_eq_false_2 by tauto.
    + by rewrite bool_decide_eq_true_2 by tauto.
  - rewrite (bool_decide_eq_false_2 _ Hin).
    rewrite (bool_decide_eq_true_2 (h ∉ hours_list)) by done. simpl.
    by rewrite bool_decide_eq_false_2 by tauto.
Qed.

(** The loop entered with the [last_run_hour] that the turn before left. *)
Lemma run_at_hours_loop_spec hours_list clock :
  (∀ h b, (h, b) ∈ clock → 0 ≤ h) →
  ∀ last (before : option Z) i called,
    match before with
    | None => last = -1
    | Some p => 0 ≤ p ∧ last = if bool_decide (p ∈ hours_list) then p else -1
    end →
    run_at_hours_loop hours_list last clock !! i = Some called →
    ∃ h b, clock !! i = Some (h, b)
      ∧ (called = true ↔
         h ∈ hours_list
         ∧ match i with
           | O => match before with None => True | Some p => p ≠ h end
           | S i' => ∃ h' b', clock !! i' = Some (h', b') ∧ h' ≠ h
           end).
Proof.
  induction clock as [|[h b] clock IH]; intros Hpos last before i called
    Hlast; [done|].
  assert (0 ≤ h) as Hh by (apply (Hpos h b), list_elem_of_here).
  assert (h ∈ hours_list →
          h ≠ last ↔ match before with None => True | Some p => p ≠ h end)
    as Hne.
  { intros Hin. destruct before as [p|]; [|lia]. destruct Hlast as [Hp ->].
    case_bool_decide; [split; congruence|]. split; [|lia].
    intros _ ->. done. }
  cbn [run_at_hours_loop]. rewrite run_at_hours_turn_spec.
  assert (∀ c, [bool_decide (h ∈ hours_list ∧ h ≠ last)] !! 0%nat = Some c →
    c = true ↔ h ∈ hours_list
               ∧ match before with None => True | Some p => p ≠ h end)
    as Hfirst.
  { intros c [= <-]. rewrite bool_decide_eq_true.
    split; intros [Hin H]; (split; [done|by apply Hne]). }
  destruct (bool_decide (h ∈ hours_list ∧ h ≠ last) && negb b) eqn:Hstop.
  - apply andb_true_iff in Hstop as [Hc _].
    destruct i as [|i]; [|done]. intros Hi. exists h, b. split; [done|].
    apply Hfirst. by rewrite Hc.
  - destruct i as [|i]; simpl.
    + intros Hi. exists h, b. split; [done|]. by apply Hfirst.
    + intros Hi.
      destruct (IH (λ h' b' Hin, Hpos h' b' (list_elem_of_further _ _ _ Hin))
                  _ (Some h) i called (conj Hh eq_refl) Hi)
        as (h1 & b1 & Hc1 & Hiff).
      exists h1, b1. split; [done|]. rewrite Hiff.
      destruct i as [|i]; simpl; [|done].
      split.
      * intros [? ?]. split; [done|]. by exists h, b.
      * intros [? (h' & b' & [= -> ->] & ?)]. done.
Qed.

(** X24.  [run_at_hours] calls [func] on exactly the turns whose hour is in
    [hours_list] and is not the hour of the turn before: once when a listed
    hour begins (or is the hour the scheduler starts in), and not again
    while the clock stays in that hour.  Every turn it logs is a turn of
    the clock. *)
Theorem run_at_hours_schedule (hours_list : list Z)
    (clock : list (Z * bool)) (i : nat) (called : bool) :
  (∀ h b, (h, b) ∈ clock → 0 ≤ h) →
  run_at_hours hours_list clock !! i = Some called →
  ∃ h b, clock !! i = Some (h, b)
    ∧ (called = true ↔ h ∈ hours_list ∧ hour_changed clock i h).
Proof.
  intros Hpos Hi.
  destruct (run_at_hours_loop_spec hours_list clock Hpos (-1) None i called
              eq_refl Hi) as (h & b & Hc & Hiff).
  exists h, b. split; [done|]. rewrite Hiff. unfold hour_changed.
  by destruct i.
Qed.

Lemma run_at_hours_schedule_witness :
  run_at_hours [0; 6; 12; 18]
    [(5, true); (6, true); (6, true); (7, true); (12, false); (12, true)]
  = [false; true; false; false; true]
  ∧ ∃ h b, [(5, true); (6, true); (6, true); (7, true); (12, false);
            (12, true)] !! 2%nat = Some (h, b)
      ∧ (false = true ↔
         h ∈ [0; 6; 12; 18]
         ∧ hour_changed [(5, true); (6, true); (6, true); (7, true);
                         (12, false); (12, true)] 2 h).
Proof.
  split; [by vm_compute|].
  apply (run_at_hours_schedule [0; 6; 12; 18]
           [(5, true); (6, true); (6, true); (7, true); (12, false);
            (12, true)] 2 false).
  - intros h b Hin.
    repeat (apply elem_of_cons in Hin as [[= -> ->]|Hin]; [lia|]).
    by apply elem_of_nil in Hin.
  - by vm_compute.
Defined.

(* ===================================================================== *)
(** ** Every [repo_latest] row has its repo *)
(* ===================================================================== *)

Lemma latest_has_repo_outcome now s nodes s' raised :
  outcome now s nodes s' raised →
  keeps_repos (conn s) (conn s') →
  latest_has_repo (conn s) → latest_has_repo (conn s').
Proof.
  intros Ho Hkeep Hfk k rl Hl.
  assert (∀ o, repo_latest (conn s) !! k = Some o →
               is_Some (repo (conn s') !! k)) as Hold.
  { intros o Ho'. destruct (Hfk _ _ Ho') as [r Hr].
    destruct (Hkeep _ _ Hr) as (r' & Hr' & _). by exists r'. }
  destruct (decide (raised ≠ None ∨ fresh_of s nodes = [])) as [Hun|Hcom].
  { destruct (uncommitted _ _ _ _ _ Ho Hun) as [_ Hsub].
    eapply Hold. by apply Hsub. }
  assert (raised = None) as ->.
  { destruct raised; [|done]. destruct Hcom. by left. }
  destruct (decide (k ∈ node_ids (fresh_of s nodes))) as [Hk|Hk].
  - destruct (committed_id _ _ _ _ _ Ho Hk) as (n & m & Hn & Hm & <-).
    destruct (repo_row_written _ _ _ _ _ _ Ho Hn (node_metrics_id _ _ Hm))
      as (name & _ & Hr).
    by rewrite Hr.
  - destruct (committed_other _ _ _ _ _ Ho Hk) as (rows & _ & Hl' & _).
    rewrite Hl' in Hl. apply existing_row_Some in Hl. by eapply Hold.
Qed.

Lemma latest_join_all d :
  latest_has_repo d →
  length (latest_join d) = length (map_to_list (repo_latest d)).
Proof.
  intros Hfk. unfold latest_join. apply omap_length_total.
  apply Forall_forall. intros [k rl] Hin%elem_of_map_to_list.
  destruct (Hfk _ _ Hin) as [r Hr]. simpl. rewrite Hr. by eexists.
Qed.

(** X25.  No [repo_latest] row is left without its [repo] row: this holds
    of the empty database and every call of [upsert_from_github_nodes],
    whatever its outcome, keeps it.  So the joins of the query layer lose
    no row, and the total that [deploy_site] writes into the page, the
    number of [repo_latest] rows, is the [total] that the unfiltered
    leaderboard reports. *)
Theorem latest_rows_have_repos :
  latest_has_repo empty_db
  ∧ (∀ (now : Z) (s : RepoDB) (nodes : list Node),
       latest_has_repo (conn s) →
       latest_has_repo (conn (upsert_from_github_nodes now s nodes).1))
  ∧ ∀ d : DB, latest_has_repo d →
      deploy_total_repos d = count_leaderboard d no_filters.
Proof.
  split; [|split].
  - intros k rl. simpl. by rewrite lookup_empty.
  - intros now s nodes Hfk.
    eapply latest_has_repo_outcome; [apply upsert_outcome| |done].
    apply upsert_keeps_repos.
  - intros d Hfk. unfold deploy_total_repos, count_leaderboard.
    rewrite (filter_all _ (latest_join d))
      by (apply Forall_forall; intros x _; apply where_clause_no_filters).
    by rewrite latest_join_all.
Qed.

Lemma latest_rows_have_repos_witness :
  deploy_total_repos (crawl 0 empty_db [snapshot 1 "a/x" 10])
  = count_leaderboard (crawl 0 empty_db [snapshot 1 "a/x" 10]) no_filters.
Proof.
  destruct latest_rows_have_repos as (H0 & Hstep & Htotal).
  apply (Htotal (crawl 0 empty_db [snapshot 1 "a/x" 10])).
  exact (Hstep 0 (open_db empty_db) [snapshot 1 "a/x" 10] H0).
Defined.

(* ===================================================================== *)
(** ** The language and topics of an ingested snapshot *)
(* ===================================================================== *)

#[local] Instance names_kept_preorder : PreOrder names_kept.
Proof.
  split.
  - by intros d.
  - intros d1 d2 d3 [Hl1 Ht1] [Hl2 Ht2]. split; eauto.
Qed.

Lemma language_call_kept name s :
  caches_coherent s →
  names_kept (conn s) (conn (_get_or_create_language_id name s).1).
Proof.
  intros [Hl Ht]. split.
  - intros k v. by apply language_rows_kept.
  - intros k v. by rewrite (proj1 (language_call_topic name s)).
Qed.

Lemma topic_call_kept name s :
  caches_coherent s →
  names_kept (conn s) (conn (_get_or_create_topic_id name s).1).
Proof.
  intros [Hl Ht]. split.
  - intros k v. by rewrite (proj1 (topic_call_language name s)).
  - intros k v. by apply topic_rows_kept.
Qed.

Lemma language_call_stored name s :
  caches_coherent s →
  language_stored (conn (_get_or_create_language_id name s).1) name
    (_get_or_create_language_id name s).2.
Proof.
  intros [Hl _]. unfold language_stored, truthy.
  destruct name as [nm|]; [|done].
  case_bool_decide as Hnm.
  - subst nm. done.
  - destruct (language_id s Hl nm Hnm) as (id & Hid & Hrow & _).
    by exists id.
Qed.

Lemma language_stored_kept d d' name pl_id :
  names_kept d d' → language_stored d name pl_id →
  language_stored d' name pl_id.
Proof.
  intros [Hl _]. unfold language_stored.
  destruct (truthy name) as [nm|]; [|done].
  intros (id & ? & ?). exists id. split; [done|]. by apply Hl.
Qed.

Lemma language_stored_of d name rl :
  language_stored d name (rl_primary_language_id rl) →
  language_of d rl = truthy name.
Proof.
  unfold language_stored, language_of.
  destruct (truthy name) as [nm|].
  - intros (id & -> & Hrow). done.
  - by intros ->.
Qed.

(** The pairs the loop gathers for a repo are its topic names, interned. *)
Lemma intern_topics_pairs repo_id topics s :
  caches_coherent s →
  names_kept (conn s) (conn (intern_topics repo_id topics s).1)
  ∧ (∀ t, t ∈ topics →
          ∃ tid, topic (conn (intern_topics repo_id topics s).1) !! tid
                 = Some t)
  ∧ ∀ rt, rt ∈ (intern_topics repo_id topics s).2 ↔
      rt.1 = repo_id
      ∧ ∃ t, t ∈ topics
          ∧ topic (conn (intern_topics repo_id topics s).1) !! rt.2 = Some t.
Proof.
  revert s. induction topics as [|t topics IH]; intros s Hco; simpl.
  - split; [done|]. split; [by intros t ?%elem_of_nil|].
    intros rt. split; [by intros ?%elem_of_nil|].
    by intros [_ (t & ?%elem_of_nil & _)].
  - pose proof (topic_call_kept t s Hco) as Hk1.
    pose proof (topic_call_coherent t s Hco) as Hco1.
    destruct Hco as [_ Hint].
    pose proof (topic_id s Hint t) as [Hrow _].
    destruct (_get_or_create_topic_id t s) as [s1 tid]. simpl in *.
    pose proof (intern_topics_coherent repo_id topics s1 Hco1) as Hco2.
    destruct (IH s1 Hco1) as (Hk2 & Hall & Hpairs).
    destruct (intern_topics repo_id topics s1) as [s2 pairs]. simpl in *.
    assert (topic (conn s2) !! tid = Some t) as Hrow2 by (by apply Hk2).
    split; [by trans (conn s1)|]. split.
    + intros t' [->|Hin]%elem_of_cons; [by exists tid|by apply Hall].
    + intros [k tid']. simpl. rewrite elem_of_cons, Hpairs. simpl. split.
      * intros [[= -> ->]|(-> & t' & Hin & Ht')].
        -- split; [done|]. exists t. split; [apply list_elem_of_here|done].
        -- split; [done|]. exists t'. split; [|done].
           by apply list_elem_of_further.
      * intros (-> & t' & [->|Hin]%elem_of_cons & Ht').
        -- left. f_equal. destruct Hco2 as [_ [Hu _]].
           by apply (unique_name_id _ _ _ _ Hu Ht' Hrow2).
        -- right. split; [done|]. by exists t'.
Qed.

Lemma plan_node_kept run_id existing n s pl :
  caches_coherent s →
  names_kept (conn s) (conn (plan_node run_id existing n s pl).1).
Proof.
  intros Hco. unfold plan_node. destruct (node_metrics n) as [m|]; [|done].
  pose proof (language_call_kept (primary_language_name (primaryLanguage n))
                s Hco) as Hk1.
  pose proof (language_call_coherent
                (primary_language_name (primaryLanguage n)) s Hco) as Hco1.
  destruct (_get_or_create_language_id _ s) as [s1 pl_id]. simpl in *.
  destruct (history_step _ _ m) as [[hs ins] ext].
  pose proof (intern_topics_pairs (m_repo_id m)
                (topic_names (repositoryTopics n)) s1 Hco1) as (Hk2 & _).
  destruct (intern_topics _ _ s1) as [s2 pairs]. simpl in *.
  by trans (conn s1).
Qed.

Lemma plan_rows_kept run_id existing fresh s pl :
  caches_coherent s →
  names_kept (conn s) (conn (plan_rows run_id existing fresh s pl).1).
Proof.
  revert s pl. induction fresh as [|n fresh IH]; intros s pl Hco; simpl;
    [done|].
  pose proof (plan_node_kept run_id existing n s pl Hco) as Hk1.
  pose proof (plan_node_coherent run_id existing n s pl Hco) as Hco1.
  destruct (plan_node run_id existing n s pl) as [s1 [pl1|e]]; simpl in *;
    [|done].
  trans (conn s1); [done|]. by apply IH.
Qed.

(** What the loop plans for one snapshot. *)
Lemma plan_node_result run_id existing n s pl s' pl' :
  caches_coherent s →
  plan_node run_id existing n s pl = (s', inl pl') →
  ∃ m row pairs,
    node_metrics n = inl m
    ∧ latest_rows pl' = latest_rows pl ++ [(m_repo_id m, row)]
    ∧ rl_updated_at row = m_updated_at m
    ∧ rl_pushed_at row = m_pushed_at m
    ∧ rl_is_archived row = m_is_archived m
    ∧ language_stored (conn s') (primary_language_name (primaryLanguage n))
        (rl_primary_language_id row)
    ∧ topic_pairs_to_insert pl' = topic_pairs_to_insert pl ++ pairs
    ∧ (∀ t, t ∈ topic_names (repositoryTopics n) →
            ∃ tid, topic (conn s') !! tid = Some t)
    ∧ ∀ rt, rt ∈ pairs ↔
        rt.1 = m_repo_id m
        ∧ ∃ t, t ∈ topic_names (repositoryTopics n)
            ∧ topic (conn s') !! rt.2 = Some t.
Proof.
  intros Hco. unfold plan_node. destruct (node_metrics n) as [m|]; [|done].
  pose proof (language_call_stored
                (primary_language_name (primaryLanguage n)) s Hco) as Hst.
  pose proof (language_call_coherent
                (primary_language_name (primaryLanguage n)) s Hco) as Hco1.
  destruct (_get_or_create_language_id _ s) as [s1 pl_id]. simpl in *.
  destruct (history_step _ _ m) as [[hs ins] ext].
  pose proof (intern_topics_pairs (m_repo_id m)
                (topic_names (repositoryTopics n)) s1 Hco1)
    as (Hk2 & Hall & Hpairs).
  destruct (intern_topics _ _ s1) as [s2 pairs]. simpl in *.
  intros [= <- <-]. eexists m, _, pairs. simpl.
  repeat (split; [done|]). split; [by eapply language_stored_kept|].
  split; [done|]. split; [done|]. done.
Qed.

(** What the loop has planned when it ends, for every snapshot it read. *)
Lemma plan_rows_result run_id existing fresh s pl0 s' pl :
  caches_coherent s →
  plan_rows run_id existing fresh s pl0 = (s', inl pl) →
  (∀ kr, kr ∈ latest_rows pl0 → kr ∈ latest_rows pl)
  ∧ (∀ n, n ∈ fresh →
       ∃ m row,
         node_metrics n = inl m
         ∧ (m_repo_id m, row) ∈ latest_rows pl
         ∧ rl_updated_at row = m_updated_at m
         ∧ rl_pushed_at row = m_pushed_at m
         ∧ rl_is_archived row = m_is_archived m
         ∧ language_stored (conn s')
             (primary_language_name (primaryLanguage n))
             (rl_primary_language_id row)
         ∧ ∀ t, t ∈ topic_names (repositoryTopics n) →
                ∃ tid, topic (conn s') !! tid = Some t)
  ∧ ∀ rt, rt ∈ topic_pairs_to_insert pl ↔
      rt ∈ topic_pairs_to_insert pl0
      ∨ ∃ n m t, n ∈ fresh ∧ node_metrics n = inl m ∧ rt.1 = m_repo_id m
          ∧ t ∈ topic_names (repositoryTopics n)
          ∧ topic (conn s') !! rt.2 = Some t.
Proof.
  revert s pl0. induction fresh as [|n fresh IH]; intros s pl0 Hco; simpl.
  - intros [= <- <-]. split; [done|]. split; [by intros n ?%elem_of_nil|].
    intros rt. split; [by left|].
    by intros [?|(n & ? & ? & ?%elem_of_nil & _)].
  - pose proof (plan_node_coherent run_id existing n s pl0 Hco) as Hco1.
    destruct (plan_node run_id existing n s pl0) as [s1 [pl1|e]] eqn:Hn;
      [|done].
    simpl in Hco1. intros Hp.
    pose proof (plan_rows_kept run_id existing fresh s1 pl1 Hco1) as Hk.
    pose proof (plan_rows_coherent run_id existing fresh s1 pl1 Hco1) as Hco'.
    rewrite Hp in Hk, Hco'. simpl in Hk, Hco'.
    destruct (IH s1 pl1 Hco1 Hp) as (Hsub & Hnodes & Hpairs).
    destruct (plan_node_result _ _ _ _ _ _ _ Hco Hn)
      as (m & row & pairs & Hm & Hl & Hu & Hpu & Ha & Hlang & Hpl1 & Hall
          & Hpn).
    split; [|split].
    + intros kr Hkr. apply Hsub. rewrite Hl. apply elem_of_app. by left.
    + intros n' [->|Hin]%elem_of_cons; [|by apply Hnodes].
      exists m, row. split; [done|]. split.
      { apply Hsub. rewrite Hl. apply elem_of_app. right.
        apply list_elem_of_here. }
      repeat (split; [done|]). split; [by eapply language_stored_kept|].
      intros t Ht. destruct (Hall t Ht) as [tid Htid].
      exists tid. by apply Hk.
    + intros rt. rewrite Hpairs, Hpl1, elem_of_app, Hpn. split.
      * intros [[?|(Hid & t & Ht & Hrow)]|(n' & m' & t & Hin & ? & ? & ? & ?)].
        -- by left.
        -- right. exists n, m, t. split; [apply list_elem_of_here|].
           repeat (split; [done|]). by apply Hk.
        -- right. exists n', m', t. split; [by apply list_elem_of_further|].
           done.
      * intros [?|(n' & m' & t & [->|Hin]%elem_of_cons & Hm' & Hid & Ht
                   & Hrow)].
        -- by left; left.
        -- left; right. rewrite Hm in Hm'. injection Hm' as <-.
           split; [done|]. exists t. split; [done|].
           destruct (Hall t Ht) as [tid Htid].
           destruct Hco' as [_ [Hu' _]].
           pose proof (proj2 Hk _ _ Htid) as Htid'.
           by rewrite (unique_name_id _ _ _ _ Hu' Hrow Htid').
        -- right. by exists n', m', t.
Qed.

Lemma NoDup_omap_eq {A B} (f : A → option B) (l : list A) x y z :
  NoDup (omap f l) → x ∈ l → y ∈ l → f x = Some z → f y = Some z → x = y.
Proof.
  induction l as [|a l IH]; [by intros _ ?%elem_of_nil|].
  simpl. intros Hnd [->|Hx]%elem_of_cons [->|Hy]%elem_of_cons Hfx Hfy.
  - done.
  - rewrite Hfx in Hnd. apply NoDup_cons in Hnd as [Hz _].
    destruct Hz. apply list_elem_of_omap. by exists y.
  - rewrite Hfy in Hnd. apply NoDup_cons in Hnd as [Hz _].
    destruct Hz. apply list_elem_of_omap. by exists x.
  - apply IH; try done. destruct (f a); [|done].
    by apply NoDup_cons in Hnd as [_ ?].
Qed.

Lemma elem_of_topic_names_of d repo_id t :
  t ∈ topic_names_of d repo_id ↔
  ∃ tid, (repo_id, tid) ∈ repo_topic_latest d ∧ topic d !! tid = Some t.
Proof.
  unfold topic_names_of. rewrite list_elem_of_omap. split.
  - intros ([k tid] & Hin%elem_of_elements & Hrow). simpl in Hrow.
    case_bool_decide; [|done]. subst k. by exists tid.
  - intros (tid & Hin & Hrow). exists (repo_id, tid). split.
    + by apply elem_of_elements.
    + simpl. by rewrite bool_decide_eq_true_2.
Qed.

Lemma topic_names_of_NoDup d repo_id :
  NoDup (map_to_list (topic d)).*2 → NoDup (topic_names_of d repo_id).
Proof.
  intros Hu. unfold topic_names_of.
  apply NoDup_omap; [|apply NoDup_elements].
  intros [k1 t1] [k2 t2] z. simpl.
  case_bool_decide; [|done]. case_bool_decide; [|done]. subst.
  intros H1 H2. f_equal. by apply (unique_name_id _ _ _ _ Hu H1 H2).
Qed.

(** X26.  After a call that returns, on an engine whose caches agree with
    the tables, every snapshot it ingested has its language and topics
    stored as it gave them: the [repo_latest] row of the repo names the
    snapshot's language (none for a missing or empty name) and carries its
    [updatedAt], [pushedAt] and [isArchived], and the topics linked to the
    repo are exactly the snapshot's non-empty topic names, each listed
    once, whatever topics the repo had before. *)
Theorem ingested_tags_stored (now : Z) (s s' : RepoDB) (nodes : list Node)
    (n : Node) (id : Z) :
  caches_coherent s →
  upsert_from_github_nodes now s nodes = (s', None) →
  n ∈ fresh_of s nodes → databaseId n = Present id →
  (∃ m rl, node_metrics n = inl m
     ∧ repo_latest (conn s') !! id = Some rl
     ∧ language_of (conn s') rl
       = truthy (primary_language_name (primaryLanguage n))
     ∧ rl_updated_at rl = m_updated_at m
     ∧ rl_pushed_at rl = m_pushed_at m
     ∧ rl_is_archived rl = m_is_archived m)
  ∧ (∀ t, t ∈ topic_names_of (conn s') id ↔
          t ∈ topic_names (repositoryTopics n))
  ∧ NoDup (topic_names_of (conn s') id).
Proof.
  intros Hco Hup Hn Hid. apply upsert_outcome_eq in Hup.
  inversion Hup as [Hnil| | | | |rows d3 s4 pl d5 Hne Hb H1 Hp Hw]; subst.
  { rewrite Hnil in Hn. by apply elem_of_nil in Hn. }
  destruct (fresh_of_spec s nodes) as (_ & Hnd & _).
  apply resolve_and_upsert_inl in H1
    as (Hlang3 & Htopic3 & _ & _ & _ & _ & _ & _ & _ & _).
  assert (caches_coherent (set_conn d3 (entered now s nodes))) as Hco3.
  { eapply caches_coherent_tables; [..|by apply entered_coherent]; done. }
  pose proof (plan_rows_coherent (run_of now s)
                (_fetch_latest_metrics d3 (p_id <$> rows)) (fresh_of s nodes)
                (set_conn d3 (entered now s nodes)) empty_plan Hco3) as Hco4.
  rewrite Hp in Hco4. simpl in Hco4.
  destruct (plan_rows_result _ _ _ _ _ _ _ Hco3 Hp) as (_ & Hnodes & Hpairs).
  apply plan_rows_inl in Hp as (ms & Hms & Hpl).
  pose proof (node_metrics_ids _ _ Hms) as Hmids.
  pose proof (planned_extend_run _ _ _ _ Hpl) as Hext.
  destruct (planned_keys _ _ _ _ Hpl) as (Hkeys & _ & _ & Href & _).
  destruct (write_plan_inl _ _ _ _ Hext Hw)
    as (_ & Hlang5 & Htopic5 & _ & _ & Hlatest & _ & _ & Htl).
  destruct (Hnodes n Hn) as (m & row & Hm & Hrow & Hu & Hpu & Ha & Hlang & _).
  pose proof (node_metrics_id _ _ Hm) as Hid'. rewrite Hid in Hid'.
  injection Hid' as ->.
  assert (m_repo_id m ∈ m_repo_id <$> ms) as Hin.
  { rewrite Hmids. apply list_elem_of_omap. exists n. by rewrite Hid. }
  simpl. split; [|split].
  - exists m, row. split; [done|]. split.
    { apply (Hlatest ltac:(by rewrite Hkeys, Hmids) _ Hrow). }
    split; [|done]. apply language_stored_of. unfold language_stored in *.
    by rewrite Hlang5.
  - intros t. rewrite elem_of_topic_names_of. split.
    + intros (tid & Hrt & Ht). apply Htl in Hrt as [Hrt|[_ Hno]].
      2: { destruct Hno. simpl. by rewrite Href. }
      apply Hpairs in Hrt as [?%elem_of_nil|
        (n' & m' & t' & Hn' & Hm' & Hid' & Ht' & Hrow')]; [done|].
      simpl in Hid', Hrow'.
      assert (n' = n) as ->.
      { eapply (NoDup_omap_eq (λ n, get (databaseId n))); [exact Hnd|done..| |].
        - rewrite (node_metrics_id _ _ Hm'). simpl. by rewrite <-Hid'.
        - by rewrite Hid. }
      rewrite Htopic5, Hrow' in Ht. by injection Ht as <-.
    + intros Ht. destruct (Hnodes n Hn) as (m' & _ & Hm' & _ & _ & _ & _ & _
                                           & Hall).
      destruct (Hall t Ht) as [tid Htid].
      exists tid. split; [|by rewrite Htopic5].
      apply Htl. left. apply Hpairs. right. exists n, m, t. done.
  - apply topic_names_of_NoDup. rewrite Htopic5. by destruct Hco4 as [_ [? _]].
Qed.

Lemma caches_coherent_fresh : caches_coherent (open_db empty_db).
Proof.
  split; (split; [simpl; rewrite map_to_list_empty; apply NoDup_nil_2|]);
    intros name id; simpl; by rewrite lookup_empty.
Qed.

Lemma ingested_tags_stored_witness :
  (∃ m rl,
     node_metrics (tagged 1 "a/x" 10 "Rust" ["cli"; "tui"; "cli"]) = inl m
     ∧ repo_latest
         (conn (upsert_from_github_nodes 0 (open_db empty_db)
                  [tagged 1 "a/x" 10 "Rust" ["cli"; "tui"; "cli"]]).1) !! 1
       = Some rl
     ∧ language_of
         (conn (upsert_from_github_nodes 0 (open_db empty_db)
                  [tagged 1 "a/x" 10 "Rust" ["cli"; "tui"; "cli"]]).1) rl
       = truthy (primary_language_name
                   (primaryLanguage
                      (tagged 1 "a/x" 10 "Rust" ["cli"; "tui"; "cli"])))
     ∧ rl_updated_at rl = m_updated_at m
     ∧ rl_pushed_at rl = m_pushed_at m
     ∧ rl_is_archived rl = m_is_archived m)
  ∧ (∀ t, t ∈ topic_names_of
              (conn (upsert_from_github_nodes 0 (open_db empty_db)
                       [tagged 1 "a/x" 10 "Rust" ["cli"; "tui"; "cli"]]).1) 1
          ↔ t ∈ topic_names
                  (repositoryTopics
                     (tagged 1 "a/x" 10 "Rust" ["cli"; "tui"; "cli"])))
  ∧ NoDup (topic_names_of
             (conn (upsert_from_github_nodes 0 (open_db empty_db)
                      [tagged 1 "a/x" 10 "Rust" ["cli"; "tui"; "cli"]]).1) 1).
Proof.
  apply (ingested_tags_stored 0 (open_db empty_db)
           (upsert_from_github_nodes 0 (open_db empty_db)
              [tagged 1 "a/x" 10 "Rust" ["cli"; "tui"; "cli"]]).1
           [tagged 1 "a/x" 10 "Rust" ["cli"; "tui"; "cli"]]
           (tagged 1 "a/x" 10 "Rust" ["cli"; "tui"; "cli"]) 1).
  - apply caches_coherent_fresh.
  - by vm_compute.
  - vm_compute. apply list_elem_of_here.
  - reflexivity.
Defined.
